(** * Past2Polygon segmentation: region growing and adaptive classification

    A shallow embedding of [src/segmentation/main.cpp]: the colour metric,
    the stack-driven flood fill [floodFillIterative], the raster scan of
    [processImage] that extracts components, its probability aggregation
    and percentile classifier, the scan of the batch routine
    [processImages] with its overlay and its file paths, and
    [escapeJsonString].

    Modelling conventions.
    - [int] values are integers of [Z]; the image dimensions are those of a
      decoded image, so [width * height] and everything bounded by it fit
      the machine type and no wrap-around occurs on them.  The [size_t]
      subtractions that can wrap ([size() - 1] on an empty vector,
      [size() - 4] on a short file path) are written with their modulus.
    - [std::string] is a list of characters.
    - [std::vector<T>] is a [list T] read and written by index; the source
      indexes with [y * width + x].
    - A finite [float] or [double] is the rational it denotes ([Q]).  The
      arithmetic of the program on [float] (the sums and quotients of the
      probability aggregation, the conversions to [float]) is that of
      binary32 with rounding to nearest, ties to even (module [F32]); the
      square root of the Euclidean metric is the correctly rounded
      binary64 one.
    - A reference parameter that is bound to an element of a vector is a
      [ColorRef]: it is read through the vector at the time of the read.
    - The global scratch variables ([currentComponentXmin] and the four
      others) are fields of the state that is threaded through the calls. *)

From Stdlib Require Import ZArith QArith Qround Qabs Qpower Lia Lqa Bool List.
From Stdlib.Strings Require Import Byte Ascii.
From Stdlib Require Import Sorting.Sorted Sorting.Permutation.
From stdpp Require Import base list list_numbers.

Open Scope Z_scope.

(** ** Vectors indexed by [int] *)

Module Vec.

(** [v[i]]; the source never reads out of range on the paths modelled,
    [d] is what the model returns there. *)
Definition get {A} (d : A) (v : list A) (i : Z) : A :=
  default d (v !! Z.to_nat i).

(** [v[i] = x]. *)
Definition set {A} (v : list A) (i : Z) (x : A) : list A :=
  <[Z.to_nat i := x]> v.

Fixpoint count_true (v : list bool) : nat :=
  match v with
  | [] => 0%nat
  | b :: v' => ((if b then 1 else 0) + count_true v')%nat
  end.

Fixpoint count_false (v : list bool) : nat :=
  match v with
  | [] => 0%nat
  | b :: v' => ((if b then 0 else 1) + count_false v')%nat
  end.

End Vec.

(** ** Colours and configuration *)

Record Color := mkColor { r : Z; g : Z; b : Z }.

Record Config := mkConfig {
  k : Q;
  use8Way : bool;
  euclidif : bool;
  adj : bool;
  minComponentSize : Z;
  buildingBlockTreshold : Q
}.

Definition white : Color := mkColor 255 255 255.
Definition black : Color := mkColor 0 0 0.

(** The Manhattan branch of [colorDifference]: an [int], exact. *)
Definition manhattan (c1 c2 : Color) : Z :=
  Z.abs (r c1 - r c2) + Z.abs (g c1 - g c2) + Z.abs (b c1 - b c2).

(** The radicand of the Euclidean branch of [colorDifference]: the three
    [std::pow (_, 2)] and their sum are exact in [double]. *)
Definition squaredDistance (c1 c2 : Color) : Z :=
  (r c1 - r c2) ^ 2 + (g c1 - g c2) ^ 2 + (b c1 - b c2) ^ 2.

(** [std::sqrt] on the [double] [s]: the [double] nearest to the square
    root.  With [2 ^ p] the power of two at or below the root, the
    significand is the root of [s * 4 ^ (52 - p)] rounded to the nearest
    integer; an integer root is never halfway between two integers.  (A
    radicand of [4 ^ 53] or more, which three channels cannot give, is
    rounded to the nearest integer.) *)
Definition sqrt_double (s : Z) : Q :=
  if s <=? 0 then 0%Q
  else
    let p := Z.log2 s / 2 in
    let d := Z.max 0 (52 - p) in
    let t := s * 4 ^ d in
    let root := Z.sqrt t in
    let significand := if t - root * root <=? root then root else root + 1 in
    significand # Z.to_pos (2 ^ d).

(** [colorDifference]: the [double] it returns, as the rational it is. *)
Definition colorDifference (c1 c2 : Color) (euclidif : bool) : Q :=
  if euclidif then sqrt_double (squaredDistance c1 c2)
  else inject_Z (manhattan c1 c2).

(** The test [colorDifference(c1, c2, euclidif) <= k] of the flood fill. *)
Definition colorDifference_le (c1 c2 : Color) (euclidif : bool) (k : Q) : bool :=
  Qle_bool (colorDifference c1 c2 euclidif) k.

(** [const Color& startColor]: the parameter of [floodFillIterative] is a
    reference.  Both callers bind it to an element of the image vector,
    [image[y * width + x]], which the flood fill itself overwrites; a
    reference to a colour stored elsewhere is [Detached]. *)
Inductive ColorRef :=
| InImage (index : Z)
| Detached (c : Color).

(** Reading through the reference, in the image as it is at that moment. *)
Definition deref (image : list Color) (startColor : ColorRef) : Color :=
  match startColor with
  | InImage index => Vec.get black image index
  | Detached c => c
  end.

(** ** The flood fill *)

(** Everything [floodFillIterative] reads and writes: the three vectors it
    receives by reference, its local stack (top of the stack first) and the
    five globals. *)
Record FillState := mkFillState {
  image : list Color;
  visited : list bool;
  bigMask : list bool;
  stack : list (Z * Z * Color);
  currentComponentXmin : Z;
  currentComponentXmax : Z;
  currentComponentYmin : Z;
  currentComponentYmax : Z;
  currentComponentSize : Z
}.

Section FloodFill.

Variables (width height : Z).
Variables (startColor : ColorRef) (k : Q) (use8Way adj euclidif : bool).
Variable (newColor : Color).

Definition in_bounds (x y : Z) : bool :=
  negb ((x <? 0) || (x >=? width) || (y <? 0) || (y >=? height)).

(** The entries pushed for an included pixel, in the order in which they
    end up on the stack (the last one pushed is on top). *)
Definition pushes (x y : Z) (currentColor : Color) : list (Z * Z * Color) :=
  (if use8Way
   then [ (x - 1, y - 1, currentColor); (x - 1, y + 1, currentColor);
          (x + 1, y - 1, currentColor); (x + 1, y + 1, currentColor) ]
   else []) ++
  [ (x, y - 1, currentColor); (x, y + 1, currentColor);
    (x - 1, y, currentColor); (x + 1, y, currentColor) ].

(** One iteration of the [while (!stack.empty())] loop; [None] when the
    loop condition fails. *)
Definition fill_step (st : FillState) : option FillState :=
  match stack st with
  | [] => None
  | (x, y, neighborColor) :: rest =>
      if negb (in_bounds x y) || Vec.get false (visited st) (y * width + x)
      then Some (mkFillState (image st) (visited st) (bigMask st) rest
                   (currentComponentXmin st) (currentComponentXmax st)
                   (currentComponentYmin st) (currentComponentYmax st)
                   (currentComponentSize st))
      else
        let xmin := Z.min (currentComponentXmin st) x in
        let xmax := Z.max (currentComponentXmax st) x in
        let ymin := Z.min (currentComponentYmin st) y in
        let ymax := Z.max (currentComponentYmax st) y in
        let size := currentComponentSize st + 1 in
        let visited' := Vec.set (visited st) (y * width + x) true in
        let bigMask' := Vec.set (bigMask st) (y * width + x) true in
        let currentColor := Vec.get black (image st) (y * width + x) in
        let compareColor :=
          if adj then neighborColor else deref (image st) startColor in
        if colorDifference_le currentColor compareColor euclidif k
        then Some (mkFillState (Vec.set (image st) (y * width + x) newColor)
                     visited' bigMask' (pushes x y currentColor ++ rest)
                     xmin xmax ymin ymax size)
        else Some (mkFillState (image st) visited' bigMask' rest
                     xmin xmax ymin ymax size)
  end.

(** The loop, run for at most [fuel] iterations. *)
Fixpoint fill_loop (fuel : nat) (st : FillState) : FillState :=
  match fuel with
  | O => st
  | S fuel' =>
      match fill_step st with
      | None => st
      | Some st' => fill_loop fuel' st'
      end
  end.

(** A bound on the number of iterations left: every iteration pops one
    entry, and only an iteration that marks a fresh pixel pushes (at most
    eight) entries. *)
Definition fill_measure (st : FillState) : nat :=
  (9 * Vec.count_false (visited st) + length (stack st))%nat.

(** [floodFillIterative]: the stack starts with the seed, the loop runs
    until the stack is empty ([fill_measure] iterations are enough, see
    [fill_loop_empties]). *)
Definition floodFillIterative (startX startY : Z) (st : FillState) : FillState :=
  let st0 := mkFillState (image st) (visited st) (bigMask st)
               [ (startX, startY, deref (image st) startColor) ]
               (currentComponentXmin st) (currentComponentXmax st)
               (currentComponentYmin st) (currentComponentYmax st)
               (currentComponentSize st) in
  fill_loop (fill_measure st0) st0.

End FloodFill.

(** ** Single-precision arithmetic *)

Module F32.

(** A [float]: a binary32 number as the rational it is, an infinity, or a
    NaN.  The two zeros are one value: the operations below give the same
    values and the same comparisons for either, and the only divisor of
    the program is a converted count, whose zero is [+0]. *)
Inductive t :=
| Finite (q : Q)
| PlusInfinity
| MinusInfinity
| NaN.

Definition pow2 (e : Z) : Q :=
  if 0 <=? e then inject_Z (2 ^ e) else 1 # Z.to_pos (2 ^ (- e)).

(** [floor (log2 |q|)] for [q] other than [0]. *)
Definition exponent (q : Q) : Z :=
  let n := Z.abs (Qnum q) in
  let d := Z.pos (Qden q) in
  let e := Z.log2 n - Z.log2 d in
  if d * 2 ^ Z.max 0 e <=? n * 2 ^ Z.max 0 (- e) then e else e - 1.

(** The nearest integer, the even one of two that are equally near. *)
Definition nearest_even (q : Q) : Z :=
  let f := Qfloor q in
  match (q - inject_Z f ?= 1 # 2)%Q with
  | Lt => f
  | Gt => f + 1
  | Eq => if Z.even f then f else f + 1
  end.

(** Rounding to nearest, ties to even, into binary32: 24 significant
    bits, exponents from [-126] (below which the spacing stays
    [2 ^ -149]) to [127] (above which the result is an infinity). *)
Definition round (q : Q) : t :=
  if Qeq_bool q 0 then Finite 0
  else
    let e := Z.max (exponent q) (-126) - 23 in
    let v := (inject_Z (nearest_even (q * pow2 (- e))) * pow2 e)%Q in
    if Qle_bool (pow2 128) v then PlusInfinity
    else if Qle_bool v (- pow2 128) then MinusInfinity
    else Finite (Qred v).

(** [a + b] on [float]. *)
Definition add (a b : t) : t :=
  match a, b with
  | NaN, _ | _, NaN => NaN
  | PlusInfinity, MinusInfinity | MinusInfinity, PlusInfinity => NaN
  | PlusInfinity, _ | _, PlusInfinity => PlusInfinity
  | MinusInfinity, _ | _, MinusInfinity => MinusInfinity
  | Finite x, Finite y => round (x + y)
  end.

(** The conversion of an [int] to [float]. *)
Definition of_int (n : Z) : t := round (inject_Z n).

(** The conversion of a [double] to [float]. *)
Definition of_double (q : Q) : t := round q.

Definition opp (a : t) : t :=
  match a with
  | Finite x => Finite (Qred (- x))
  | PlusInfinity => MinusInfinity
  | MinusInfinity => PlusInfinity
  | NaN => NaN
  end.

(** [a / b] on [float], for a divisor that is not negative. *)
Definition div (a b : t) : t :=
  match a, b with
  | NaN, _ | _, NaN => NaN
  | (PlusInfinity | MinusInfinity), (PlusInfinity | MinusInfinity) => NaN
  | Finite _, (PlusInfinity | MinusInfinity) => Finite 0
  | Finite x, Finite y =>
      if Qeq_bool y 0
      then if Qeq_bool x 0 then NaN
           else if Qle_bool 0 x then PlusInfinity else MinusInfinity
      else round (x / y)
  | PlusInfinity, Finite y => if Qle_bool 0 y then PlusInfinity else MinusInfinity
  | MinusInfinity, Finite y => if Qle_bool 0 y then MinusInfinity else PlusInfinity
  end.

(** [a <= b] on [float]: false when either is a NaN. *)
Definition leb (a b : t) : bool :=
  match a, b with
  | NaN, _ | _, NaN => false
  | MinusInfinity, _ | _, PlusInfinity => true
  | _, MinusInfinity | PlusInfinity, _ => false
  | Finite x, Finite y => Qle_bool x y
  end.

(** Two [float]s of the same value. *)
Definition eq (a b : t) : Prop :=
  match a, b with
  | Finite x, Finite y => (x == y)%Q
  | PlusInfinity, PlusInfinity | MinusInfinity, MinusInfinity | NaN, NaN => True
  | _, _ => False
  end.

End F32.

(** ** The component extractor of [processImage] *)

Module ComponentData.
(** [struct ComponentData]. *)
Record t := mk {
  id : Z;
  xMin : Z;
  xMax : Z;
  yMin : Z;
  yMax : Z;
  size : Z;
  avgProbability : F32.t;
  mask : list bool
}.
End ComponentData.

(** What one call of [floodFillIterative] left behind: the seed it was
    started from, the five globals and the scratch mask at its return.
    The scan keeps these in a history that the program itself does not
    store; statements about all the flood fills of a scan speak of it. *)
Record FillRecord := mkFillRecord {
  seedX : Z;
  seedY : Z;
  fillXmin : Z;
  fillXmax : Z;
  fillYmin : Z;
  fillYmax : Z;
  fillSize : Z;
  region : list bool
}.

Record ScanState := mkScanState {
  mem : FillState;
  components : list ComponentData.t;
  componentCount : Z;
  fills : list FillRecord
}.

(** [for cx in xmin..xmax: for cy in ymin..ymax: bigMask[cy*width+cx] = false]. *)
Definition clear_box (width xmin xmax ymin ymax : Z) (bigMask : list bool) : list bool :=
  foldl (fun m cx =>
           foldl (fun m cy => Vec.set m (cy * width + cx) false)
                 m (seqZ ymin (ymax - ymin + 1)))
        bigMask (seqZ xmin (xmax - xmin + 1)).

(** The loop that extracts the local mask of a component and accumulates
    [totalProbability] and [pixelCount] (source lines 504-516).  The
    heatmap holds [float]s; [totalProbability += heatmap[...]] is an
    addition on [float]. *)
Definition extract_mask (width : Z) (heatmap : list Q) (bigMask : list bool)
    (xmin xmax ymin ymax : Z) : F32.t * Z * list bool :=
  let compWidth := xmax - xmin + 1 in
  let compHeight := ymax - ymin + 1 in
  foldl (fun acc cy =>
           foldl (fun acc cx =>
                    let '(totalProbability, pixelCount, mask) := acc in
                    if Vec.get false bigMask (cy * width + cx)
                    then
                      let localIndex := (cy - ymin) * compWidth + (cx - xmin) in
                      (F32.add totalProbability
                         (F32.Finite (Vec.get 0%Q heatmap (cy * width + cx))),
                       pixelCount + 1,
                       Vec.set mask localIndex true)
                    else (totalProbability, pixelCount, mask))
                 acc (seqZ xmin (xmax - xmin + 1)))
        (F32.Finite 0, 0, replicate (Z.to_nat (compWidth * compHeight)) false)
        (seqZ ymin (ymax - ymin + 1)).

(** [(pixelCount > 0) ? (totalProbability / pixelCount) : 0.0f]: the count
    is converted to [float] and the quotient is a division on [float]. *)
Definition average (totalProbability : F32.t) (pixelCount : Z) : F32.t :=
  if 0 <? pixelCount then F32.div totalProbability (F32.of_int pixelCount)
  else F32.Finite 0.

(** The probability aggregation of [processImage]: mask and average of the
    region marked in [bigMask] inside the box. *)
Definition aggregate (width : Z) (heatmap : list Q) (bigMask : list bool)
    (xmin xmax ymin ymax : Z) : F32.t * list bool :=
  let '(totalProbability, pixelCount, mask) :=
    extract_mask width heatmap bigMask xmin xmax ymin ymax in
  (average totalProbability pixelCount, mask).

Definition set_bigMask (st : FillState) (m : list bool) : FillState :=
  mkFillState (image st) (visited st) m (stack st)
    (currentComponentXmin st) (currentComponentXmax st)
    (currentComponentYmin st) (currentComponentYmax st)
    (currentComponentSize st).

(** The discard test of source lines 493-494; [/] on [int] truncates. *)
Definition dropped (config : Config) (size xmin xmax ymin ymax : Z) : bool :=
  let compWidth := xmax - xmin + 1 in
  let compHeight := ymax - ymin + 1 in
  (size <? minComponentSize config) || (size <? (compWidth * compHeight) ÷ 3).

Section Extractor.

Variables (width height : Z) (heatmap : list Q) (config : Config).
(** The fill colour drawn for the [n]-th flood fill of the scan. *)
Variable (randomColor : nat -> Color).

(** The body of the two nested [for] loops of the scan at pixel [(x, y)]
    (source lines 475-538). *)
Definition scan_pixel (s : ScanState) (x y : Z) : ScanState :=
  let m := mem s in
  if Vec.get false (visited m) (y * width + x) then s
  else
    let newColor := randomColor (length (fills s)) in
    let reset := mkFillState (image m) (visited m) (bigMask m) []
                   width 0 height 0 0 in
    let m1 := floodFillIterative width height (InImage (y * width + x))
                (k config) (use8Way config) (adj config) (euclidif config)
                newColor x y reset in
    let xmin := currentComponentXmin m1 in
    let xmax := currentComponentXmax m1 in
    let ymin := currentComponentYmin m1 in
    let ymax := currentComponentYmax m1 in
    let size := currentComponentSize m1 in
    let done := mkFillRecord x y xmin xmax ymin ymax size (bigMask m1) in
    let cleared := set_bigMask m1 (clear_box width xmin xmax ymin ymax (bigMask m1)) in
    if dropped config size xmin xmax ymin ymax
    then mkScanState cleared (components s) (componentCount s) (fills s ++ [done])
    else
      let '(avgProbability, mask) :=
        aggregate width heatmap (bigMask m1) xmin xmax ymin ymax in
      let compData := ComponentData.mk (componentCount s + 1)
                        xmin xmax ymin ymax size avgProbability mask in
      mkScanState cleared (components s ++ [compData]) (componentCount s + 1)
        (fills s ++ [done]).

Definition scan_row (s : ScanState) (y : Z) : ScanState :=
  foldl (fun s x => scan_pixel s x y) s (seqZ 0 width).

(** [for y in 0..height-1: for x in 0..width-1: ...]. *)
Definition scan (s : ScanState) : ScanState :=
  foldl scan_row s (seqZ 0 height).

Definition initial_scan (image : list Color) : ScanState :=
  mkScanState
    (mkFillState image
       (replicate (Z.to_nat (width * height)) false)
       (replicate (Z.to_nat (width * height)) false)
       [] 0 0 0 0 0)
    [] 0 [].

Definition extractComponents (image : list Color) : ScanState :=
  scan (initial_scan image).

End Extractor.

(** ** The adaptive classifier of [processImage] *)

Section Sort.

Context {A : Type} (leb : A -> A -> bool).

Fixpoint sorted_insert (x : A) (l : list A) : list A :=
  match l with
  | [] => [x]
  | y :: l' => if leb x y then x :: l else y :: sorted_insert x l'
  end.

(** [std::sort(v.begin(), v.end())]: the elements in ascending order. *)
Fixpoint std_sort (l : list A) : list A :=
  match l with
  | [] => []
  | x :: l' => sorted_insert x (std_sort l')
  end.

End Sort.

(** Source lines 420-425.  [index80_prob] is a [size_t]: the conversion
    truncates the product, and [size() - 1] wraps on an empty vector. *)
Definition index80_prob (n : Z) : Z :=
  let i := Qfloor (0.8 * inject_Z n) in
  if i >=? n then (n - 1) mod 2 ^ 64 else i.

Definition probabilityThreshold80 (heatmap : list Q) : Q :=
  let sortedHeatmap := std_sort Qle_bool heatmap in
  Vec.get 0%Q sortedHeatmap (index80_prob (Z.of_nat (length sortedHeatmap))).

(** Source lines 550-552; [index80_size] is an [int]. *)
Definition index80_size (n : Z) : Z :=
  let i := Qfloor (0.9 * inject_Z n) in
  if i >=? n then n - 1 else i.

(** Source lines 544-554. *)
Definition sizeThreshold80 (components : list ComponentData.t) : Z :=
  let sizes := std_sort Z.leb (ComponentData.size <$> components) in
  match sizes with
  | [] => 0
  | _ => Vec.get 0 sizes (index80_size (Z.of_nat (length sizes)))
  end.

(** Source line 572; [probabilityThreshold80] is a [float] of the
    heatmap. *)
Definition isBuildingBlock (probabilityThreshold80 : Q) (sizeThreshold80 : Z)
    (comp : ComponentData.t) : bool :=
  F32.leb (F32.Finite probabilityThreshold80) (ComponentData.avgProbability comp)
  && (ComponentData.size comp <=? sizeThreshold80).

(** Source lines 575-581: the pixels of the local mask painted black. *)
Definition paint (width : Z) (comp : ComponentData.t)
    (buildingBlocksImage : list Color) : list Color :=
  let xMin := ComponentData.xMin comp in
  let xMax := ComponentData.xMax comp in
  let yMin := ComponentData.yMin comp in
  let yMax := ComponentData.yMax comp in
  let compWidth := xMax - xMin + 1 in
  foldl (fun img cy =>
           foldl (fun img cx =>
                    let localIndex := (cy - yMin) * compWidth + (cx - xMin) in
                    if Vec.get false (ComponentData.mask comp) localIndex
                    then Vec.set img (cy * width + cx) black
                    else img)
                 img (seqZ xMin (xMax - xMin + 1)))
        buildingBlocksImage (seqZ yMin (yMax - yMin + 1)).

(** The classification loop (source lines 567-603): the overlay image and,
    per component, the folder its mask is saved in ([true] for
    [building_blocks], [false] for [non_building_blocks]). *)
Definition classify (width : Z) (probabilityThreshold80 : Q) (sizeThreshold80 : Z)
    (components : list ComponentData.t) (buildingBlocksImage : list Color)
    : list Color * list (ComponentData.t * bool) :=
  foldl (fun acc comp =>
           let '(img, saved) := acc in
           let isBB := isBuildingBlock probabilityThreshold80 sizeThreshold80 comp in
           ((if isBB then paint width comp img else img), saved ++ [(comp, isBB)]))
        (buildingBlocksImage, []) components.

(** ** Reading the inputs of [processImage] *)

(** An IEEE-754 single stored little-endian, as the rational it denotes.
    Infinities and NaN denote no rational; they are read as [0]. *)
Definition float_of_bytes (b0 b1 b2 b3 : byte) : Q :=
  let byte_val (x : byte) := Z.of_N (Byte.to_N x) in
  let bits := byte_val b0 + 2 ^ 8 * byte_val b1 + 2 ^ 16 * byte_val b2
              + 2 ^ 24 * byte_val b3 in
  let sign := bits / 2 ^ 31 in
  let e := (bits / 2 ^ 23) mod 2 ^ 8 in
  let m := bits mod 2 ^ 23 in
  let magnitude :=
    if e =? 255 then 0%Q
    else if e =? 0 then Qred (m # Z.to_pos (2 ^ 149))
    else if 150 <=? e then inject_Z ((2 ^ 23 + m) * 2 ^ (e - 150))
    else Qred ((2 ^ 23 + m) # Z.to_pos (2 ^ (150 - e))) in
  if sign =? 1 then Qred (- magnitude) else magnitude.

(** [heatmapFile.read(heatmap.data(), n * sizeof(float))] followed by
    [if (!heatmapFile)]: the first [n] floats of the file, [None] when the
    stream ran out of bytes before [4 * n] were read. *)
Fixpoint read_floats (n : nat) (bytes : list byte) : option (list Q) :=
  match n with
  | O => Some []
  | S n' =>
      match bytes with
      | b0 :: b1 :: b2 :: b3 :: rest =>
          match read_floats n' rest with
          | Some l => Some (float_of_bytes b0 b1 b2 b3 :: l)
          | None => None
          end
      | _ => None
      end
  end.

(** What the collaborators hand to [processImage]: the decoded image
    ([stbi_load], forced to three channels; [None] when it fails), the bytes
    of the heatmap file ([None] when it cannot be opened), and whether the
    output directories and the JSON file can be created. *)
Record Inputs := mkInputs {
  decoded : option (Z * Z * list Color);
  heatmapFile : option (list byte);
  outputFolderCreated : bool;
  subfoldersCreated : bool;
  jsonOpened : bool
}.

Record Output := mkOutput {
  out_probabilityThreshold80 : Q;
  out_sizeThreshold80 : Z;
  out_scan : ScanState;
  out_saved : list (ComponentData.t * bool);
  out_segmentation : list Color;
  out_buildingBlocks : list Color
}.

(** The early returns of [processImage], in source order, and its normal
    completion. *)
Inductive Outcome :=
| FailedToLoadImage
| FailedToLoadHeatmap
| ErrorReadingHeatmap
| FailedToCreateDirectory
| FailedToCreateSubdirectories
| FailedToCreateJson
| Finished (out : Output).

Definition processImage (inputs : Inputs) (config : Config)
    (randomColor : nat -> Color) : Outcome :=
  match decoded inputs with
  | None => FailedToLoadImage
  | Some (width, height, imgData) =>
      match heatmapFile inputs with
      | None => FailedToLoadHeatmap
      | Some bytes =>
          match read_floats (Z.to_nat (width * height)) bytes with
          | None => ErrorReadingHeatmap
          | Some heatmap =>
              let threshold := probabilityThreshold80 heatmap in
              let image0 := (fun j => Vec.get black imgData j) <$> seqZ 0 (width * height) in
              let buildingBlocksImage := replicate (Z.to_nat (width * height)) white in
              if negb (outputFolderCreated inputs) then FailedToCreateDirectory
              else if negb (subfoldersCreated inputs) then FailedToCreateSubdirectories
              else
                let s := extractComponents width height heatmap config randomColor image0 in
                let sizeThreshold := sizeThreshold80 (components s) in
                if negb (jsonOpened inputs) then FailedToCreateJson
                else
                  let '(bb, saved) :=
                    classify width threshold sizeThreshold (components s)
                             buildingBlocksImage in
                  Finished (mkOutput threshold sizeThreshold s saved
                              (image (mem s)) bb)
          end
      end
  end.

(** ** The component extractor of [processImages] *)

(** The batch routine extracts, classifies and saves a component in one
    iteration of its scan, against the static threshold of the
    configuration.  Its loops over the bounding box run column by column
    and its average is not guarded.  The enumeration of the input files
    and the writing of the output files are not modelled. *)

(** [totalProbability / pixelCount] (source line 314), a division on
    [float] by the converted count; with [pixelCount = 0] it is [0.0f / 0],
    a NaN. *)
Definition unguarded_average (totalProbability : F32.t) (pixelCount : Z) : F32.t :=
  F32.div totalProbability (F32.of_int pixelCount).

(** [avgProbability >= heatmapThreshold]; a comparison with NaN is false. *)
Definition at_least (avgProbability heatmapThreshold : F32.t) : bool :=
  F32.leb heatmapThreshold avgProbability.

(** Source lines 298-311. *)
Definition extract_mask_batch (width : Z) (heatmap : list Q) (bigMask : list bool)
    (xmin xmax ymin ymax : Z) : F32.t * Z * list bool :=
  let componentWidth := xmax - xmin + 1 in
  let componentHeight := ymax - ymin + 1 in
  foldl (fun acc cx =>
           foldl (fun acc cy =>
                    let '(totalProbability, pixelCount, mask) := acc in
                    if Vec.get false bigMask (cy * width + cx)
                    then
                      (F32.add totalProbability
                         (F32.Finite (Vec.get 0%Q heatmap (cy * width + cx))),
                       pixelCount + 1,
                       Vec.set mask ((cy - ymin) * componentWidth + cx - xmin) true)
                    else (totalProbability, pixelCount, mask))
                 acc (seqZ ymin (ymax - ymin + 1)))
        (F32.Finite 0, 0, replicate (Z.to_nat (componentWidth * componentHeight)) false)
        (seqZ xmin (xmax - xmin + 1)).

(** Source lines 316-324: the scratch mask is cleared where it is set, and
    the overlay is painted there when [paintIt] holds. *)
Definition clear_and_paint (width : Z) (paintIt : bool) (xmin xmax ymin ymax : Z)
    (bigMask : list bool) (buildingBlocksImage : list Color)
    : list bool * list Color :=
  foldl (fun acc cx =>
           foldl (fun acc cy =>
                    let '(bigMask, img) := acc in
                    if Vec.get false bigMask (cy * width + cx)
                    then (Vec.set bigMask (cy * width + cx) false,
                          if paintIt then Vec.set img (cy * width + cx) black else img)
                    else (bigMask, img))
                 acc (seqZ ymin (ymax - ymin + 1)))
        (bigMask, buildingBlocksImage) (seqZ xmin (xmax - xmin + 1)).

(** What the batch routine writes for a component: the fields of its JSON
    object, its mask, and the folder the mask goes to. *)
Record SavedComponent := mkSavedComponent {
  saved_component : Z;
  saved_x : Z;
  saved_y : Z;
  saved_width : Z;
  saved_height : Z;
  saved_probability : F32.t;
  saved_mask : list bool;
  saved_in_building_blocks : bool
}.

Record BatchState := mkBatchState {
  batch_mem : FillState;
  batch_componentCount : Z;
  batch_buildingBlocksImage : list Color;
  batch_saved : list SavedComponent;
  (** the number of flood fills run so far *)
  batch_fills : nat
}.

Section BatchExtractor.

Variables (width height : Z) (heatmap : list Q) (config : Config).
Variable (randomColor : nat -> Color).

(** The body of the scan of [processImages] at pixel [(x, y)] (source
    lines 268-356). *)
Definition batch_pixel (s : BatchState) (x y : Z) : BatchState :=
  let m := batch_mem s in
  if Vec.get false (visited m) (y * width + x) then s
  else
    let newColor := randomColor (batch_fills s) in
    let reset := mkFillState (image m) (visited m) (bigMask m) []
                   1000000000 (-1000000000) 1000000000 (-1000000000) 0 in
    let m1 := floodFillIterative width height (InImage (y * width + x))
                (k config) (use8Way config) (adj config) (euclidif config)
                newColor x y reset in
    let xmin := currentComponentXmin m1 in
    let xmax := currentComponentXmax m1 in
    let ymin := currentComponentYmin m1 in
    let ymax := currentComponentYmax m1 in
    let size := currentComponentSize m1 in
    let componentWidth := xmax - xmin + 1 in
    let componentHeight := ymax - ymin + 1 in
    if dropped config size xmin xmax ymin ymax
    then mkBatchState
           (set_bigMask m1 (clear_box width xmin xmax ymin ymax (bigMask m1)))
           (batch_componentCount s) (batch_buildingBlocksImage s) (batch_saved s)
           (S (batch_fills s))
    else
      let heatmapThreshold := F32.of_double (buildingBlockTreshold config) in
      let '(totalProbability, pixelCount, mask) :=
        extract_mask_batch width heatmap (bigMask m1) xmin xmax ymin ymax in
      let avgProbability := unguarded_average totalProbability pixelCount in
      let '(cleared, painted) :=
        clear_and_paint width
          (at_least avgProbability heatmapThreshold
           && (size <? (width * height) ÷ 4))
          xmin xmax ymin ymax (bigMask m1) (batch_buildingBlocksImage s) in
      let saved := mkSavedComponent (batch_componentCount s + 1) xmin ymin
                     componentWidth componentHeight avgProbability mask
                     (at_least avgProbability heatmapThreshold) in
      mkBatchState (set_bigMask m1 cleared) (batch_componentCount s + 1) painted
        (batch_saved s ++ [saved]) (S (batch_fills s)).

Definition batch_scan (s : BatchState) : BatchState :=
  foldl (fun s y => foldl (fun s x => batch_pixel s x y) s (seqZ 0 width))
        s (seqZ 0 height).

Definition initial_batch (image : list Color) : BatchState :=
  mkBatchState
    (mkFillState image
       (replicate (Z.to_nat (width * height)) false)
       (replicate (Z.to_nat (width * height)) false)
       [] 0 0 0 0 0)
    0 (replicate (Z.to_nat (width * height)) white) [] 0.

End BatchExtractor.

(** ** Vocabulary of the invariants *)

(** No entry of a boolean vector is set. *)
Definition all_false (v : list bool) : Prop := forall i : nat, v !! i <> Some true.

(** What a flood fill has done so far, seen from the state [st0] it was
    called in (whose scratch mask is clear): the Visited Set only grows, the
    scratch mask holds exactly the pixels visited since the call, the size
    counter has counted them, and the running box contains them and is
    touched by one of them on every side that has moved. *)
Record fill_rel (width height : Z) (st0 st : FillState) : Prop := mk_fill_rel {
  fr_len_visited : length (visited st) = length (visited st0);
  fr_len_bigMask : length (bigMask st) = length (bigMask st0);
  fr_len_image : length (image st) = length (image st0);
  fr_mono : forall i : nat, visited st0 !! i = Some true -> visited st !! i = Some true;
  fr_mask : forall i : nat,
      bigMask st !! i = Some true <->
      visited st0 !! i = Some false /\ visited st !! i = Some true;
  fr_size : currentComponentSize st
            = currentComponentSize st0 + Z.of_nat (Vec.count_true (bigMask st));
  fr_count : Vec.count_true (visited st)
             = (Vec.count_true (visited st0) + Vec.count_true (bigMask st))%nat;
  fr_box : forall x y, 0 <= x < width -> 0 <= y < height ->
      bigMask st !! Z.to_nat (y * width + x) = Some true ->
      currentComponentXmin st <= x <= currentComponentXmax st
      /\ currentComponentYmin st <= y <= currentComponentYmax st;
  fr_xmin : currentComponentXmin st = currentComponentXmin st0
            \/ exists y, 0 <= currentComponentXmin st < width /\ 0 <= y < height
                 /\ bigMask st !! Z.to_nat (y * width + currentComponentXmin st) = Some true;
  fr_xmax : currentComponentXmax st = currentComponentXmax st0
            \/ exists y, 0 <= currentComponentXmax st < width /\ 0 <= y < height
                 /\ bigMask st !! Z.to_nat (y * width + currentComponentXmax st) = Some true;
  fr_ymin : currentComponentYmin st = currentComponentYmin st0
            \/ exists x, 0 <= x < width /\ 0 <= currentComponentYmin st < height
                 /\ bigMask st !! Z.to_nat (currentComponentYmin st * width + x) = Some true;
  fr_ymax : currentComponentYmax st = currentComponentYmax st0
            \/ exists x, 0 <= x < width /\ 0 <= currentComponentYmax st < height
                 /\ bigMask st !! Z.to_nat (currentComponentYmax st * width + x) = Some true
}.

(** The iterations of two nested [for] loops, in execution order: each
    value of the outer variable paired with each value of the inner one. *)
Definition grid (outer inner : list Z) : list (Z * Z) :=
  outer ≫= (fun a => (fun b => (a, b)) <$> inner).

(** ** The probability aggregation as the specification words it *)

Definition Qsum (l : list Q) : Q := foldr Qplus 0%Q l.

(** The positions [(cy, cx)] of the bounding box at which the local mask of
    a component is set. *)
Definition masked_positions (xmin xmax ymin ymax : Z) (mask : list bool)
    : list (Z * Z) :=
  filter (fun p => Vec.get false mask ((p.1 - ymin) * (xmax - xmin + 1) + (p.2 - xmin)) = true)
         (grid (seqZ ymin (ymax - ymin + 1)) (seqZ xmin (xmax - xmin + 1))).

(** The mean as [processImage] and [processImages] compute it: the values
    are added one after the other on [float], starting from [0.0f], and
    the sum is divided on [float] by their number. *)
Definition float_sum (values : list Q) : F32.t :=
  foldl (fun total v => F32.add total (F32.Finite v)) (F32.Finite 0) values.

Definition float_mean (values : list Q) : F32.t :=
  F32.div (float_sum values) (F32.of_int (Z.of_nat (length values))).

(** The heatmap values at the given positions [(cy, cx)], in their order. *)
Definition values_at (width : Z) (heatmap : list Q) (positions : list (Z * Z))
    : list Q :=
  (fun p => Vec.get 0%Q heatmap (p.1 * width + p.2)) <$> positions.

(** The arithmetic mean of the heatmap values at the given positions, [0]
    when there is none. *)
Definition mean_at (width : Z) (heatmap : list Q) (positions : list (Z * Z)) : Q :=
  match positions with
  | [] => 0%Q
  | _ => (Qsum ((fun p => Vec.get 0%Q heatmap (p.1 * width + p.2)) <$> positions)
          / inject_Z (Z.of_nat (length positions)))%Q
  end.

(** The positions [(cy, cx)] of the bounding box column by column, the
    order in which [processImages] goes through them. *)
Definition box_by_columns (xmin xmax ymin ymax : Z) : list (Z * Z) :=
  (fun p => (p.2, p.1))
    <$> grid (seqZ xmin (xmax - xmin + 1)) (seqZ ymin (ymax - ymin + 1)).

(** The positions at which the mask of a component saved by
    [processImages] is set. *)
Definition saved_positions (c : SavedComponent) : list (Z * Z) :=
  filter (fun p => Vec.get false (saved_mask c)
                     ((p.1 - saved_y c) * saved_width c + (p.2 - saved_x c)) = true)
         (box_by_columns (saved_x c) (saved_x c + saved_width c - 1)
                         (saved_y c) (saved_y c + saved_height c - 1)).

(** ** The scan, iteration by iteration *)

(** The pixels [(y, x)] in the order in which the scan of [processImage]
    reaches them. *)
Definition raster (width height : Z) : list (Z * Z) :=
  grid (seqZ 0 height) (seqZ 0 width).

(** The state of the scan after its first [n] iterations. *)
Definition scan_upto (width height : Z) (heatmap : list Q) (config : Config)
    (randomColor : nat -> Color) (n : nat) (s : ScanState) : ScanState :=
  foldl (fun s p => scan_pixel width height heatmap config randomColor s p.2 p.1)
        s (take n (raster width height)).

(** The history entry of a flood fill started at [(x, y)] that returned in
    state [m1]. *)
Definition fill_record (x y : Z) (m1 : FillState) : FillRecord :=
  mkFillRecord x y (currentComponentXmin m1) (currentComponentXmax m1)
    (currentComponentYmin m1) (currentComponentYmax m1)
    (currentComponentSize m1) (bigMask m1).

(** The record [processImage] appends for a fill it keeps. *)
Definition component_of_fill (width : Z) (heatmap : list Q) (id : Z)
    (f : FillRecord) : ComponentData.t :=
  let '(avgProbability, mask) :=
    aggregate width heatmap (region f) (fillXmin f) (fillXmax f) (fillYmin f) (fillYmax f) in
  ComponentData.mk id (fillXmin f) (fillXmax f) (fillYmin f) (fillYmax f)
    (fillSize f) avgProbability mask.

(** The discard rule in the words of the specification. *)
Definition discard_rule (config : Config) (f : FillRecord) : Prop :=
  fillSize f < minComponentSize config
  \/ fillSize f < ((fillXmax f - fillXmin f + 1) * (fillYmax f - fillYmin f + 1)) ÷ 3.

Definition sum_sizes (fs : list FillRecord) : Z :=
  foldr (fun f acc => fillSize f + acc) 0 fs.

(** A pixel set [inside] and a box that is tight around it: the box
    contains the set and each of its four sides meets the set. *)
Definition tight_box (inside : Z -> Z -> Prop) (xmin xmax ymin ymax : Z) : Prop :=
  (forall x y, inside x y -> xmin <= x <= xmax /\ ymin <= y <= ymax)
  /\ (exists y, inside xmin y) /\ (exists y, inside xmax y)
  /\ (exists x, inside x ymin) /\ (exists x, inside x ymax).

(** The pixels of the image marked in a whole-image boolean vector. *)
Definition marked_in (width height : Z) (v : list bool) (x y : Z) : Prop :=
  0 <= x < width /\ 0 <= y < height /\ v !! Z.to_nat (y * width + x) = Some true.

(** What holds of the history entry of every flood fill of the scan. *)
Record fill_ok (width height : Z) (f : FillRecord) : Prop := mk_fill_ok {
  fo_length : length (region f) = Z.to_nat (width * height);
  fo_seed : marked_in width height (region f) (seedX f) (seedY f);
  fo_xrange : 0 <= fillXmin f <= fillXmax f /\ fillXmax f < width;
  fo_yrange : 0 <= fillYmin f <= fillYmax f /\ fillYmax f < height;
  fo_size : fillSize f = Z.of_nat (Vec.count_true (region f));
  fo_tight : tight_box (marked_in width height (region f))
               (fillXmin f) (fillXmax f) (fillYmin f) (fillYmax f)
}.

(** The invariant of the scan between two iterations. *)
Record scan_inv (width height : Z) (heatmap : list Q) (config : Config)
    (s : ScanState) : Prop := mk_scan_inv {
  si_len_visited : length (visited (mem s)) = Z.to_nat (width * height);
  si_clear : bigMask (mem s) = replicate (Z.to_nat (width * height)) false;
  si_sizes : sum_sizes (fills s) = Z.of_nat (Vec.count_true (visited (mem s)));
  si_cover : forall i : nat,
      visited (mem s) !! i = Some true <->
      exists j f, fills s !! j = Some f /\ region f !! i = Some true;
  si_disjoint : forall (j1 j2 : nat) f1 f2 (i : nat),
      fills s !! j1 = Some f1 -> fills s !! j2 = Some f2 ->
      region f1 !! i = Some true -> region f2 !! i = Some true -> j1 = j2;
  si_components :
      components s
      = imap (fun n f => component_of_fill width heatmap (Z.of_nat n + 1) f)
             (filter (fun f => ~ discard_rule config f) (fills s));
  si_count : componentCount s = Z.of_nat (length (components s));
  si_fills : Forall (fill_ok width height) (fills s)
}.

(** The pixels of the image that the local mask of a record marks. *)
Definition mask_pixel (comp : ComponentData.t) (x y : Z) : Prop :=
  ComponentData.xMin comp <= x <= ComponentData.xMax comp
  /\ ComponentData.yMin comp <= y <= ComponentData.yMax comp
  /\ Vec.get false (ComponentData.mask comp)
       ((y - ComponentData.yMin comp)
        * (ComponentData.xMax comp - ComponentData.xMin comp + 1)
        + (x - ComponentData.xMin comp)) = true.

(** The pixels of the image that hold the colour [c]: after a flood fill
    with a fill colour that no pixel had before, its included pixels. *)
Definition colored (width height : Z) (img : list Color) (c : Color) (x y : Z) : Prop :=
  0 <= x < width /\ 0 <= y < height /\ img !! Z.to_nat (y * width + x) = Some c.

Definition box_area (comp : ComponentData.t) : Z :=
  (ComponentData.xMax comp - ComponentData.xMin comp + 1)
  * (ComponentData.yMax comp - ComponentData.yMin comp + 1).

(** The average saved by [processImages] is the mean, computed on
    [float], of the heatmap values at the positions of the saved mask, in
    the order in which the routine goes through them; there is at least
    one. *)
Definition saved_ok (width : Z) (heatmap : list Q) (c : SavedComponent) : Prop :=
  saved_positions c <> []
  /\ saved_probability c = float_mean (values_at width heatmap (saved_positions c)).

(** The flood fill that the scan of [processImages] runs at an unvisited
    pixel [(x, y)] (source lines 271-280). *)
Definition batch_fill (width height : Z) (config : Config)
    (randomColor : nat -> Color) (s : BatchState) (x y : Z) : FillState :=
  let m := batch_mem s in
  floodFillIterative width height (InImage (y * width + x))
    (k config) (use8Way config) (adj config) (euclidif config)
    (randomColor (batch_fills s)) x y
    (mkFillState (image m) (visited m) (bigMask m) []
       1000000000 (-1000000000) 1000000000 (-1000000000) 0).

(** The invariant of the scan of [processImages]. *)
Record batch_inv (width height : Z) (heatmap : list Q) (s : BatchState) : Prop :=
  mk_batch_inv {
  bi_len_visited : length (visited (batch_mem s)) = Z.to_nat (width * height);
  bi_clear : bigMask (batch_mem s) = replicate (Z.to_nat (width * height)) false;
  bi_saved : Forall (saved_ok width heatmap) (batch_saved s)
}.

(** ** Two runs that differ in the fill colours only *)

(** Two images of the same length that agree up to the fill colours: at
    every index they hold the same colour, or the colours drawn for one and
    the same flood fill by the two generators. *)
Definition same_up_to_fill_colors (random1 random2 : nat -> Color)
    (img1 img2 : list Color) : Prop :=
  length img1 = length img2
  /\ forall (i : nat) c1 c2, img1 !! i = Some c1 -> img2 !! i = Some c2 ->
       c1 = c2 \/ exists n, c1 = random1 n /\ c2 = random2 n.

(** The memories of the two runs at the same point of the program: they
    differ in the image only, and there only at visited pixels. *)
Record mem_sim (random1 random2 : nat -> Color) (m1 m2 : FillState) : Prop :=
  mk_mem_sim {
  ms_visited : visited m1 = visited m2;
  ms_bigMask : bigMask m1 = bigMask m2;
  ms_stack : stack m1 = stack m2;
  ms_xmin : currentComponentXmin m1 = currentComponentXmin m2;
  ms_xmax : currentComponentXmax m1 = currentComponentXmax m2;
  ms_ymin : currentComponentYmin m1 = currentComponentYmin m2;
  ms_ymax : currentComponentYmax m1 = currentComponentYmax m2;
  ms_size : currentComponentSize m1 = currentComponentSize m2;
  ms_len : length (image m1) = length (visited m1);
  ms_unvisited : forall i : nat,
      visited m1 !! i = Some false -> image m1 !! i = image m2 !! i;
  ms_image : same_up_to_fill_colors random1 random2 (image m1) (image m2)
}.

Record scan_sim (random1 random2 : nat -> Color) (s1 s2 : ScanState) : Prop :=
  mk_scan_sim {
  ss_mem : mem_sim random1 random2 (mem s1) (mem s2);
  ss_components : components s1 = components s2;
  ss_count : componentCount s1 = componentCount s2;
  ss_fills : fills s1 = fills s2
}.

(** What two runs of [processImage] on the same inputs have in common. *)
Definition outcome_sim (random1 random2 : nat -> Color) (o1 o2 : Outcome) : Prop :=
  match o1, o2 with
  | Finished out1, Finished out2 =>
      out_probabilityThreshold80 out1 = out_probabilityThreshold80 out2
      /\ out_sizeThreshold80 out1 = out_sizeThreshold80 out2
      /\ components (out_scan out1) = components (out_scan out2)
      /\ fills (out_scan out1) = fills (out_scan out2)
      /\ visited (mem (out_scan out1)) = visited (mem (out_scan out2))
      /\ out_saved out1 = out_saved out2
      /\ out_buildingBlocks out1 = out_buildingBlocks out2
      /\ same_up_to_fill_colors random1 random2
           (out_segmentation out1) (out_segmentation out2)
  | Finished _, _ | _, Finished _ => False
  | _, _ => o1 = o2
  end.

(** ** The statements of the specification that the code is compared with *)

(** The probability threshold as the specification words it: the value at
    rank [ceil (0.8 * N)], clamped to the last index, of the average
    probabilities of the [N] components sorted ascending. *)
Definition spec_probabilityThreshold (components : list ComponentData.t) : F32.t :=
  let probabilities := std_sort F32.leb (ComponentData.avgProbability <$> components) in
  let n := Z.of_nat (length probabilities) in
  Vec.get (F32.Finite 0) probabilities (Z.min (Qceiling (0.8 * inject_Z n)) (n - 1)).

(** The size threshold as the specification words it: the value at rank
    [ceil (0.9 * N)], clamped, of the pixel counts sorted ascending. *)
Definition spec_sizeThreshold (components : list ComponentData.t) : Z :=
  let sizes := std_sort Z.leb (ComponentData.size <$> components) in
  let n := Z.of_nat (length sizes) in
  Vec.get 0 sizes (Z.min (Qceiling (0.9 * inject_Z n)) (n - 1)).

(** The classification rule with the size threshold of the specification. *)
Definition spec_isBuildingBlock (probabilityThreshold : Q)
    (components : list ComponentData.t) (comp : ComponentData.t) : bool :=
  F32.leb (F32.Finite probabilityThreshold) (ComponentData.avgProbability comp)
  && (ComponentData.size comp <=? spec_sizeThreshold components).

(** "The raster scan starts a flood fill at pixel [(x, y)]". *)
Definition seeds_own_region (s : ScanState) (x y : Z) : Prop :=
  exists f, f ∈ fills s /\ seedX f = x /\ seedY f = y.

(** "The heatmap file holds exactly [width * height] floats". *)
Definition heatmap_length_matches (width height : Z) (bytes : list byte) : Prop :=
  length bytes = (4 * Z.to_nat (width * height))%nat.

(** ** Example inputs *)

Definition gray10 : Color := mkColor 10 10 10.
Definition gray200 : Color := mkColor 200 200 200.
Definition fill123 : Color := mkColor 1 2 3.

(** [k = 2], 4-way, Manhattan metric, comparison with the seed,
    [minComponentSize = 1]. *)
Definition example_config : Config := mkConfig 2 false false false 1 (1 # 2).

(** The same with [adj] set: comparison with the neighbour. *)
Definition neighbour_config : Config := mkConfig 2 false false true 1 (1 # 2).

Definition constant_fill : nat -> Color := fun _ => fill123.

(** A fill colour far from [gray10], and one within [k = 2] of it. *)
Definition far_fill : nat -> Color := fun _ => mkColor 117 202 87.
Definition near_fill : nat -> Color := fun _ => mkColor 10 10 11.

(** The bytes of [0.0f], of [1.0f] and of [0.9f]. *)
Definition float_zero : list byte := [x00; x00; x00; x00]%byte.
Definition float_one : list byte := [x00; x00; x80; x3f]%byte.
Definition float_nine_tenths : list byte := [x66; x66; x66; x3f]%byte.

(** The value of [0.9f]. *)
Definition nine_tenths : Q := 7549747 # 8388608.

(** A 2x1 image of one colour; the heatmap is [0, 1]. *)
Definition uniform_inputs : Inputs :=
  mkInputs (Some (2, 1, [gray10; gray10])) (Some (float_zero ++ float_one))
    true true true.

(** A 2x1 image whose second pixel is far from the first. *)
Definition two_tone_inputs : Inputs :=
  mkInputs (Some (2, 1, [gray10; gray200])) (Some (float_zero ++ float_one))
    true true true.

(** A 3x1 image of one colour; the heatmap is [0.9f] everywhere. *)
Definition triple_inputs : Inputs :=
  mkInputs (Some (3, 1, [gray10; gray10; gray10]))
    (Some (concat (replicate 3 float_nine_tenths))) true true true.

(** A 1x1 image with a heatmap file of two floats. *)
Definition long_file_inputs : Inputs :=
  mkInputs (Some (1, 1, [gray10])) (Some (float_one ++ float_one)) true true true.

(** A 23x1 image of runs of two pixels that alternate between two colours;
    the heatmap is [1] everywhere. *)
Definition stripes_inputs : Inputs :=
  mkInputs
    (Some (23, 1, (fun i => if Z.even (i / 2) then gray10 else gray200) <$> seqZ 0 23))
    (Some (concat (replicate 23 float_one))) true true true.

Definition empty_output : Output :=
  mkOutput 0 0 (mkScanState (mkFillState [] [] [] [] 0 0 0 0 0) [] 0 []) [] [] [].

Definition finished (o : Outcome) : Output :=
  match o with Finished out => out | _ => empty_output end.

Definition uniform_output : Output :=
  Eval vm_compute in finished (processImage uniform_inputs example_config constant_fill).

Definition stripes_output : Output :=
  Eval vm_compute in finished (processImage stripes_inputs neighbour_config constant_fill).

Definition triple_output : Output :=
  Eval vm_compute in finished (processImage triple_inputs neighbour_config constant_fill).

(** The flood fill of the two-tone image started at [(0, 0)], after four
    iterations: the seed has been included, the three neighbours outside
    the image have been discarded and the right neighbour is on top of the
    stack. *)
Definition two_tone_midfill : FillState :=
  mkFillState [fill123; gray200] [true; false] [true; false]
    [(1, 0, gray10)] 0 0 0 0 1.

(** ** Connected components *)

(** The pixels whose entries the flood fill pushes when it includes
    [(x, y)]: the four orthogonal neighbours, and the four diagonal ones
    under 8-way connectivity. *)
Definition adjacent (use8Way : bool) (x y x' y' : Z) : Prop :=
  if use8Way
  then Z.max (Z.abs (x' - x)) (Z.abs (y' - y)) = 1
  else Z.abs (x' - x) + Z.abs (y' - y) = 1.

(** The seed of a flood fill that can start: a pixel of the image that is
    not yet visited.  It is compared with its own colour, which passes
    when [k] is not negative. *)
Definition seed_passes (width height : Z) (k : Q) (m : FillState)
    (startX startY : Z) : Prop :=
  in_bounds width height startX startY = true
  /\ Vec.get false (visited m) (startY * width + startX) = false
  /\ Qle_bool 0 k = true.

Section Component.

Variables (width height : Z).
Variables (k : Q) (use8Way euclidif : bool).
Variable (newColor : Color).
(** The memory in which the flood fill is called. *)
Variable (m : FillState).

(** A pixel of the image that is not yet visited and whose colour is within
    [k] of the fill colour: with [adj] off every pixel after the seed is
    compared with the start colour, which is read through a reference to
    the seed pixel, and the seed has the fill colour by then. *)
Definition eligible (x y : Z) : Prop :=
  in_bounds width height x y = true
  /\ Vec.get false (visited m) (y * width + x) = false
  /\ colorDifference_le (Vec.get black (image m) (y * width + x))
       newColor euclidif k = true.

(** The seed, when it passes, and the pixels linked to it by a chain of
    adjacent eligible pixels. *)
Inductive grows (startX startY : Z) : Z -> Z -> Prop :=
| grows_seed :
    seed_passes width height k m startX startY ->
    grows startX startY startX startY
| grows_step x y x' y' :
    grows startX startY x y -> adjacent use8Way x y x' y' -> eligible x' y' ->
    grows startX startY x' y'.

(** The invariant of the loop of the flood fill with [adj] off, called
    with the start colour bound to the seed pixel [(startX, startY)], from
    the moment the seed has been included. *)
Record component_inv (startX startY : Z) (st : FillState)
    : Prop := mk_component_inv {
  ci_len_visited : length (visited st) = Z.to_nat (width * height);
  ci_len_image : length (image st) = Z.to_nat (width * height);
  ci_seed : seed_passes width height k m startX startY
      /\ Vec.get false (visited st) (startY * width + startX) = true
      /\ Vec.get black (image st) (startY * width + startX) = newColor;
  ci_old : forall x y, 0 <= x < width -> 0 <= y < height ->
      Vec.get false (visited m) (y * width + x) = true ->
      Vec.get false (visited st) (y * width + x) = true
      /\ Vec.get black (image st) (y * width + x)
         = Vec.get black (image m) (y * width + x);
  ci_unvisited : forall x y, 0 <= x < width -> 0 <= y < height ->
      Vec.get false (visited st) (y * width + x) = false ->
      Vec.get black (image st) (y * width + x)
      = Vec.get black (image m) (y * width + x);
  ci_new : forall x y, 0 <= x < width -> 0 <= y < height ->
      Vec.get false (visited m) (y * width + x) = false ->
      Vec.get false (visited st) (y * width + x) = true ->
      ((x = startX /\ y = startY)
       \/ exists x0 y0, grows startX startY x0 y0 /\ adjacent use8Way x0 y0 x y)
      /\ (grows startX startY x y ->
          Vec.get black (image st) (y * width + x) = newColor
          /\ forall x' y', adjacent use8Way x y x' y' ->
               0 <= x' < width -> 0 <= y' < height ->
               Vec.get false (visited st) (y' * width + x') = true
               \/ exists c, (x', y', c) ∈ stack st)
      /\ (~ grows startX startY x y ->
          Vec.get black (image st) (y * width + x)
          = Vec.get black (image m) (y * width + x));
  ci_stack : forall x y c, (x, y, c) ∈ stack st ->
      exists x0 y0, grows startX startY x0 y0 /\ adjacent use8Way x0 y0 x y
}.

End Component.

Section Chain.

Variables (width height : Z).
Variables (k : Q) (use8Way adj euclidif : bool).
Variable (newColor : Color).
Variable (m : FillState).

(** The pixels linked to the seed by a chain of adjacent pixels of the
    image, unvisited at the call, each of which passes the colour test of
    the flood fill: the seed against its own colour, every further pixel
    against the colour that its predecessor in the chain had at the call
    when [adj] is set, and against the fill colour otherwise (the start
    colour is read through a reference to the seed pixel, which has the
    fill colour by then). *)
Inductive chained (startX startY : Z) : Z -> Z -> Prop :=
| chained_seed :
    seed_passes width height k m startX startY ->
    chained startX startY startX startY
| chained_step x y x' y' :
    chained startX startY x y -> adjacent use8Way x y x' y' ->
    in_bounds width height x' y' = true ->
    Vec.get false (visited m) (y' * width + x') = false ->
    colorDifference_le (Vec.get black (image m) (y' * width + x'))
      (if adj then Vec.get black (image m) (y * width + x) else newColor)
      euclidif k = true ->
    chained startX startY x' y'.

(** The invariant of the loop of the flood fill, for either comparison,
    from the moment the seed has been included. *)
Record chain_inv (startX startY : Z) (st : FillState)
    : Prop := mk_chain_inv {
  ch_len_visited : length (visited st) = Z.to_nat (width * height);
  ch_len_image : length (image st) = Z.to_nat (width * height);
  ch_seed : Vec.get false (visited st) (startY * width + startX) = true
      /\ Vec.get black (image st) (startY * width + startX) = newColor;
  ch_old : forall x y, 0 <= x < width -> 0 <= y < height ->
      Vec.get false (visited m) (y * width + x) = true ->
      Vec.get false (visited st) (y * width + x) = true;
  ch_unvisited : forall x y, 0 <= x < width -> 0 <= y < height ->
      Vec.get false (visited st) (y * width + x) = false ->
      Vec.get black (image st) (y * width + x)
      = Vec.get black (image m) (y * width + x);
  ch_changed : forall x y, 0 <= x < width -> 0 <= y < height ->
      Vec.get black (image st) (y * width + x)
      = Vec.get black (image m) (y * width + x)
      \/ (Vec.get black (image st) (y * width + x) = newColor
          /\ Vec.get false (visited st) (y * width + x) = true
          /\ chained startX startY x y);
  ch_stack : forall x y c, (x, y, c) ∈ stack st ->
      exists x0 y0, chained startX startY x0 y0 /\ adjacent use8Way x0 y0 x y
                    /\ c = Vec.get black (image m) (y0 * width + x0)
}.

End Chain.

(** ** Degenerate scans *)

(** A record for the single pixel [p = (y, x)]: its box is the pixel, its
    mask the one entry, its average the heatmap value of the pixel (as the
    [float] it is). *)
Definition pixel_component (width : Z) (heatmap : list Q)
    (comp : ComponentData.t) (p : Z * Z) : Prop :=
  ComponentData.xMin comp = p.2 /\ ComponentData.xMax comp = p.2
  /\ ComponentData.yMin comp = p.1 /\ ComponentData.yMax comp = p.1
  /\ ComponentData.size comp = 1
  /\ ComponentData.mask comp = [true]
  /\ ComponentData.avgProbability comp
     = F32.round (Vec.get 0%Q heatmap (p.1 * width + p.2)).

(** A flood fill that was seeded at the pixel [p = (y, x)] and visited
    nothing else. *)
Definition pixel_fill (f : FillRecord) (p : Z * Z) : Prop :=
  seedX f = p.2 /\ seedY f = p.1 /\ fillSize f = 1.

(** The state of a scan in which no pixel passes the colour test, after
    the pixels [done]. *)
Record isolated (width height : Z) (heatmap : list Q) (config : Config)
    (image0 : list Color) (done : list (Z * Z)) (s : ScanState) : Prop :=
  mk_isolated {
  iso_image : image (mem s) = image0;
  iso_clear : bigMask (mem s) = replicate (Z.to_nat (width * height)) false;
  iso_len : length (visited (mem s)) = Z.to_nat (width * height);
  iso_visited : forall x y, 0 <= x < width -> 0 <= y < height ->
      Vec.get false (visited (mem s)) (y * width + x) = true <-> (y, x) ∈ done;
  iso_fills : Forall2 pixel_fill (fills s) done;
  iso_none : 1 < minComponentSize config ->
      components s = [] /\ componentCount s = 0;
  iso_all : minComponentSize config <= 1 ->
      Forall2 (pixel_component width heatmap) (components s) done
      /\ ComponentData.id <$> components s = seqZ 1 (Z.of_nat (length done))
      /\ componentCount s = Z.of_nat (length done)
}.

(** ** Text *)

(** [std::string] is a list of characters.  The characters that
    [escapeJsonString] treats are named by their codes. *)
Definition backslash : ascii := "092"%char.
Definition quote : ascii := "034"%char.
Definition backspace : ascii := "008"%char.
Definition formfeed : ascii := "012"%char.
Definition newline : ascii := "010"%char.
Definition carriage_return : ascii := "013"%char.
Definition tab : ascii := "009"%char.

(** The [switch] of [escapeJsonString]: what is appended for [c]. *)
Definition escape_char (c : ascii) : list ascii :=
  if Ascii.eqb c backslash then [backslash; backslash]
  else if Ascii.eqb c quote then [backslash; quote]
  else if Ascii.eqb c backspace then [backslash; "b"%char]
  else if Ascii.eqb c formfeed then [backslash; "f"%char]
  else if Ascii.eqb c newline then [backslash; "n"%char]
  else if Ascii.eqb c carriage_return then [backslash; "r"%char]
  else if Ascii.eqb c tab then [backslash; "t"%char]
  else [c].

(** [escapeJsonString]: the loop appends to [escaped], which starts empty. *)
Definition escapeJsonString (str : list ascii) : list ascii :=
  foldl (fun escaped c => escaped ++ escape_char c) [] str.

(** The reading of the escapes, by which the argument of
    [escapeJsonString] is recovered from its result. *)
Fixpoint unescape (s : list ascii) : list ascii :=
  match s with
  | [] => []
  | c :: rest =>
      if Ascii.eqb c backslash
      then match rest with
           | [] => [c]
           | e :: rest' =>
               (if Ascii.eqb e "b"%char then backspace
                else if Ascii.eqb e "f"%char then formfeed
                else if Ascii.eqb e "n"%char then newline
                else if Ascii.eqb e "r"%char then carriage_return
                else if Ascii.eqb e "t"%char then tab
                else e) :: unescape rest'
           end
      else c :: unescape rest
  end.

(** ** The files of [processImages] *)

Definition hmp_suffix : list ascii := ["."; "h"; "m"; "p"]%char.

(** [==] on [std::string]. *)
Fixpoint text_eqb (s1 s2 : list ascii) : bool :=
  match s1, s2 with
  | [], [] => true
  | c1 :: s1', c2 :: s2' => Ascii.eqb c1 c2 && text_eqb s1' s2'
  | _, _ => false
  end.

(** [filePath.size() >= 4 && filePath.substr(filePath.size() - 4) == ".hmp"]
    (source line 187). *)
Definition is_heatmap_path (filePath : list ascii) : bool :=
  (4 <=? Z.of_nat (length filePath))
  && text_eqb (drop (length filePath - 4) filePath) hmp_suffix.

(** [filePath.substr(0, filePath.size() - 4) + ".hmp"] (source line 202).
    The count [size() - 4] is a [size_t] and wraps below four characters;
    [substr] stops at the end of the string. *)
Definition heatmapPath (filePath : list ascii) : list ascii :=
  take (Z.to_nat ((Z.of_nat (length filePath) - 4) mod 2 ^ 64)) filePath
  ++ hmp_suffix.

(** The loop over the files of the input directory (source lines 183-188):
    the files that are taken for images, each with the number [i + 1] under
    which its outputs are written. *)
Definition numbered_images (files : list (list ascii)) : list (list ascii * Z) :=
  (foldl (fun (acc : Z * list (list ascii * Z)) filePath =>
            let '(i, images) := acc in
            if is_heatmap_path filePath then (i, images)
            else (i + 1, images ++ [(filePath, i + 1 + 1)]))
         (-1, []) files).2.

(** The memory of the scan of the two-tone 2x1 image at its first pixel. *)
Definition two_tone_memory : FillState :=
  mkFillState [gray10; gray200] [false; false] [false; false] [] 2 0 1 0 0.

(** [example_config] with the colour threshold [k = -1]. *)
Definition negative_config : Config := mkConfig (-1) false false false 1 (1 # 2).

(** Two records of sizes 3 and 2. *)
Definition two_sizes : list ComponentData.t :=
  [ ComponentData.mk 1 0 2 0 0 3 (F32.Finite 1) [true; true; true];
    ComponentData.mk 2 3 4 0 0 2 (F32.Finite 1) [true; true] ].

(** The file path [a.jpg]. *)
Definition example_path : list ascii := ["a"; "."; "j"; "p"; "g"]%char.

(** ** The two scans side by side *)

(** Two states of the flood fill that differ at most in the running box. *)
Definition same_but_box (st1 st2 : FillState) : Prop :=
  image st1 = image st2 /\ visited st1 = visited st2 /\ bigMask st1 = bigMask st2
  /\ stack st1 = stack st2 /\ currentComponentSize st1 = currentComponentSize st2.

(** A record of [processImage] and what [processImages] writes for the
    same component: the same number, box and mask.  Either average is the
    mean on [float] of the heatmap values at the positions of the mask,
    which [processImage] adds row by row and [processImages] column by
    column. *)
Definition same_record (width : Z) (heatmap : list Q)
    (comp : ComponentData.t) (c : SavedComponent) : Prop :=
  saved_component c = ComponentData.id comp
  /\ saved_x c = ComponentData.xMin comp
  /\ saved_y c = ComponentData.yMin comp
  /\ saved_width c = ComponentData.xMax comp - ComponentData.xMin comp + 1
  /\ saved_height c = ComponentData.yMax comp - ComponentData.yMin comp + 1
  /\ saved_mask c = ComponentData.mask comp
  /\ saved_positions c
     ≡ₚ masked_positions (ComponentData.xMin comp) (ComponentData.xMax comp)
          (ComponentData.yMin comp) (ComponentData.yMax comp) (ComponentData.mask comp)
  /\ ComponentData.avgProbability comp
     = float_mean
         (values_at width heatmap
            (masked_positions (ComponentData.xMin comp) (ComponentData.xMax comp)
               (ComponentData.yMin comp) (ComponentData.yMax comp)
               (ComponentData.mask comp)))
  /\ saved_probability c
     = float_mean (values_at width heatmap (saved_positions c)).

(** The scan of [processImage] and the scan of [processImages] after the
    same iterations. *)
Record agree (width : Z) (heatmap : list Q) (s : ScanState) (b : BatchState)
    : Prop := mk_agree {
  ag_image : image (batch_mem b) = image (mem s);
  ag_visited : visited (batch_mem b) = visited (mem s);
  ag_count : batch_componentCount b = componentCount s;
  ag_fills : batch_fills b = length (fills s);
  ag_records : Forall2 (same_record width heatmap) (components s) (batch_saved b)
}.

(** ** The colours of the segmentation image *)

(** What the scan has done to the image [image0] it started from: a pixel
    outside the Visited Set has its colour; a pixel visited by the [j]-th
    flood fill has its colour or the fill colour drawn for that fill; and,
    when [k] is not negative, the seed of the [j]-th flood fill has that
    fill colour. *)
Record paint_inv (width height : Z) (config : Config) (randomColor : nat -> Color)
    (image0 : list Color) (s : ScanState) : Prop := mk_paint_inv {
  pi_len : length (image (mem s)) = length image0;
  pi_unvisited : forall i : nat,
      visited (mem s) !! i <> Some true -> image (mem s) !! i = image0 !! i;
  pi_visited : forall (i j : nat) f,
      fills s !! j = Some f -> region f !! i = Some true ->
      image (mem s) !! i = image0 !! i
      \/ image (mem s) !! i = Some (randomColor j);
  pi_seed : (0 <= k config)%Q -> forall (j : nat) f,
      fills s !! j = Some f ->
      image (mem s) !! Z.to_nat (seedY f * width + seedX f) = Some (randomColor j)
}.

(** ** The overlay of [processImages] *)

(** The pixels of the image that the mask of a saved component marks. *)
Definition saved_pixel (c : SavedComponent) (x y : Z) : Prop :=
  saved_x c <= x < saved_x c + saved_width c
  /\ saved_y c <= y < saved_y c + saved_height c
  /\ Vec.get false (saved_mask c)
       ((y - saved_y c) * saved_width c + (x - saved_x c)) = true.

(** A component that is saved under [building_blocks] and whose mask marks
    fewer than a quarter of the pixels of the image. *)
Definition small_building_block (width height : Z) (c : SavedComponent) : Prop :=
  saved_in_building_blocks c = true
  /\ Z.of_nat (Vec.count_true (saved_mask c)) < (width * height) ÷ 4.

(** The overlay image between two iterations of the scan of
    [processImages]. *)
Record overlay_inv (width height : Z) (b : BatchState) : Prop := mk_overlay_inv {
  ov_len : length (batch_buildingBlocksImage b) = Z.to_nat (width * height);
  ov_black : forall x y, 0 <= x < width -> 0 <= y < height ->
      (exists c, c ∈ batch_saved b /\ small_building_block width height c
                 /\ saved_pixel c x y) ->
      Vec.get white (batch_buildingBlocksImage b) (y * width + x) = black;
  ov_white : forall x y, 0 <= x < width -> 0 <= y < height ->
      ~ (exists c, c ∈ batch_saved b /\ small_building_block width height c
                   /\ saved_pixel c x y) ->
      Vec.get white (batch_buildingBlocksImage b) (y * width + x) = white
}.

(** * Properties *)

(** ** Vectors *)

Section VecFacts.

Context {A : Type}.
Implicit Types (v : list A) (i j : Z).

Lemma get_lookup d v i x : v !! Z.to_nat i = Some x -> Vec.get d v i = x.
Proof. unfold Vec.get. intros ->. reflexivity. Qed.

Lemma length_set v i x : length (Vec.set v i x) = length v.
Proof. apply length_insert. Qed.

Lemma lookup_set_eq v i x :
  (Z.to_nat i < length v)%nat -> Vec.set v i x !! Z.to_nat i = Some x.
Proof. intros Hi. unfold Vec.set. by apply list_lookup_insert_eq. Qed.

Lemma lookup_set_ne v i x (n : nat) :
  Z.to_nat i <> n -> Vec.set v i x !! n = v !! n.
Proof. intros Hi. unfold Vec.set. by apply list_lookup_insert_ne. Qed.

Lemma get_set_eq d v i x :
  (Z.to_nat i < length v)%nat -> Vec.get d (Vec.set v i x) i = x.
Proof. intros Hi. apply get_lookup. by apply lookup_set_eq. Qed.

Lemma get_set_ne d v i j x :
  Z.to_nat i <> Z.to_nat j -> Vec.get d (Vec.set v i x) j = Vec.get d v j.
Proof. intros Hi. unfold Vec.get. by rewrite lookup_set_ne. Qed.

End VecFacts.

Lemma get_false_lookup (v : list bool) i :
  (Z.to_nat i < length v)%nat -> Vec.get false v i = false ->
  v !! Z.to_nat i = Some false.
Proof.
  intros Hi. unfold Vec.get.
  destruct (lookup_lt_is_Some_2 v (Z.to_nat i) Hi) as [x Hx].
  rewrite Hx. simpl. by intros ->.
Qed.

Lemma get_true_lookup (v : list bool) i :
  Vec.get false v i = true <-> v !! Z.to_nat i = Some true.
Proof.
  unfold Vec.get. destruct (v !! Z.to_nat i) as [[]|]; simpl; split; congruence.
Qed.

Lemma count_false_insert (v : list bool) (n : nat) :
  v !! n = Some false ->
  S (Vec.count_false (<[n := true]> v)) = Vec.count_false v.
Proof.
  revert n. induction v as [|x v IH]; intros [|n] Hn; simpl in *; try discriminate.
  - by inversion Hn.
  - rewrite <- (IH n Hn). lia.
Qed.

Lemma count_true_insert (v : list bool) (n : nat) :
  v !! n = Some false ->
  Vec.count_true (<[n := true]> v) = S (Vec.count_true v).
Proof.
  revert n. induction v as [|x v IH]; intros [|n] Hn; simpl in *; try discriminate.
  - by inversion Hn.
  - rewrite (IH n Hn). lia.
Qed.

Lemma count_true_le_length (v : list bool) : (Vec.count_true v <= length v)%nat.
Proof. induction v as [|[] v IH]; simpl; lia. Qed.

Lemma count_true_false (v : list bool) :
  (Vec.count_true v + Vec.count_false v = length v)%nat.
Proof. induction v as [|[] v IH]; simpl; lia. Qed.

(** ** Pixels and their indices *)

Section Geometry.

Variables (width height : Z).

Lemma in_bounds_spec x y :
  in_bounds width height x y = true <-> 0 <= x < width /\ 0 <= y < height.
Proof. unfold in_bounds. lia. Qed.

Lemma index_range x y :
  0 <= x < width -> 0 <= y < height -> 0 <= y * width + x < width * height.
Proof. intros Hx Hy. nia. Qed.

Lemma index_lt_length x y n :
  0 <= x < width -> 0 <= y < height -> n = Z.to_nat (width * height) ->
  (Z.to_nat (y * width + x) < n)%nat.
Proof. intros Hx Hy ->. pose proof (index_range x y Hx Hy). lia. Qed.

Lemma index_inj x y x' y' :
  0 <= x < width -> 0 <= y < height -> 0 <= x' < width -> 0 <= y' < height ->
  Z.to_nat (y * width + x) = Z.to_nat (y' * width + x') -> x = x' /\ y = y'.
Proof.
  intros Hx Hy Hx' Hy' E.
  pose proof (index_range x y Hx Hy). pose proof (index_range x' y' Hx' Hy').
  assert (y * width + x = y' * width + x') as E' by lia.
  assert (y = y') by nia. subst. lia.
Qed.

End Geometry.

(** ** Termination of the flood fill *)

Section FillTermination.

Variables (width height : Z).
Variables (startColor : ColorRef) (k : Q) (use8Way adj euclidif : bool).
Variable (newColor : Color).

Local Abbreviation step := (fill_step width height startColor k use8Way adj euclidif newColor).
Local Abbreviation loop := (fill_loop width height startColor k use8Way adj euclidif newColor).

Lemma length_pushes x y c : (length (pushes use8Way x y c) <= 8)%nat.
Proof. unfold pushes. destruct use8Way; simpl; lia. Qed.

(** The two kinds of iteration. *)
Lemma fill_step_cases st st' :
  length (visited st) = Z.to_nat (width * height) ->
  step st = Some st' ->
  (visited st' = visited st /\ S (length (stack st')) = length (stack st))
  \/ (S (Vec.count_false (visited st')) = Vec.count_false (visited st)
      /\ length (visited st') = length (visited st)
      /\ (S (length (stack st')) <= length (stack st) + 8)%nat).
Proof.
  intros Hlen. unfold fill_step.
  destruct (stack st) as [|[[x y] nc] rest] eqn:Hst; [discriminate|].
  destruct (negb (in_bounds width height x y)) eqn:Hb; simpl.
  { intros [= <-]. left. simpl. auto. }
  destruct (Vec.get false (visited st) (y * width + x)) eqn:Hv.
  { intros [= <-]. left. simpl. auto. }
  apply negb_false_iff, in_bounds_spec in Hb. destruct Hb as [Hx Hy].
  assert (visited st !! Z.to_nat (y * width + x) = Some false) as Hlk.
  { apply get_false_lookup; [|done]. rewrite Hlen. by eapply index_lt_length. }
  destruct (colorDifference_le _ _ _ _); intros [= <-]; right; simpl;
    unfold Vec.set; rewrite (count_false_insert _ _ Hlk), length_insert;
    repeat split; try lia.
  rewrite length_app. pose proof (length_pushes x y (Vec.get black (image st) (y * width + x))). lia.
Qed.

Lemma fill_step_measure st st' :
  length (visited st) = Z.to_nat (width * height) ->
  step st = Some st' ->
  (fill_measure st' < fill_measure st)%nat
  /\ length (visited st') = Z.to_nat (width * height).
Proof.
  intros Hlen Hs. unfold fill_measure.
  destruct (fill_step_cases st st' Hlen Hs) as [[-> ?]|(? & ? & ?)]; split; lia.
Qed.

Lemma fill_step_None st : step st = None <-> stack st = [].
Proof.
  unfold fill_step. destruct (stack st) as [|[[x y] nc] rest]; [done|].
  split; [|done].
  destruct (_ || _); [done|]. destruct (colorDifference_le _ _ _ _); done.
Qed.

Lemma fill_loop_empties fuel st :
  length (visited st) = Z.to_nat (width * height) ->
  (fill_measure st <= fuel)%nat ->
  stack (loop fuel st) = [].
Proof.
  revert st. induction fuel as [|fuel IH]; intros st Hlen Hm; simpl.
  - unfold fill_measure in Hm. apply length_zero_iff_nil. lia.
  - destruct (step st) as [st'|] eqn:Hs.
    + destruct (fill_step_measure st st' Hlen Hs) as [Hlt Hlen'].
      apply IH; [done|lia].
    + by apply fill_step_None.
Qed.

End FillTermination.

(** C10. The flood fill terminates on every image whose Visited Set has one
    entry per pixel: an iteration of the loop either discards the popped
    entry (the Visited Set is unchanged and the stack is one entry
    shorter) or marks exactly one unvisited pixel and leaves at most eight
    entries more than it popped; hence the loop started from any stack
    reaches the empty stack within [9 * unvisited + |stack|] iterations,
    and [floodFillIterative] returns with its stack empty. *)
Theorem flood_fill_terminates
    (width height : Z) (startColor : ColorRef) (k : Q)
    (use8Way adj euclidif : bool) (newColor : Color) (st : FillState) :
  length (visited st) = Z.to_nat (width * height) ->
  (forall st',
     fill_step width height startColor k use8Way adj euclidif newColor st = Some st' ->
     (visited st' = visited st /\ S (length (stack st')) = length (stack st))
     \/ (S (Vec.count_false (visited st')) = Vec.count_false (visited st)
         /\ length (visited st') = length (visited st)
         /\ (S (length (stack st')) <= length (stack st) + 8)%nat))
  /\ (exists n, (n <= 9 * Vec.count_false (visited st) + length (stack st))%nat /\
        fill_step width height startColor k use8Way adj euclidif newColor
          (fill_loop width height startColor k use8Way adj euclidif newColor n st)
        = None)
  /\ (forall startX startY,
        stack (floodFillIterative width height startColor k use8Way adj euclidif
                 newColor startX startY st) = []).
Proof.
  intros Hlen. split; [|split].
  - intros st' Hs. by eapply fill_step_cases.
  - exists (fill_measure st). split; [unfold fill_measure; lia|].
    apply fill_step_None. by apply fill_loop_empties.
  - intros startX startY. unfold floodFillIterative.
    by apply fill_loop_empties.
Qed.

(** ** What a flood fill marks *)

Lemma all_false_replicate n : all_false (replicate n false).
Proof. intros i Hi. apply lookup_replicate in Hi as [? _]. discriminate. Qed.

Lemma all_false_eq_replicate (v : list bool) :
  all_false v -> v = replicate (length v) false.
Proof.
  intros Hv. apply list_eq. intros i.
  destruct (v !! i) as [[]|] eqn:E.
  - by destruct (Hv i).
  - symmetry. apply lookup_replicate. split; [done|]. by eapply lookup_lt_Some.
  - symmetry. apply lookup_ge_None. rewrite length_replicate.
    by apply lookup_ge_None.
Qed.

Lemma all_false_count (v : list bool) : all_false v -> Vec.count_true v = 0%nat.
Proof.
  induction v as [|[] v IH]; intros Hv; simpl; [done| |].
  - by destruct (Hv 0%nat).
  - apply IH. intros i. apply (Hv (S i)).
Qed.

Lemma lookup_bool_cases (v : list bool) (i : nat) :
  (i < length v)%nat -> v !! i = Some true \/ v !! i = Some false.
Proof.
  intros Hi. destruct (lookup_lt_is_Some_2 v i Hi) as [[] Hx]; auto.
Qed.

Section FillInvariant.

Variables (width height : Z).
Variables (startColor : ColorRef) (k : Q) (use8Way adj euclidif : bool).
Variable (newColor : Color).

Local Abbreviation step := (fill_step width height startColor k use8Way adj euclidif newColor).
Local Abbreviation loop := (fill_loop width height startColor k use8Way adj euclidif newColor).

Lemma fill_rel_start st0 st :
  length (bigMask st0) = length (visited st0) ->
  all_false (bigMask st0) ->
  visited st = visited st0 -> bigMask st = bigMask st0 -> image st = image st0 ->
  currentComponentXmin st = currentComponentXmin st0 ->
  currentComponentXmax st = currentComponentXmax st0 ->
  currentComponentYmin st = currentComponentYmin st0 ->
  currentComponentYmax st = currentComponentYmax st0 ->
  currentComponentSize st = currentComponentSize st0 ->
  fill_rel width height st0 st.
Proof.
  intros Hl Hf Hv Hm Hi Hx1 Hx2 Hy1 Hy2 Hs.
  constructor; rewrite ?Hv, ?Hm, ?Hi; auto.
  - intros i. split; [intros H; by destruct (Hf i)|]. intros [H1 H2]. congruence.
  - rewrite (all_false_count _ Hf). lia.
  - rewrite (all_false_count _ Hf). lia.
  - intros x y _ _ H. by destruct (Hf _ H).
Qed.

Lemma fill_rel_step st0 st st' :
  length (visited st0) = Z.to_nat (width * height) ->
  length (bigMask st0) = Z.to_nat (width * height) ->
  fill_rel width height st0 st ->
  step st = Some st' ->
  fill_rel width height st0 st'.
Proof.
  intros Hlv Hlm R. unfold fill_step.
  destruct (stack st) as [|[[x y] nc] rest] eqn:Hst; [discriminate|].
  destruct (negb (in_bounds width height x y)) eqn:Hb; simpl.
  { intros [= <-]. destruct R. by constructor. }
  destruct (Vec.get false (visited st) (y * width + x)) eqn:Hv.
  { intros [= <-]. destruct R. by constructor. }
  apply negb_false_iff, in_bounds_spec in Hb. destruct Hb as [Hx Hy].
  set (j := Z.to_nat (y * width + x)).
  assert (j < Z.to_nat (width * height))%nat as Hj by (by eapply index_lt_length).
  assert (visited st !! j = Some false) as Hvj.
  { apply get_false_lookup; [|done]. rewrite (fr_len_visited _ _ _ _ R). lia. }
  assert (bigMask st !! j = Some false) as Hmj.
  { destruct (lookup_bool_cases (bigMask st) j) as [H|H]; [|  |done].
    - rewrite (fr_len_bigMask _ _ _ _ R). lia.
    - apply (fr_mask _ _ _ _ R) in H as [_ H]. congruence. }
  assert (visited st0 !! j = Some false) as Hv0.
  { destruct (lookup_bool_cases (visited st0) j) as [H|H]; [lia| |done].
    apply (fr_mono _ _ _ _ R) in H. congruence. }
  assert (forall i : nat, i <> j ->
    Vec.set (bigMask st) (y * width + x) true !! i = bigMask st !! i) as Hm_ne.
  { intros i Hi. apply lookup_set_ne. fold j. lia. }
  assert (Vec.set (bigMask st) (y * width + x) true !! j = Some true) as Hm_eq.
  { apply lookup_set_eq. fold j. rewrite (fr_len_bigMask _ _ _ _ R). lia. }
  assert (forall i : nat, i <> j ->
    Vec.set (visited st) (y * width + x) true !! i = visited st !! i) as Hv_ne.
  { intros i Hi. apply lookup_set_ne. fold j. lia. }
  assert (Vec.set (visited st) (y * width + x) true !! j = Some true) as Hv_eq.
  { apply lookup_set_eq. fold j. rewrite (fr_len_visited _ _ _ _ R). lia. }
  assert (forall i : nat, bigMask st !! i = Some true ->
    Vec.set (bigMask st) (y * width + x) true !! i = Some true) as Hm_keep.
  { intros i Hi. destruct (decide (i = j)) as [->|Hne]; [done|]. by rewrite Hm_ne. }
  intros Hstep.
  assert (image st' = image st \/ image st' = Vec.set (image st) (y * width + x) newColor) as Himg.
  { destruct (colorDifference_le _ _ _ _); injection Hstep as <-; simpl; auto. }
  assert (visited st' = Vec.set (visited st) (y * width + x) true
          /\ bigMask st' = Vec.set (bigMask st) (y * width + x) true
          /\ currentComponentXmin st' = Z.min (currentComponentXmin st) x
          /\ currentComponentXmax st' = Z.max (currentComponentXmax st) x
          /\ currentComponentYmin st' = Z.min (currentComponentYmin st) y
          /\ currentComponentYmax st' = Z.max (currentComponentYmax st) y
          /\ currentComponentSize st' = currentComponentSize st + 1)
    as (Ev & Em & Ex1 & Ex2 & Ey1 & Ey2 & Es).
  { destruct (colorDifference_le _ _ _ _); injection Hstep as <-; simpl; auto 10. }
  clear Hstep.
  constructor; rewrite ?Ev, ?Em, ?Ex1, ?Ex2, ?Ey1, ?Ey2, ?Es.
  - rewrite length_set. apply R.
  - rewrite length_set. apply R.
  - destruct Himg as [-> | ->]; rewrite ?length_set; apply R.
  - intros i Hi. destruct (decide (i = j)) as [->|Hne]; [done|].
    rewrite Hv_ne by done. by apply R.
  - intros i. destruct (decide (i = j)) as [->|Hne].
    + by rewrite Hm_eq, Hv_eq.
    + rewrite Hm_ne, Hv_ne by done. apply R.
  - unfold Vec.set. fold j. rewrite (count_true_insert _ _ Hmj).
    rewrite (fr_size _ _ _ _ R). lia.
  - unfold Vec.set. fold j.
    rewrite (count_true_insert _ _ Hmj), (count_true_insert _ _ Hvj).
    rewrite (fr_count _ _ _ _ R). lia.
  - intros x' y' Hx' Hy' H.
    destruct (decide (Z.to_nat (y' * width + x') = j)) as [E|Hne].
    + apply (index_inj width height) in E as [-> ->]; [lia|done..].
    + rewrite Hm_ne in H by done.
      pose proof (fr_box _ _ _ _ R x' y' Hx' Hy' H). lia.
  - destruct (Z.min_spec (currentComponentXmin st) x) as [[_ ->]|[_ ->]].
    + destruct (fr_xmin _ _ _ _ R) as [?|(y' & ? & ? & ?)]; [by left|].
      right. exists y'. auto.
    + right. exists y. auto.
  - destruct (Z.max_spec (currentComponentXmax st) x) as [[_ ->]|[_ ->]].
    + right. exists y. auto.
    + destruct (fr_xmax _ _ _ _ R) as [?|(y' & ? & ? & ?)]; [by left|].
      right. exists y'. auto.
  - destruct (Z.min_spec (currentComponentYmin st) y) as [[_ ->]|[_ ->]].
    + destruct (fr_ymin _ _ _ _ R) as [?|(x' & ? & ? & ?)]; [by left|].
      right. exists x'. auto.
    + right. exists x. auto.
  - destruct (Z.max_spec (currentComponentYmax st) y) as [[_ ->]|[_ ->]].
    + right. exists x. auto.
    + destruct (fr_ymax _ _ _ _ R) as [?|(x' & ? & ? & ?)]; [by left|].
      right. exists x'. auto.
Qed.

Lemma fill_rel_loop fuel st0 st :
  length (visited st0) = Z.to_nat (width * height) ->
  length (bigMask st0) = Z.to_nat (width * height) ->
  fill_rel width height st0 st ->
  fill_rel width height st0 (loop fuel st).
Proof.
  intros Hlv Hlm. revert st. induction fuel as [|fuel IH]; intros st R; simpl; [done|].
  destruct (step st) as [st'|] eqn:Hs; [|done].
  apply IH. by eapply fill_rel_step.
Qed.

End FillInvariant.

(** ** Nested loops *)

Lemma foldl_grid {S : Type} (f : S -> Z -> Z -> S) (s : S) (outer inner : list Z) :
  foldl (fun s a => foldl (fun s b => f s a b) s inner) s outer
  = foldl (fun s p => f s p.1 p.2) s (grid outer inner).
Proof.
  unfold grid. revert s. induction outer as [|a outer IH]; intros s; [done|].
  csimpl. rewrite foldl_app, foldl_fmap. simpl. apply IH.
Qed.

Lemma elem_of_grid outer inner a b :
  (a, b) ∈ grid outer inner <-> a ∈ outer /\ b ∈ inner.
Proof.
  unfold grid. rewrite list_elem_of_bind. split.
  - intros (a' & H & Ha'). apply list_elem_of_fmap in H as (b' & [= -> ->] & Hb'). done.
  - intros [Ha Hb]. exists a. split; [|done]. apply list_elem_of_fmap. eauto.
Qed.

Lemma NoDup_grid outer inner : NoDup outer -> NoDup inner -> NoDup (grid outer inner).
Proof.
  intros Ho Hi. unfold grid. apply NoDup_bind; [| |done].
  - intros a1 a2 [a b] _ _ H1 H2.
    apply list_elem_of_fmap in H1 as (? & [= -> ->] & _).
    apply list_elem_of_fmap in H2 as (? & [= -> ->] & _). done.
  - intros a _. apply NoDup_fmap_2; [|done]. by intros ?? [= ->].
Qed.

Lemma elem_of_box (xmin xmax ymin ymax a b : Z) :
  (a, b) ∈ grid (seqZ xmin (xmax - xmin + 1)) (seqZ ymin (ymax - ymin + 1))
  <-> xmin <= a <= xmax /\ ymin <= b <= ymax.
Proof. rewrite elem_of_grid, !elem_of_seqZ. lia. Qed.

Lemma filter_ext_in {A} (P1 P2 : A -> Prop)
    `{!forall x, Decision (P1 x), !forall x, Decision (P2 x)} (l : list A) :
  (forall x, x ∈ l -> P1 x <-> P2 x) -> filter P1 l = filter P2 l.
Proof.
  induction l as [|a l IH]; intros Hext; [done|].
  assert (filter P1 l = filter P2 l) as E.
  { apply IH. intros x Hx. apply Hext. by right. }
  destruct (decide (P1 a)) as [Ha|Ha].
  - rewrite !filter_cons_True; [by rewrite E| |done]. apply Hext; [by left|done].
  - rewrite !filter_cons_False; [done| |done]. intros Ha'. apply Ha, Hext; [by left|done].
Qed.

(** Writing [x] at the indices [ix p] for the elements [p] of a list. *)
Section FoldSet.

Context {P : Type} (ix : P -> Z) (x : bool).

Lemma length_foldl_set (ps : list P) (m : list bool) :
  length (foldl (fun m p => Vec.set m (ix p) x) m ps) = length m.
Proof.
  revert m. induction ps as [|p ps IH]; intros m; simpl; [done|].
  by rewrite IH, length_set.
Qed.

Lemma lookup_set_same (m : list bool) (j : Z) :
  Vec.set m j x !! Z.to_nat j = (fun _ => x) <$> m !! Z.to_nat j.
Proof.
  unfold Vec.set. destruct (decide (Z.to_nat j < length m)%nat) as [Hlt|Hge].
  - rewrite list_lookup_insert_eq by done.
    by destruct (lookup_lt_is_Some_2 m _ Hlt) as [? ->].
  - rewrite list_insert_ge by lia.
    rewrite (proj2 (lookup_ge_None m _)) by lia. done.
Qed.

Lemma lookup_foldl_set (ps : list P) (m : list bool) (i : nat) :
  foldl (fun m p => Vec.set m (ix p) x) m ps !! i
  = if decide (Exists (fun p => Z.to_nat (ix p) = i) ps)
    then (fun _ => x) <$> m !! i else m !! i.
Proof.
  revert m. induction ps as [|p ps IH]; intros m; cbn [foldl].
  - destruct (decide _) as [Hex|]; [by apply Exists_nil in Hex|done].
  - rewrite IH. clear IH.
    destruct (decide (Exists (fun q => Z.to_nat (ix q) = i) ps)) as [Hq|Hn].
    + rewrite decide_True by (by right).
      destruct (decide (Z.to_nat (ix p) = i)) as [<-|Hne].
      * rewrite lookup_set_same. by destruct (m !! _).
      * by rewrite lookup_set_ne.
    + destruct (decide (Z.to_nat (ix p) = i)) as [<-|Hne].
      * rewrite decide_True by (by left). apply lookup_set_same.
      * rewrite decide_False; [by rewrite lookup_set_ne|].
        intros Hex. apply Exists_cons in Hex as [?|?]; done.
Qed.

End FoldSet.

(** ** The loop that clears the scratch mask *)

Lemma clear_box_flat width xmin xmax ymin ymax m :
  clear_box width xmin xmax ymin ymax m
  = foldl (fun m p => Vec.set m (p.2 * width + p.1) false) m
      (grid (seqZ xmin (xmax - xmin + 1)) (seqZ ymin (ymax - ymin + 1))).
Proof.
  unfold clear_box.
  apply (foldl_grid (fun m cx cy => Vec.set m (cy * width + cx) false)).
Qed.

Lemma length_clear_box width xmin xmax ymin ymax m :
  length (clear_box width xmin xmax ymin ymax m) = length m.
Proof. rewrite clear_box_flat. apply length_foldl_set. Qed.

Lemma clear_box_all_false width xmin xmax ymin ymax m :
  (forall i : nat, m !! i = Some true ->
     exists cx cy, xmin <= cx <= xmax /\ ymin <= cy <= ymax
                   /\ Z.to_nat (cy * width + cx) = i) ->
  all_false (clear_box width xmin xmax ymin ymax m).
Proof.
  intros Hin i. rewrite clear_box_flat, lookup_foldl_set.
  destruct (decide _) as [_|Hn].
  - destruct (m !! i); simpl; congruence.
  - intros Hi. apply Hn. destruct (Hin i Hi) as (cx & cy & Hx & Hy & E).
    apply Exists_exists. exists (cx, cy). split; [|done]. by apply elem_of_box.
Qed.

(** ** The probability aggregation *)

Lemma foldl_ext_eq {S B : Type} (f g : S -> B -> S) (s : S) (l : list B) :
  (forall a x, f a x = g a x) -> foldl f s l = foldl g s l.
Proof.
  intros Hfg. revert s. induction l as [|x l IH]; intros s; simpl; [done|].
  by rewrite Hfg, IH.
Qed.

Section Aggregation.

Variables (width : Z) (heatmap : list Q) (bigMask : list bool).
Variables (xmin xmax ymin ymax : Z).

Local Abbreviation glob := (fun p : Z * Z => p.1 * width + p.2).
Local Abbreviation loc := (fun p : Z * Z => (p.1 - ymin) * (xmax - xmin + 1) + (p.2 - xmin)).
Local Abbreviation inbox := (fun p : Z * Z => ymin <= p.1 <= ymax /\ xmin <= p.2 <= xmax).
Local Abbreviation box := (grid (seqZ ymin (ymax - ymin + 1)) (seqZ xmin (xmax - xmin + 1))).
Local Abbreviation is_marked := (fun p : Z * Z => Vec.get false bigMask (glob p) = true).
Local Abbreviation marked := (filter is_marked box).
Local Abbreviation area := (Z.to_nat ((xmax - xmin + 1) * (ymax - ymin + 1))).
Local Abbreviation accumulate :=
  (fun (acc : F32.t * Z * list bool) (p : Z * Z) =>
     let '(totalProbability, pixelCount, mask) := acc in
     if Vec.get false bigMask (glob p)
     then (F32.add totalProbability (F32.Finite (Vec.get 0%Q heatmap (glob p))),
           pixelCount + 1, Vec.set mask (loc p) true)
     else (totalProbability, pixelCount, mask)).

Lemma elem_of_rows (p : Z * Z) : p ∈ box <-> inbox p.
Proof. destruct p as [cy cx]. rewrite elem_of_grid, !elem_of_seqZ. simpl. lia. Qed.

Lemma elem_of_columns (p : Z * Z) : p ∈ box_by_columns xmin xmax ymin ymax <-> inbox p.
Proof.
  unfold box_by_columns. rewrite list_elem_of_fmap. split.
  - intros ([cx cy] & -> & Hq). apply elem_of_box in Hq. simpl. lia.
  - intros Hp. exists (p.2, p.1). split; [by destruct p|]. apply elem_of_box. lia.
Qed.

Lemma NoDup_columns : NoDup (box_by_columns xmin xmax ymin ymax).
Proof.
  unfold box_by_columns. apply NoDup_fmap_2.
  - intros [a b] [a' b'] [= -> ->]. done.
  - apply NoDup_grid; apply NoDup_seqZ.
Qed.

Lemma loc_range_in (p : Z * Z) :
  inbox p -> 0 <= loc p < (xmax - xmin + 1) * (ymax - ymin + 1).
Proof. intros Hp. destruct p as [py px]. simpl in *. nia. Qed.

Lemma loc_inj_in (p q : Z * Z) :
  inbox p -> inbox q -> Z.to_nat (loc p) = Z.to_nat (loc q) -> p = q.
Proof.
  intros Hp Hq E.
  pose proof (loc_range_in p Hp) as Hrp. pose proof (loc_range_in q Hq) as Hrq.
  destruct p as [py px], q as [qy qx]. simpl in *.
  assert ((py - ymin) * (xmax - xmin + 1) + (px - xmin)
          = (qy - ymin) * (xmax - xmin + 1) + (qx - xmin)) as E' by lia.
  assert (py = qy) by nia. subst. f_equal. lia.
Qed.

Lemma loc_range (p : Z * Z) :
  p ∈ box -> 0 <= loc p < (xmax - xmin + 1) * (ymax - ymin + 1).
Proof. intros Hp%elem_of_rows. by apply loc_range_in. Qed.

Lemma loc_inj (p q : Z * Z) :
  p ∈ box -> q ∈ box -> Z.to_nat (loc p) = Z.to_nat (loc q) -> p = q.
Proof. intros Hp%elem_of_rows Hq%elem_of_rows. by apply loc_inj_in. Qed.

(** The loop of [processImage] goes through the box row by row, the loop
    of [processImages] column by column. *)
Lemma extract_mask_flat :
  extract_mask width heatmap bigMask xmin xmax ymin ymax
  = foldl accumulate (F32.Finite 0, 0, replicate area false) box.
Proof.
  unfold extract_mask.
  rewrite <- (foldl_grid (fun acc cy cx => accumulate acc (cy, cx))).
  reflexivity.
Qed.

Lemma extract_mask_batch_flat :
  extract_mask_batch width heatmap bigMask xmin xmax ymin ymax
  = foldl accumulate (F32.Finite 0, 0, replicate area false)
      (box_by_columns xmin xmax ymin ymax).
Proof.
  unfold extract_mask_batch, box_by_columns. rewrite foldl_fmap.
  rewrite <- (foldl_grid (fun acc cx cy => accumulate acc (cy, cx))).
  apply foldl_ext_eq. intros acc cx. apply foldl_ext_eq. intros [[t c] m] cy.
  cbn [fst snd]. rewrite <- Z.add_sub_assoc. reflexivity.
Qed.

Lemma extract_fold (ps : list (Z * Z)) (t : F32.t) (c : Z) (m : list bool) :
  foldl accumulate (t, c, m) ps
  = (foldl (fun t p => F32.add t (F32.Finite (Vec.get 0%Q heatmap (glob p)))) t
       (filter is_marked ps),
     c + Z.of_nat (length (filter is_marked ps)),
     foldl (fun m p => Vec.set m (loc p) true) m (filter is_marked ps)).
Proof.
  revert t c m. induction ps as [|p ps IH]; intros t c m.
  - simpl. do 2 f_equal. lia.
  - cbn [foldl]. destruct (Vec.get false bigMask (glob p)) eqn:E.
    + rewrite filter_cons_True by done. rewrite IH. cbn [foldl length].
      do 2 f_equal. lia.
    + rewrite filter_cons_False by congruence. apply IH.
Qed.

(** The mask built by the loop is the scratch mask seen through the box. *)
Lemma extracted_mask_lookup_in (ps : list (Z * Z)) (p : Z * Z) :
  (forall q, q ∈ ps -> inbox q) -> p ∈ ps ->
  Vec.get false
    (foldl (fun m q => Vec.set m (loc q) true) (replicate area false)
       (filter is_marked ps)) (loc p)
  = Vec.get false bigMask (glob p).
Proof.
  intros Hps Hp. unfold Vec.get at 1. rewrite lookup_foldl_set.
  pose proof (loc_range_in p (Hps p Hp)) as Hr.
  assert (replicate area false !! Z.to_nat (loc p) = Some false) as Hrep.
  { apply lookup_replicate. split; [done|]. lia. }
  rewrite Hrep. destruct (decide _) as [Hex|Hn]; simpl.
  - apply Exists_exists in Hex as (q & Hq & E).
    apply list_elem_of_filter in Hq as [Hq1 Hq2].
    apply loc_inj_in in E; [|by apply Hps..]. by subst.
  - destruct (Vec.get false bigMask (glob p)) eqn:E; [|done].
    destruct Hn. apply Exists_exists. exists p. split; [|done].
    by apply list_elem_of_filter.
Qed.

Lemma masked_filter (ps : list (Z * Z)) :
  (forall q, q ∈ ps -> inbox q) ->
  filter (fun p : Z * Z =>
            Vec.get false
              (foldl (fun m q => Vec.set m (loc q) true) (replicate area false)
                 (filter is_marked ps)) (loc p) = true) ps
  = filter is_marked ps.
Proof.
  intros Hps. apply filter_ext_in. intros p Hp.
  by rewrite extracted_mask_lookup_in.
Qed.

Lemma extracted_mask_lookup (p : Z * Z) :
  p ∈ box ->
  Vec.get false (foldl (fun m q => Vec.set m (loc q) true) (replicate area false) marked) (loc p)
  = Vec.get false bigMask (glob p).
Proof. apply extracted_mask_lookup_in. intros q. apply elem_of_rows. Qed.

Lemma float_sum_values (ps : list (Z * Z)) :
  foldl (fun t p => F32.add t (F32.Finite (Vec.get 0%Q heatmap (glob p))))
    (F32.Finite 0) ps
  = float_sum (values_at width heatmap ps).
Proof. unfold float_sum, values_at. by rewrite foldl_fmap. Qed.

Lemma extract_mask_spec :
  extract_mask width heatmap bigMask xmin xmax ymin ymax
  = (float_sum (values_at width heatmap marked),
     Z.of_nat (length marked),
     foldl (fun m q => Vec.set m (loc q) true) (replicate area false) marked).
Proof. rewrite extract_mask_flat, extract_fold, float_sum_values. reflexivity. Qed.

Lemma extract_mask_batch_spec :
  extract_mask_batch width heatmap bigMask xmin xmax ymin ymax
  = (float_sum (values_at width heatmap
                  (filter is_marked (box_by_columns xmin xmax ymin ymax))),
     Z.of_nat (length (filter is_marked (box_by_columns xmin xmax ymin ymax))),
     foldl (fun m q => Vec.set m (loc q) true) (replicate area false)
       (filter is_marked (box_by_columns xmin xmax ymin ymax))).
Proof. rewrite extract_mask_batch_flat, extract_fold, float_sum_values. reflexivity. Qed.

Lemma masked_positions_extracted :
  masked_positions xmin xmax ymin ymax
    (foldl (fun m q => Vec.set m (loc q) true) (replicate area false) marked)
  = marked.
Proof. unfold masked_positions. apply masked_filter. intros q. apply elem_of_rows. Qed.

End Aggregation.

(** ** Rounding to binary32 *)

Lemma pow2_power e : (F32.pow2 e == 2 ^ e)%Q.
Proof.
  unfold F32.pow2. destruct (Z.leb_spec 0 e) as [H|H].
  - by apply Zpower_Qpower.
  - replace e with (- (- e)) at 2 by lia. rewrite Qpower_opp.
    change 2%Q with (inject_Z 2). rewrite <- (Zpower_Qpower 2 (- e)) by lia.
    assert (0 < 2 ^ (- e)) as Hpos by (apply Z.pow_pos_nonneg; lia).
    destruct (2 ^ (- e)) as [|p|p]; try lia. reflexivity.
Qed.

Lemma pow2_pos e : (0 < F32.pow2 e)%Q.
Proof. rewrite pow2_power. by apply Qpower_0_lt. Qed.

Lemma pow2_add a b : (F32.pow2 (a + b) == F32.pow2 a * F32.pow2 b)%Q.
Proof. rewrite !pow2_power. by apply Qpower_plus. Qed.

Lemma pow2_le a b : a <= b -> (F32.pow2 a <= F32.pow2 b)%Q.
Proof. intros H. rewrite !pow2_power. by apply Qpower_le_compat_l. Qed.

Lemma pow2_lt a b : a < b -> (F32.pow2 a < F32.pow2 b)%Q.
Proof. intros H. rewrite !pow2_power. by apply Qpower_lt_compat_l. Qed.

Lemma pow2_lt_inv a b : (F32.pow2 a < F32.pow2 b)%Q -> a < b.
Proof. rewrite !pow2_power. intros H. by apply (Qpower_lt_compat_l_inv 2). Qed.

Lemma pow2_inject e : 0 <= e -> F32.pow2 e = inject_Z (2 ^ e).
Proof. intros H. unfold F32.pow2. by destruct (Z.leb_spec 0 e); [|lia]. Qed.

Lemma pow2_cancel e : (F32.pow2 e * F32.pow2 (- e) == 1)%Q.
Proof. rewrite <- pow2_add. by replace (e + - e) with 0 by lia. Qed.

Lemma Qabs_fraction q :
  (Qabs q * inject_Z (Z.pos (Qden q)) == inject_Z (Z.abs (Qnum q)))%Q.
Proof. destruct q as [n d]. unfold Qeq. simpl. rewrite Pos.mul_1_r. ring. Qed.

Lemma exponent_test q e :
  (Z.pos (Qden q) * 2 ^ Z.max 0 e <=? Z.abs (Qnum q) * 2 ^ Z.max 0 (- e)) = true
  <-> (F32.pow2 e <= Qabs q)%Q.
Proof.
  set (D := inject_Z (Z.pos (Qden q))).
  set (P := F32.pow2 (Z.max 0 (- e))).
  assert (0 < D * P)%Q as Hpos.
  { apply Qmult_lt_0_compat; [reflexivity|apply pow2_pos]. }
  assert (F32.pow2 e * (D * P)
          == inject_Z (Z.pos (Qden q) * 2 ^ Z.max 0 e))%Q as E1.
  { rewrite inject_Z_mult, <- pow2_inject by lia.
    replace (Z.max 0 e) with (e + Z.max 0 (- e)) by lia.
    rewrite pow2_add. unfold D, P. ring. }
  assert (Qabs q * (D * P)
          == inject_Z (Z.abs (Qnum q) * 2 ^ Z.max 0 (- e)))%Q as E2.
  { rewrite inject_Z_mult, <- pow2_inject by lia. fold P.
    rewrite <- (Qabs_fraction q). fold D. ring. }
  rewrite Z.leb_le, Zle_Qle, <- E1, <- E2. by apply Qmult_le_r.
Qed.

Lemma exponent_spec q :
  ~ (q == 0)%Q ->
  (F32.pow2 (F32.exponent q) <= Qabs q < F32.pow2 (F32.exponent q + 1))%Q.
Proof.
  intros Hq.
  assert (0 < Z.abs (Qnum q)) as Hn.
  { destruct q as [n d]. unfold Qeq in Hq. simpl in *. lia. }
  set (D := inject_Z (Z.pos (Qden q))).
  set (N := inject_Z (Z.abs (Qnum q))).
  set (ln := Z.log2 (Z.abs (Qnum q))).
  set (ld := Z.log2 (Z.pos (Qden q))).
  assert (0 < D)%Q as HD by reflexivity.
  assert (0 <= ln) as Hln by apply Z.log2_nonneg.
  assert (0 <= ld) as Hld by apply Z.log2_nonneg.
  assert (F32.pow2 ln <= N /\ N < F32.pow2 (ln + 1))%Q as [Hn1 Hn2].
  { destruct (Z.log2_spec _ Hn) as [H1 H2]. fold ln in H1, H2.
    rewrite !pow2_inject by lia. unfold N.
    rewrite <- Zle_Qle, <- Zlt_Qlt. split; [done|]. by replace (ln + 1) with (Z.succ ln) by lia. }
  assert (F32.pow2 ld <= D /\ D < F32.pow2 (ld + 1))%Q as [Hd1 Hd2].
  { destruct (Z.log2_spec (Z.pos (Qden q))) as [H1 H2]; [done|]. fold ld in H1, H2.
    rewrite !pow2_inject by lia. unfold D.
    rewrite <- Zle_Qle, <- Zlt_Qlt. split; [done|]. by replace (ld + 1) with (Z.succ ld) by lia. }
  pose proof (Qabs_fraction q) as E. fold D N in E.
  assert (Qabs q < F32.pow2 (ln - ld + 1))%Q as Hupper.
  { apply (Qmult_lt_r _ _ D HD). rewrite E.
    apply (Qlt_le_trans _ _ _ Hn2).
    replace (ln + 1) with (ln - ld + 1 + ld) by lia. rewrite pow2_add.
    apply Qmult_le_l; [apply pow2_pos|done]. }
  assert (F32.pow2 (ln - ld - 1) < Qabs q)%Q as Hlower.
  { apply (Qmult_lt_r _ _ D HD). rewrite E.
    apply (Qlt_le_trans _ (F32.pow2 (ln - ld - 1) * F32.pow2 (ld + 1))).
    - apply Qmult_lt_l; [apply pow2_pos|done].
    - rewrite <- pow2_add. by replace (ln - ld - 1 + (ld + 1)) with ln by lia. }
  unfold F32.exponent. fold ln ld. cbv zeta.
  destruct (_ <=? _) eqn:T.
  - split; [by apply exponent_test|done].
  - split; [by apply Qlt_le_weak|].
    replace (ln - ld - 1 + 1) with (ln - ld) by lia.
    apply Qnot_le_lt. intros H. apply exponent_test in H. congruence.
Qed.

Lemma exponent_unique q e :
  (F32.pow2 e <= Qabs q < F32.pow2 (e + 1))%Q -> F32.exponent q = e.
Proof.
  intros [H1 H2].
  assert (~ (q == 0)%Q) as Hq.
  { intros E. assert (Qabs q == 0)%Q as E0 by (by rewrite E).
    pose proof (pow2_pos e). lra. }
  destruct (exponent_spec q Hq) as [H3 H4].
  assert (e < F32.exponent q + 1)
    by (apply pow2_lt_inv; eapply Qle_lt_trans; eassumption).
  assert (F32.exponent q < e + 1)
    by (apply pow2_lt_inv; eapply Qle_lt_trans; eassumption).
  lia.
Qed.

Lemma exponent_Qeq q q' :
  ~ (q' == 0)%Q -> (q == q')%Q -> F32.exponent q = F32.exponent q'.
Proof. intros NZ E. apply exponent_unique. rewrite E. by apply exponent_spec. Qed.

Lemma nearest_even_Qeq q q' :
  (q == q')%Q -> F32.nearest_even q = F32.nearest_even q'.
Proof.
  intros E. unfold F32.nearest_even. rewrite (Qfloor_comp _ _ E).
  assert ((q - inject_Z (Qfloor q') ?= 1 # 2)%Q
          = (q' - inject_Z (Qfloor q') ?= 1 # 2)%Q) as -> by (by rewrite E).
  done.
Qed.

Lemma nearest_even_int n : F32.nearest_even (inject_Z n) = n.
Proof.
  unfold F32.nearest_even. rewrite Qfloor_Z.
  assert ((inject_Z n - inject_Z n ?= 1 # 2)%Q = Lt) as ->; [|done].
  apply Qlt_alt. assert (inject_Z n - inject_Z n == 0)%Q as -> by ring. reflexivity.
Qed.

Lemma nearest_even_ge a q : (inject_Z a <= q)%Q -> a <= F32.nearest_even q.
Proof.
  intros H. apply Qfloor_resp_le in H. rewrite Qfloor_Z in H.
  unfold F32.nearest_even.
  destruct (_ ?= _)%Q; [destruct (Z.even _)|..]; lia.
Qed.

Lemma nearest_even_le q b : (q <= inject_Z b)%Q -> F32.nearest_even q <= b.
Proof.
  intros H. pose proof (Qfloor_resp_le _ _ H) as Hf. rewrite Qfloor_Z in Hf.
  unfold F32.nearest_even.
  assert ((1 # 2 <= q - inject_Z (Qfloor q))%Q -> Qfloor q + 1 <= b) as Hhalf.
  { intros Hh. destruct (Z.eq_dec (Qfloor q) b) as [E|NE]; [|lia].
    rewrite E in Hh. lra. }
  destruct (Qcompare_spec (q - inject_Z (Qfloor q)) (1 # 2)) as [E|L|G].
  - destruct (Z.even _); [lia|]. apply Hhalf. rewrite E. apply Qle_refl.
  - lia.
  - apply Hhalf. by apply Qlt_le_weak.
Qed.

Lemma round_not_NaN q : F32.round q <> F32.NaN.
Proof.
  unfold F32.round. destruct (Qeq_bool q 0); [done|]. cbv zeta.
  by repeat destruct (Qle_bool _ _).
Qed.

(** What [round] returns for a number other than [0]: [n * 2 ^ e] for an
    [n] of at most 24 bits and an [e] of at least [-149], or an infinity
    when that is out of range. *)
Lemma round_cases q :
  ~ (q == 0)%Q ->
  exists n e,
    -149 <= e /\ - 2 ^ 24 <= n <= 2 ^ 24
    /\ match F32.round q with
       | F32.Finite v =>
           v = Qred (inject_Z n * F32.pow2 e)
           /\ (- F32.pow2 128 < v < F32.pow2 128)%Q
       | F32.PlusInfinity | F32.MinusInfinity => True
       | F32.NaN => False
       end.
Proof.
  intros Hq. unfold F32.round.
  destruct (Qeq_bool q 0) eqn:T; [by apply Qeq_bool_iff in T|]. clear T.
  set (e := Z.max (F32.exponent q) (-126) - 23).
  set (n := F32.nearest_even (q * F32.pow2 (- e))).
  cbv zeta. fold e. fold n.
  exists n, e. split; [lia|].
  assert (- 2 ^ 24 <= n <= 2 ^ 24) as Hn.
  { destruct (exponent_spec q Hq) as [_ Hup].
    assert (Qabs (q * F32.pow2 (- e)) <= F32.pow2 24)%Q as Habs.
    { rewrite Qabs_Qmult, (Qabs_pos (F32.pow2 _)) by apply Qlt_le_weak, pow2_pos.
      apply (Qle_trans _ (F32.pow2 (F32.exponent q + 1) * F32.pow2 (- e))).
      - apply Qmult_le_compat_r; [by apply Qlt_le_weak|apply Qlt_le_weak, pow2_pos].
      - rewrite <- pow2_add. apply pow2_le. lia. }
    apply Qabs_Qle_condition in Habs as [H1 H2].
    split.
    - apply nearest_even_ge. by rewrite inject_Z_opp.
    - by apply nearest_even_le. }
  split; [done|].
  destruct (Qle_bool (F32.pow2 128) _) eqn:T1; [done|].
  destruct (Qle_bool _ (- F32.pow2 128)) eqn:T2; [done|].
  split; [done|]. rewrite Qred_correct.
  split; apply Qnot_le_lt; intros H; apply Qle_bool_iff in H; congruence.
Qed.

(** A number of that form rounds to itself. *)
Lemma round_fixed v n e :
  (v == inject_Z n * F32.pow2 e)%Q -> -149 <= e -> - 2 ^ 24 <= n <= 2 ^ 24 ->
  (- F32.pow2 128 < v < F32.pow2 128)%Q ->
  F32.round v = F32.Finite (Qred v).
Proof.
  intros Ev He Hn Hv. unfold F32.round.
  destruct (Qeq_bool v 0) eqn:T.
  { apply Qeq_bool_iff in T. f_equal. symmetry. by apply (Qred_complete v 0). }
  assert (~ (v == 0)%Q) as NZ by (intros E; apply Qeq_bool_iff in E; congruence).
  clear T. cbv zeta.
  set (e' := Z.max (F32.exponent v) (-126) - 23).
  assert (exists m, (v * F32.pow2 (- e') == inject_Z m)%Q) as [m Em].
  { assert (n <> 0) as Hn0.
    { intros ->. apply NZ. rewrite Ev. ring. }
    assert (Qabs v == inject_Z (Z.abs n) * F32.pow2 e)%Q as Eabs.
    { rewrite Ev, Qabs_Qmult, (Qabs_pos (F32.pow2 _)) by apply Qlt_le_weak, pow2_pos.
      reflexivity. }
    destruct (exponent_spec v NZ) as [Hlo Hup].
    assert (F32.pow2 e <= Qabs v)%Q as H1.
    { rewrite Eabs. rewrite <- (Qmult_1_l (F32.pow2 e)) at 1.
      apply Qmult_le_compat_r; [|apply Qlt_le_weak, pow2_pos].
      change 1%Q with (inject_Z 1). rewrite <- Zle_Qle. lia. }
    assert (e <= F32.exponent v) as Hge.
    { assert (e < F32.exponent v + 1); [|lia].
      apply pow2_lt_inv. by eapply Qle_lt_trans. }
    destruct (Z_lt_le_dec (F32.exponent v) (e + 24)) as [Hlt|Hbig].
    - exists (n * 2 ^ (e - e')).
      rewrite inject_Z_mult, <- pow2_inject by lia.
      replace (e - e') with (e + - e') by lia. rewrite pow2_add, Ev. ring.
    - assert (2 ^ 24 <= Z.abs n) as Habs.
      { rewrite Zle_Qle. apply (Qmult_le_r _ _ (F32.pow2 e)); [apply pow2_pos|].
        rewrite <- Eabs, <- pow2_inject, <- pow2_add by lia.
        apply (Qle_trans _ (F32.pow2 (F32.exponent v))); [|done].
        apply pow2_le. lia. }
      assert (F32.exponent v < e + 25) as Hlt.
      { apply pow2_lt_inv. apply (Qle_lt_trans _ (Qabs v)); [done|].
        rewrite Eabs. replace (e + 25) with (25 + e) by lia. rewrite pow2_add.
        apply Qmult_lt_r; [apply pow2_pos|].
        rewrite pow2_inject by lia. rewrite <- Zlt_Qlt. lia. }
      assert (e' = e + 1) as -> by lia.
      exists (n / 2). rewrite Ev.
      assert (n = 2 * (n / 2)) as En.
      { assert (n = 2 ^ 24 \/ n = - 2 ^ 24) as [-> | ->] by lia; reflexivity. }
      rewrite En at 1. rewrite inject_Z_mult.
      replace (- (e + 1)) with (- e + - 1) by lia. rewrite pow2_add.
      change (F32.pow2 (-1)) with (1 # 2)%Q.
      transitivity (inject_Z (n / 2) * (F32.pow2 e * F32.pow2 (- e)))%Q;
        [|rewrite pow2_cancel; ring].
      change (inject_Z 2) with 2%Q. field. }
  rewrite (nearest_even_Qeq _ _ Em), nearest_even_int.
  assert (inject_Z m * F32.pow2 e' == v)%Q as Eback.
  { rewrite <- Em.
    transitivity (v * (F32.pow2 e' * F32.pow2 (- e')))%Q; [ring|].
    rewrite pow2_cancel. ring. }
  destruct (Qle_bool (F32.pow2 128) _) eqn:T1.
  { apply Qle_bool_iff in T1. rewrite Eback in T1. lra. }
  destruct (Qle_bool _ (- F32.pow2 128)) eqn:T2.
  { apply Qle_bool_iff in T2. rewrite Eback in T2. lra. }
  f_equal. by apply Qred_complete.
Qed.

Lemma round_Qeq q q' : (q == q')%Q -> F32.round q = F32.round q'.
Proof.
  intros E. unfold F32.round.
  assert (Qeq_bool q 0 = Qeq_bool q' 0) as -> by (by rewrite E).
  destruct (Qeq_bool q' 0) eqn:T; [done|].
  assert (~ (q' == 0)%Q) as NZ by (intros E0; apply Qeq_bool_iff in E0; congruence).
  cbv zeta. rewrite (exponent_Qeq q q' NZ E).
  set (e := Z.max (F32.exponent q') (-126) - 23).
  assert (q * F32.pow2 (- e) == q' * F32.pow2 (- e))%Q as E1 by (by rewrite E).
  rewrite (nearest_even_Qeq _ _ E1). done.
Qed.

Lemma round_idempotent q v : F32.round q = F32.Finite v -> F32.round v = F32.Finite v.
Proof.
  intros R. destruct (Qeq_dec q 0) as [Z|NZ].
  - rewrite (round_Qeq q 0 Z) in R. injection R as <-. reflexivity.
  - destruct (round_cases q NZ) as (n & e & He & Hn & H). rewrite R in H.
    destruct H as [Ev Hv].
    rewrite (round_fixed v n e); [|by rewrite Ev, Qred_correct|done..].
    f_equal. rewrite Ev. apply Qred_complete, Qred_correct.
Qed.

(** The conversion of a positive [int] is a positive number. *)
Lemma of_int_positive n :
  0 < n < 2 ^ 31 -> exists w, F32.of_int n = F32.Finite w /\ (0 < w)%Q.
Proof.
  intros Hn. unfold F32.of_int, F32.round.
  assert (1 <= inject_Z n)%Q as H1.
  { change 1%Q with (inject_Z 1). rewrite <- Zle_Qle. lia. }
  assert (inject_Z n < F32.pow2 31)%Q as H31.
  { rewrite pow2_inject by lia. rewrite <- Zlt_Qlt. lia. }
  assert (~ (inject_Z n == 0)%Q) as NZ by lra.
  destruct (Qeq_bool (inject_Z n) 0) eqn:T; [by apply Qeq_bool_iff in T|]. clear T.
  destruct (exponent_spec _ NZ) as [Hlo Hup].
  rewrite Qabs_pos in Hlo, Hup by lra.
  set (ex := F32.exponent (inject_Z n)) in *.
  assert (0 <= ex) as Hex0.
  { assert (0 < ex + 1); [|lia]. apply pow2_lt_inv.
    apply (Qle_lt_trans _ (inject_Z n)); [done|done]. }
  assert (ex < 31) as Hex31.
  { apply pow2_lt_inv. by apply (Qle_lt_trans _ (inject_Z n)). }
  cbv zeta. replace (Z.max ex (-126) - 23) with (ex - 23) by lia.
  set (m := F32.nearest_even (inject_Z n * F32.pow2 (- (ex - 23)))).
  assert (2 ^ 23 <= m <= 2 ^ 24) as Hm.
  { split.
    - apply nearest_even_ge. rewrite <- pow2_inject by lia.
      assert (F32.pow2 23 == F32.pow2 ex * F32.pow2 (- (ex - 23)))%Q as ->
        by (rewrite <- pow2_add; by replace (ex + - (ex - 23)) with 23 by lia).
      apply Qmult_le_compat_r; [done|apply Qlt_le_weak, pow2_pos].
    - apply nearest_even_le. rewrite <- pow2_inject by lia.
      assert (F32.pow2 24 == F32.pow2 (ex + 1) * F32.pow2 (- (ex - 23)))%Q as ->
        by (rewrite <- pow2_add; by replace (ex + 1 + - (ex - 23)) with 24 by lia).
      apply Qmult_le_compat_r; [by apply Qlt_le_weak|apply Qlt_le_weak, pow2_pos]. }
  assert (0 < inject_Z m * F32.pow2 (ex - 23))%Q as Hpos.
  { apply Qmult_lt_0_compat; [|apply pow2_pos].
    change 0%Q with (inject_Z 0). rewrite <- Zlt_Qlt. lia. }
  assert (inject_Z m * F32.pow2 (ex - 23) < F32.pow2 128)%Q as Hfin.
  { apply (Qle_lt_trans _ (F32.pow2 24 * F32.pow2 (ex - 23))).
    - apply Qmult_le_compat_r; [|apply Qlt_le_weak, pow2_pos].
      rewrite pow2_inject by lia. rewrite <- Zle_Qle. lia.
    - rewrite <- pow2_add. apply pow2_lt. lia. }
  destruct (Qle_bool (F32.pow2 128) _) eqn:T1.
  { apply Qle_bool_iff in T1. lra. }
  destruct (Qle_bool _ (- F32.pow2 128)) eqn:T2.
  { apply Qle_bool_iff in T2. pose proof (pow2_pos 128). lra. }
  eexists. split; [reflexivity|]. by rewrite Qred_correct.
Qed.

Lemma add_finite_not_NaN a v : a <> F32.NaN -> F32.add a (F32.Finite v) <> F32.NaN.
Proof. destruct a; simpl; intros H; try done. apply round_not_NaN. Qed.

Lemma div_positive_not_NaN a w :
  a <> F32.NaN -> (0 < w)%Q -> F32.div a (F32.Finite w) <> F32.NaN.
Proof.
  intros Ha Hw. destruct a; simpl; try done.
  - destruct (Qeq_bool w 0) eqn:T; [apply Qeq_bool_iff in T; exfalso; lra|]. apply round_not_NaN.
  - by destruct (Qle_bool 0 w).
  - by destruct (Qle_bool 0 w).
Qed.

Lemma float_sum_not_NaN values : float_sum values <> F32.NaN.
Proof.
  unfold float_sum.
  assert (forall a, a <> F32.NaN ->
            foldl (fun total v => F32.add total (F32.Finite v)) a values <> F32.NaN)
    as H; [|by apply H].
  induction values as [|v values IH]; intros a Ha; simpl; [done|].
  by apply IH, add_finite_not_NaN.
Qed.

(** The mean of the values of a non-empty list whose length fits an [int]
    is a number or an infinity. *)
Lemma float_mean_not_NaN values :
  values <> [] -> Z.of_nat (length values) < 2 ^ 31 -> float_mean values <> F32.NaN.
Proof.
  intros Hne Hlen. unfold float_mean.
  destruct (of_int_positive (Z.of_nat (length values))) as (w & -> & Hw).
  { destruct values; [done|]. simpl length in *. lia. }
  apply div_positive_not_NaN; [apply float_sum_not_NaN|done].
Qed.

(** The mean of one value is that value, rounded. *)
Lemma float_mean_single v : float_mean [v] = F32.round v.
Proof.
  unfold float_mean, float_sum. cbn [foldl length].
  change (F32.of_int (Z.of_nat 1)) with (F32.Finite 1).
  cbn [F32.add]. rewrite (round_Qeq (0 + v) v) by ring.
  destruct (F32.round v) as [w| | |] eqn:R; try reflexivity.
  cbn [F32.div]. change (Qeq_bool 1 0) with false. cbv iota.
  rewrite (round_Qeq (w / 1) w) by field.
  by apply (round_idempotent v).
Qed.

Lemma Qred_inject_Z z : Qred (inject_Z z) = inject_Z z.
Proof.
  unfold Qred, inject_Z.
  pose proof (Z.ggcd_gcd z 1) as Hg. pose proof (Z.ggcd_correct_divisors z 1) as Hd.
  destruct (Z.ggcd z 1) as [g [aa bb]]. simpl in Hg, Hd. destruct Hd as [Ha Hb].
  rewrite Z.gcd_1_r in Hg. subst g.
  assert (aa = z) as -> by lia. assert (bb = 1) as -> by lia. reflexivity.
Qed.

Lemma Qmult_le_nonneg_l (a p q : Q) : (0 <= a -> p <= q -> a * p <= a * q)%Q.
Proof.
  intros Ha Hpq. rewrite (Qmult_comm a p), (Qmult_comm a q).
  by apply Qmult_le_compat_r.
Qed.

Lemma Qmake_pow2 a e :
  0 < e -> (a # Z.to_pos (2 ^ e) == inject_Z a * F32.pow2 (- e))%Q.
Proof.
  intros He. unfold F32.pow2. destruct (Z.leb_spec 0 (- e)); [lia|].
  replace (- - e) with e by lia. unfold Qeq. simpl. lia.
Qed.

(** A [float] read from a file is a fixed point of the rounding. *)
Lemma round_float_of_bytes b0 b1 b2 b3 :
  F32.round (float_of_bytes b0 b1 b2 b3) = F32.Finite (float_of_bytes b0 b1 b2 b3).
Proof.
  unfold float_of_bytes. cbv zeta.
  set (bits := _ + _ + _ + _).
  set (e := (bits / 2 ^ 23) mod 2 ^ 8).
  set (m := bits mod 2 ^ 23).
  assert (0 <= e < 256) as He by (apply Z.mod_pos_bound; lia).
  assert (0 <= m < 2 ^ 23) as Hm by (apply Z.mod_pos_bound; lia).
  set (mag := if e =? 255 then 0%Q
              else if e =? 0 then Qred (m # Z.to_pos (2 ^ 149))
              else if 150 <=? e then inject_Z ((2 ^ 23 + m) * 2 ^ (e - 150))
              else Qred ((2 ^ 23 + m) # Z.to_pos (2 ^ (150 - e)))).
  assert (exists n ex,
            (mag == inject_Z n * F32.pow2 ex)%Q /\ -149 <= ex /\ 0 <= n <= 2 ^ 24
            /\ (mag < F32.pow2 128)%Q /\ Qred mag = mag) as (n & ex & Emag & Hex & Hn & Hlt & Hred).
  { unfold mag. destruct (Z.eqb_spec e 255) as [E255|N255].
    { exists 0, 0. split; [reflexivity|]. split; [lia|]. split; [lia|].
      split; [apply pow2_pos|reflexivity]. }
    destruct (Z.eqb_spec e 0) as [E0|N0].
    { exists m, (-149). split; [|split; [lia|split; [lia|split]]].
      - rewrite Qred_correct. apply (Qmake_pow2 m 149). lia.
      - rewrite Qred_correct, (Qmake_pow2 m 149) by lia.
        apply (Qle_lt_trans _ (inject_Z m * 1)).
        + apply Qmult_le_nonneg_l; [rewrite <- (Zle_Qle 0); lia|].
          change 1%Q with (F32.pow2 0). apply pow2_le. lia.
        + rewrite Qmult_1_r, pow2_inject by lia. rewrite <- Zlt_Qlt. lia.
      - apply Qred_complete, Qred_correct. }
    destruct (Z.leb_spec 150 e) as [Hbig|Hsmall].
    { exists (2 ^ 23 + m), (e - 150). split; [|split; [lia|split; [lia|split]]].
      - rewrite inject_Z_mult, <- pow2_inject by lia. reflexivity.
      - rewrite pow2_inject by lia. rewrite <- Zlt_Qlt.
        assert (2 ^ (e - 150) <= 2 ^ 104) by (apply Z.pow_le_mono_r; lia).
        assert (0 < 2 ^ (e - 150)) by (apply Z.pow_pos_nonneg; lia).
        change (2 ^ 128) with (2 ^ 24 * 2 ^ 104). nia.
      - apply Qred_inject_Z. }
    exists (2 ^ 23 + m), (e - 150). split; [|split; [lia|split; [lia|split]]].
    - rewrite Qred_correct. replace (e - 150) with (- (150 - e)) by lia.
      apply Qmake_pow2. lia.
    - rewrite Qred_correct, (Qmake_pow2 _ (150 - e)) by lia.
      apply (Qle_lt_trans _ (inject_Z (2 ^ 23 + m) * 1)).
      + apply Qmult_le_nonneg_l; [rewrite <- (Zle_Qle 0); lia|].
        change 1%Q with (F32.pow2 0). apply pow2_le. lia.
      + rewrite Qmult_1_r, pow2_inject by lia. rewrite <- Zlt_Qlt. lia.
    - apply Qred_complete, Qred_correct. }
  assert (0 <= mag)%Q as Hpos.
  { rewrite Emag. apply Qmult_le_0_compat; [rewrite <- (Zle_Qle 0); lia|].
    apply Qlt_le_weak, pow2_pos. }
  pose proof (pow2_pos 128) as H128.
  destruct (bits / 2 ^ 31 =? 1).
  - rewrite (round_fixed (Qred (- mag)) (- n) ex); [| |done|lia|].
    + f_equal. apply Qred_complete, Qred_correct.
    + rewrite Qred_correct, Emag, inject_Z_opp. ring.
    + rewrite Qred_correct. split; lra.
  - rewrite (round_fixed mag n ex); [by rewrite Hred|done|done|lia|].
    split; lra.
Qed.

Lemma round_read_floats n bytes heatmap :
  read_floats n bytes = Some heatmap ->
  Forall (fun v => F32.round v = F32.Finite v) heatmap.
Proof.
  revert bytes heatmap. induction n as [|n IH]; intros bytes heatmap; simpl.
  - intros [= <-]. constructor.
  - destruct bytes as [|b0 [|b1 [|b2 [|b3 rest]]]]; try discriminate.
    destruct (read_floats n rest) as [l|] eqn:E; [|discriminate].
    intros [= <-]. constructor; [apply round_float_of_bytes|by eapply IH].
Qed.

(** ** One flood fill of the scan *)

Lemma index_decompose (width height : Z) (i : nat) :
  (i < Z.to_nat (width * height))%nat -> 0 <= width -> 0 <= height ->
  exists x y, 0 <= x < width /\ 0 <= y < height /\ Z.to_nat (y * width + x) = i.
Proof.
  intros Hi Hw Hh. assert (0 < width) as Hw' by nia.
  exists (Z.of_nat i mod width), (Z.of_nat i / width).
  pose proof (Z.mod_pos_bound (Z.of_nat i) width Hw').
  pose proof (Z.div_mod (Z.of_nat i) width ltac:(lia)).
  assert (0 <= Z.of_nat i / width) by (apply Z.div_pos; lia).
  repeat split; try lia.
  apply Z.div_lt_upper_bound; lia.
Qed.

Section FillFacts.

Variables (width height : Z).
Variables (startColor : ColorRef) (k : Q) (use8Way adj euclidif : bool).
Variable (newColor : Color).

Local Abbreviation step := (fill_step width height startColor k use8Way adj euclidif newColor).
Local Abbreviation loop := (fill_loop width height startColor k use8Way adj euclidif newColor).

Lemma insert_true_keeps (v : list bool) (j i : nat) :
  v !! i = Some true -> <[j := true]> v !! i = Some true.
Proof.
  intros Hi. destruct (decide (j = i)) as [->|Hne].
  - apply list_lookup_insert_eq. by eapply lookup_lt_Some.
  - by rewrite list_lookup_insert_ne.
Qed.

(** The Visited Set is never unset by an iteration of the fill. *)
Lemma step_visited_mono st st' (i : nat) :
  step st = Some st' -> visited st !! i = Some true -> visited st' !! i = Some true.
Proof.
  unfold fill_step. destruct (stack st) as [|[[x y] nc] rest]; [discriminate|].
  destruct (_ || _); [by intros [= <-]|].
  destruct (colorDifference_le _ _ _ _); intros [= <-] Hi; simpl;
    by apply insert_true_keeps.
Qed.

Lemma loop_visited_mono fuel st (i : nat) :
  visited st !! i = Some true -> visited (loop fuel st) !! i = Some true.
Proof.
  revert st. induction fuel as [|fuel IH]; intros st Hi; simpl; [done|].
  destruct (step st) as [st'|] eqn:Hs; [|done].
  apply IH. by eapply step_visited_mono.
Qed.

(** An iteration changes the colour of a pixel only when it marks it. *)
Lemma step_image st st' (i : nat) :
  length (visited st) = Z.to_nat (width * height) ->
  step st = Some st' ->
  length (visited st') = Z.to_nat (width * height)
  /\ (image st' !! i = image st !! i
      \/ (visited st !! i = Some false /\ visited st' !! i = Some true)).
Proof.
  intros Hlen. unfold fill_step.
  destruct (stack st) as [|[[x y] nc] rest]; [discriminate|].
  destruct (negb (in_bounds width height x y)) eqn:Hb; simpl.
  { intros [= <-]. simpl. auto. }
  destruct (Vec.get false (visited st) (y * width + x)) eqn:Hv.
  { intros [= <-]. simpl. auto. }
  apply negb_false_iff, in_bounds_spec in Hb. destruct Hb as [Hx Hy].
  assert (Z.to_nat (y * width + x) < length (visited st))%nat as Hj
    by (rewrite Hlen; by eapply index_lt_length).
  destruct (colorDifference_le _ _ _ _); intros [= <-]; simpl;
    (split; [by rewrite length_set|]); [|by left].
  destruct (decide (Z.to_nat (y * width + x) = i)) as [<-|Hne].
  - right. split; [by apply get_false_lookup|by apply lookup_set_eq].
  - left. by apply lookup_set_ne.
Qed.

Lemma loop_image fuel st (i : nat) :
  length (visited st) = Z.to_nat (width * height) ->
  image (loop fuel st) !! i = image st !! i
  \/ (visited st !! i = Some false /\ visited (loop fuel st) !! i = Some true).
Proof.
  revert st. induction fuel as [|fuel IH]; intros st Hlen; simpl; [by left|].
  destruct (step st) as [st'|] eqn:Hs; [|by left].
  destruct (step_image st st' i Hlen Hs) as [Hlen' Hstep].
  destruct (IH st' Hlen') as [E|[Hf Ht]].
  - destruct Hstep as [E'|[Hf Ht]].
    + left. congruence.
    + right. split; [done|]. by apply loop_visited_mono.
  - right. split; [|done].
    destruct (lookup_bool_cases (visited st) i) as [H|H]; [| |done].
    + rewrite Hlen, <- Hlen'. by eapply lookup_lt_Some.
    + apply (step_visited_mono _ _ _ Hs) in H. congruence.
Qed.

(** The first iteration marks the seed. *)
Lemma fill_marks_seed x y st :
  0 <= x < width -> 0 <= y < height ->
  length (visited st) = Z.to_nat (width * height) ->
  visited (floodFillIterative width height startColor k use8Way adj euclidif
             newColor x y st) !! Z.to_nat (y * width + x) = Some true.
Proof.
  intros Hx Hy Hlen. unfold floodFillIterative.
  set (st0 := mkFillState _ _ _ _ _ _ _ _ _).
  assert (exists fuel, fill_measure st0 = S fuel) as [fuel ->].
  { unfold fill_measure. simpl. exists (9 * Vec.count_false (visited st) + 0)%nat. lia. }
  assert (Z.to_nat (y * width + x) < length (visited st))%nat as Hj
    by (by eapply index_lt_length).
  cbn [fill_loop]. unfold fill_step. cbn [stack st0 visited image bigMask].
  replace (negb (in_bounds width height x y)) with false
    by (symmetry; apply negb_false_iff, in_bounds_spec; lia).
  cbn [orb].
  destruct (Vec.get false (visited st) (y * width + x)) eqn:Hv.
  - apply loop_visited_mono. simpl. by apply get_true_lookup.
  - destruct (colorDifference_le _ _ _ _); apply loop_visited_mono; simpl;
      by apply lookup_set_eq.
Qed.

(** A fill started as [processImage] starts it. *)
Lemma fill_from_seed x y (m : FillState) :
  0 <= x < width -> 0 <= y < height ->
  length (visited m) = Z.to_nat (width * height) ->
  bigMask m = replicate (Z.to_nat (width * height)) false ->
  Vec.get false (visited m) (y * width + x) = false ->
  let reset := mkFillState (image m) (visited m) (bigMask m) [] width 0 height 0 0 in
  let m1 := floodFillIterative width height startColor k use8Way adj euclidif
              newColor x y reset in
  fill_rel width height reset m1 /\ fill_ok width height (fill_record x y m1).
Proof.
  intros Hx Hy Hlen Hclear Hv reset m1.
  assert (length (bigMask m) = Z.to_nat (width * height)) as Hlm
    by (by rewrite Hclear, length_replicate).
  assert (all_false (bigMask m)) as Hall
    by (rewrite Hclear; apply all_false_replicate).
  assert (fill_rel width height reset m1) as R.
  { unfold m1, floodFillIterative. apply fill_rel_loop; [done..|].
    apply fill_rel_start; simpl; auto. lia. }
  split; [done|].
  set (j := Z.to_nat (y * width + x)).
  assert (visited m1 !! j = Some true) as Hseed
    by (by apply fill_marks_seed).
  assert (bigMask m1 !! j = Some true) as Hmseed.
  { apply (fr_mask _ _ _ _ R). split; [|done]. simpl.
    apply get_false_lookup; [|done]. rewrite Hlen. by eapply index_lt_length. }
  pose proof (fr_box _ _ _ _ R x y Hx Hy Hmseed) as [Hbx Hby].
  assert (0 <= currentComponentXmin m1 < width /\ exists y', 0 <= y' < height /\
          bigMask m1 !! Z.to_nat (y' * width + currentComponentXmin m1) = Some true)
    as (Hx1 & y1 & Hy1 & Ht1).
  { destruct (fr_xmin _ _ _ _ R) as [E|(y' & ? & ? & ?)]; [simpl in E; lia|eauto]. }
  assert (0 <= currentComponentXmax m1 < width /\ exists y', 0 <= y' < height /\
          bigMask m1 !! Z.to_nat (y' * width + currentComponentXmax m1) = Some true)
    as (Hx2 & y2 & Hy2 & Ht2).
  { destruct (fr_xmax _ _ _ _ R) as [E|(y' & ? & ? & ?)]; [|eauto].
    simpl in E. assert (x = currentComponentXmax m1) as <- by lia. eauto. }
  assert (0 <= currentComponentYmin m1 < height /\ exists x', 0 <= x' < width /\
          bigMask m1 !! Z.to_nat (currentComponentYmin m1 * width + x') = Some true)
    as (Hy3 & x3 & Hx3 & Ht3).
  { destruct (fr_ymin _ _ _ _ R) as [E|(x' & ? & ? & ?)]; [simpl in E; lia|eauto]. }
  assert (0 <= currentComponentYmax m1 < height /\ exists x', 0 <= x' < width /\
          bigMask m1 !! Z.to_nat (currentComponentYmax m1 * width + x') = Some true)
    as (Hy4 & x4 & Hx4 & Ht4).
  { destruct (fr_ymax _ _ _ _ R) as [E|(x' & ? & ? & ?)]; [|eauto].
    simpl in E. assert (y = currentComponentYmax m1) as <- by lia. eauto. }
  constructor; unfold fill_record; cbn -[m1].
  - rewrite (fr_len_bigMask _ _ _ _ R). done.
  - done.
  - lia.
  - lia.
  - rewrite (fr_size _ _ _ _ R). simpl. lia.
  - split; [|split; [|split; [|split]]].
    + intros x' y' (Hx' & Hy' & Hm). by apply (fr_box _ _ _ _ R).
    + exists y1. done.
    + exists y2. done.
    + exists x3. done.
    + exists x4. done.
Qed.

End FillFacts.

Lemma dropped_discard_rule config x y m1 :
  dropped config (currentComponentSize m1) (currentComponentXmin m1)
    (currentComponentXmax m1) (currentComponentYmin m1) (currentComponentYmax m1) = true
  <-> discard_rule config (fill_record x y m1).
Proof. unfold dropped, discard_rule. simpl. lia. Qed.

Section ScanStep.

Variables (width height : Z) (heatmap : list Q) (config : Config).
Variable (randomColor : nat -> Color).

Local Abbreviation pixel := (scan_pixel width height heatmap config randomColor).

Lemma scan_pixel_visited s x y :
  Vec.get false (visited (mem s)) (y * width + x) = true -> pixel s x y = s.
Proof. unfold scan_pixel. by intros ->. Qed.

Lemma scan_pixel_unvisited s x y :
  Vec.get false (visited (mem s)) (y * width + x) = false ->
  let m := mem s in
  let m1 := floodFillIterative width height (InImage (y * width + x))
              (k config) (use8Way config) (adj config) (euclidif config)
              (randomColor (length (fills s))) x y
              (mkFillState (image m) (visited m) (bigMask m) [] width 0 height 0 0) in
  let f := fill_record x y m1 in
  pixel s x y
  = mkScanState
      (set_bigMask m1 (clear_box width (fillXmin f) (fillXmax f) (fillYmin f)
                         (fillYmax f) (bigMask m1)))
      (components s ++
         (if decide (discard_rule config f) then []
          else [component_of_fill width heatmap (componentCount s + 1) f]))
      (componentCount s + (if decide (discard_rule config f) then 0 else 1))
      (fills s ++ [f]).
Proof.
  intros Hv m m1 f. unfold scan_pixel. rewrite Hv. fold m. fold m1.
  destruct (dropped _ _ _ _ _ _) eqn:Hd.
  - apply (dropped_discard_rule config x y m1) in Hd. fold f in Hd.
    rewrite !decide_True by done. rewrite app_nil_r, Z.add_0_r. reflexivity.
  - assert (~ discard_rule config f) as Hn.
    { intros Hr. apply (dropped_discard_rule config x y m1) in Hr. congruence. }
    rewrite !decide_False by done.
    unfold component_of_fill. simpl.
    destruct (aggregate _ _ _ _ _ _ _) as [avg mask]. reflexivity.
Qed.

End ScanStep.

(** ** The invariant of the scan *)

Lemma sum_sizes_snoc fs f : sum_sizes (fs ++ [f]) = sum_sizes fs + fillSize f.
Proof. unfold sum_sizes. induction fs as [|g fs IH]; simpl; [lia|]. rewrite IH. lia. Qed.

Section ScanInvariant.

Variables (width height : Z) (heatmap : list Q) (config : Config).
Variable (randomColor : nat -> Color).

Local Abbreviation pixel := (scan_pixel width height heatmap config randomColor).
Local Abbreviation inv := (scan_inv width height heatmap config).

Lemma scan_inv_initial img : inv (initial_scan width height img).
Proof.
  constructor; simpl; try done.
  - by rewrite length_replicate.
  - by rewrite (all_false_count _ (all_false_replicate _)).
  - intros i. split.
    + intros H. by apply all_false_replicate in H.
    + intros (j & f & H & _). by rewrite lookup_nil in H.
Qed.

Lemma scan_inv_step s x y :
  0 <= x < width -> 0 <= y < height -> inv s -> inv (pixel s x y).
Proof.
  intros Hx Hy I.
  destruct (Vec.get false (visited (mem s)) (y * width + x)) eqn:Hv.
  { by rewrite scan_pixel_visited. }
  rewrite scan_pixel_unvisited by done.
  set (m := mem s).
  set (m1 := floodFillIterative _ _ _ _ _ _ _ _ _ _ _).
  set (f := fill_record x y m1).
  destruct (fill_from_seed width height (InImage (y * width + x))
              (k config) (use8Way config) (adj config) (euclidif config)
              (randomColor (length (fills s))) x y m Hx Hy
              (si_len_visited _ _ _ _ _ I) (si_clear _ _ _ _ _ I) Hv) as [R Fok].
  fold m1 in R, Fok. fold f in Fok.
  pose proof (fr_len_visited _ _ _ _ R) as Hlv. simpl in Hlv.
  pose proof (fr_len_bigMask _ _ _ _ R) as Hlm. simpl in Hlm.
  pose proof (fr_mono _ _ _ _ R) as Hmono. simpl in Hmono.
  pose proof (fr_mask _ _ _ _ R) as Hmask. simpl in Hmask.
  pose proof (fr_count _ _ _ _ R) as Hcount. simpl in Hcount.
  pose proof (si_len_visited _ _ _ _ _ I) as Ilen. fold m in Ilen.
  pose proof (si_clear _ _ _ _ _ I) as Iclear. fold m in Iclear.
  pose proof (si_sizes _ _ _ _ _ I) as Isizes. fold m in Isizes.
  pose proof (si_cover _ _ _ _ _ I) as Icover. fold m in Icover.
  assert (forall i : nat, visited m1 !! i = Some true <->
            visited m !! i = Some true \/ region f !! i = Some true) as Hvis.
  { intros i. split.
    - intros Hi.
      destruct (lookup_bool_cases (visited m) i) as [H|H]; [|by left|].
      + rewrite <- Hlv. by eapply lookup_lt_Some.
      + right. by apply Hmask.
    - intros [Hi|Hi].
      + by apply Hmono.
      + by apply Hmask in Hi as [_ ?]. }
  constructor; cbn [mem components componentCount fills set_bigMask visited bigMask].
  - by rewrite Hlv.
  - rewrite (all_false_eq_replicate (clear_box _ _ _ _ _ _)).
    + rewrite length_clear_box, Hlm.
      by rewrite Iclear, length_replicate.
    + apply clear_box_all_false. intros i Hi.
      assert (i < Z.to_nat (width * height))%nat as Hlt.
      { rewrite <- (fo_length _ _ _ Fok). by eapply lookup_lt_Some. }
      destruct (index_decompose width height i Hlt) as (cx & cy & Hcx & Hcy & E);
        [lia..|].
      exists cx, cy. destruct (fo_tight _ _ _ Fok) as [Hbox _].
      destruct (Hbox cx cy) as [? ?]; [|done].
      split; [done|]. split; [done|]. by rewrite E.
  - rewrite sum_sizes_snoc, Isizes, (fo_size _ _ _ Fok).
    rewrite Hcount. simpl. lia.
  - intros i. rewrite Hvis, Icover. split.
    + intros [(j & g & Hj & Hg)|Hi].
      * exists j, g. split; [by apply lookup_app_l_Some|done].
      * exists (length (fills s)), f. split; [|done].
        by rewrite lookup_app_r, Nat.sub_diag.
    + intros (j & g & Hj & Hg).
      apply lookup_snoc_Some in Hj as [[_ Hj]|[_ <-]]; [left; eauto|by right].
  - intros j1 j2 f1 f2 i H1 H2 Hr1 Hr2.
    assert (forall g, region g !! i = Some true ->
              (exists j, fills s !! j = Some g) -> region f !! i = Some true -> False)
      as Hnew.
    { intros g Hg [j Hj] Hf.
      assert (visited m !! i = Some true) as Hold
        by (apply Icover; eauto).
      apply Hmask in Hf as [Hf _]. congruence. }
    apply lookup_snoc_Some in H1 as [[Hl1 H1]|[-> <-]];
      apply lookup_snoc_Some in H2 as [[Hl2 H2]|[-> <-]].
    + by eapply (si_disjoint _ _ _ _ _ I).
    + destruct (Hnew f1); eauto.
    + destruct (Hnew f2); eauto.
    + done.
  - rewrite filter_app, imap_app, <- (si_components _ _ _ _ _ I). f_equal.
    rewrite filter_cons, filter_nil.
    destruct (decide (discard_rule config f)) as [Hd|Hd].
    + by rewrite decide_False by tauto.
    + rewrite decide_True by done. simpl. do 2 f_equal.
      rewrite (si_count _ _ _ _ _ I), (si_components _ _ _ _ _ I), length_imap. lia.
  - rewrite length_app, (si_count _ _ _ _ _ I).
    destruct (decide (discard_rule config f)); simpl; lia.
  - apply Forall_app. split; [apply I|]. by constructor.
Qed.

Lemma elem_of_raster (p : Z * Z) :
  p ∈ raster width height <-> 0 <= p.1 < height /\ 0 <= p.2 < width.
Proof. destruct p as [y x]. unfold raster. rewrite elem_of_grid, !elem_of_seqZ. simpl. lia. Qed.

Lemma scan_flat s :
  scan width height heatmap config randomColor s
  = foldl (fun s p => pixel s p.2 p.1) s (raster width height).
Proof.
  unfold scan, scan_row, raster.
  apply (foldl_grid (fun s y x => pixel s x y)).
Qed.

Lemma scan_upto_all s :
  scan_upto width height heatmap config randomColor
    (length (raster width height)) s
  = scan width height heatmap config randomColor s.
Proof. unfold scan_upto. by rewrite take_ge, scan_flat. Qed.

Lemma scan_inv_foldl (ps : list (Z * Z)) s :
  (forall p, p ∈ ps -> p ∈ raster width height) ->
  inv s -> inv (foldl (fun s p => pixel s p.2 p.1) s ps).
Proof.
  revert s. induction ps as [|p ps IH]; intros s Hps I; simpl; [done|].
  apply IH.
  - intros q Hq. apply Hps. by right.
  - assert (p ∈ raster width height) as Hp by (apply Hps; by left).
    apply elem_of_raster in Hp. apply scan_inv_step; [lia..|done].
Qed.

Lemma scan_inv_upto n img :
  inv (scan_upto width height heatmap config randomColor n
         (initial_scan width height img)).
Proof.
  unfold scan_upto. apply scan_inv_foldl; [|apply scan_inv_initial].
  intros p Hp. apply elem_of_take in Hp as (i & Hi & _).
  apply list_elem_of_lookup. eauto.
Qed.

Lemma scan_inv_final img :
  inv (extractComponents width height heatmap config randomColor img).
Proof.
  unfold extractComponents. rewrite <- scan_upto_all. apply scan_inv_upto.
Qed.

End ScanInvariant.

(** ** Every pixel is visited *)

Lemma count_true_all (v : list bool) :
  (forall i : nat, (i < length v)%nat -> v !! i = Some true) ->
  Vec.count_true v = length v.
Proof.
  induction v as [|x v IH]; intros Hv; simpl; [done|].
  assert (x = true) as -> by (specialize (Hv 0%nat); simpl in Hv; injection Hv; [done|lia]).
  rewrite IH; [done|]. intros i Hi. apply (Hv (S i)). simpl. lia.
Qed.

Section ScanVisits.

Variables (width height : Z) (heatmap : list Q) (config : Config).
Variable (randomColor : nat -> Color).

Local Abbreviation pixel := (scan_pixel width height heatmap config randomColor).
Local Abbreviation inv := (scan_inv width height heatmap config).

(** The Visited Set is never unset by an iteration of the scan. *)
Lemma scan_pixel_mono s x y (i : nat) :
  visited (mem s) !! i = Some true -> visited (mem (pixel s x y)) !! i = Some true.
Proof.
  intros Hi. destruct (Vec.get false (visited (mem s)) (y * width + x)) eqn:Hv.
  { by rewrite scan_pixel_visited. }
  rewrite scan_pixel_unvisited by done. cbn [mem set_bigMask visited].
  unfold floodFillIterative. by apply loop_visited_mono.
Qed.

Lemma scan_foldl_mono (ps : list (Z * Z)) s (i : nat) :
  visited (mem s) !! i = Some true ->
  visited (mem (foldl (fun s p => pixel s p.2 p.1) s ps)) !! i = Some true.
Proof.
  revert s. induction ps as [|p ps IH]; intros s Hi; simpl; [done|].
  apply IH. by apply scan_pixel_mono.
Qed.

Lemma scan_pixel_marks s x y :
  0 <= x < width -> 0 <= y < height -> inv s ->
  visited (mem (pixel s x y)) !! Z.to_nat (y * width + x) = Some true.
Proof.
  intros Hx Hy I. destruct (Vec.get false (visited (mem s)) (y * width + x)) eqn:Hv.
  { rewrite scan_pixel_visited by done. by apply get_true_lookup. }
  rewrite scan_pixel_unvisited by done. cbn [mem set_bigMask visited].
  apply fill_marks_seed; [done..|]. apply I.
Qed.

Lemma scan_foldl_marks (ps : list (Z * Z)) s (p : Z * Z) :
  (forall q, q ∈ ps -> q ∈ raster width height) -> inv s -> p ∈ ps ->
  visited (mem (foldl (fun s p => pixel s p.2 p.1) s ps))
    !! Z.to_nat (p.1 * width + p.2) = Some true.
Proof.
  revert s. induction ps as [|q ps IH]; intros s Hps I Hp; [by apply elem_of_nil in Hp|].
  assert (q ∈ raster width height) as Hq by (apply Hps; by left).
  apply elem_of_raster in Hq. cbn [foldl].
  apply elem_of_cons in Hp as [->|Hp].
  - apply scan_foldl_mono. apply scan_pixel_marks; [lia..|done].
  - apply IH; [|by apply scan_inv_step; [lia..|]|done].
    intros q' Hq'. apply Hps. by right.
Qed.

Lemma scan_visits_all img x y :
  0 <= x < width -> 0 <= y < height ->
  visited (mem (extractComponents width height heatmap config randomColor img))
    !! Z.to_nat (y * width + x) = Some true.
Proof.
  intros Hx Hy. unfold extractComponents. rewrite scan_flat.
  apply (scan_foldl_marks _ _ (y, x)); [done|apply scan_inv_initial|].
  apply elem_of_raster. simpl. lia.
Qed.

Lemma scan_count_visited img :
  0 <= width -> 0 <= height ->
  Z.of_nat (Vec.count_true
    (visited (mem (extractComponents width height heatmap config randomColor img))))
  = width * height.
Proof.
  intros Hw Hh.
  pose proof (scan_inv_final width height heatmap config randomColor img) as I.
  rewrite count_true_all.
  - rewrite (si_len_visited _ _ _ _ _ I). nia.
  - intros i Hi. rewrite (si_len_visited _ _ _ _ _ I) in Hi.
    destruct (index_decompose width height i Hi Hw Hh) as (x & y & Hx & Hy & <-).
    by apply scan_visits_all.
Qed.

End ScanVisits.

(** C3. For an image of [width] by [height] pixels, when the raster scan
    of [processImage] has completed, the sizes reported by all flood
    fills, those of discarded regions included, add up to
    [width * height]; every pixel lies in the region of exactly one flood
    fill; and neither an iteration of the flood fill nor an iteration of
    the scan ever unsets an entry of the Visited Set. *)
Theorem scan_visits_every_pixel_once
    (width height : Z) (heatmap : list Q) (config : Config)
    (randomColor : nat -> Color) (img : list Color) :
  0 <= width -> 0 <= height ->
  sum_sizes (fills (extractComponents width height heatmap config randomColor img))
  = width * height
  /\ (forall x y, 0 <= x < width -> 0 <= y < height ->
        exists j f,
          fills (extractComponents width height heatmap config randomColor img) !! j
          = Some f
          /\ region f !! Z.to_nat (y * width + x) = Some true
          /\ forall j' f',
               fills (extractComponents width height heatmap config randomColor img) !! j'
               = Some f' ->
               region f' !! Z.to_nat (y * width + x) = Some true -> j' = j)
  /\ (forall startColor k use8Way adj euclidif newColor st st' (i : nat),
        fill_step width height startColor k use8Way adj euclidif newColor st = Some st' ->
        visited st !! i = Some true -> visited st' !! i = Some true)
  /\ (forall s x y (i : nat),
        visited (mem s) !! i = Some true ->
        visited (mem (scan_pixel width height heatmap config randomColor s x y)) !! i
        = Some true).
Proof.
  intros Hw Hh.
  pose proof (scan_inv_final width height heatmap config randomColor img) as I.
  split; [|split; [|split]].
  - rewrite (si_sizes _ _ _ _ _ I). by apply scan_count_visited.
  - intros x y Hx Hy.
    pose proof (scan_visits_all width height heatmap config randomColor img x y Hx Hy) as Hv.
    apply (si_cover _ _ _ _ _ I) in Hv as (j & f & Hj & Hf).
    exists j, f. split; [done|]. split; [done|].
    intros j' f' Hj' Hf'. by eapply (si_disjoint _ _ _ _ _ I).
  - intros. by eapply step_visited_mono.
  - intros. by apply scan_pixel_mono.
Qed.

(** ** Counting the entries of a mask *)

Lemma count_true_app (v w : list bool) :
  Vec.count_true (v ++ w) = (Vec.count_true v + Vec.count_true w)%nat.
Proof. induction v as [|x v IH]; simpl; [done|]. rewrite IH. lia. Qed.

Lemma count_true_support (v : list bool) :
  Vec.count_true v
  = length (filter (fun i : nat => v !! i = Some true) (seq 0 (length v))).
Proof.
  induction v as [|x v IH] using rev_ind; [done|].
  rewrite count_true_app, length_app, seq_app, filter_app, length_app. simpl.
  f_equal.
  - rewrite IH. f_equal. apply filter_ext_in. intros i Hi.
    apply elem_of_seq in Hi. by rewrite lookup_app_l by lia.
  - rewrite filter_cons, filter_nil.
    rewrite lookup_app_r, Nat.sub_diag by lia. simpl.
    destruct x.
    + by rewrite decide_True.
    + by rewrite decide_False.
Qed.

Lemma count_true_indexed {P : Type} (v : list bool) (ps : list P) (ix : P -> nat) :
  NoDup (ix <$> ps) ->
  (forall p, p ∈ ps -> v !! ix p = Some true) ->
  (forall i : nat, v !! i = Some true -> exists p, p ∈ ps /\ ix p = i) ->
  Vec.count_true v = length ps.
Proof.
  intros Hnd Hin Hout. rewrite count_true_support, <- (length_fmap ix ps).
  apply Permutation_length, NoDup_Permutation; [|done|].
  - apply NoDup_filter, NoDup_seq.
  - intros i. rewrite list_elem_of_filter, elem_of_seq, list_elem_of_fmap. split.
    + intros [Hi _]. destruct (Hout i Hi) as (p & Hp & <-). eauto.
    + intros (p & -> & Hp). split; [by apply Hin|].
      split; [lia|]. simpl. eapply lookup_lt_Some. by apply Hin.
Qed.

(** ** The records of the kept components *)

Section ComponentOfFill.

Variables (width height : Z) (heatmap : list Q).
Variables (id : Z) (f : FillRecord).
Hypothesis Fok : fill_ok width height f.

Local Abbreviation c := (component_of_fill width heatmap id f).
Local Abbreviation glob := (fun p : Z * Z => p.1 * width + p.2).
Local Abbreviation loc :=
  (fun p : Z * Z => (p.1 - fillYmin f) * (fillXmax f - fillXmin f + 1) + (p.2 - fillXmin f)).
Local Abbreviation rows :=
  (grid (seqZ (fillYmin f) (fillYmax f - fillYmin f + 1))
        (seqZ (fillXmin f) (fillXmax f - fillXmin f + 1))).
Local Abbreviation marked :=
  (filter (fun p : Z * Z => Vec.get false (region f) (glob p) = true) rows).

Lemma component_of_fill_eq :
  c = ComponentData.mk id (fillXmin f) (fillXmax f) (fillYmin f) (fillYmax f) (fillSize f)
        (average (float_sum (values_at width heatmap marked))
                 (Z.of_nat (length marked)))
        (foldl (fun m q => Vec.set m (loc q) true)
           (replicate (Z.to_nat ((fillXmax f - fillXmin f + 1)
                                 * (fillYmax f - fillYmin f + 1))) false) marked).
Proof. unfold component_of_fill, aggregate. by rewrite extract_mask_spec. Qed.

Lemma NoDup_marked : NoDup marked.
Proof. apply NoDup_filter, NoDup_grid; apply NoDup_seqZ. Qed.

Lemma rows_in_image (p : Z * Z) :
  p ∈ rows -> 0 <= p.2 < width /\ 0 <= p.1 < height.
Proof.
  intros Hp%elem_of_rows.
  pose proof (fo_xrange _ _ _ Fok). pose proof (fo_yrange _ _ _ Fok). lia.
Qed.

Lemma component_mask_count :
  Vec.count_true (ComponentData.mask c) = length marked.
Proof.
  rewrite component_of_fill_eq. simpl.
  apply (count_true_indexed _ _ (fun p => Z.to_nat (loc p))).
  - apply NoDup_fmap_2_strong; [|apply NoDup_marked].
    intros p q Hp%list_elem_of_filter Hq%list_elem_of_filter E.
    eapply loc_inj; [apply Hp|apply Hq|done].
  - intros p Hp. apply list_elem_of_filter in Hp as [Hp1 Hp2].
    apply get_true_lookup.
    by rewrite (extracted_mask_lookup width (region f) _ _ _ _ p Hp2).
  - intros i Hi. rewrite lookup_foldl_set in Hi.
    destruct (decide _) as [Hex|_].
    + apply Exists_exists in Hex as (p & Hp & E). eauto.
    + by apply all_false_replicate in Hi.
Qed.

Lemma region_count : Vec.count_true (region f) = length marked.
Proof.
  apply (count_true_indexed _ _ (fun p => Z.to_nat (glob p))).
  - apply NoDup_fmap_2_strong; [|apply NoDup_marked].
    intros p q Hp%list_elem_of_filter Hq%list_elem_of_filter E.
    destruct Hp as [_ Hp%rows_in_image], Hq as [_ Hq%rows_in_image].
    destruct p as [py px], q as [qy qx]. simpl in *.
    apply (index_inj width height) in E as [-> ->]; [done|lia..].
  - intros p Hp. apply list_elem_of_filter in Hp as [Hp1 Hp2].
    by apply get_true_lookup.
  - intros i Hi.
    assert (i < Z.to_nat (width * height))%nat as Hlt.
    { rewrite <- (fo_length _ _ _ Fok). by eapply lookup_lt_Some. }
    pose proof (fo_xrange _ _ _ Fok). pose proof (fo_yrange _ _ _ Fok).
    destruct (index_decompose width height i Hlt) as (x & y & Hx & Hy & E); [lia..|].
    exists (y, x). split; [|done].
    apply list_elem_of_filter. split.
    + apply get_true_lookup. simpl. by rewrite E.
    + destruct (fo_tight _ _ _ Fok) as [Hbox _].
      apply elem_of_rows. simpl. apply and_comm, Hbox.
      split; [done|]. split; [done|]. by rewrite E.
Qed.

Lemma component_mask_region x y :
  fillXmin f <= x <= fillXmax f -> fillYmin f <= y <= fillYmax f ->
  Vec.get false (ComponentData.mask c)
    ((y - fillYmin f) * (fillXmax f - fillXmin f + 1) + (x - fillXmin f))
  = Vec.get false (region f) (y * width + x).
Proof.
  intros Hx Hy. rewrite component_of_fill_eq. simpl.
  apply (extracted_mask_lookup width (region f) _ _ _ _ (y, x)).
  apply elem_of_rows. simpl. lia.
Qed.

End ComponentOfFill.

Section KeptComponents.

Variables (width height : Z) (heatmap : list Q) (config : Config).
Variable (randomColor : nat -> Color) (img : list Color).

Local Abbreviation final := (extractComponents width height heatmap config randomColor img).

Lemma kept_component_fill comp :
  comp ∈ components final ->
  exists (n : nat) f,
    f ∈ fills final /\ fill_ok width height f /\ ~ discard_rule config f
    /\ comp = component_of_fill width heatmap (Z.of_nat n + 1) f.
Proof.
  pose proof (scan_inv_final width height heatmap config randomColor img) as I.
  rewrite (si_components _ _ _ _ _ I).
  intros (n & f & -> & Hf)%elem_of_lookup_imap.
  assert (f ∈ filter (fun f => ~ discard_rule config f) (fills final)) as Hin
    by (apply list_elem_of_lookup; eauto).
  apply list_elem_of_filter in Hin as [Hkeep Hin].
  exists n, f. split; [done|]. split; [|done].
  pose proof (si_fills _ _ _ _ _ I) as Hall.
  rewrite Forall_forall in Hall. by apply Hall.
Qed.

End KeptComponents.

(** C4. In the scan of [processImage] a flood fill leaves no component
    record exactly when its size is below [minComponentSize] or below a
    third (integer division) of the area of its bounding box: an
    iteration that runs a flood fill appends a record if and only if the
    discard rule fails, the records are those of the fills that pass it,
    numbered in order, and every record has [size >= minComponentSize] and
    [size >= area / 3].  Kept or dropped, the scratch mask is clear again
    after every iteration. *)
Theorem discard_rule_decides_records
    (width height : Z) (heatmap : list Q) (config : Config)
    (randomColor : nat -> Color) (img : list Color) :
  components (extractComponents width height heatmap config randomColor img)
  = imap (fun n f => component_of_fill width heatmap (Z.of_nat n + 1) f)
      (filter (fun f => ~ discard_rule config f)
         (fills (extractComponents width height heatmap config randomColor img)))
  /\ (forall s x y,
        Vec.get false (visited (mem s)) (y * width + x) = false ->
        exists f,
          fills (scan_pixel width height heatmap config randomColor s x y)
          = fills s ++ [f]
          /\ fillSize f
             = currentComponentSize
                 (mem (scan_pixel width height heatmap config randomColor s x y))
          /\ (discard_rule config f ->
              components (scan_pixel width height heatmap config randomColor s x y)
              = components s)
          /\ (~ discard_rule config f ->
              components (scan_pixel width height heatmap config randomColor s x y)
              = components s ++ [component_of_fill width heatmap (componentCount s + 1) f]))
  /\ (forall n,
        bigMask (mem (scan_upto width height heatmap config randomColor n
                        (initial_scan width height img)))
        = replicate (Z.to_nat (width * height)) false)
  /\ Forall (fun comp =>
               minComponentSize config <= ComponentData.size comp
               /\ box_area comp ÷ 3 <= ComponentData.size comp)
       (components (extractComponents width height heatmap config randomColor img)).
Proof.
  split; [|split; [|split]].
  - apply (si_components _ _ _ _ _
             (scan_inv_final width height heatmap config randomColor img)).
  - intros s x y Hv. rewrite scan_pixel_unvisited by done. cbn zeta.
    eexists. split; [reflexivity|]. split; [reflexivity|]. cbn [components].
    split; intros Hd.
    + by rewrite decide_True, app_nil_r.
    + by rewrite decide_False.
  - intros n. apply (si_clear _ _ _ _ _
             (scan_inv_upto width height heatmap config randomColor n img)).
  - apply Forall_forall. intros comp Hc.
    apply kept_component_fill in Hc as (n & f & _ & _ & Hkeep & ->).
    rewrite component_of_fill_eq. unfold box_area, discard_rule in *. simpl. lia.
Qed.

(** C5 (as the code has it).  The bounding box of every kept component
    lies inside the image and is the tight axis-aligned box around the
    pixels its flood fill visited, which are the pixels of its mask: the
    included pixels and also the visited pixels that failed the colour
    test (a flood fill marks exactly the pixels it visits, and changes the
    colour of marked pixels only).  The size of the component is the
    number of those pixels and is at most the area of the box. *)
Theorem box_is_tight_around_visited
    (width height : Z) (heatmap : list Q) (config : Config)
    (randomColor : nat -> Color) (img : list Color) :
  Forall (fun comp =>
            (0 <= ComponentData.xMin comp <= ComponentData.xMax comp
             /\ ComponentData.xMax comp < width)
            /\ (0 <= ComponentData.yMin comp <= ComponentData.yMax comp
                /\ ComponentData.yMax comp < height)
            /\ (exists f,
                  f ∈ fills (extractComponents width height heatmap config randomColor img)
                  /\ forall x y, mask_pixel comp x y <-> marked_in width height (region f) x y)
            /\ tight_box (mask_pixel comp)
                 (ComponentData.xMin comp) (ComponentData.xMax comp)
                 (ComponentData.yMin comp) (ComponentData.yMax comp)
            /\ ComponentData.size comp
               = Z.of_nat (Vec.count_true (ComponentData.mask comp))
            /\ ComponentData.size comp <= box_area comp)
    (components (extractComponents width height heatmap config randomColor img))
  /\ (forall (m : FillState) startColor newColor x y,
        0 <= x < width -> 0 <= y < height ->
        length (visited m) = Z.to_nat (width * height) ->
        bigMask m = replicate (Z.to_nat (width * height)) false ->
        Vec.get false (visited m) (y * width + x) = false ->
        forall i : nat,
          (bigMask (floodFillIterative width height startColor (k config)
                      (use8Way config) (adj config) (euclidif config) newColor x y
                      (mkFillState (image m) (visited m) (bigMask m) [] width 0 height 0 0))
             !! i = Some true
           <-> visited m !! i = Some false
               /\ visited (floodFillIterative width height startColor (k config)
                      (use8Way config) (adj config) (euclidif config) newColor x y
                      (mkFillState (image m) (visited m) (bigMask m) [] width 0 height 0 0))
                    !! i = Some true)
          /\ (image (floodFillIterative width height startColor (k config)
                       (use8Way config) (adj config) (euclidif config) newColor x y
                       (mkFillState (image m) (visited m) (bigMask m) [] width 0 height 0 0))
                !! i = image m !! i
              \/ bigMask (floodFillIterative width height startColor (k config)
                       (use8Way config) (adj config) (euclidif config) newColor x y
                       (mkFillState (image m) (visited m) (bigMask m) [] width 0 height 0 0))
                   !! i = Some true)).
Proof.
  split.
  - apply Forall_forall. intros comp Hc.
    apply kept_component_fill in Hc as (n & f & Hin & Fok & _ & ->).
    pose proof (fo_xrange _ _ _ Fok) as Hxr. pose proof (fo_yrange _ _ _ Fok) as Hyr.
    set (comp := component_of_fill width heatmap (Z.of_nat n + 1) f).
    assert (ComponentData.xMin comp = fillXmin f /\ ComponentData.xMax comp = fillXmax f
            /\ ComponentData.yMin comp = fillYmin f /\ ComponentData.yMax comp = fillYmax f
            /\ ComponentData.size comp = fillSize f) as (E1 & E2 & E3 & E4 & E5).
    { unfold comp. rewrite component_of_fill_eq. simpl. done. }
    destruct (fo_tight _ _ _ Fok) as (Hbox & [y1 T1] & [y2 T2] & [x3 T3] & [x4 T4]).
    assert (forall x y, mask_pixel comp x y <-> marked_in width height (region f) x y)
      as Hmask.
    { intros x y. unfold mask_pixel. rewrite E1, E2, E3, E4. split.
      - intros (Hx & Hy & Hm).
        unfold comp in Hm. rewrite (component_mask_region width heatmap) in Hm by done.
        split; [lia|]. split; [lia|]. by apply get_true_lookup.
      - intros Hm. destruct (Hbox x y Hm) as [Hx Hy].
        split; [done|]. split; [done|].
        unfold comp. rewrite (component_mask_region width heatmap) by done.
        apply get_true_lookup. apply Hm. }
    rewrite E1, E2, E3, E4, E5. split; [done|]. split; [done|].
    split; [by exists f|]. split; [|split].
    + split; [|split; [|split; [|split]]].
      * intros x y Hm. apply Hbox. by apply Hmask.
      * exists y1. by apply Hmask.
      * exists y2. by apply Hmask.
      * exists x3. by apply Hmask.
      * exists x4. by apply Hmask.
    + unfold comp.
      rewrite (component_mask_count width heatmap _ f).
      rewrite <- (region_count width height f Fok). apply Fok.
    + unfold box_area. rewrite E1, E2, E3, E4.
      rewrite (fo_size _ _ _ Fok), (region_count width height f Fok).
      rewrite <- (component_mask_count width heatmap (Z.of_nat n + 1) f).
      pose proof (count_true_le_length (ComponentData.mask comp)) as Hle.
      fold comp. revert Hle. unfold comp at 2. rewrite component_of_fill_eq. simpl.
      rewrite length_foldl_set, length_replicate. nia.
  - intros m startColor newColor x y Hx Hy Hlen Hclear Hv i.
    destruct (fill_from_seed width height startColor (k config) (use8Way config)
                (adj config) (euclidif config) newColor x y m Hx Hy Hlen Hclear Hv)
      as [R _].
    split; [apply (fr_mask _ _ _ _ R)|].
    unfold floodFillIterative in *.
    match goal with
    | |- image (fill_loop _ _ _ _ _ _ _ _ ?fuel ?st0) !! _ = _ \/ _ =>
        destruct (loop_image width height startColor (k config) (use8Way config)
                    (adj config) (euclidif config) newColor fuel st0 i Hlen)
          as [E|Hnew]
    end.
    + by left.
    + right. by apply (fr_mask _ _ _ _ R).
Qed.

(** ** The scan of [processImages] *)

Lemma set_false_id (m : list bool) (i : Z) :
  Vec.get false m i = false -> Vec.set m i false = m.
Proof.
  unfold Vec.get, Vec.set. intros Hi.
  destruct (m !! Z.to_nat i) as [b|] eqn:E; simpl in Hi.
  - subst b. by apply list_insert_id.
  - apply list_insert_ge. by apply lookup_ge_None.
Qed.

Lemma clear_and_paint_clears width paintIt xmin xmax ymin ymax bigMask img :
  (clear_and_paint width paintIt xmin xmax ymin ymax bigMask img).1
  = clear_box width xmin xmax ymin ymax bigMask.
Proof.
  unfold clear_and_paint. rewrite clear_box_flat.
  rewrite (foldl_grid (fun acc cx cy =>
             let '(bigMask, img) := acc in
             if Vec.get false bigMask (cy * width + cx)
             then (Vec.set bigMask (cy * width + cx) false,
                   if paintIt then Vec.set img (cy * width + cx) black else img)
             else (bigMask, img))).
  generalize (grid (seqZ xmin (xmax - xmin + 1)) (seqZ ymin (ymax - ymin + 1))).
  intros ps. revert bigMask img.
  induction ps as [|p ps IH]; intros bigMask img; [done|].
  cbn [foldl]. destruct (Vec.get false bigMask (p.2 * width + p.1)) eqn:E.
  - apply IH.
  - rewrite (set_false_id _ _ E). apply IH.
Qed.

Section BatchFacts.

Variables (width height : Z) (heatmap : list Q) (config : Config).
Variable (randomColor : nat -> Color).

Local Abbreviation pixel := (batch_pixel width height heatmap config randomColor).
Local Abbreviation inv := (batch_inv width height heatmap).

(** A flood fill started from any values of the five globals. *)
Lemma fill_seed_in_box startColor newColor x y (m : FillState) x0 x1 y0 y1 :
  0 <= x < width -> 0 <= y < height ->
  length (visited m) = Z.to_nat (width * height) ->
  bigMask m = replicate (Z.to_nat (width * height)) false ->
  Vec.get false (visited m) (y * width + x) = false ->
  let reset := mkFillState (image m) (visited m) (bigMask m) [] x0 x1 y0 y1 0 in
  let m1 := floodFillIterative width height startColor (k config) (use8Way config)
              (adj config) (euclidif config) newColor x y reset in
  fill_rel width height reset m1
  /\ Vec.get false (bigMask m1) (y * width + x) = true
  /\ currentComponentXmin m1 <= x <= currentComponentXmax m1
  /\ currentComponentYmin m1 <= y <= currentComponentYmax m1.
Proof.
  intros Hx Hy Hlen Hclear Hv reset m1.
  assert (length (bigMask m) = Z.to_nat (width * height)) as Hlm
    by (by rewrite Hclear, length_replicate).
  assert (all_false (bigMask m)) as Hall
    by (rewrite Hclear; apply all_false_replicate).
  assert (fill_rel width height reset m1) as R.
  { unfold m1, floodFillIterative. apply fill_rel_loop; [done..|].
    apply fill_rel_start; simpl; auto; lia. }
  assert (bigMask m1 !! Z.to_nat (y * width + x) = Some true) as Hseed.
  { apply (fr_mask _ _ _ _ R). split.
    - simpl. apply get_false_lookup; [|done]. rewrite Hlen. by eapply index_lt_length.
    - by apply fill_marks_seed. }
  split; [done|]. split; [by apply get_true_lookup|].
  by apply (fr_box _ _ _ _ R).
Qed.

Lemma batch_inv_initial img : inv (initial_batch width height img).
Proof. constructor; simpl; [by rewrite length_replicate|done|constructor]. Qed.

Lemma batch_inv_step s x y :
  0 <= x < width -> 0 <= y < height -> inv s -> inv (pixel s x y).
Proof.
  intros Hx Hy I. unfold batch_pixel.
  destruct (Vec.get false (visited (batch_mem s)) (y * width + x)) eqn:Hv; [done|].
  set (m := batch_mem s).
  set (m1 := floodFillIterative _ _ _ _ _ _ _ _ _ _ _).
  destruct (fill_seed_in_box (InImage (y * width + x))
              (randomColor (batch_fills s)) x y m
              1000000000 (-1000000000) 1000000000 (-1000000000) Hx Hy
              (bi_len_visited _ _ _ _ I) (bi_clear _ _ _ _ I) Hv)
    as (R & Hseed & Hbx & Hby).
  fold m1 in R, Hseed, Hbx, Hby.
  pose proof (fr_len_visited _ _ _ _ R) as Hlv. simpl in Hlv.
  pose proof (fr_len_bigMask _ _ _ _ R) as Hlm. simpl in Hlm.
  pose proof (bi_len_visited _ _ _ _ I) as Ilen. fold m in Ilen.
  pose proof (bi_clear _ _ _ _ I) as Iclear. fold m in Iclear.
  assert (clear_box width (currentComponentXmin m1) (currentComponentXmax m1)
            (currentComponentYmin m1) (currentComponentYmax m1) (bigMask m1)
          = replicate (Z.to_nat (width * height)) false) as Hcleared.
  { rewrite (all_false_eq_replicate (clear_box _ _ _ _ _ _)).
    - by rewrite length_clear_box, Hlm, Iclear, length_replicate.
    - apply clear_box_all_false. intros i Hi.
      assert (i < Z.to_nat (width * height))%nat as Hlt.
      { apply lookup_lt_Some in Hi. rewrite Hlm, Iclear, length_replicate in Hi. done. }
      destruct (index_decompose width height i Hlt) as (cx & cy & Hcx & Hcy & E);
        [lia..|].
      exists cx, cy. rewrite <- E in Hi.
      destruct (fr_box _ _ _ _ R cx cy Hcx Hcy Hi). done. }
  destruct (dropped _ _ _ _ _ _).
  { constructor; cbn [batch_mem batch_saved set_bigMask visited bigMask].
    - by rewrite Hlv.
    - done.
    - apply I. }
  rewrite extract_mask_batch_spec.
  set (xmin := currentComponentXmin m1) in *.
  set (xmax := currentComponentXmax m1) in *.
  set (ymin := currentComponentYmin m1) in *.
  set (ymax := currentComponentYmax m1) in *.
  set (marked := filter _ (box_by_columns xmin xmax ymin ymax)).
  assert ((y, x) ∈ marked) as Hin.
  { apply list_elem_of_filter. split; [done|]. apply elem_of_columns. simpl. lia. }
  assert (marked <> []) as Hne by (intros E; rewrite E in Hin; by apply elem_of_nil in Hin).
  destruct (clear_and_paint _ _ _ _ _ _ _ _) as [cleared painted] eqn:Hcp.
  pose proof (clear_and_paint_clears width
    (at_least (unguarded_average (float_sum (values_at width heatmap marked))
                 (Z.of_nat (length marked)))
              (F32.of_double (buildingBlockTreshold config))
     && (currentComponentSize m1 <? (width * height) ÷ 4))
    xmin xmax ymin ymax (bigMask m1) (batch_buildingBlocksImage s)) as Hcl.
  rewrite Hcp in Hcl. simpl in Hcl. subst cleared.
  constructor; cbn [batch_mem batch_saved set_bigMask visited bigMask].
  - by rewrite Hlv.
  - done.
  - apply Forall_app. split; [apply I|]. constructor; [|constructor].
    unfold saved_ok, saved_positions.
    cbn [saved_mask saved_x saved_y saved_width saved_height saved_probability].
    replace (xmin + (xmax - xmin + 1) - 1) with xmax by lia.
    replace (ymin + (ymax - ymin + 1) - 1) with ymax by lia.
    assert (forall q, q ∈ box_by_columns xmin xmax ymin ymax ->
              ymin <= q.1 <= ymax /\ xmin <= q.2 <= xmax) as Hcols
      by (intros q; apply elem_of_columns).
    pose proof (masked_filter width (bigMask m1) xmin xmax ymin ymax _ Hcols) as Hmf.
    cbv beta in Hmf. fold marked in Hmf. rewrite Hmf.
    split; [done|]. unfold unguarded_average, float_mean, values_at.
    by rewrite length_fmap.
Qed.

(** An iteration of the scan whose flood fill passes the discard rule
    saves one component: its mask is the scratch mask seen through the
    box, and its average is the mean over the marked positions, column by
    column. *)
Lemma batch_pixel_kept s x y :
  0 <= x < width -> 0 <= y < height -> inv s ->
  Vec.get false (visited (batch_mem s)) (y * width + x) = false ->
  let m1 := batch_fill width height config randomColor s x y in
  dropped config (currentComponentSize m1)
    (currentComponentXmin m1) (currentComponentXmax m1)
    (currentComponentYmin m1) (currentComponentYmax m1) = false ->
  exists c,
    batch_saved (pixel s x y) = batch_saved s ++ [c]
    /\ saved_positions c
       = filter (fun p => Vec.get false (bigMask m1) (p.1 * width + p.2) = true)
           (box_by_columns (currentComponentXmin m1) (currentComponentXmax m1)
              (currentComponentYmin m1) (currentComponentYmax m1))
    /\ saved_ok width heatmap c.
Proof.
  intros Hx Hy I Hv m1 Hkept. unfold batch_pixel. rewrite Hv.
  set (m := batch_mem s).
  change (floodFillIterative _ _ _ _ _ _ _ _ _ _ _) with m1.
  destruct (fill_seed_in_box (InImage (y * width + x))
              (randomColor (batch_fills s)) x y m
              1000000000 (-1000000000) 1000000000 (-1000000000) Hx Hy
              (bi_len_visited _ _ _ _ I) (bi_clear _ _ _ _ I) Hv)
    as (R & Hseed & Hbx & Hby).
  change (floodFillIterative _ _ _ _ _ _ _ _ _ _ _) with m1 in R, Hseed, Hbx, Hby.
  rewrite Hkept. rewrite extract_mask_batch_spec.
  set (xmin := currentComponentXmin m1) in *.
  set (xmax := currentComponentXmax m1) in *.
  set (ymin := currentComponentYmin m1) in *.
  set (ymax := currentComponentYmax m1) in *.
  set (marked := filter _ (box_by_columns xmin xmax ymin ymax)).
  assert ((y, x) ∈ marked) as Hin.
  { apply list_elem_of_filter. split; [done|]. apply elem_of_columns. simpl. lia. }
  assert (marked <> []) as Hne by (intros E; rewrite E in Hin; by apply elem_of_nil in Hin).
  destruct (clear_and_paint _ _ _ _ _ _ _ _) as [cleared painted] eqn:Hcp.
  eexists. cbn [batch_saved]. split; [reflexivity|].
  assert (forall q, q ∈ box_by_columns xmin xmax ymin ymax ->
            ymin <= q.1 <= ymax /\ xmin <= q.2 <= xmax) as Hcols
    by (intros q; apply elem_of_columns).
  pose proof (masked_filter width (bigMask m1) xmin xmax ymin ymax _ Hcols) as Hmf.
  cbv beta in Hmf. fold marked in Hmf.
  assert (saved_positions
            (mkSavedComponent (batch_componentCount s + 1) xmin ymin
               (xmax - xmin + 1) (ymax - ymin + 1)
               (unguarded_average (float_sum (values_at width heatmap marked))
                  (Z.of_nat (length marked)))
               (foldl (fun mask p =>
                         Vec.set mask ((p.1 - ymin) * (xmax - xmin + 1) + (p.2 - xmin)) true)
                      (replicate (Z.to_nat ((xmax - xmin + 1) * (ymax - ymin + 1))) false)
                      marked)
               (at_least (unguarded_average (float_sum (values_at width heatmap marked))
                            (Z.of_nat (length marked)))
                         (F32.of_double (buildingBlockTreshold config))))
          = marked) as Hpos.
  { unfold saved_positions.
    cbn [saved_mask saved_x saved_y saved_width saved_height].
    replace (xmin + (xmax - xmin + 1) - 1) with xmax by lia.
    replace (ymin + (ymax - ymin + 1) - 1) with ymax by lia.
    exact Hmf. }
  split; [exact Hpos|]. split; [by rewrite Hpos|]. rewrite Hpos.
  cbn [saved_probability]. unfold unguarded_average, float_mean, values_at.
  by rewrite length_fmap.
Qed.

Lemma batch_scan_flat s :
  batch_scan width height heatmap config randomColor s
  = foldl (fun s p => pixel s p.2 p.1) s (raster width height).
Proof.
  unfold batch_scan, raster. apply (foldl_grid (fun s y x => pixel s x y)).
Qed.

Lemma batch_inv_final img :
  inv (batch_scan width height heatmap config randomColor
         (initial_batch width height img)).
Proof.
  rewrite batch_scan_flat.
  assert (forall ps s, (forall p, p ∈ ps -> p ∈ raster width height) -> inv s ->
            inv (foldl (fun s p => pixel s p.2 p.1) s ps)) as Hfold.
  { induction ps as [|p ps IH]; intros s Hps I; simpl; [done|].
    apply IH; [intros q Hq; apply Hps; by right|].
    assert (p ∈ raster width height) as Hp by (apply Hps; by left).
    apply elem_of_raster in Hp. apply batch_inv_step; [lia..|done]. }
  apply Hfold; [done|apply batch_inv_initial].
Qed.

End BatchFacts.

(** C8. The probability aggregation is total and returns the mean, as
    [float] arithmetic computes it, of the heatmap values at the positions
    where the mask of the component is set: the values are added in the
    order of the loops, every sum rounded to [float], and the sum is
    divided on [float] by their number.  In [processImage] (row by row)
    the mask it extracts is the scratch mask seen through the bounding
    box, the average is [0] when the mask is set nowhere, and it is never
    a NaN for a number of positions that fits an [int].  In
    [processImages] (column by column), whose quotient is not guarded,
    every iteration of the scan whose flood fill passes the discard rule
    saves one component; its mask is set somewhere, so the divisor is not
    [0], and its average is that mean and not a NaN. *)
Theorem aggregation_is_float_mean
    (width height : Z) (heatmap : list Q) (config : Config)
    (randomColor : nat -> Color) (img : list Color)
    (scratch : list bool) (xmin xmax ymin ymax : Z) :
  (exists avgProbability mask,
    aggregate width heatmap scratch xmin xmax ymin ymax = (avgProbability, mask)
    /\ length mask = Z.to_nat ((xmax - xmin + 1) * (ymax - ymin + 1))
    /\ (forall cx cy, xmin <= cx <= xmax -> ymin <= cy <= ymax ->
          Vec.get false mask ((cy - ymin) * (xmax - xmin + 1) + (cx - xmin))
          = Vec.get false scratch (cy * width + cx))
    /\ (masked_positions xmin xmax ymin ymax mask <> [] ->
          avgProbability
          = float_mean (values_at width heatmap
                          (masked_positions xmin xmax ymin ymax mask)))
    /\ (masked_positions xmin xmax ymin ymax mask = [] ->
          avgProbability = F32.Finite 0)
    /\ (all_false mask -> avgProbability = F32.Finite 0)
    /\ (Z.of_nat (length (masked_positions xmin xmax ymin ymax mask)) < 2 ^ 31 ->
          avgProbability <> F32.NaN))
  /\ (forall s x y,
        0 <= x < width -> 0 <= y < height ->
        batch_inv width height heatmap s ->
        Vec.get false (visited (batch_mem s)) (y * width + x) = false ->
        let m1 := batch_fill width height config randomColor s x y in
        dropped config (currentComponentSize m1)
          (currentComponentXmin m1) (currentComponentXmax m1)
          (currentComponentYmin m1) (currentComponentYmax m1) = false ->
        exists c,
          batch_saved (batch_pixel width height heatmap config randomColor s x y)
          = batch_saved s ++ [c]
          /\ saved_positions c
             = filter (fun p => Vec.get false (bigMask m1) (p.1 * width + p.2) = true)
                 (box_by_columns (currentComponentXmin m1) (currentComponentXmax m1)
                    (currentComponentYmin m1) (currentComponentYmax m1))
          /\ saved_positions c <> []
          /\ saved_probability c
             = float_mean (values_at width heatmap (saved_positions c))
          /\ (Z.of_nat (length (saved_positions c)) < 2 ^ 31 ->
                saved_probability c <> F32.NaN))
  /\ Forall (saved_ok width heatmap)
       (batch_saved (batch_scan width height heatmap config randomColor
                       (initial_batch width height img))).
Proof.
  split; [|split;
    [|apply (bi_saved _ _ _ _
               (batch_inv_final width height heatmap config randomColor img))]].
  - unfold aggregate. rewrite extract_mask_spec.
    eexists _, _. split; [reflexivity|].
    rewrite masked_positions_extracted.
    set (marked := filter _ _).
    assert (marked <> [] ->
            average (float_sum (values_at width heatmap marked))
              (Z.of_nat (length marked))
            = float_mean (values_at width heatmap marked)) as Hmean.
    { intros Hne. unfold average, float_mean, values_at. rewrite length_fmap.
      replace (0 <? Z.of_nat (length marked)) with true; [done|].
      symmetry. apply Z.ltb_lt. destruct marked; [done|]. simpl. lia. }
    assert (marked = [] ->
            average (float_sum (values_at width heatmap marked))
              (Z.of_nat (length marked)) = F32.Finite 0) as Hempty.
    { intros ->. reflexivity. }
    split; [|split; [|split; [|split; [|split]]]].
    + by rewrite length_foldl_set, length_replicate.
    + intros cx cy Hx Hy.
      apply (extracted_mask_lookup width scratch xmin xmax ymin ymax (cy, cx)).
      apply elem_of_rows. simpl. lia.
    + done.
    + done.
    + intros Hall. apply Hempty.
      destruct marked as [|p ps] eqn:E; [done|exfalso].
      assert (p ∈ marked) as Hp by (rewrite E; by left).
      apply list_elem_of_filter in Hp as [Hp1 Hp2].
      rewrite <- (extracted_mask_lookup width scratch xmin xmax ymin ymax p Hp2) in Hp1.
      apply get_true_lookup in Hp1. fold marked in Hp1. rewrite E in Hp1.
      by apply Hall in Hp1.
    + intros Hlen. destruct marked as [|p ps] eqn:E.
      * by rewrite Hempty.
      * rewrite Hmean by done. apply float_mean_not_NaN.
        -- done.
        -- unfold values_at. by rewrite length_fmap.
  - intros s x y Hx Hy I Hv m1 Hkept.
    destruct (batch_pixel_kept width height heatmap config randomColor
                s x y Hx Hy I Hv Hkept) as (c & Hsaved & Hpos & Hne & Hmean).
    exists c. split; [done|]. split; [done|]. split; [done|]. split; [done|].
    intros Hlen. rewrite Hmean. apply float_mean_not_NaN.
    + unfold values_at. by destruct (saved_positions c).
    + unfold values_at. by rewrite length_fmap.
Qed.

(** ** Independence of the fill colours when the comparison is with the
       neighbour *)

(** With [adj] set, every colour that a flood fill compares was read from
    a pixel that no fill had visited: the colour of the popped pixel, and
    the colour that came with it on the stack.  Two runs that differ in
    the fill colours then take the same decisions.  Without [adj] the
    comparison reads the seed through [startColor] after the seed has been
    recoloured, and the decisions depend on the fill colour. *)

Section Simulation.

Variables (width height : Z) (random1 random2 : nat -> Color).

Local Abbreviation sim := (mem_sim random1 random2).

(** A pixel that is not marked visited has the same colour in both runs. *)
Lemma sim_read m1 m2 (j : Z) :
  sim m1 m2 -> Vec.get false (visited m1) j = false ->
  Vec.get black (image m1) j = Vec.get black (image m2) j.
Proof.
  intros S Hv. unfold Vec.get.
  destruct (decide (Z.to_nat j < length (visited m1))%nat) as [Hlt|Hge].
  - by rewrite (ms_unvisited _ _ _ _ S _ (get_false_lookup _ _ Hlt Hv)).
  - destruct (ms_image _ _ _ _ S) as [Hlen _].
    pose proof (ms_len _ _ _ _ S).
    by rewrite !(proj2 (lookup_ge_None _ _)) by lia.
Qed.

Section Step.

Variables (startColor : ColorRef) (k : Q) (use8Way adj euclidif : bool).
Variables (n : nat).
Hypothesis (Hadj : adj = true).

Local Abbreviation step1 :=
  (fill_step width height startColor k use8Way adj euclidif (random1 n)).
Local Abbreviation step2 :=
  (fill_step width height startColor k use8Way adj euclidif (random2 n)).

Lemma sim_mark m1 m2 (j : Z) img1 img2 stk xmin xmax ymin ymax size :
  sim m1 m2 -> Vec.get false (visited m1) j = false ->
  (img1 = image m1 /\ img2 = image m2
   \/ img1 = Vec.set (image m1) j (random1 n)
      /\ img2 = Vec.set (image m2) j (random2 n)) ->
  sim (mkFillState img1 (Vec.set (visited m1) j true) (Vec.set (bigMask m1) j true)
         stk xmin xmax ymin ymax size)
      (mkFillState img2 (Vec.set (visited m2) j true) (Vec.set (bigMask m2) j true)
         stk xmin xmax ymin ymax size).
Proof.
  intros S Hv Himg.
  pose proof (ms_len _ _ _ _ S) as Hl1.
  destruct (ms_image _ _ _ _ S) as [Hl2 Hcol].
  constructor; cbn [image visited bigMask stack currentComponentXmin
    currentComponentXmax currentComponentYmin currentComponentYmax
    currentComponentSize]; try done.
  - by rewrite (ms_visited _ _ _ _ S).
  - by rewrite (ms_bigMask _ _ _ _ S).
  - rewrite length_set.
    destruct Himg as [[-> _]|[-> _]]; by rewrite ?length_set.
  - intros i Hi.
    destruct (decide (Z.to_nat j = i)) as [<-|Hne].
    + destruct (decide (Z.to_nat j < length (visited m1))%nat) as [Hlt|Hge].
      * rewrite lookup_set_eq in Hi by done. discriminate.
      * apply lookup_lt_Some in Hi. rewrite length_set in Hi. lia.
    + rewrite lookup_set_ne in Hi by done.
      destruct Himg as [[-> ->]|[-> ->]]; rewrite ?lookup_set_ne by done;
        by apply (ms_unvisited _ _ _ _ S).
  - destruct Himg as [[-> ->]|[-> ->]]; [done|].
    split; [by rewrite !length_set|].
    intros i c1 c2. destruct (decide (Z.to_nat j = i)) as [<-|Hne].
    + intros H1 H2.
      assert (Z.to_nat j < length (image m1))%nat as Hlt
        by (apply lookup_lt_Some in H1; by rewrite length_set in H1).
      rewrite lookup_set_eq in H1 by done.
      rewrite lookup_set_eq in H2 by lia.
      right. exists n. split; congruence.
    + rewrite !lookup_set_ne by done. apply Hcol.
Qed.

Lemma sim_step m1 m2 :
  sim m1 m2 ->
  match step1 m1, step2 m2 with
  | Some m1', Some m2' => sim m1' m2'
  | None, None => True
  | _, _ => False
  end.
Proof.
  intros S. unfold fill_step. rewrite Hadj.
  rewrite <- (ms_stack _ _ _ _ S), <- (ms_visited _ _ _ _ S).
  destruct (stack m1) as [|[[x y] nc] rest] eqn:Hst; [done|].
  destruct (negb (in_bounds width height x y)
            || Vec.get false (visited m1) (y * width + x)) eqn:Hb.
  { destruct S. by constructor. }
  apply orb_false_iff in Hb as [_ Hv].
  rewrite <- (sim_read m1 m2 _ S Hv).
  rewrite <- (ms_bigMask _ _ _ _ S), <- (ms_xmin _ _ _ _ S), <- (ms_xmax _ _ _ _ S),
    <- (ms_ymin _ _ _ _ S), <- (ms_ymax _ _ _ _ S), <- (ms_size _ _ _ _ S).
  destruct (colorDifference_le _ _ _ _).
  - rewrite (ms_visited _ _ _ _ S) at 2. rewrite (ms_bigMask _ _ _ _ S) at 2.
    apply sim_mark; auto.
  - rewrite (ms_visited _ _ _ _ S) at 2. rewrite (ms_bigMask _ _ _ _ S) at 2.
    apply sim_mark; auto.
Qed.

Lemma sim_loop fuel m1 m2 :
  sim m1 m2 ->
  sim (fill_loop width height startColor k use8Way adj euclidif (random1 n) fuel m1)
      (fill_loop width height startColor k use8Way adj euclidif (random2 n) fuel m2).
Proof.
  revert m1 m2. induction fuel as [|fuel IH]; intros m1 m2 S; simpl; [done|].
  pose proof (sim_step m1 m2 S) as Hs.
  destruct (step1 m1) as [m1'|], (step2 m2) as [m2'|]; try done.
  by apply IH.
Qed.

End Step.

End Simulation.

Section ScanSimulation.

Variables (width height : Z) (heatmap : list Q) (config : Config).
Variables (random1 random2 : nat -> Color).
Hypothesis (Hadj : adj config = true).

Local Abbreviation pixel1 := (scan_pixel width height heatmap config random1).
Local Abbreviation pixel2 := (scan_pixel width height heatmap config random2).

Lemma sim_set_bigMask m1 m2 mask :
  mem_sim random1 random2 m1 m2 ->
  mem_sim random1 random2 (set_bigMask m1 mask) (set_bigMask m2 mask).
Proof. intros []. by constructor. Qed.

Lemma sim_scan_pixel s1 s2 x y :
  scan_sim random1 random2 s1 s2 ->
  scan_sim random1 random2 (pixel1 s1 x y) (pixel2 s2 x y).
Proof.
  intros [S Hc Hn Hf].
  destruct (Vec.get false (visited (mem s1)) (y * width + x)) eqn:Hv.
  { rewrite !scan_pixel_visited; [by constructor| |done].
    by rewrite <- (ms_visited _ _ _ _ S). }
  assert (Vec.get false (visited (mem s2)) (y * width + x) = false) as Hv2
    by (by rewrite <- (ms_visited _ _ _ _ S)).
  rewrite !scan_pixel_unvisited by done. cbn zeta.
  rewrite <- Hf, <- Hc, <- Hn.
  set (m1 := floodFillIterative _ _ _ _ _ _ _ (random1 _) _ _ _).
  set (m2 := floodFillIterative _ _ _ _ _ _ _ (random2 _) _ _ _).
  assert (mem_sim random1 random2 m1 m2) as S'.
  { unfold m1, m2, floodFillIterative. cbn [visited image bigMask stack
      currentComponentXmin currentComponentXmax currentComponentYmin
      currentComponentYmax currentComponentSize].
    unfold deref. rewrite <- (sim_read _ _ _ _ _ S Hv).
    match goal with
    | |- mem_sim _ _ (fill_loop _ _ _ _ _ _ _ _ ?f1 _) (fill_loop _ _ _ _ _ _ _ _ ?f2 _) =>
        replace f2 with f1
          by (unfold fill_measure; simpl; by rewrite (ms_visited _ _ _ _ S))
    end.
    apply sim_loop; [done|]. destruct S. by constructor. }
  assert (fill_record x y m1 = fill_record x y m2) as Ef.
  { unfold fill_record. destruct S'. congruence. }
  rewrite <- Ef. constructor; cbn [mem components componentCount fills]; try done.
  rewrite <- (ms_bigMask _ _ _ _ S'). by apply sim_set_bigMask.
Qed.

Lemma sim_scan_foldl (ps : list (Z * Z)) s1 s2 :
  scan_sim random1 random2 s1 s2 ->
  scan_sim random1 random2
    (foldl (fun s p => pixel1 s p.2 p.1) s1 ps)
    (foldl (fun s p => pixel2 s p.2 p.1) s2 ps).
Proof.
  revert s1 s2. induction ps as [|p ps IH]; intros s1 s2 S; simpl; [done|].
  by apply IH, sim_scan_pixel.
Qed.

Lemma sim_extractComponents img :
  length img = Z.to_nat (width * height) ->
  scan_sim random1 random2
    (extractComponents width height heatmap config random1 img)
    (extractComponents width height heatmap config random2 img).
Proof.
  intros Hlen. unfold extractComponents. rewrite !scan_flat.
  apply sim_scan_foldl. constructor; try done.
  constructor; simpl; try done.
  - by rewrite length_replicate.
  - split; [done|]. intros i c1 c2 H1 H2. left. congruence.
Qed.

End ScanSimulation.


(** ** Sorting and percentile ranks *)

Section SortFacts.

Context {A : Type} (leb : A -> A -> bool) (le : A -> A -> Prop).
Hypothesis leb_le : forall x y, leb x y = true -> le x y.
Hypothesis leb_total : forall x y, leb x y = false -> le y x.

Lemma sorted_insert_perm x l : sorted_insert leb x l ≡ₚ x :: l.
Proof.
  induction l as [|y l IH]; simpl; [done|].
  destruct (leb x y); [done|]. rewrite IH. apply Permutation_swap.
Qed.

Lemma std_sort_perm l : l ≡ₚ std_sort leb l.
Proof.
  induction l as [|x l IH]; simpl; [done|].
  rewrite sorted_insert_perm. by constructor.
Qed.

Lemma sorted_insert_hd x y l :
  le y x -> HdRel le y l -> HdRel le y (sorted_insert leb x l).
Proof.
  intros Hyx Hl. destruct l as [|z l]; simpl; [by constructor|].
  destruct (leb x z); constructor; [done|]. by inversion Hl.
Qed.

Lemma sorted_insert_sorted x l :
  Sorted le l -> Sorted le (sorted_insert leb x l).
Proof.
  induction 1 as [|y l Hs IH Hhd]; simpl; [by repeat constructor|].
  destruct (leb x y) eqn:E.
  - constructor; [by constructor|]. constructor. by apply leb_le.
  - constructor; [done|]. apply sorted_insert_hd; [|done]. by apply leb_total.
Qed.

Lemma std_sort_sorted l : Sorted le (std_sort leb l).
Proof.
  induction l as [|x l IH]; simpl; [constructor|]. by apply sorted_insert_sorted.
Qed.

Lemma length_std_sort l : length (std_sort leb l) = length l.
Proof. symmetry. apply Permutation_length, std_sort_perm. Qed.

End SortFacts.

Lemma Qle_bool_total x y : Qle_bool x y = false -> (y <= x)%Q.
Proof.
  intros H. destruct (Qlt_le_dec y x) as [Hlt|Hle].
  - by apply Qlt_le_weak.
  - apply Qle_bool_iff in Hle. congruence.
Qed.

Lemma Zleb_total x y : (x <=? y) = false -> y <= x.
Proof. lia. Qed.

Lemma Qfloor_fraction (a : Z) (b : positive) (n : Z) :
  Qfloor ((a # b) * inject_Z n) = (a * n) / Z.pos b.
Proof. unfold Qfloor, Qmult, inject_Z. simpl. by rewrite Pos.mul_1_r. Qed.

Lemma index80_prob_floor n :
  0 < n -> index80_prob n = (4 * n) / 5 /\ index80_prob n = Z.min ((4 * n) / 5) (n - 1).
Proof.
  intros Hn. unfold index80_prob.
  change (0.8%Q) with (8 # 10). rewrite Qfloor_fraction.
  assert (8 * n / 10 = 4 * n / 5) as ->.
  { replace (8 * n) with (4 * n * 2) by lia. change 10 with (5 * 2).
    by rewrite Z.div_mul_cancel_r. }
  assert (4 * n / 5 < n) by (apply Z.div_lt_upper_bound; lia).
  replace (4 * n / 5 >=? n) with false by lia. lia.
Qed.

Lemma index80_size_floor n :
  0 < n -> index80_size n = (9 * n) / 10 /\ index80_size n = Z.min ((9 * n) / 10) (n - 1).
Proof.
  intros Hn. unfold index80_size.
  change (0.9%Q) with (9 # 10). rewrite Qfloor_fraction.
  assert (9 * n / 10 < n) by (apply Z.div_lt_upper_bound; lia).
  replace (9 * n / 10 >=? n) with false by lia. lia.
Qed.

(** ** Reading the heatmap *)

Lemma read_floats_None n bytes :
  read_floats n bytes = None <-> (length bytes < 4 * n)%nat.
Proof.
  revert bytes. induction n as [|n IH]; intros bytes; simpl.
  - split; [done|lia].
  - destruct bytes as [|b0 [|b1 [|b2 [|b3 rest]]]]; simpl; try (split; [lia|done]).
    specialize (IH rest). destruct (read_floats n rest).
    + split; [done|]. intros H. assert (length rest < 4 * n)%nat as H' by lia.
      by apply IH in H'.
    + split; [|done]. intros _. assert (length rest < 4 * n)%nat by (by apply IH). lia.
Qed.

Lemma read_floats_length n bytes l : read_floats n bytes = Some l -> length l = n.
Proof.
  revert bytes l. induction n as [|n IH]; intros bytes l; simpl.
  - by intros [= <-].
  - destruct bytes as [|b0 [|b1 [|b2 [|b3 rest]]]]; try done.
    destruct (read_floats n rest) eqn:E; [|done].
    intros [= <-]. simpl. f_equal. by eapply IH.
Qed.

Lemma read_floats_prefix n bytes :
  read_floats n bytes = read_floats n (take (4 * n) bytes).
Proof.
  revert bytes. induction n as [|n IH]; intros bytes; [done|].
  replace (4 * S n)%nat with (S (S (S (S (4 * n))))) by lia.
  destruct bytes as [|b0 [|b1 [|b2 [|b3 rest]]]]; try done.
  cbn [read_floats take]. by rewrite <- IH.
Qed.

(** ** The classification loop *)

Lemma classify_saved width pt st comps img0 :
  (classify width pt st comps img0).2
  = (fun comp => (comp, isBuildingBlock pt st comp)) <$> comps.
Proof.
  unfold classify.
  assert (forall img saved,
    (foldl (fun acc comp =>
              let '(img, saved) := acc in
              let isBB := isBuildingBlock pt st comp in
              ((if isBB then paint width comp img else img), saved ++ [(comp, isBB)]))
       (img, saved) comps).2
    = saved ++ ((fun comp => (comp, isBuildingBlock pt st comp)) <$> comps)) as H.
  { induction comps as [|c comps IH]; intros img saved; simpl.
    - by rewrite app_nil_r.
    - rewrite IH. by rewrite <- app_assoc. }
  apply H.
Qed.

(** ** Pixels that fail the colour test *)

Section NoLaterSeed.

Variables (width height : Z) (heatmap : list Q) (config : Config).
Variable (randomColor : nat -> Color).

Local Abbreviation pixel := (scan_pixel width height heatmap config randomColor).

Lemma scan_pixel_seed s x' y' :
  fills (pixel s x' y') = fills s
  \/ exists f, fills (pixel s x' y') = fills s ++ [f]
               /\ seedX f = x' /\ seedY f = y'
               /\ Vec.get false (visited (mem s)) (y' * width + x') = false.
Proof.
  destruct (Vec.get false (visited (mem s)) (y' * width + x')) eqn:Hv.
  - left. by rewrite scan_pixel_visited.
  - right. rewrite scan_pixel_unvisited by done. cbn zeta. cbn [fills].
    eexists. split; [reflexivity|]. done.
Qed.

Lemma scan_foldl_no_seed (ps : list (Z * Z)) s x y :
  Vec.get false (visited (mem s)) (y * width + x) = true ->
  Vec.get false (visited (mem (foldl (fun s p => pixel s p.2 p.1) s ps)))
    (y * width + x) = true
  /\ exists new,
       fills (foldl (fun s p => pixel s p.2 p.1) s ps) = fills s ++ new
       /\ Forall (fun f => ~ (seedX f = x /\ seedY f = y)) new.
Proof.
  revert s. induction ps as [|p ps IH]; intros s Hv; cbn [foldl].
  - split; [done|]. exists []. by rewrite app_nil_r.
  - assert (Vec.get false (visited (mem (pixel s p.2 p.1))) (y * width + x) = true)
      as Hv' by (apply get_true_lookup, scan_pixel_mono; by apply get_true_lookup).
    destruct (IH _ Hv') as [Hfin (new & Hnew & Hall)]. split; [done|].
    destruct (scan_pixel_seed s p.2 p.1) as [E|(f & E & Hx & Hy & Hu)].
    + exists new. by rewrite Hnew, E.
    + exists (f :: new). rewrite Hnew, E, <- app_assoc. split; [done|].
      constructor; [|done]. intros [Ex Ey]. rewrite Hx, Hy in *. subst.
      congruence.
Qed.

End NoLaterSeed.

(** C6 (as the code has it).  When the entry popped by the flood fill is an
    unvisited pixel of the image whose difference to the comparison colour
    (the colour that came with it on the stack when [adj] is set, and
    otherwise what [startColor] refers to at that moment) exceeds [k], the
    pixel is marked visited and marked in the scratch mask,
    it is counted in the size and the bounding box of the current region,
    it keeps its colour and none of its neighbours is pushed.  It stays in
    the Visited Set for the rest of that flood fill; and once a pixel is in
    the Visited Set of the scan, no later iteration of the scan starts a
    flood fill at it. *)
Theorem failed_pixel_joins_the_region
    (width height : Z) (startColor : ColorRef) (k : Q) (use8Way adj euclidif : bool)
    (newColor : Color) (st : FillState) (x y : Z) (neighborColor : Color)
    (rest : list (Z * Z * Color)) :
  stack st = (x, y, neighborColor) :: rest ->
  0 <= x < width -> 0 <= y < height ->
  length (visited st) = Z.to_nat (width * height) ->
  length (bigMask st) = Z.to_nat (width * height) ->
  Vec.get false (visited st) (y * width + x) = false ->
  colorDifference_le (Vec.get black (image st) (y * width + x))
    (if adj then neighborColor else deref (image st) startColor) euclidif k = false ->
  (exists st',
     fill_step width height startColor k use8Way adj euclidif newColor st = Some st'
     /\ Vec.get false (visited st') (y * width + x) = true
     /\ Vec.get false (bigMask st') (y * width + x) = true
     /\ currentComponentSize st' = currentComponentSize st + 1
     /\ currentComponentXmin st' <= x <= currentComponentXmax st'
     /\ currentComponentYmin st' <= y <= currentComponentYmax st'
     /\ image st' = image st
     /\ stack st' = rest
     /\ forall fuel,
          Vec.get false
            (visited (fill_loop width height startColor k use8Way adj euclidif
                        newColor fuel st')) (y * width + x) = true)
  /\ (forall heatmap config randomColor (s : ScanState) (later : list (Z * Z)),
        Vec.get false (visited (mem s)) (y * width + x) = true ->
        Vec.get false
          (visited (mem (foldl (fun s p =>
                                  scan_pixel width height heatmap config randomColor s p.2 p.1)
                               s later))) (y * width + x) = true
        /\ exists new,
             fills (foldl (fun s p =>
                             scan_pixel width height heatmap config randomColor s p.2 p.1)
                          s later) = fills s ++ new
             /\ Forall (fun f => ~ (seedX f = x /\ seedY f = y)) new).
Proof.
  intros Hst Hx Hy Hlv Hlm Hv Hfail. split.
  - unfold fill_step. rewrite Hst.
    replace (negb (in_bounds width height x y)) with false
      by (symmetry; apply negb_false_iff, in_bounds_spec; lia).
    rewrite Hv, Hfail. cbn [orb]. eexists. split; [reflexivity|].
    assert (Z.to_nat (y * width + x) < Z.to_nat (width * height))%nat as Hj
      by (by eapply index_lt_length).
    cbn [visited bigMask image stack currentComponentSize currentComponentXmin
         currentComponentXmax currentComponentYmin currentComponentYmax].
    assert (Vec.get false (Vec.set (visited st) (y * width + x) true) (y * width + x)
            = true) as Hmarked by (apply get_set_eq; lia).
    repeat split; try done; try lia.
    + apply get_set_eq. lia.
    + intros fuel. apply get_true_lookup, loop_visited_mono. simpl.
      by apply get_true_lookup.
  - intros heatmap config randomColor s later Hs.
    by apply scan_foldl_no_seed.
Qed.

(** C9 (as the code has it).  With the image decoded, [processImage] stops
    at the heatmap when the file cannot be opened, and it stops with a read
    error exactly when the file holds fewer than [4 * width * height]
    bytes.  A longer file is accepted: the run is the one on the first
    [4 * width * height] bytes of the file. *)
Theorem heatmap_read_fails_iff_short
    (inputs : Inputs) (config : Config) (randomColor : nat -> Color)
    (width height : Z) (imgData : list Color) :
  decoded inputs = Some (width, height, imgData) ->
  (heatmapFile inputs = None ->
   processImage inputs config randomColor = FailedToLoadHeatmap)
  /\ (forall bytes, heatmapFile inputs = Some bytes ->
        (processImage inputs config randomColor = ErrorReadingHeatmap
         <-> (length bytes < 4 * Z.to_nat (width * height))%nat)
        /\ processImage inputs config randomColor
           = processImage
               (mkInputs (decoded inputs)
                  (Some (take (4 * Z.to_nat (width * height)) bytes))
                  (outputFolderCreated inputs) (subfoldersCreated inputs)
                  (jsonOpened inputs))
               config randomColor).
Proof.
  intros Hd. split.
  - intros Hf. unfold processImage. by rewrite Hd, Hf.
  - intros bytes Hf. split.
    + rewrite <- read_floats_None. unfold processImage. rewrite Hd, Hf.
      destruct (read_floats _ bytes) as [heatmap|]; [|done].
      destruct (outputFolderCreated inputs); [|done].
      destruct (subfoldersCreated inputs); [|done].
      destruct (jsonOpened inputs); [|done]. cbn [negb].
      destruct (classify _ _ _ _ _). done.
    + unfold processImage. cbn [decoded heatmapFile outputFolderCreated
        subfoldersCreated jsonOpened]. rewrite Hd, Hf.
      by rewrite <- read_floats_prefix.
Qed.

(** C1 (as the code has it).  When [processImage] finishes on an image
    with at least one pixel, its probability threshold is the value at
    index [floor (0.8 * M)] (which never exceeds the last index) of the
    [M = width * height] values of the heatmap sorted ascending: the
    population is the pixels of the heatmap, not the components. *)
Theorem probability_threshold_is_heatmap_percentile
    (inputs : Inputs) (config : Config) (randomColor : nat -> Color)
    (width height : Z) (imgData : list Color) (bytes : list byte) (out : Output) :
  decoded inputs = Some (width, height, imgData) ->
  heatmapFile inputs = Some bytes ->
  0 < width * height ->
  processImage inputs config randomColor = Finished out ->
  exists heatmap sorted,
    read_floats (Z.to_nat (width * height)) bytes = Some heatmap
    /\ Z.of_nat (length heatmap) = width * height
    /\ heatmap ≡ₚ sorted
    /\ Sorted Qle sorted
    /\ out_probabilityThreshold80 out
       = nth (Z.to_nat (Z.min ((4 * (width * height)) / 5) (width * height - 1)))
             sorted 0%Q.
Proof.
  intros Hd Hf Hpos. unfold processImage. rewrite Hd, Hf.
  destruct (read_floats _ bytes) as [heatmap|] eqn:Hread; [|done].
  destruct (outputFolderCreated inputs); [|done].
  destruct (subfoldersCreated inputs); [|done].
  destruct (jsonOpened inputs); [|done]. cbn [negb].
  destruct (classify _ _ _ _ _) as [bb saved]. intros [= <-].
  pose proof (read_floats_length _ _ _ Hread) as Hlen.
  exists heatmap, (std_sort Qle_bool heatmap).
  split; [done|]. split; [lia|].
  split; [apply std_sort_perm|].
  split.
  { apply (std_sort_sorted Qle_bool Qle).
    - intros x y. apply Qle_bool_iff.
    - apply Qle_bool_total. }
  cbn [out_probabilityThreshold80]. unfold probabilityThreshold80.
  rewrite length_std_sort, Hlen, Z2Nat.id by lia.
  destruct (index80_prob_floor (width * height) Hpos) as [_ ->].
  unfold Vec.get. rewrite nth_lookup. done.
Qed.

(** C2 (as the code has it).  When [processImage] finishes, every component
    is saved once, in order, and it is labelled a building block if and
    only if its average probability is at least the probability threshold
    (the comparison of the two [float]s) and its size is at most the size
    threshold; the size threshold is the
    value at index [floor (0.9 * N)] (which never exceeds the last index)
    of the sizes of the [N] components sorted ascending. *)
Theorem building_block_rule
    (inputs : Inputs) (config : Config) (randomColor : nat -> Color) (out : Output) :
  processImage inputs config randomColor = Finished out ->
  (out_saved out).*1 = components (out_scan out)
  /\ Forall (fun saved =>
               saved.2 = true <->
               F32.leb (F32.Finite (out_probabilityThreshold80 out))
                 (ComponentData.avgProbability saved.1) = true
               /\ ComponentData.size saved.1 <= out_sizeThreshold80 out)
       (out_saved out)
  /\ (components (out_scan out) <> [] ->
      exists sorted,
        (ComponentData.size <$> components (out_scan out)) ≡ₚ sorted
        /\ Sorted Z.le sorted
        /\ out_sizeThreshold80 out
           = nth (Z.to_nat
                    (Z.min ((9 * Z.of_nat (length (components (out_scan out)))) / 10)
                           (Z.of_nat (length (components (out_scan out))) - 1)))
                 sorted 0).
Proof.
  unfold processImage.
  destruct (decoded inputs) as [[[width height] imgData]|]; [|done].
  destruct (heatmapFile inputs) as [bytes|]; [|done].
  destruct (read_floats _ bytes) as [heatmap|]; [|done].
  destruct (outputFolderCreated inputs); [|done].
  destruct (subfoldersCreated inputs); [|done].
  destruct (jsonOpened inputs); [|done]. cbn [negb].
  set (s := extractComponents _ _ _ _ _ _).
  pose proof (classify_saved width (probabilityThreshold80 heatmap)
                (sizeThreshold80 (components s)) (components s)
                (replicate (Z.to_nat (width * height)) white)) as Hsaved.
  destruct (classify _ _ _ _ _) as [bb saved]. simpl in Hsaved. intros [= <-].
  cbn [out_saved out_scan out_probabilityThreshold80 out_sizeThreshold80].
  subst saved. split; [|split].
  - rewrite <- list_fmap_compose. apply list_fmap_id.
  - apply Forall_fmap, Forall_forall. intros comp _. simpl.
    unfold isBuildingBlock. by rewrite andb_true_iff, Z.leb_le.
  - intros Hne. exists (std_sort Z.leb (ComponentData.size <$> components s)).
    split; [apply std_sort_perm|].
    split.
    { apply (std_sort_sorted Z.leb Z.le); [intros x y; lia|apply Zleb_total]. }
    unfold sizeThreshold80.
    assert (0 < Z.of_nat (length (components s))) as Hpos
      by (destruct (components s); [done|simpl; lia]).
    destruct (std_sort Z.leb (ComponentData.size <$> components s)) as [|z zs] eqn:E.
    { apply (f_equal length) in E. rewrite length_std_sort, length_fmap in E.
      simpl in E. lia. }
    rewrite <- E, length_std_sort, length_fmap.
    destruct (index80_size_floor _ Hpos) as [_ ->].
    unfold Vec.get. by rewrite nth_lookup.
Qed.

(** * Concrete inputs *)

(** The colour metric on the examples of the specification: the Manhattan
    difference of [(10,10,10)] and [(12,11,9)] is 4, within [k = 5] and
    beyond [k = 2]; the Euclidean difference of [(0,0,0)] and [(3,4,0)]
    is 5. *)
Example manhattan_example :
  manhattan (mkColor 10 10 10) (mkColor 12 11 9) = 4
  /\ colorDifference_le (mkColor 10 10 10) (mkColor 12 11 9) false 5 = true
  /\ colorDifference_le (mkColor 10 10 10) (mkColor 12 11 9) false 2 = false.
Proof. repeat split. Qed.

Example euclidean_example :
  colorDifference_le (mkColor 0 0 0) (mkColor 3 4 0) true 5 = true
  /\ colorDifference_le (mkColor 0 0 0) (mkColor 3 4 0) true 4.9 = false.
Proof. repeat split. Qed.

Example two_tone_midfill_reached :
  fill_loop 2 1 (InImage 0) 2 false false false fill123 4
    (mkFillState [gray10; gray200] [false; false] [false; false]
       [(0, 0, gray10)] 2 0 1 0 0)
  = two_tone_midfill.
Proof. reflexivity. Qed.

Example uniform_finishes :
  processImage uniform_inputs example_config constant_fill = Finished uniform_output.
Proof. vm_compute. reflexivity. Qed.

Example stripes_finishes :
  processImage stripes_inputs neighbour_config constant_fill = Finished stripes_output.
Proof. vm_compute. reflexivity. Qed.

Example triple_finishes :
  processImage triple_inputs neighbour_config constant_fill = Finished triple_output.
Proof. vm_compute. reflexivity. Qed.

(** C1, counterexample.  On the uniform 2x1 image there is one component
    (the second pixel is compared with the recoloured seed and fails, and
    is counted with it), of average probability 1/2; the rank [ceil (0.8 * 1)] clamped to the
    last index selects 1/2 from the component population, but the
    threshold of [processImage] is 1, the value at index 1 of the sorted
    heatmap [0, 1]. *)
Lemma probability_threshold_not_over_components :
  exists out,
    processImage uniform_inputs example_config constant_fill = Finished out
    /\ out_probabilityThreshold80 out = 1%Q
    /\ spec_probabilityThreshold (components (out_scan out)) = F32.Finite (1 # 2)
    /\ ~ F32.eq (F32.Finite (out_probabilityThreshold80 out))
          (spec_probabilityThreshold (components (out_scan out))).
Proof.
  exists uniform_output. split; [apply uniform_finishes|].
  split; [reflexivity|]. split; [reflexivity|].
  vm_compute. discriminate.
Qed.

(** C1, witness. *)
Lemma probability_threshold_witness :
  decoded uniform_inputs = Some (2, 1, [gray10; gray10])
  /\ heatmapFile uniform_inputs = Some (float_zero ++ float_one)
  /\ 0 < 2 * 1
  /\ exists heatmap sorted,
       read_floats (Z.to_nat (2 * 1)) (float_zero ++ float_one) = Some heatmap
       /\ Z.of_nat (length heatmap) = 2 * 1
       /\ heatmap ≡ₚ sorted
       /\ Sorted Qle sorted
       /\ out_probabilityThreshold80 uniform_output
          = nth (Z.to_nat (Z.min ((4 * (2 * 1)) / 5) (2 * 1 - 1))) sorted 0%Q.
Proof.
  split; [reflexivity|]. split; [reflexivity|]. split; [lia|].
  apply (probability_threshold_is_heatmap_percentile uniform_inputs example_config
           constant_fill 2 1 [gray10; gray10] (float_zero ++ float_one) uniform_output);
    [reflexivity|reflexivity|lia|vm_compute; reflexivity].
Defined.

(** C2, counterexample.  With the comparison with the neighbour ([adj]
    set), the striped 23x1 image has eleven components, of
    sizes 3, 2, ..., 2, all of average probability 1, which is the
    probability threshold.  [processImage] takes the size threshold at
    index [floor (0.9 * 11) = 9], which is 2, and saves the component of
    size 3 as a non-building block; the rank [ceil (0.9 * 11) = 10] of the
    specification selects 3 and would label it a building block. *)
Lemma size_threshold_not_at_ceiling_rank :
  exists out comp,
    processImage stripes_inputs neighbour_config constant_fill = Finished out
    /\ ComponentData.size <$> components (out_scan out) = [3; 2; 2; 2; 2; 2; 2; 2; 2; 2; 2]
    /\ out_sizeThreshold80 out = 2
    /\ spec_sizeThreshold (components (out_scan out)) = 3
    /\ (comp, false) ∈ out_saved out
    /\ spec_isBuildingBlock (out_probabilityThreshold80 out)
         (components (out_scan out)) comp = true.
Proof.
  exists stripes_output.
  exists (ComponentData.mk 1 0 2 0 0 3 (F32.Finite 1) [true; true; true]).
  split; [apply stripes_finishes|].
  split; [reflexivity|]. split; [reflexivity|]. split; [reflexivity|].
  split; [|reflexivity]. apply list_elem_of_here.
Qed.

(** C2, witness. *)
Lemma building_block_rule_witness :
  processImage stripes_inputs neighbour_config constant_fill = Finished stripes_output
  /\ (out_saved stripes_output).*1 = components (out_scan stripes_output)
  /\ Forall (fun saved =>
               saved.2 = true <->
               F32.leb (F32.Finite (out_probabilityThreshold80 stripes_output))
                 (ComponentData.avgProbability saved.1) = true
               /\ ComponentData.size saved.1 <= out_sizeThreshold80 stripes_output)
       (out_saved stripes_output).
Proof.
  split; [vm_compute; reflexivity|].
  pose proof (building_block_rule stripes_inputs neighbour_config constant_fill
                stripes_output) as H.
  split; apply H; vm_compute; reflexivity.
Defined.

(** C3, witness. *)
Lemma scan_visits_every_pixel_once_witness :
  0 <= 2 /\ 0 <= 1
  /\ sum_sizes (fills (extractComponents 2 1 [0%Q; 1%Q] example_config constant_fill
                         [gray10; gray200])) = 2 * 1.
Proof.
  split; [lia|]. split; [lia|].
  apply (scan_visits_every_pixel_once 2 1 [0%Q; 1%Q] example_config constant_fill
           [gray10; gray200]); lia.
Defined.

(** C5, counterexample.  In the two-tone 2x1 image the flood fill from
    [(0, 0)] includes the seed only; its right neighbour fails the colour
    test and keeps its colour.  The kept component has the box
    [0 <= x <= 1], although the tight box around the included pixel, the
    only one that holds the fill colour, is [0 <= x <= 0]. *)
Lemma box_not_tight_around_included :
  exists comp,
    components (extractComponents 2 1 [0%Q; 1%Q] example_config constant_fill
                  [gray10; gray200]) = [comp]
    /\ image (mem (extractComponents 2 1 [0%Q; 1%Q] example_config constant_fill
                     [gray10; gray200])) = [fill123; gray200]
    /\ (ComponentData.xMin comp, ComponentData.xMax comp,
        ComponentData.yMin comp, ComponentData.yMax comp) = (0, 1, 0, 0)
    /\ tight_box (colored 2 1 [fill123; gray200] fill123) 0 0 0 0
    /\ ~ tight_box (colored 2 1 [fill123; gray200] fill123)
           (ComponentData.xMin comp) (ComponentData.xMax comp)
           (ComponentData.yMin comp) (ComponentData.yMax comp).
Proof.
  eexists. split; [vm_compute; reflexivity|].
  split; [reflexivity|]. split; [reflexivity|]. split.
  - unfold tight_box, colored. split; [|split; [|split; [|split]]].
    + intros x y (Hx & Hy & Hc). assert (y = 0) as -> by lia.
      assert (x = 0 \/ x = 1) as [->| ->] by lia; [lia|]. vm_compute in Hc. discriminate.
    + exists 0. repeat split; lia.
    + exists 0. repeat split; lia.
    + exists 0. repeat split; lia.
    + exists 0. repeat split; lia.
  - cbn [ComponentData.xMin ComponentData.xMax ComponentData.yMin ComponentData.yMax].
    intros (_ & _ & [y (Hx & Hy & Hc)] & _).
    assert (y = 0) as -> by lia. vm_compute in Hc. discriminate.
Qed.

(** C6, counterexample.  In the two-tone 2x1 image pixel [(1, 0)] fails the
    colour test of the flood fill started at [(0, 0)], against the colour
    the seed had and against the fill colour it holds by then; it is in
    the region of that fill, and the scan starts no flood fill at it. *)
Lemma failed_pixel_seeds_no_region :
  colorDifference_le gray200 gray10 (euclidif example_config) (k example_config) = false
  /\ colorDifference_le gray200 fill123 (euclidif example_config) (k example_config) = false
  /\ (exists f,
        fills (extractComponents 2 1 [0%Q; 1%Q] example_config constant_fill
                 [gray10; gray200]) = [f]
        /\ (seedX f, seedY f) = (0, 0)
        /\ region f = [true; true]
        /\ fillSize f = 2)
  /\ ~ seeds_own_region
         (extractComponents 2 1 [0%Q; 1%Q] example_config constant_fill
            [gray10; gray200]) 1 0.
Proof.
  split; [reflexivity|]. split; [reflexivity|]. split.
  - eexists. split; [vm_compute; reflexivity|]. done.
  - intros (f & Hf & Hx & Hy). vm_compute in Hf.
    apply list_elem_of_singleton in Hf. subst f. discriminate.
Qed.

(** C6, witness. *)
Lemma failed_pixel_joins_the_region_witness :
  stack two_tone_midfill = (1, 0, gray10) :: []
  /\ Vec.get false (visited two_tone_midfill) (0 * 2 + 1) = false
  /\ colorDifference_le (Vec.get black (image two_tone_midfill) (0 * 2 + 1))
       (deref (image two_tone_midfill) (InImage 0)) false 2 = false
  /\ exists st',
       fill_step 2 1 (InImage 0) 2 false false false fill123 two_tone_midfill = Some st'
       /\ Vec.get false (visited st') (0 * 2 + 1) = true
       /\ Vec.get false (bigMask st') (0 * 2 + 1) = true
       /\ currentComponentSize st' = currentComponentSize two_tone_midfill + 1
       /\ currentComponentXmin st' <= 1 <= currentComponentXmax st'
       /\ currentComponentYmin st' <= 0 <= currentComponentYmax st'
       /\ image st' = image two_tone_midfill
       /\ stack st' = []
       /\ forall fuel,
            Vec.get false
              (visited (fill_loop 2 1 (InImage 0) 2 false false false fill123 fuel st'))
              (0 * 2 + 1) = true.
Proof.
  split; [reflexivity|]. split; [reflexivity|]. split; [reflexivity|].
  apply (failed_pixel_joins_the_region 2 1 (InImage 0) 2 false false false fill123
           two_tone_midfill 1 0 gray10 []);
    [reflexivity|lia|lia|reflexivity|reflexivity|reflexivity|reflexivity].
Defined.

(** C7, the failing input.  A 3x1 image of one colour, [k = 2], 4-way,
    Manhattan metric, comparison with the seed.  The flood fill started at
    [(0, 0)] recolours the seed, and from then on [startColor], which
    refers to the seed in the image, is the fill colour.  With the fill
    colour [(117, 202, 87)] the second pixel fails the test: the scan runs
    two flood fills, of sizes 2 and 1, and there are two components.  With
    the fill colour [(10, 10, 11)] every pixel passes: one flood fill of
    size 3 and one component.  The two runs of [processImage] differ in
    more than the fill colours. *)
Lemma fill_color_changes_the_regions :
  (fillSize <$> fills (extractComponents 3 1 [nine_tenths; nine_tenths; nine_tenths]
                         example_config far_fill [gray10; gray10; gray10]) = [2; 1]
   /\ region <$> fills (extractComponents 3 1 [nine_tenths; nine_tenths; nine_tenths]
                          example_config far_fill [gray10; gray10; gray10])
      = [[true; true; false]; [false; false; true]])
  /\ (fillSize <$> fills (extractComponents 3 1 [nine_tenths; nine_tenths; nine_tenths]
                            example_config near_fill [gray10; gray10; gray10]) = [3]
      /\ region <$> fills (extractComponents 3 1 [nine_tenths; nine_tenths; nine_tenths]
                             example_config near_fill [gray10; gray10; gray10])
         = [[true; true; true]])
  /\ (exists out1 out2,
        processImage triple_inputs example_config far_fill = Finished out1
        /\ processImage triple_inputs example_config near_fill = Finished out2
        /\ ComponentData.size <$> components (out_scan out1) = [2; 1]
        /\ ComponentData.size <$> components (out_scan out2) = [3])
  /\ ~ outcome_sim far_fill near_fill
        (processImage triple_inputs example_config far_fill)
        (processImage triple_inputs example_config near_fill).
Proof.
  split; [split; vm_compute; reflexivity|].
  split; [split; vm_compute; reflexivity|].
  split.
  - eexists _, _. split; [vm_compute; reflexivity|].
    split; [vm_compute; reflexivity|]. split; vm_compute; reflexivity.
  - vm_compute. intros (_ & _ & H & _). discriminate H.
Qed.

(** C8, counterexample.  The heatmap of the 3x1 image is [0.9f]
    everywhere and the mask of its one component is set everywhere.  The
    arithmetic mean of the three values is [0.9f] itself,
    [15099494 / 2 ^ 24]; the average of the component is
    [15099493 / 2 ^ 24], because the sum of three [0.9f] and its third
    are rounded to [float]. *)
Lemma float_average_is_not_the_mean :
  read_floats 3 (concat (replicate 3 float_nine_tenths))
  = Some [nine_tenths; nine_tenths; nine_tenths]
  /\ (exists avgProbability mask,
        aggregate 3 [nine_tenths; nine_tenths; nine_tenths] [true; true; true] 0 2 0 0
        = (avgProbability, mask)
        /\ masked_positions 0 2 0 0 mask = [(0, 0); (0, 1); (0, 2)]
        /\ (mean_at 3 [nine_tenths; nine_tenths; nine_tenths]
              (masked_positions 0 2 0 0 mask) == 15099494 # 16777216)%Q
        /\ avgProbability = F32.Finite (15099493 # 16777216)
        /\ ~ F32.eq avgProbability
              (F32.Finite (mean_at 3 [nine_tenths; nine_tenths; nine_tenths]
                             (masked_positions 0 2 0 0 mask))))
  /\ (exists comp,
        processImage triple_inputs neighbour_config constant_fill = Finished triple_output
        /\ components (out_scan triple_output) = [comp]
        /\ ComponentData.mask comp = [true; true; true]
        /\ ComponentData.avgProbability comp = F32.Finite (15099493 # 16777216))
  /\ (exists c,
        batch_saved (batch_scan 3 1 [nine_tenths; nine_tenths; nine_tenths]
                       neighbour_config constant_fill
                       (initial_batch 3 1 [gray10; gray10; gray10])) = [c]
        /\ saved_positions c = [(0, 0); (0, 1); (0, 2)]
        /\ saved_probability c = F32.Finite (15099493 # 16777216)
        /\ ~ F32.eq (saved_probability c)
              (F32.Finite (mean_at 3 [nine_tenths; nine_tenths; nine_tenths]
                             (saved_positions c)))).
Proof.
  split; [vm_compute; reflexivity|]. split; [|split].
  - eexists _, _. split; [vm_compute; reflexivity|].
    split; [vm_compute; reflexivity|]. split; [vm_compute; reflexivity|].
    split; [reflexivity|]. vm_compute. discriminate.
  - eexists. split; [apply triple_finishes|]. split; [vm_compute; reflexivity|].
    split; reflexivity.
  - eexists. split; [vm_compute; reflexivity|]. split; [vm_compute; reflexivity|].
    split; [reflexivity|]. vm_compute. discriminate.
Qed.

(** C9, counterexample.  The heatmap file of the 1x1 image holds two
    floats; its length does not match and [processImage] finishes. *)
Lemma long_heatmap_is_accepted :
  ~ heatmap_length_matches 1 1 (float_one ++ float_one)
  /\ decoded long_file_inputs = Some (1, 1, [gray10])
  /\ heatmapFile long_file_inputs = Some (float_one ++ float_one)
  /\ exists out,
       processImage long_file_inputs example_config constant_fill = Finished out.
Proof.
  split; [unfold heatmap_length_matches; simpl; lia|].
  split; [reflexivity|]. split; [reflexivity|].
  eexists. vm_compute. reflexivity.
Qed.

(** C9, witness. *)
Lemma heatmap_read_fails_iff_short_witness :
  decoded long_file_inputs = Some (1, 1, [gray10])
  /\ heatmapFile long_file_inputs = Some (float_one ++ float_one)
  /\ (processImage long_file_inputs example_config constant_fill = ErrorReadingHeatmap
      <-> (length (float_one ++ float_one) < 4 * Z.to_nat (1 * 1))%nat).
Proof.
  split; [reflexivity|]. split; [reflexivity|].
  apply (heatmap_read_fails_iff_short long_file_inputs example_config constant_fill
           1 1 [gray10]); reflexivity.
Defined.

(** C10, witness. *)
Lemma flood_fill_terminates_witness :
  length (visited two_tone_midfill) = Z.to_nat (2 * 1)
  /\ forall startX startY,
       stack (floodFillIterative 2 1 (InImage 0) 2 false false false fill123
                startX startY two_tone_midfill) = [].
Proof.
  split; [reflexivity|].
  apply (flood_fill_terminates 2 1 (InImage 0) 2 false false false fill123 two_tone_midfill).
  reflexivity.
Defined.

(** ** The colour test *)

Lemma manhattan_sym c1 c2 : manhattan c1 c2 = manhattan c2 c1.
Proof. unfold manhattan. lia. Qed.

Lemma squaredDistance_sym c1 c2 : squaredDistance c1 c2 = squaredDistance c2 c1.
Proof. unfold squaredDistance. nia. Qed.

Lemma manhattan_nonneg c1 c2 : 0 <= manhattan c1 c2.
Proof. unfold manhattan. lia. Qed.

Lemma squaredDistance_le_manhattan c1 c2 :
  squaredDistance c1 c2 <= manhattan c1 c2 * manhattan c1 c2.
Proof.
  unfold squaredDistance, manhattan.
  generalize (r c1 - r c2) (g c1 - g c2) (b c1 - b c2). intros x y z.
  assert (x ^ 2 = Z.abs x * Z.abs x) as -> by nia.
  assert (y ^ 2 = Z.abs y * Z.abs y) as -> by nia.
  assert (z ^ 2 = Z.abs z * Z.abs z) as -> by nia.
  pose proof (Z.abs_nonneg x). pose proof (Z.abs_nonneg y).
  pose proof (Z.abs_nonneg z). nia.
Qed.

Lemma sqrt_double_scale s :
  0 < s ->
  let d := Z.max 0 (52 - Z.log2 s / 2) in
  0 < 2 ^ d /\ 4 ^ d = 2 ^ d * 2 ^ d.
Proof.
  intros Hs d. split; [apply Z.pow_pos_nonneg; lia|].
  change 4 with (2 * 2). apply Z.pow_mul_l.
Qed.

Lemma sqrt_double_nonneg s : (0 <= sqrt_double s)%Q.
Proof.
  unfold sqrt_double. destruct (Z.leb_spec s 0) as [H|H]; [done|]. cbv zeta.
  set (d := Z.max 0 (52 - Z.log2 s / 2)).
  pose proof (Z.sqrt_nonneg (s * 4 ^ d)) as Hroot.
  unfold Qle. simpl. destruct (_ <=? _); lia.
Qed.

(** The rounded square root of a number that is at most [M * M] is at
    most [M]. *)
Lemma sqrt_double_le s M :
  0 <= M -> s <= M * M -> (sqrt_double s <= inject_Z M)%Q.
Proof.
  intros HM Hs. unfold sqrt_double.
  destruct (Z.leb_spec s 0) as [H|H]; [by rewrite <- (Zle_Qle 0)|]. cbv zeta.
  destruct (sqrt_double_scale s H) as [Hpos Hfour].
  set (d := Z.max 0 (52 - Z.log2 s / 2)) in *.
  set (t := s * 4 ^ d).
  assert (0 <= t) as Ht by (unfold t; nia).
  pose proof (Z.sqrt_spec t Ht) as [Hlo Hhi].
  pose proof (Z.sqrt_nonneg t) as Hroot.
  set (root := Z.sqrt t) in *.
  assert (t <= (M * 2 ^ d) * (M * 2 ^ d)) as Hle by (unfold t; nia).
  assert (root <= M * 2 ^ d) as Hr by nia.
  unfold Qle. cbn [Qnum Qden inject_Z]. rewrite Z2Pos.id by done.
  destruct (Z.leb_spec (t - root * root) root) as [Hround|Hround]; [lia|].
  assert (root <> M * 2 ^ d) by nia. lia.
Qed.

Lemma colorDifference_nonneg c1 c2 euclidif : (0 <= colorDifference c1 c2 euclidif)%Q.
Proof.
  unfold colorDifference. destruct euclidif; [apply sqrt_double_nonneg|].
  rewrite <- (Zle_Qle 0). apply manhattan_nonneg.
Qed.

Lemma colorDifference_le_sym c1 c2 euclidif k :
  colorDifference_le c1 c2 euclidif k = colorDifference_le c2 c1 euclidif k.
Proof.
  unfold colorDifference_le, colorDifference.
  by rewrite (manhattan_sym c1 c2), (squaredDistance_sym c1 c2).
Qed.

Lemma colorDifference_le_self c euclidif k :
  colorDifference_le c c euclidif k = Qle_bool 0 k.
Proof.
  unfold colorDifference_le, colorDifference, squaredDistance, manhattan.
  rewrite !Z.sub_diag. by destruct euclidif.
Qed.

Lemma colorDifference_le_mono c1 c2 euclidif k k' :
  (k <= k')%Q ->
  colorDifference_le c1 c2 euclidif k = true ->
  colorDifference_le c1 c2 euclidif k' = true.
Proof.
  intros Hk. unfold colorDifference_le. rewrite !Qle_bool_iff.
  intros H. by apply Qle_trans with k.
Qed.

Lemma manhattan_pass_euclidean c1 c2 k :
  colorDifference_le c1 c2 false k = true ->
  colorDifference_le c1 c2 true k = true.
Proof.
  unfold colorDifference_le, colorDifference. rewrite !Qle_bool_iff. intros Hm.
  apply Qle_trans with (inject_Z (manhattan c1 c2)); [|done].
  apply sqrt_double_le; [apply manhattan_nonneg|apply squaredDistance_le_manhattan].
Qed.

Lemma colorDifference_le_negative c1 c2 euclidif k :
  (k < 0)%Q -> colorDifference_le c1 c2 euclidif k = false.
Proof.
  intros Hk. apply not_true_is_false. unfold colorDifference_le.
  rewrite Qle_bool_iff. intros H. apply (Qlt_not_le _ _ Hk).
  apply Qle_trans with (colorDifference c1 c2 euclidif); [|done].
  apply colorDifference_nonneg.
Qed.

(** X6. The colour test of the flood fill does not depend on the order of
    the two colours; a colour passes the test against itself exactly when
    [k] is not negative; a pair that passes with [k] passes with every
    larger [k]; a pair that passes the Manhattan test passes the Euclidean
    test with the same [k]; and no pair passes with a negative [k]. *)
Theorem color_test_laws (c1 c2 : Color) (euclidif : bool) (k : Q) :
  colorDifference_le c1 c2 euclidif k = colorDifference_le c2 c1 euclidif k
  /\ colorDifference_le c1 c1 euclidif k = Qle_bool 0 k
  /\ (forall k', (k <= k')%Q ->
        colorDifference_le c1 c2 euclidif k = true ->
        colorDifference_le c1 c2 euclidif k' = true)
  /\ (colorDifference_le c1 c2 false k = true ->
      colorDifference_le c1 c2 true k = true)
  /\ ((k < 0)%Q -> colorDifference_le c1 c2 euclidif k = false).
Proof.
  split; [|split; [|split; [|split]]].
  - apply colorDifference_le_sym.
  - apply colorDifference_le_self.
  - intros k'. apply colorDifference_le_mono.
  - apply manhattan_pass_euclidean.
  - apply colorDifference_le_negative.
Qed.

(** * Further properties *)

(** ** The flood fill computes a connected component *)

Lemma pushes_adjacent use8Way x y c x' y' c' :
  (x', y', c') ∈ pushes use8Way x y c <-> adjacent use8Way x y x' y' /\ c' = c.
Proof.
  unfold pushes, adjacent. split.
  - intros Hin. apply list_elem_of_In in Hin.
    destruct use8Way; simpl in Hin;
      repeat (destruct Hin as [[= <- <- <-]|Hin]; [split; [lia|done]|]);
      destruct Hin.
  - intros [Ha ->]. apply list_elem_of_In.
    assert (x' = x - 1 \/ x' = x \/ x' = x + 1) as Hx by (destruct use8Way; lia).
    assert (y' = y - 1 \/ y' = y \/ y' = y + 1) as Hy by (destruct use8Way; lia).
    destruct use8Way; simpl;
      destruct Hx as [->|[->| ->]]; destruct Hy as [->|[->| ->]];
      try lia; tauto.
Qed.

Section PixelAccess.

Variables (width height : Z).
Context {A : Type}.

Lemma get_set_pixel (d a : A) (v : list A) x y :
  0 <= x < width -> 0 <= y < height -> length v = Z.to_nat (width * height) ->
  Vec.get d (Vec.set v (y * width + x) a) (y * width + x) = a.
Proof.
  intros Hx Hy Hlen. apply get_set_eq. rewrite Hlen. by eapply index_lt_length.
Qed.

Lemma get_set_other (d a : A) (v : list A) x y x' y' :
  0 <= x < width -> 0 <= y < height -> 0 <= x' < width -> 0 <= y' < height ->
  ~ (x' = x /\ y' = y) ->
  Vec.get d (Vec.set v (y * width + x) a) (y' * width + x') = Vec.get d v (y' * width + x').
Proof.
  intros Hx Hy Hx' Hy' Hne. apply get_set_ne. intros E.
  apply (index_inj width height) in E; [|done..]. lia.
Qed.

End PixelAccess.

Lemma get_set_true_keeps (v : list bool) i j :
  Vec.get false v j = true -> Vec.get false (Vec.set v i true) j = true.
Proof.
  intros Hj. apply get_true_lookup. apply get_true_lookup in Hj.
  unfold Vec.set. destruct (decide (Z.to_nat i = Z.to_nat j)) as [E|Hne].
  - rewrite E. apply list_lookup_insert_eq. by eapply lookup_lt_Some.
  - by rewrite list_lookup_insert_ne.
Qed.

Section ComponentFacts.

Variables (width height : Z).
Variables (k : Q) (use8Way euclidif : bool).
Variables (newColor : Color) (m : FillState) (startX startY : Z).

Local Abbreviation seed := (InImage (startY * width + startX)).
Local Abbreviation step := (fill_step width height seed k use8Way false euclidif newColor).
Local Abbreviation loop := (fill_loop width height seed k use8Way false euclidif newColor).
Local Abbreviation inv :=
  (component_inv width height k use8Way euclidif newColor m startX startY).
Local Abbreviation ok := (eligible width height k euclidif newColor m).
Local Abbreviation reach := (grows width height k use8Way euclidif newColor m startX startY).

(** The first iteration pops the seed, which is compared with itself,
    recolours it and pushes its neighbours. *)
Lemma component_first_step adj :
  seed_passes width height k m startX startY ->
  length (visited m) = Z.to_nat (width * height) ->
  length (image m) = Z.to_nat (width * height) ->
  fill_step width height seed k use8Way adj euclidif newColor
    (mkFillState (image m) (visited m) (bigMask m)
       [(startX, startY, deref (image m) seed)]
       (currentComponentXmin m) (currentComponentXmax m)
       (currentComponentYmin m) (currentComponentYmax m) (currentComponentSize m))
  = Some (mkFillState
            (Vec.set (image m) (startY * width + startX) newColor)
            (Vec.set (visited m) (startY * width + startX) true)
            (Vec.set (bigMask m) (startY * width + startX) true)
            (pushes use8Way startX startY
               (Vec.get black (image m) (startY * width + startX)))
            (Z.min (currentComponentXmin m) startX)
            (Z.max (currentComponentXmax m) startX)
            (Z.min (currentComponentYmin m) startY)
            (Z.max (currentComponentYmax m) startY)
            (currentComponentSize m + 1)).
Proof.
  intros (Hb & Hv & Hk) Hlv Hli. unfold fill_step.
  cbn [stack visited image bigMask deref currentComponentXmin currentComponentXmax
       currentComponentYmin currentComponentYmax currentComponentSize].
  rewrite Hb, Hv. cbn [negb orb].
  replace (if adj then Vec.get black (image m) (startY * width + startX)
           else Vec.get black (image m) (startY * width + startX))
    with (Vec.get black (image m) (startY * width + startX)) by (by destruct adj).
  rewrite colorDifference_le_self, Hk. by rewrite app_nil_r.
Qed.

Lemma component_inv_first :
  seed_passes width height k m startX startY ->
  length (visited m) = Z.to_nat (width * height) ->
  length (image m) = Z.to_nat (width * height) ->
  inv (mkFillState
         (Vec.set (image m) (startY * width + startX) newColor)
         (Vec.set (visited m) (startY * width + startX) true)
         (Vec.set (bigMask m) (startY * width + startX) true)
         (pushes use8Way startX startY
            (Vec.get black (image m) (startY * width + startX)))
         (Z.min (currentComponentXmin m) startX)
         (Z.max (currentComponentXmax m) startX)
         (Z.min (currentComponentYmin m) startY)
         (Z.max (currentComponentYmax m) startY)
         (currentComponentSize m + 1)).
Proof.
  intros Hseed Hlv Hli. pose proof Hseed as (Hb & Hv & Hk).
  apply in_bounds_spec in Hb as [Hsx Hsy].
  assert (reach startX startY) as Hreach by (by constructor).
  constructor; cbn [visited image stack].
  - by rewrite length_set.
  - by rewrite length_set.
  - split; [done|]. split; by apply (get_set_pixel width height).
  - intros x y Hx Hy Hm.
    assert (~ (x = startX /\ y = startY)) as Hne by (intros [-> ->]; congruence).
    split; [by apply get_set_true_keeps|].
    by rewrite (get_set_other width height).
  - intros x y Hx Hy Hvis.
    assert (~ (x = startX /\ y = startY)) as Hne.
    { intros [-> ->]. rewrite (get_set_pixel width height) in Hvis by done. done. }
    by rewrite (get_set_other width height).
  - intros x y Hx Hy Hm Hvis.
    destruct (decide (x = startX /\ y = startY)) as [[-> ->]|Hne].
    + split; [by left|]. split; [|done]. intros _.
      split; [by apply (get_set_pixel width height)|].
      intros x' y' Ha Hx' Hy'. right.
      exists (Vec.get black (image m) (startY * width + startX)).
      by apply pushes_adjacent.
    + rewrite (get_set_other width height) in Hvis by done. congruence.
  - intros x y c Hin. apply pushes_adjacent in Hin as [Ha _]. eauto.
Qed.

Lemma not_seed_unvisited st x y :
  inv st -> Vec.get false (visited st) (y * width + x) = false ->
  ~ (x = startX /\ y = startY).
Proof.
  intros I Hv [-> ->].
  destruct (ci_seed _ _ _ _ _ _ _ _ _ _ I) as (_ & Hs & _). congruence.
Qed.

Lemma component_inv_step st st' :
  inv st -> step st = Some st' -> inv st'.
Proof.
  intros I. unfold fill_step.
  destruct (stack st) as [|[[x y] nc] rest] eqn:Hst; [discriminate|].
  assert (forall x' y' c, (x', y', c) ∈ stack st ->
            (x' = x /\ y' = y) \/ (x', y', c) ∈ rest) as Hpop.
  { intros x' y' c Hin. rewrite Hst in Hin.
    apply elem_of_cons in Hin as [[= -> -> ->]|Hin]; auto. }
  assert (exists x0 y0, reach x0 y0 /\ adjacent use8Way x0 y0 x y) as Htop.
  { apply (ci_stack _ _ _ _ _ _ _ _ _ _ I x y nc). rewrite Hst. by left. }
  pose proof (ci_len_visited _ _ _ _ _ _ _ _ _ _ I) as Hlv.
  pose proof (ci_len_image _ _ _ _ _ _ _ _ _ _ I) as Hli.
  destruct (ci_seed _ _ _ _ _ _ _ _ _ _ I) as (Hseed & Hsv & Hsc).
  pose proof Hseed as (Hsb & _ & _). apply in_bounds_spec in Hsb as [Hsx Hsy].
  destruct (negb (in_bounds width height x y)
            || Vec.get false (visited st) (y * width + x)) eqn:Hskip.
  { (* the popped entry is discarded *)
    intros [= <-].
    constructor; cbn [visited image stack]; try apply I.
    - intros x1 y1 Hx1 Hy1 Hm1 Hs1.
      destruct (ci_new _ _ _ _ _ _ _ _ _ _ I x1 y1 Hx1 Hy1 Hm1 Hs1) as (H1 & H2 & H3).
      split; [done|]. split; [|done].
      intros Hok. destruct (H2 Hok) as [Hc Hn]. split; [done|].
      intros x' y' Ha Hx' Hy'.
      destruct (Hn x' y' Ha Hx' Hy') as [Hv|[c Hc']]; [by left|].
      destruct (Hpop _ _ _ Hc') as [[-> ->]|Hin]; [|right; eauto].
      left. apply orb_true_iff in Hskip as [Hb|Hv]; [|done].
      apply negb_true_iff in Hb.
      assert (in_bounds width height x y = true) by (apply in_bounds_spec; lia).
      congruence.
    - intros x' y' c Hin. apply (ci_stack _ _ _ _ _ _ _ _ _ _ I x' y' c).
      rewrite Hst. by right. }
  (* the popped pixel is marked *)
  apply orb_false_iff in Hskip as [Hb Hv].
  apply negb_false_iff in Hb. pose proof Hb as Hb'.
  apply in_bounds_spec in Hb' as [Hx Hy].
  pose proof (not_seed_unvisited st x y I Hv) as Hns.
  assert (Vec.get false (visited m) (y * width + x) = false) as Hm.
  { destruct (Vec.get false (visited m) (y * width + x)) eqn:E; [|done].
    destruct (ci_old _ _ _ _ _ _ _ _ _ _ I x y Hx Hy E). congruence. }
  rewrite (ci_unvisited _ _ _ _ _ _ _ _ _ _ I x y Hx Hy Hv).
  cbn [deref]. rewrite Hsc.
  assert (forall x1 y1, 0 <= x1 < width -> 0 <= y1 < height ->
            Vec.get false (Vec.set (visited st) (y * width + x) true) (y1 * width + x1) = true
            <-> (x1 = x /\ y1 = y) \/ Vec.get false (visited st) (y1 * width + x1) = true)
    as Hvis.
  { intros x1 y1 Hx1 Hy1.
    destruct (decide (x1 = x /\ y1 = y)) as [[-> ->]|Hne].
    - rewrite (get_set_pixel width height) by done. tauto.
    - rewrite (get_set_other width height) by done. tauto. }
  destruct (colorDifference_le (Vec.get black (image m) (y * width + x))
              newColor euclidif k) eqn:Htest.
  - (* included *)
    assert (ok x y) as Hok by done.
    assert (reach x y) as Hreach.
    { destruct Htop as (x0 & y0 & Hg & Ha). by eapply grows_step. }
    intros [= <-].
    constructor; cbn [visited image stack].
    + by rewrite length_set.
    + by rewrite length_set.
    + split; [done|]. split; [by apply get_set_true_keeps|].
      rewrite (get_set_other width height); [done..|]. intros [E1 E2]. by apply Hns.
    + intros x1 y1 Hx1 Hy1 Hm1.
      destruct (ci_old _ _ _ _ _ _ _ _ _ _ I x1 y1 Hx1 Hy1 Hm1) as [Hv1 Hc1].
      split; [by apply get_set_true_keeps|].
      rewrite (get_set_other width height); [done..|]. intros [-> ->]. congruence.
    + intros x1 y1 Hx1 Hy1 Hv1.
      assert (~ (x1 = x /\ y1 = y)) as Hne.
      { intros [-> ->]. rewrite (get_set_pixel width height) in Hv1 by done. done. }
      rewrite (get_set_other width height) in Hv1 by done.
      rewrite (get_set_other width height) by done.
      by apply (ci_unvisited _ _ _ _ _ _ _ _ _ _ I).
    + intros x1 y1 Hx1 Hy1 Hm1 Hs1.
      destruct (decide (x1 = x /\ y1 = y)) as [[-> ->]|Hne].
      * split; [by right|]. split; [|done]. intros _.
        split; [by apply (get_set_pixel width height)|].
        intros x' y' Ha Hx' Hy'. right. exists (Vec.get black (image m) (y * width + x)).
        apply elem_of_app. left. by apply pushes_adjacent.
      * apply (Hvis x1 y1 Hx1 Hy1) in Hs1 as [?|Hs1]; [tauto|].
        destruct (ci_new _ _ _ _ _ _ _ _ _ _ I x1 y1 Hx1 Hy1 Hm1 Hs1) as (H1 & H2 & H3).
        rewrite (get_set_other width height) by done.
        split; [done|]. split; [|done].
        intros Hok1. destruct (H2 Hok1) as [Hc Hn]. split; [done|].
        intros x' y' Ha Hx' Hy'.
        destruct (Hn x' y' Ha Hx' Hy') as [Hv'|[c Hc']].
        -- left. by apply get_set_true_keeps.
        -- destruct (Hpop _ _ _ Hc') as [[-> ->]|Hin].
           ++ left. by apply (get_set_pixel width height).
           ++ right. exists c. apply elem_of_app. by right.
    + intros x' y' c Hin. apply elem_of_app in Hin as [Hin|Hin].
      * apply pushes_adjacent in Hin as [Ha _]. eauto.
      * apply (ci_stack _ _ _ _ _ _ _ _ _ _ I x' y' c). rewrite Hst. by right.
  - (* visited, not included *)
    assert (~ reach x y) as Hnreach.
    { intros Hg. inversion Hg as [Hs E1 E2|x0 y0 x1 y1 Hg0 Ha (_ & _ & Ht) E1 E2].
      - by apply Hns.
      - congruence. }
    intros [= <-].
    constructor; cbn [visited image stack].
    + by rewrite length_set.
    + done.
    + split; [done|]. split; [by apply get_set_true_keeps|done].
    + intros x1 y1 Hx1 Hy1 Hm1.
      destruct (ci_old _ _ _ _ _ _ _ _ _ _ I x1 y1 Hx1 Hy1 Hm1) as [Hv1 Hc1].
      split; [by apply get_set_true_keeps|done].
    + intros x1 y1 Hx1 Hy1 Hv1.
      assert (~ (x1 = x /\ y1 = y)) as Hne.
      { intros [-> ->]. rewrite (get_set_pixel width height) in Hv1 by done. done. }
      rewrite (get_set_other width height) in Hv1 by done.
      by apply (ci_unvisited _ _ _ _ _ _ _ _ _ _ I).
    + intros x1 y1 Hx1 Hy1 Hm1 Hs1.
      destruct (decide (x1 = x /\ y1 = y)) as [[-> ->]|Hne].
      * split; [by right|]. split; [done|]. intros _.
        by apply (ci_unvisited _ _ _ _ _ _ _ _ _ _ I).
      * apply (Hvis x1 y1 Hx1 Hy1) in Hs1 as [?|Hs1]; [tauto|].
        destruct (ci_new _ _ _ _ _ _ _ _ _ _ I x1 y1 Hx1 Hy1 Hm1 Hs1) as (H1 & H2 & H3).
        split; [done|]. split; [|done].
        intros Hok1. destruct (H2 Hok1) as [Hc Hn]. split; [done|].
        intros x' y' Ha Hx' Hy'.
        destruct (Hn x' y' Ha Hx' Hy') as [Hv'|[c Hc']].
        -- left. by apply get_set_true_keeps.
        -- destruct (Hpop _ _ _ Hc') as [[-> ->]|Hin].
           ++ left. by apply (get_set_pixel width height).
           ++ right. eauto.
    + intros x' y' c Hin. apply (ci_stack _ _ _ _ _ _ _ _ _ _ I x' y' c).
      rewrite Hst. by right.
Qed.

Lemma component_inv_loop fuel st : inv st -> inv (loop fuel st).
Proof.
  revert st. induction fuel as [|fuel IH]; intros st I; simpl; [done|].
  destruct (step st) as [st'|] eqn:Hs; [|done].
  apply IH. by eapply component_inv_step.
Qed.

End ComponentFacts.

Section FilledComponent.

Variables (width height : Z).
Variables (k : Q) (use8Way euclidif : bool).
Variables (newColor : Color) (m : FillState) (startX startY : Z).

Local Abbreviation filled :=
  (floodFillIterative width height (InImage (startY * width + startX)) k use8Way
     false euclidif newColor startX startY m).
Local Abbreviation grown :=
  (grows width height k use8Way euclidif newColor m startX startY).

Hypothesis Hlv : length (visited m) = Z.to_nat (width * height).
Hypothesis Hli : length (image m) = Z.to_nat (width * height).
Hypothesis Hseed : seed_passes width height k m startX startY.

Lemma filled_inv :
  component_inv width height k use8Way euclidif newColor m startX startY filled
  /\ stack filled = [].
Proof.
  split; [|by apply fill_loop_empties].
  unfold floodFillIterative.
  set (st0 := mkFillState _ _ _ _ _ _ _ _ _).
  assert (fill_measure st0 = S (pred (fill_measure st0))) as ->
    by (unfold fill_measure, st0; simpl; lia).
  cbn [fill_loop]. unfold st0.
  rewrite (component_first_step width height k use8Way euclidif newColor m
             startX startY false Hseed Hlv Hli).
  by apply component_inv_loop, component_inv_first.
Qed.

Lemma filled_neighbours x0 y0 x y :
  grown x0 y0 -> Vec.get false (visited filled) (y0 * width + x0) = true ->
  0 <= x0 < width -> 0 <= y0 < height ->
  Vec.get false (visited m) (y0 * width + x0) = false ->
  adjacent use8Way x0 y0 x y -> 0 <= x < width -> 0 <= y < height ->
  Vec.get false (visited filled) (y * width + x) = true.
Proof.
  intros Hg Hv0 Hx0 Hy0 Hm0 Ha Hx Hy. destruct filled_inv as [I Hempty].
  destruct (ci_new _ _ _ _ _ _ _ _ _ _ I x0 y0 Hx0 Hy0 Hm0 Hv0) as (_ & Hn & _).
  destruct (Hn Hg) as [_ Hnb].
  destruct (Hnb x y Ha Hx Hy) as [Hv|[c Hc]]; [done|].
  rewrite Hempty in Hc. by apply elem_of_nil in Hc.
Qed.

Lemma grown_unvisited x y :
  grown x y ->
  0 <= x < width /\ 0 <= y < height
  /\ Vec.get false (visited m) (y * width + x) = false.
Proof.
  intros [(Hb%in_bounds_spec & Hm & _)|x0 y0 x1 y1 _ _ (Hb%in_bounds_spec & Hm & _)];
    (split; [lia|split; [lia|done]]).
Qed.

Lemma filled_reaches x y :
  grown x y -> Vec.get false (visited filled) (y * width + x) = true.
Proof.
  induction 1 as [Hok|x0 y0 x1 y1 Hg IH Ha Hok].
  - destruct filled_inv as [I _].
    by destruct (ci_seed _ _ _ _ _ _ _ _ _ _ I) as (_ & Hs & _).
  - destruct Hok as (Hb1%in_bounds_spec & _ & _).
    destruct (grown_unvisited x0 y0 Hg) as (Hx0 & Hy0 & Hm0).
    apply (filled_neighbours x0 y0); [done..|lia|lia].
Qed.

Lemma filled_recolours x y :
  grown x y -> Vec.get black (image filled) (y * width + x) = newColor.
Proof.
  intros Hg. destruct filled_inv as [I _].
  destruct (grown_unvisited x y Hg) as (Hx & Hy & Hm).
  destruct (ci_new _ _ _ _ _ _ _ _ _ _ I x y Hx Hy Hm (filled_reaches x y Hg))
    as (_ & Hn & _).
  by destruct (Hn Hg).
Qed.

Lemma filled_keeps x y :
  0 <= x < width -> 0 <= y < height -> ~ grown x y ->
  Vec.get black (image filled) (y * width + x)
  = Vec.get black (image m) (y * width + x).
Proof.
  intros Hx Hy Hng. destruct filled_inv as [I _].
  destruct (Vec.get false (visited m) (y * width + x)) eqn:Hm.
  { by destruct (ci_old _ _ _ _ _ _ _ _ _ _ I x y Hx Hy Hm). }
  destruct (Vec.get false (visited filled) (y * width + x)) eqn:Hv.
  2: { by apply (ci_unvisited _ _ _ _ _ _ _ _ _ _ I). }
  destruct (ci_new _ _ _ _ _ _ _ _ _ _ I x y Hx Hy Hm Hv) as (_ & _ & Hno).
  by apply Hno.
Qed.

Lemma filled_visits x y :
  0 <= x < width -> 0 <= y < height ->
  Vec.get false (visited filled) (y * width + x) = true
  <-> Vec.get false (visited m) (y * width + x) = true
      \/ (x = startX /\ y = startY)
      \/ exists x0 y0, grown x0 y0 /\ adjacent use8Way x0 y0 x y.
Proof.
  intros Hx Hy. destruct filled_inv as [I _]. split.
  - intros Hv. destruct (Vec.get false (visited m) (y * width + x)) eqn:Hm; [by left|].
    right. by destruct (ci_new _ _ _ _ _ _ _ _ _ _ I x y Hx Hy Hm Hv) as (? & _ & _).
  - intros [Hm|[[-> ->]|(x0 & y0 & Hg & Ha)]].
    + by destruct (ci_old _ _ _ _ _ _ _ _ _ _ I x y Hx Hy Hm).
    + by destruct (ci_seed _ _ _ _ _ _ _ _ _ _ I) as (_ & Hs & _).
    + destruct (grown_unvisited x0 y0 Hg) as (Hx0 & Hy0 & Hm0).
      apply (filled_neighbours x0 y0); [done|by apply filled_reaches|done..].
Qed.

End FilledComponent.

(** X1. With comparison against the start colour ([adj] false),
    [floodFillIterative] is called as the two scans call it: on a memory
    whose image and Visited Set have one entry per pixel, at an unvisited
    seed of the image, with [startColor] bound to the seed pixel in the
    image, and with [k >= 0].  The seed passes against its own colour and
    is recoloured; from then on [startColor] is the fill colour.  The
    flood fill recolours exactly the seed and the pixels linked to it by a
    chain of adjacent pixels that are in the image, unvisited at the
    call and within [k] of the fill colour, and leaves every other pixel
    of the image as it was; the pixels it adds to the Visited Set are
    those it recolours and their neighbours. *)
Theorem flood_fill_fills_component
    (width height : Z) (k : Q) (use8Way euclidif : bool)
    (newColor : Color) (m : FillState) (startX startY x y : Z) :
  length (visited m) = Z.to_nat (width * height) ->
  length (image m) = Z.to_nat (width * height) ->
  seed_passes width height k m startX startY ->
  0 <= x < width -> 0 <= y < height ->
  (grows width height k use8Way euclidif newColor m startX startY x y ->
   Vec.get black
     (image (floodFillIterative width height (InImage (startY * width + startX))
               k use8Way false euclidif newColor startX startY m))
     (y * width + x) = newColor)
  /\ (~ grows width height k use8Way euclidif newColor m startX startY x y ->
      Vec.get black
        (image (floodFillIterative width height (InImage (startY * width + startX))
                  k use8Way false euclidif newColor startX startY m))
        (y * width + x)
      = Vec.get black (image m) (y * width + x))
  /\ (Vec.get false
        (visited (floodFillIterative width height (InImage (startY * width + startX))
                    k use8Way false euclidif newColor startX startY m))
        (y * width + x) = true
      <-> Vec.get false (visited m) (y * width + x) = true
          \/ (x = startX /\ y = startY)
          \/ exists x0 y0,
               grows width height k use8Way euclidif newColor m startX startY x0 y0
               /\ adjacent use8Way x0 y0 x y).
Proof.
  intros Hlv Hli Hseed Hx Hy. split; [|split].
  - by apply filled_recolours.
  - by apply filled_keeps.
  - by apply filled_visits.
Qed.

(** ** The chain of comparisons behind every recoloured pixel *)

Section ChainFacts.

Variables (width height : Z).
Variables (k : Q) (use8Way adj euclidif : bool).
Variables (newColor : Color) (m : FillState) (startX startY : Z).

Local Abbreviation seed := (InImage (startY * width + startX)).
Local Abbreviation step := (fill_step width height seed k use8Way adj euclidif newColor).
Local Abbreviation loop := (fill_loop width height seed k use8Way adj euclidif newColor).
Local Abbreviation inv :=
  (chain_inv width height k use8Way adj euclidif newColor m startX startY).
Local Abbreviation link :=
  (chained width height k use8Way adj euclidif newColor m startX startY).

Hypothesis Hlv : length (visited m) = Z.to_nat (width * height).
Hypothesis Hli : length (image m) = Z.to_nat (width * height).
Hypothesis Hseed : seed_passes width height k m startX startY.

Lemma chain_inv_first :
  inv (mkFillState
         (Vec.set (image m) (startY * width + startX) newColor)
         (Vec.set (visited m) (startY * width + startX) true)
         (Vec.set (bigMask m) (startY * width + startX) true)
         (pushes use8Way startX startY
            (Vec.get black (image m) (startY * width + startX)))
         (Z.min (currentComponentXmin m) startX)
         (Z.max (currentComponentXmax m) startX)
         (Z.min (currentComponentYmin m) startY)
         (Z.max (currentComponentYmax m) startY)
         (currentComponentSize m + 1)).
Proof.
  pose proof Hseed as (Hb & Hv & Hk).
  apply in_bounds_spec in Hb as [Hsx Hsy].
  assert (link startX startY) as Hlink by (by constructor).
  constructor; cbn [visited image stack].
  - by rewrite length_set.
  - by rewrite length_set.
  - split; by apply (get_set_pixel width height).
  - intros x y Hx Hy Hm. by apply get_set_true_keeps.
  - intros x y Hx Hy Hvis.
    assert (~ (x = startX /\ y = startY)) as Hne.
    { intros [-> ->]. rewrite (get_set_pixel width height) in Hvis by done. done. }
    by rewrite (get_set_other width height).
  - intros x y Hx Hy.
    destruct (decide (x = startX /\ y = startY)) as [[-> ->]|Hne].
    + right. by rewrite !(get_set_pixel width height).
    + left. by rewrite (get_set_other width height).
  - intros x y c Hin. apply pushes_adjacent in Hin as [Ha ->]. eauto.
Qed.

Lemma chain_inv_step st st' : inv st -> step st = Some st' -> inv st'.
Proof.
  intros I. unfold fill_step.
  destruct (stack st) as [|[[x y] nc] rest] eqn:Hst; [discriminate|].
  assert (forall x' y' c, (x', y', c) ∈ rest -> (x', y', c) ∈ stack st) as Hrest
    by (intros; rewrite Hst; by right).
  assert (exists x0 y0, link x0 y0 /\ adjacent use8Way x0 y0 x y
                        /\ nc = Vec.get black (image m) (y0 * width + x0)) as Htop.
  { apply (ch_stack _ _ _ _ _ _ _ _ _ _ _ I x y nc). rewrite Hst. by left. }
  pose proof (ch_len_visited _ _ _ _ _ _ _ _ _ _ _ I) as Hlvs.
  pose proof (ch_len_image _ _ _ _ _ _ _ _ _ _ _ I) as Hlis.
  destruct (ch_seed _ _ _ _ _ _ _ _ _ _ _ I) as (Hsv & Hsc).
  pose proof Hseed as (Hsb & _ & _). apply in_bounds_spec in Hsb as [Hsx Hsy].
  destruct (negb (in_bounds width height x y)
            || Vec.get false (visited st) (y * width + x)) eqn:Hskip.
  { intros [= <-]. constructor; cbn [visited image stack]; try apply I.
    intros x' y' c Hin. by apply (ch_stack _ _ _ _ _ _ _ _ _ _ _ I), Hrest. }
  apply orb_false_iff in Hskip as [Hb Hv].
  apply negb_false_iff in Hb. pose proof Hb as Hb'.
  apply in_bounds_spec in Hb' as [Hx Hy].
  assert (Vec.get false (visited m) (y * width + x) = false) as Hm.
  { destruct (Vec.get false (visited m) (y * width + x)) eqn:E; [|done].
    pose proof (ch_old _ _ _ _ _ _ _ _ _ _ _ I x y Hx Hy E). congruence. }
  assert (~ (x = startX /\ y = startY)) as Hns by (intros [-> ->]; congruence).
  rewrite (ch_unvisited _ _ _ _ _ _ _ _ _ _ _ I x y Hx Hy Hv).
  cbn [deref]. rewrite Hsc.
  destruct (colorDifference_le (Vec.get black (image m) (y * width + x))
              (if adj then nc else newColor) euclidif k) eqn:Htest.
  - assert (link x y) as Hlink.
    { destruct Htop as (x0 & y0 & Hl & Ha & ->). by eapply chained_step. }
    intros [= <-]. constructor; cbn [visited image stack].
    + by rewrite length_set.
    + by rewrite length_set.
    + split; [by apply get_set_true_keeps|].
      rewrite (get_set_other width height); [done..|]. intros [E1 E2]. by apply Hns.
    + intros x1 y1 Hx1 Hy1 Hm1. apply get_set_true_keeps.
      by apply (ch_old _ _ _ _ _ _ _ _ _ _ _ I).
    + intros x1 y1 Hx1 Hy1 Hv1.
      assert (~ (x1 = x /\ y1 = y)) as Hne.
      { intros [-> ->]. rewrite (get_set_pixel width height) in Hv1 by done. done. }
      rewrite (get_set_other width height) in Hv1 by done.
      rewrite (get_set_other width height) by done.
      by apply (ch_unvisited _ _ _ _ _ _ _ _ _ _ _ I).
    + intros x1 y1 Hx1 Hy1.
      destruct (decide (x1 = x /\ y1 = y)) as [[-> ->]|Hne].
      * right. rewrite !(get_set_pixel width height) by done. done.
      * rewrite (get_set_other width height) by done.
        destruct (ch_changed _ _ _ _ _ _ _ _ _ _ _ I x1 y1 Hx1 Hy1)
          as [?|(? & ? & ?)]; [by left|].
        right. split; [done|]. split; [by apply get_set_true_keeps|done].
    + intros x' y' c Hin. apply elem_of_app in Hin as [Hin|Hin].
      * apply pushes_adjacent in Hin as [Ha ->]. eauto.
      * by apply (ch_stack _ _ _ _ _ _ _ _ _ _ _ I), Hrest.
  - intros [= <-]. constructor; cbn [visited image stack].
    + by rewrite length_set.
    + done.
    + split; [by apply get_set_true_keeps|done].
    + intros x1 y1 Hx1 Hy1 Hm1. apply get_set_true_keeps.
      by apply (ch_old _ _ _ _ _ _ _ _ _ _ _ I).
    + intros x1 y1 Hx1 Hy1 Hv1.
      assert (~ (x1 = x /\ y1 = y)) as Hne.
      { intros [-> ->]. rewrite (get_set_pixel width height) in Hv1 by done. done. }
      rewrite (get_set_other width height) in Hv1 by done.
      by apply (ch_unvisited _ _ _ _ _ _ _ _ _ _ _ I).
    + intros x1 y1 Hx1 Hy1.
      destruct (ch_changed _ _ _ _ _ _ _ _ _ _ _ I x1 y1 Hx1 Hy1)
        as [?|(? & ? & ?)]; [by left|].
      right. split; [done|]. split; [by apply get_set_true_keeps|done].
    + intros x' y' c Hin. by apply (ch_stack _ _ _ _ _ _ _ _ _ _ _ I), Hrest.
Qed.

Lemma chain_inv_loop fuel st : inv st -> inv (loop fuel st).
Proof.
  revert st. induction fuel as [|fuel IH]; intros st I; simpl; [done|].
  destruct (step st) as [st'|] eqn:Hs; [|done].
  apply IH. by eapply chain_inv_step.
Qed.

Lemma chain_inv_filled :
  inv (floodFillIterative width height seed k use8Way adj euclidif newColor
         startX startY m).
Proof.
  unfold floodFillIterative.
  set (st0 := mkFillState _ _ _ _ _ _ _ _ _).
  assert (fill_measure st0 = S (pred (fill_measure st0))) as ->
    by (unfold fill_measure, st0; simpl; lia).
  cbn [fill_loop]. unfold st0.
  rewrite (component_first_step width height k use8Way euclidif newColor m
             startX startY adj Hseed Hlv Hli).
  apply chain_inv_loop, chain_inv_first.
Qed.

End ChainFacts.

(** A flood fill whose seed is outside the image, already visited, or
    compared with [k < 0] changes no colour; it visits at most the seed. *)
Lemma fill_without_seed width height k use8Way adj euclidif newColor m startX startY :
  ~ seed_passes width height k m startX startY ->
  image (floodFillIterative width height (InImage (startY * width + startX))
           k use8Way adj euclidif newColor startX startY m)
  = image m
  /\ (visited (floodFillIterative width height (InImage (startY * width + startX))
                 k use8Way adj euclidif newColor startX startY m)
      = visited m
      \/ in_bounds width height startX startY = true
         /\ visited (floodFillIterative width height (InImage (startY * width + startX))
                       k use8Way adj euclidif newColor startX startY m)
            = Vec.set (visited m) (startY * width + startX) true).
Proof.
  intros Hno. unfold floodFillIterative.
  set (st0 := mkFillState _ _ _ _ _ _ _ _ _).
  assert (fill_measure st0 = S (pred (fill_measure st0))) as ->
    by (unfold fill_measure, st0; simpl; lia).
  cbn [fill_loop].
  assert (exists st1,
            fill_step width height (InImage (startY * width + startX)) k use8Way adj
              euclidif newColor st0 = Some st1
            /\ image st1 = image m /\ stack st1 = []
            /\ (visited st1 = visited m
                \/ in_bounds width height startX startY = true
                   /\ visited st1 = Vec.set (visited m) (startY * width + startX) true))
    as (st1 & -> & Himg & Hstk & Hvis).
  { unfold fill_step, st0.
    cbn [stack visited image bigMask deref currentComponentXmin currentComponentXmax
         currentComponentYmin currentComponentYmax currentComponentSize].
    destruct (negb (in_bounds width height startX startY)
              || Vec.get false (visited m) (startY * width + startX)) eqn:Hskip.
    { eexists. split; [reflexivity|]. split; [done|]. split; [done|]. by left. }
    apply orb_false_iff in Hskip as [Hb Hv]. apply negb_false_iff in Hb.
    replace (if adj then Vec.get black (image m) (startY * width + startX)
             else Vec.get black (image m) (startY * width + startX))
      with (Vec.get black (image m) (startY * width + startX)) by (by destruct adj).
    rewrite colorDifference_le_self.
    destruct (Qle_bool 0 k) eqn:Hk; [by destruct Hno|].
    eexists. split; [reflexivity|]. split; [done|]. split; [done|]. by right. }
  assert (forall fuel,
            fill_loop width height (InImage (startY * width + startX)) k use8Way adj
              euclidif newColor fuel st1 = st1) as Hstop.
  { intros [|fuel]; [done|]. cbn [fill_loop]. unfold fill_step. by rewrite Hstk. }
  by rewrite Hstop.
Qed.

(** X2. Whatever the comparison mode, [floodFillIterative], called as the
    two scans call it (on a memory whose image and Visited Set have one
    entry per pixel, with [startColor] bound to the seed pixel in the
    image), changes the colour of a pixel of the image only to the fill
    colour, and only if the pixel is linked to the seed by a chain of
    adjacent pixels that were unvisited at the call: the seed is an
    unvisited pixel of the image and [k >= 0], and every further pixel of
    the chain is within [k] of the colour its predecessor had at the call
    ([adj] set) or of the fill colour ([adj] not set: [startColor] is
    read through the image, where the seed has been recoloured). *)
Theorem recoloured_pixels_are_chained
    (width height : Z) (k : Q) (use8Way adj euclidif : bool)
    (newColor : Color) (m : FillState) (startX startY x y : Z) :
  length (visited m) = Z.to_nat (width * height) ->
  length (image m) = Z.to_nat (width * height) ->
  0 <= x < width -> 0 <= y < height ->
  Vec.get black
    (image (floodFillIterative width height (InImage (startY * width + startX))
              k use8Way adj euclidif newColor startX startY m)) (y * width + x)
  = Vec.get black (image m) (y * width + x)
  \/ (Vec.get black
        (image (floodFillIterative width height (InImage (startY * width + startX))
                  k use8Way adj euclidif newColor startX startY m)) (y * width + x)
      = newColor
      /\ Vec.get false
           (visited (floodFillIterative width height (InImage (startY * width + startX))
                       k use8Way adj euclidif newColor startX startY m))
           (y * width + x) = true
      /\ chained width height k use8Way adj euclidif newColor m startX startY x y).
Proof.
  intros Hlv Hli Hx Hy.
  assert (seed_passes width height k m startX startY
          \/ ~ seed_passes width height k m startX startY) as [Hseed|Hno].
  { unfold seed_passes.
    destruct (in_bounds width height startX startY),
      (Vec.get false (visited m) (startY * width + startX)), (Qle_bool 0 k);
      intuition congruence. }
  - apply (ch_changed width height k use8Way adj euclidif newColor m startX startY);
      [|done..].
    by apply chain_inv_filled.
  - left. by rewrite (proj1 (fill_without_seed _ _ _ _ _ _ _ _ _ _ Hno)).
Qed.

(** ** The building-block overlay *)

Section Paint.

Variables (width height : Z).

Lemma paint_flat comp img :
  paint width comp img
  = foldl (fun img p =>
             if Vec.get false (ComponentData.mask comp)
                  ((p.1 - ComponentData.yMin comp)
                   * (ComponentData.xMax comp - ComponentData.xMin comp + 1)
                   + (p.2 - ComponentData.xMin comp))
             then Vec.set img (p.1 * width + p.2) black else img)
      img
      (grid (seqZ (ComponentData.yMin comp)
               (ComponentData.yMax comp - ComponentData.yMin comp + 1))
            (seqZ (ComponentData.xMin comp)
               (ComponentData.xMax comp - ComponentData.xMin comp + 1))).
Proof.
  unfold paint.
  apply (foldl_grid (fun img cy cx =>
           if Vec.get false (ComponentData.mask comp)
                ((cy - ComponentData.yMin comp)
                 * (ComponentData.xMax comp - ComponentData.xMin comp + 1)
                 + (cx - ComponentData.xMin comp))
           then Vec.set img (cy * width + cx) black else img)).
Qed.

(** Painting the positions [ps] selected by [sel]. *)
Lemma painted_pixel (sel : Z * Z -> bool) (ps : list (Z * Z)) (img : list Color) x y :
  (forall p, p ∈ ps -> 0 <= p.2 < width /\ 0 <= p.1 < height) ->
  0 <= x < width -> 0 <= y < height ->
  length img = Z.to_nat (width * height) ->
  length (foldl (fun img p => if sel p then Vec.set img (p.1 * width + p.2) black else img)
            img ps) = Z.to_nat (width * height)
  /\ (((y, x) ∈ ps /\ sel (y, x) = true) \/ Vec.get white img (y * width + x) = black ->
      Vec.get white
        (foldl (fun img p => if sel p then Vec.set img (p.1 * width + p.2) black else img)
           img ps) (y * width + x) = black)
  /\ (~ ((y, x) ∈ ps /\ sel (y, x) = true) ->
      Vec.get white
        (foldl (fun img p => if sel p then Vec.set img (p.1 * width + p.2) black else img)
           img ps) (y * width + x)
      = Vec.get white img (y * width + x)).
Proof.
  intros Hps Hx Hy. revert img. induction ps as [|p ps IH]; intros img Hlen; cbn [foldl].
  - split; [done|]. split; [|done]. intros [[Hin _]|H]; [|done].
    by apply elem_of_nil in Hin.
  - destruct p as [py px].
    assert (forall q, q ∈ ps -> 0 <= q.2 < width /\ 0 <= q.1 < height) as Hps'
      by (intros q Hq; apply Hps; by right).
    assert (0 <= px < width /\ 0 <= py < height) as [Hpx Hpy]
      by (apply (Hps (py, px)); by left).
    cbn [fst snd].
    set (img' := if sel (py, px) then Vec.set img (py * width + px) black else img).
    assert (length img' = Z.to_nat (width * height)) as Hlen'
      by (unfold img'; destruct (sel (py, px)); by rewrite ?length_set).
    destruct (IH Hps' img' Hlen') as (IHl & IHb & IHw).
    split; [done|]. split.
    + intros [[Hin Hsel]|Hb].
      * apply elem_of_cons in Hin as [[= -> ->]|Hin]; [|apply IHb; left; done].
        apply IHb. right. unfold img'. rewrite Hsel.
        by apply (get_set_pixel width height).
      * apply IHb. right. unfold img'. destruct (sel (py, px)); [|done].
        destruct (decide (x = px /\ y = py)) as [[-> ->]|Hne].
        -- by apply (get_set_pixel width height).
        -- by rewrite (get_set_other width height).
    + intros Hn. rewrite IHw.
      * unfold img'. destruct (sel (py, px)) eqn:Hsel; [|done].
        apply (get_set_other width height); [done..|].
        intros [-> ->]. apply Hn. split; [by left|done].
      * intros [Hin Hsel]. apply Hn. split; [by right|done].
Qed.

End Paint.

Lemma paint_pixel width height comp img x y :
  (0 <= ComponentData.xMin comp /\ ComponentData.xMax comp < width) ->
  (0 <= ComponentData.yMin comp /\ ComponentData.yMax comp < height) ->
  0 <= x < width -> 0 <= y < height ->
  length img = Z.to_nat (width * height) ->
  length (paint width comp img) = Z.to_nat (width * height)
  /\ (mask_pixel comp x y \/ Vec.get white img (y * width + x) = black ->
      Vec.get white (paint width comp img) (y * width + x) = black)
  /\ (~ mask_pixel comp x y ->
      Vec.get white (paint width comp img) (y * width + x)
      = Vec.get white img (y * width + x)).
Proof.
  intros Hbx Hby Hx Hy Hlen. rewrite paint_flat.
  set (sel := fun p : Z * Z =>
         Vec.get false (ComponentData.mask comp)
           ((p.1 - ComponentData.yMin comp)
            * (ComponentData.xMax comp - ComponentData.xMin comp + 1)
            + (p.2 - ComponentData.xMin comp))).
  set (ps := grid _ _).
  assert (forall p, p ∈ ps <->
            ComponentData.yMin comp <= p.1 <= ComponentData.yMax comp
            /\ ComponentData.xMin comp <= p.2 <= ComponentData.xMax comp) as Hin.
  { intros [cy cx]. unfold ps. rewrite elem_of_grid, !elem_of_seqZ. simpl. lia. }
  assert (((y, x) ∈ ps /\ sel (y, x) = true) <-> mask_pixel comp x y) as Hmp.
  { rewrite Hin. unfold mask_pixel, sel. simpl. tauto. }
  destruct (painted_pixel width height sel ps img x y) as (Hl & Hb & Hw);
    [|done..|].
  { intros p Hp%Hin. lia. }
  split; [done|]. split.
  - intros [Hm|Hblack]; apply Hb; [left; by apply Hmp|by right].
  - intros Hn. apply Hw. by rewrite Hmp.
Qed.

Lemma classify_overlay_acc width height pt st comps img saved x y :
  Forall (fun comp =>
            (0 <= ComponentData.xMin comp /\ ComponentData.xMax comp < width)
            /\ (0 <= ComponentData.yMin comp /\ ComponentData.yMax comp < height)) comps ->
  0 <= x < width -> 0 <= y < height ->
  length img = Z.to_nat (width * height) ->
  ((exists comp, comp ∈ comps /\ isBuildingBlock pt st comp = true /\ mask_pixel comp x y)
   \/ Vec.get white img (y * width + x) = black ->
   Vec.get white
     (foldl (fun acc comp =>
               let '(img, saved) := acc in
               let isBB := isBuildingBlock pt st comp in
               ((if isBB then paint width comp img else img), saved ++ [(comp, isBB)]))
        (img, saved) comps).1 (y * width + x) = black)
  /\ (~ (exists comp, comp ∈ comps /\ isBuildingBlock pt st comp = true
                      /\ mask_pixel comp x y) ->
      Vec.get white
        (foldl (fun acc comp =>
                  let '(img, saved) := acc in
                  let isBB := isBuildingBlock pt st comp in
                  ((if isBB then paint width comp img else img), saved ++ [(comp, isBB)]))
           (img, saved) comps).1 (y * width + x)
      = Vec.get white img (y * width + x)).
Proof.
  intros Hbox Hx Hy. revert img saved.
  induction Hbox as [|comp comps [Hbx Hby] Hbox IH]; intros img saved Hlen.
  - simpl. split; [|done]. intros [(comp & Hin & _)|H]; [|done].
    by apply elem_of_nil in Hin.
  - cbn [foldl].
    destruct (paint_pixel width height comp img x y Hbx Hby Hx Hy Hlen)
      as (Hl & Hb & Hw).
    set (img' := if isBuildingBlock pt st comp then paint width comp img else img).
    assert (length img' = Z.to_nat (width * height)) as Hlen'
      by (unfold img'; by destruct (isBuildingBlock pt st comp)).
    destruct (IH img' (saved ++ [(comp, isBuildingBlock pt st comp)]) Hlen')
      as [IHb IHw].
    split.
    + intros [(c & Hin & Hbb & Hm)|Hblack].
      * apply elem_of_cons in Hin as [->|Hin].
        -- apply IHb. right. unfold img'. rewrite Hbb. apply Hb. by left.
        -- apply IHb. left. eauto.
      * apply IHb. right. unfold img'.
        destruct (isBuildingBlock pt st comp); [|done]. apply Hb. by right.
    + intros Hn. transitivity (Vec.get white img' (y * width + x)).
      * apply IHw.
        intros (c & Hin & Hbb & Hm). apply Hn. exists c. split; [by right|done].
      * unfold img'. destruct (isBuildingBlock pt st comp) eqn:Hbb; [|done].
        apply Hw. intros Hm. apply Hn. exists comp. split; [by left|done].
Qed.

Lemma classify_overlay width height pt st comps img x y :
  Forall (fun comp =>
            (0 <= ComponentData.xMin comp /\ ComponentData.xMax comp < width)
            /\ (0 <= ComponentData.yMin comp /\ ComponentData.yMax comp < height)) comps ->
  0 <= x < width -> 0 <= y < height ->
  length img = Z.to_nat (width * height) ->
  ((exists comp, comp ∈ comps /\ isBuildingBlock pt st comp = true /\ mask_pixel comp x y)
   \/ Vec.get white img (y * width + x) = black ->
   Vec.get white (classify width pt st comps img).1 (y * width + x) = black)
  /\ (~ (exists comp, comp ∈ comps /\ isBuildingBlock pt st comp = true
                      /\ mask_pixel comp x y) ->
      Vec.get white (classify width pt st comps img).1 (y * width + x)
      = Vec.get white img (y * width + x)).
Proof. apply classify_overlay_acc. Qed.

(** X3. When [processImage] finishes, a pixel of the overlay image is
    black if it is a pixel of the mask of a component saved as a building
    block, and white otherwise. *)
Theorem overlay_marks_building_blocks
    (inputs : Inputs) (config : Config) (randomColor : nat -> Color) (out : Output)
    (width height : Z) (imgData : list Color) (x y : Z) :
  decoded inputs = Some (width, height, imgData) ->
  processImage inputs config randomColor = Finished out ->
  0 <= x < width -> 0 <= y < height ->
  ((exists comp, (comp, true) ∈ out_saved out /\ mask_pixel comp x y) ->
   Vec.get white (out_buildingBlocks out) (y * width + x) = black)
  /\ (~ (exists comp, (comp, true) ∈ out_saved out /\ mask_pixel comp x y) ->
      Vec.get white (out_buildingBlocks out) (y * width + x) = white).
Proof.
  intros Hd. unfold processImage. rewrite Hd.
  destruct (heatmapFile inputs) as [bytes|]; [|done].
  destruct (read_floats _ bytes) as [heatmap|]; [|done].
  destruct (outputFolderCreated inputs); [|done].
  destruct (subfoldersCreated inputs); [|done].
  destruct (jsonOpened inputs); [|done]. cbn [negb].
  set (img := (fun j => Vec.get black imgData j) <$> seqZ 0 (width * height)).
  set (s := extractComponents width height heatmap config randomColor img).
  set (pt := probabilityThreshold80 heatmap).
  set (st := sizeThreshold80 (components s)).
  pose proof (classify_saved width pt st (components s)
                (replicate (Z.to_nat (width * height)) white)) as Hsaved.
  intros Hfin Hx Hy.
  assert (Forall (fun comp =>
            (0 <= ComponentData.xMin comp /\ ComponentData.xMax comp < width)
            /\ (0 <= ComponentData.yMin comp /\ ComponentData.yMax comp < height))
            (components s)) as Hbox.
  { apply Forall_forall. intros comp Hc.
    apply kept_component_fill in Hc as (n & f & _ & Fok & _ & ->).
    rewrite component_of_fill_eq. simpl.
    pose proof (fo_xrange _ _ _ Fok). pose proof (fo_yrange _ _ _ Fok). lia. }
  destruct (classify_overlay width height pt st (components s)
              (replicate (Z.to_nat (width * height)) white) x y Hbox Hx Hy)
    as [Hb Hw]; [by rewrite length_replicate|].
  assert (Vec.get white (replicate (Z.to_nat (width * height)) white) (y * width + x)
          = white) as Hinit.
  { apply get_lookup, lookup_replicate. split; [done|]. by eapply index_lt_length. }
  destruct (classify _ _ _ _ _) as [bb saved]. simpl in Hsaved, Hb, Hw.
  injection Hfin as <-. cbn [out_saved out_buildingBlocks]. subst saved.
  assert ((exists comp, (comp, true) ∈
             (fun comp => (comp, isBuildingBlock pt st comp)) <$> components s
             /\ mask_pixel comp x y)
          <-> exists comp, comp ∈ components s /\ isBuildingBlock pt st comp = true
                           /\ mask_pixel comp x y) as Hiff.
  { split.
    - intros (comp & Hin & Hm). apply list_elem_of_fmap in Hin as (c & [= <- Hbb] & Hc).
      eauto.
    - intros (comp & Hc & Hbb & Hm). exists comp. split; [|done].
      apply list_elem_of_fmap. exists comp. by rewrite Hbb. }
  split.
  - intros Hex. apply Hb. left. by apply Hiff.
  - intros Hn. rewrite Hw; [done|]. intros Hex. by apply Hn, Hiff.
Qed.

(** ** The thresholds as order statistics *)

Lemma filter_all {A} (P : A -> Prop) `{!forall x, Decision (P x)} (l : list A) :
  (forall x, x ∈ l -> P x) -> filter P l = l.
Proof.
  induction l as [|x l IH]; intros Hall; [done|].
  rewrite filter_cons_True by (apply Hall; by left).
  f_equal. apply IH. intros y Hy. apply Hall. by right.
Qed.

Section OrderStatistic.

Context {A : Type} (leb : A -> A -> bool).
Hypothesis leb_total : forall x y, leb x y = false -> leb y x = true.
Hypothesis leb_trans : forall x y z, leb x y = true -> leb y z = true -> leb x z = true.

Lemma leb_refl x : leb x x = true.
Proof. destruct (leb x x) eqn:E; [done|]. by rewrite (leb_total _ _ E) in E. Qed.

Lemma std_sort_strongly_sorted l :
  StronglySorted (fun x y => leb x y = true) (std_sort leb l).
Proof.
  apply Sorted_StronglySorted.
  - intros x y z. apply leb_trans.
  - apply (std_sort_sorted leb (fun x y => leb x y = true)); [done|apply leb_total].
Qed.

Lemma strongly_sorted_lookup (s : list A) (i j : nat) x y :
  StronglySorted (fun x y => leb x y = true) s ->
  s !! i = Some x -> s !! j = Some y -> (i <= j)%nat -> leb x y = true.
Proof.
  intros Hs. revert i j. induction Hs as [|a s Hs IH Hall]; intros i j Hi Hj Hle.
  - by rewrite lookup_nil in Hi.
  - destruct i as [|i], j as [|j]; simpl in *; try lia.
    + injection Hi as <-. injection Hj as <-. apply leb_refl.
    + injection Hi as <-. rewrite List.Forall_forall in Hall. apply Hall.
      apply list_elem_of_In, list_elem_of_lookup. eauto.
    + apply (IH i j); [done..|lia].
Qed.

(** The element at index [i] of the sorted list is an element of the list;
    at least [i + 1] elements are below or equal to it and at least
    [length l - i] are above or equal to it. *)
Lemma sorted_rank (l : list A) (i : nat) (t : A) :
  std_sort leb l !! i = Some t ->
  t ∈ l
  /\ (S i <= length (filter (fun v => leb v t = true) l))%nat
  /\ (length l - i <= length (filter (fun v => leb t v = true) l))%nat.
Proof.
  intros Hi.
  pose proof (std_sort_perm leb l) as Hperm.
  pose proof (std_sort_strongly_sorted l) as Hs.
  pose proof (lookup_lt_Some _ _ _ Hi) as Hlt.
  revert Hi Hperm Hs Hlt. generalize (std_sort leb l). intros s Hi Hperm Hs Hlt.
  split; [|split].
  - rewrite Hperm. apply list_elem_of_lookup. eauto.
  - rewrite Hperm. rewrite <- (take_drop (S i) s) at 1.
    rewrite filter_app, length_app, filter_all.
    + rewrite length_take. lia.
    + intros x Hx. apply elem_of_take in Hx as (j & Hj & Hji).
      apply (strongly_sorted_lookup s j i); [done..|lia].
  - rewrite Hperm. rewrite <- (take_drop i s) at 2.
    rewrite filter_app, length_app, (filter_all _ (drop _ _)).
    + rewrite length_drop. lia.
    + intros x Hx. apply list_elem_of_lookup in Hx as (j & Hj).
      rewrite lookup_drop in Hj.
      apply (strongly_sorted_lookup s i (i + j)); [done..|lia].
Qed.

End OrderStatistic.

Lemma Qle_bool_total_bool x y : Qle_bool x y = false -> Qle_bool y x = true.
Proof. intros H. by apply Qle_bool_iff, Qle_bool_total. Qed.

Lemma Qle_bool_trans x y z :
  Qle_bool x y = true -> Qle_bool y z = true -> Qle_bool x z = true.
Proof. rewrite !Qle_bool_iff. apply Qle_trans. Qed.

(** X4. For a heatmap of [M >= 1] values, the probability threshold of
    [processImage] is one of the values of the heatmap; at least
    [floor (0.8 * M) + 1] of the values are below or equal to it and at
    least [M - floor (0.8 * M)] of them, a fifth of the heatmap, are above
    or equal to it. *)
Theorem probability_threshold_rank (heatmap : list Q) :
  heatmap <> [] ->
  probabilityThreshold80 heatmap ∈ heatmap
  /\ ((4 * Z.of_nat (length heatmap)) / 5 + 1
      <= Z.of_nat (length (filter (fun v => Qle_bool v (probabilityThreshold80 heatmap) = true)
                             heatmap)))
  /\ (Z.of_nat (length heatmap) - (4 * Z.of_nat (length heatmap)) / 5
      <= Z.of_nat (length (filter (fun v => Qle_bool (probabilityThreshold80 heatmap) v = true)
                             heatmap))).
Proof.
  intros Hne.
  assert (0 < Z.of_nat (length heatmap)) as Hpos by (destruct heatmap; [done|simpl; lia]).
  destruct (index80_prob_floor _ Hpos) as [Hidx _].
  assert (0 <= 4 * Z.of_nat (length heatmap) / 5 < Z.of_nat (length heatmap)) as Hrange.
  { split; [apply Z.div_pos; lia|apply Z.div_lt_upper_bound; lia]. }
  assert (std_sort Qle_bool heatmap !! Z.to_nat (4 * Z.of_nat (length heatmap) / 5)
          = Some (probabilityThreshold80 heatmap)) as Hlook.
  { unfold probabilityThreshold80, Vec.get. rewrite length_std_sort, Hidx.
    destruct (lookup_lt_is_Some_2 (std_sort Qle_bool heatmap)
                (Z.to_nat (4 * Z.of_nat (length heatmap) / 5))) as [t Ht].
    - rewrite length_std_sort. lia.
    - by rewrite Ht. }
  destruct (sorted_rank Qle_bool Qle_bool_total_bool Qle_bool_trans _ _ _ Hlook)
    as (Hin & Hbelow & Habove).
  split; [done|]. split; lia.
Qed.

(** X5. For [N >= 1] components, the size threshold of [processImage] is
    the size of one of them and at least [floor (0.9 * N) + 1] components
    have a size below or equal to it.  With at most ten components it is
    the largest size, so that no component fails the size test and a
    component is a building block exactly when its average probability
    reaches the probability threshold. *)
Theorem size_threshold_rank (components : list ComponentData.t) :
  components <> [] ->
  sizeThreshold80 components ∈ ComponentData.size <$> components
  /\ ((9 * Z.of_nat (length components)) / 10 + 1
      <= Z.of_nat (length (filter (fun c => ComponentData.size c
                                            <= sizeThreshold80 components)
                             components)))
  /\ ((length components <= 10)%nat ->
      forall probabilityThreshold comp, comp ∈ components ->
        ComponentData.size comp <= sizeThreshold80 components
        /\ isBuildingBlock probabilityThreshold (sizeThreshold80 components) comp
           = F32.leb (F32.Finite probabilityThreshold)
               (ComponentData.avgProbability comp)).
Proof.
  intros Hne.
  set (sizes := ComponentData.size <$> components).
  assert (length sizes = length components) as Hlen by apply length_fmap.
  assert (0 < Z.of_nat (length components)) as Hpos
    by (destruct components; [done|simpl; lia]).
  destruct (index80_size_floor _ Hpos) as [Hidx _].
  assert (0 <= 9 * Z.of_nat (length components) / 10 < Z.of_nat (length components))
    as Hrange.
  { split; [apply Z.div_pos; lia|apply Z.div_lt_upper_bound; lia]. }
  assert (forall x y, (x <=? y) = false -> (y <=? x) = true) as Htotal by lia.
  assert (forall x y z, (x <=? y) = true -> (y <=? z) = true -> (x <=? z) = true)
    as Htrans by lia.
  assert (std_sort Z.leb sizes !! Z.to_nat (9 * Z.of_nat (length components) / 10)
          = Some (sizeThreshold80 components)) as Hlook.
  { unfold sizeThreshold80. fold sizes.
    destruct (std_sort Z.leb sizes) as [|z zs] eqn:E.
    { apply (f_equal length) in E. rewrite length_std_sort in E. simpl in E. lia. }
    rewrite <- E. unfold Vec.get. rewrite length_std_sort, Hlen, Hidx.
    destruct (lookup_lt_is_Some_2 (std_sort Z.leb sizes)
                (Z.to_nat (9 * Z.of_nat (length components) / 10))) as [t Ht].
    - rewrite length_std_sort. lia.
    - by rewrite Ht. }
  destruct (sorted_rank Z.leb Htotal Htrans _ _ _ Hlook) as (Hin & Hbelow & _).
  split; [done|]. split.
  - assert (length (filter (fun v => (v <=? sizeThreshold80 components) = true) sizes)
            = length (filter (fun c => ComponentData.size c <= sizeThreshold80 components)
                        components)) as <-; [|lia].
    unfold sizes. generalize (sizeThreshold80 components). clear. intros t.
    induction components as [|c cs IH]; [done|].
    cbn [fmap list_fmap]. rewrite !filter_cons.
    destruct (decide (ComponentData.size c <= t)) as [Hc|Hc].
    + rewrite decide_True by lia. simpl. by rewrite IH.
    + rewrite decide_False by lia. apply IH.
  - intros Hten pt comp Hc.
    assert (ComponentData.size comp <= sizeThreshold80 components) as Hsize.
    { assert (ComponentData.size comp ∈ std_sort Z.leb sizes) as Hs.
      { rewrite <- (std_sort_perm Z.leb sizes). by apply list_elem_of_fmap_2. }
      apply list_elem_of_lookup in Hs as [j Hj].
      pose proof (lookup_lt_Some _ _ _ Hj) as Hjlt. rewrite length_std_sort, Hlen in Hjlt.
      apply Z.leb_le.
      apply (strongly_sorted_lookup Z.leb Htotal (std_sort Z.leb sizes) j
               (Z.to_nat (9 * Z.of_nat (length components) / 10)));
        [by apply std_sort_strongly_sorted|done|done|].
      assert (9 * Z.of_nat (length components) / 10 = Z.of_nat (length components) - 1)
        as ->; [|lia].
      assert (Z.of_nat (length components) - 1
              <= 9 * Z.of_nat (length components) / 10)
        by (apply Z.div_le_lower_bound; lia).
      lia. }
    split; [done|]. unfold isBuildingBlock.
    replace (ComponentData.size comp <=? sizeThreshold80 components) with true
      by (symmetry; by apply Z.leb_le).
    by rewrite andb_true_r.
Qed.

(** ** Regions grow with the parameters *)

Lemma adjacent_mono use8Way use8Way' x y x' y' :
  (use8Way = true -> use8Way' = true) ->
  adjacent use8Way x y x' y' -> adjacent use8Way' x y x' y'.
Proof.
  unfold adjacent. destruct use8Way, use8Way'; intros Hu; try done.
  - by specialize (Hu eq_refl).
  - lia.
Qed.

Lemma Color_eq_dec (c1 c2 : Color) : {c1 = c2} + {c1 <> c2}.
Proof. decide equality; apply Z.eq_dec. Qed.

Section RegionMonotone.

Variables (width height : Z) (newColor : Color) (m : FillState).
Variables (k k' : Q) (use8Way use8Way' euclidif euclidif' : bool).

Hypothesis Hk : (k <= k')%Q.
Hypothesis Hway : use8Way = true -> use8Way' = true.
Hypothesis Hmetric : euclidif = true -> euclidif' = true.

Lemma seed_passes_mono startX startY :
  seed_passes width height k m startX startY ->
  seed_passes width height k' m startX startY.
Proof.
  intros (Hb & Hv & H0). split; [done|]. split; [done|].
  apply Qle_bool_iff. apply Qle_bool_iff in H0. by apply Qle_trans with k.
Qed.

Lemma eligible_mono x y :
  eligible width height k euclidif newColor m x y ->
  eligible width height k' euclidif' newColor m x y.
Proof.
  intros (Hb & Hv & Hc). split; [done|]. split; [done|].
  apply colorDifference_le_mono with k; [done|].
  destruct euclidif, euclidif'; try done.
  - by specialize (Hmetric eq_refl).
  - by apply manhattan_pass_euclidean.
Qed.

Lemma grows_mono startX startY x y :
  grows width height k use8Way euclidif newColor m startX startY x y ->
  grows width height k' use8Way' euclidif' newColor m startX startY x y.
Proof.
  induction 1 as [Hok|x0 y0 x1 y1 Hg IH Ha Hok].
  - apply grows_seed. by apply seed_passes_mono.
  - apply grows_step with x0 y0; [done| |by apply eligible_mono].
    by apply adjacent_mono with use8Way.
Qed.

End RegionMonotone.

(** X7. With comparison against the start colour ([adj] false), the region
    of a flood fill grows with its parameters: called as the scans call it
    (with [startColor] bound to the seed pixel in the image) on the same
    memory, from the same seed and with the same fill colour, a fill with
    a larger [k], with 8-way instead of 4-way connectivity, or with the
    Euclidean instead of the Manhattan metric recolours every pixel that
    the first fill changes, and visits every pixel that the first fill
    visits. *)
Theorem fill_region_monotone
    (width height : Z) (k k' : Q)
    (use8Way use8Way' euclidif euclidif' : bool)
    (newColor : Color) (m : FillState) (startX startY x y : Z) :
  length (visited m) = Z.to_nat (width * height) ->
  length (image m) = Z.to_nat (width * height) ->
  0 <= x < width -> 0 <= y < height ->
  (k <= k')%Q ->
  (use8Way = true -> use8Way' = true) ->
  (euclidif = true -> euclidif' = true) ->
  (Vec.get black
     (image (floodFillIterative width height (InImage (startY * width + startX))
               k use8Way false euclidif newColor startX startY m)) (y * width + x)
   <> Vec.get black (image m) (y * width + x) ->
   Vec.get black
     (image (floodFillIterative width height (InImage (startY * width + startX))
               k' use8Way' false euclidif' newColor startX startY m)) (y * width + x)
   = newColor)
  /\ (Vec.get false
        (visited (floodFillIterative width height (InImage (startY * width + startX))
                    k use8Way false euclidif newColor startX startY m))
        (y * width + x) = true ->
      Vec.get false
        (visited (floodFillIterative width height (InImage (startY * width + startX))
                    k' use8Way' false euclidif' newColor startX startY m))
        (y * width + x) = true).
Proof.
  intros Hlv Hli Hx Hy Hk Hway Hmetric.
  assert (seed_passes width height k m startX startY
          \/ ~ seed_passes width height k m startX startY) as [Hseed|Hno].
  { unfold seed_passes.
    destruct (in_bounds width height startX startY),
      (Vec.get false (visited m) (startY * width + startX)), (Qle_bool 0 k);
      intuition congruence. }
  - pose proof (seed_passes_mono width height m k k' Hk startX startY Hseed) as Hseed'.
    split.
    + intros Hchanged.
      match goal with |- ?c = _ => destruct (Color_eq_dec c newColor) as [|Hne] end;
        [done|].
      exfalso. apply Hchanged. apply filled_keeps; [done..|].
      intros Hg. apply Hne. apply filled_recolours; [done..|].
      by apply (grows_mono width height newColor m k k' use8Way use8Way'
                  euclidif euclidif').
    + rewrite !filled_visits by done.
      intros [Hm|[Hs|(x0 & y0 & Hg & Ha)]]; [by left|by right; left|].
      right; right. exists x0, y0. split.
      * by apply (grows_mono width height newColor m k k' use8Way use8Way'
                    euclidif euclidif').
      * by apply adjacent_mono with use8Way.
  - destruct (fill_without_seed width height k use8Way false euclidif newColor m
                startX startY Hno) as [Himg Hvis].
    split; [intros Hchanged; by rewrite Himg in Hchanged|].
    intros Hv.
    assert (Vec.get false (visited m) (y * width + x) = true
            \/ (x = startX /\ y = startY)) as [Hm|[-> ->]].
    { destruct Hvis as [E|[Hb E]]; rewrite E in Hv; [by left|].
      apply in_bounds_spec in Hb as [Hsx Hsy].
      destruct (decide (x = startX /\ y = startY)) as [?|Hne]; [by right|].
      left. by rewrite (get_set_other width height) in Hv. }
    + apply get_true_lookup. unfold floodFillIterative.
      apply loop_visited_mono. simpl. by apply get_true_lookup.
    + apply get_true_lookup. by apply fill_marks_seed.
Qed.

(** ** A negative colour threshold *)

Lemma fill_failed_seed width height startColor k use8Way adj euclidif newColor x y st :
  in_bounds width height x y = true ->
  Vec.get false (visited st) (y * width + x) = false ->
  (k < 0)%Q ->
  floodFillIterative width height startColor k use8Way adj euclidif newColor x y st
  = mkFillState (image st)
      (Vec.set (visited st) (y * width + x) true)
      (Vec.set (bigMask st) (y * width + x) true) []
      (Z.min (currentComponentXmin st) x) (Z.max (currentComponentXmax st) x)
      (Z.min (currentComponentYmin st) y) (Z.max (currentComponentYmax st) y)
      (currentComponentSize st + 1).
Proof.
  intros Hb Hv Hk. unfold floodFillIterative, fill_measure. cbn [stack length].
  rewrite Nat.add_1_r. cbn [fill_loop].
  unfold fill_step at 1. cbn [stack visited image]. rewrite Hb, Hv. cbn [negb orb].
  rewrite colorDifference_le_negative by done.
  destruct (9 * _)%nat; [done|]. cbn [fill_loop]. unfold fill_step. by cbn [stack].
Qed.

Lemma clear_pixel width x y (m : list bool) :
  clear_box width x x y y m = Vec.set m (y * width + x) false.
Proof.
  unfold clear_box. replace (x - x + 1) with 1 by lia. replace (y - y + 1) with 1 by lia.
  change (seqZ x 1) with [0 + x]. change (seqZ y 1) with [0 + y]. by cbn [foldl].
Qed.

Lemma set_set_replicate (n : nat) (i : Z) :
  Vec.set (Vec.set (replicate n false) i true) i false = replicate n false.
Proof.
  unfold Vec.set. rewrite list_insert_insert_eq.
  apply (set_false_id (replicate n false) i). unfold Vec.get.
  destruct (replicate n false !! Z.to_nat i) as [b|] eqn:E; [|done].
  by apply lookup_replicate in E as [-> _].
Qed.

Lemma aggregate_pixel width heatmap (bm : list bool) x y :
  Vec.get false bm (y * width + x) = true ->
  aggregate width heatmap bm x x y y
  = (F32.round (Vec.get 0%Q heatmap (y * width + x)), [true]).
Proof.
  intros Hset. unfold aggregate, extract_mask.
  replace (x - x + 1) with 1 by lia. replace (y - y + 1) with 1 by lia.
  change (seqZ x 1) with [0 + x]. change (seqZ y 1) with [0 + y].
  cbn [foldl]. rewrite !Z.add_0_l, Hset.
  replace ((y - y) * 1 + (x - x)) with 0 by lia.
  f_equal. apply (float_mean_single (Vec.get 0%Q heatmap (y * width + x))).
Qed.

Section NegativeThreshold.

Variables (width height : Z) (heatmap : list Q) (config : Config).
Variable (randomColor : nat -> Color).
Variable (image0 : list Color).

Hypothesis Hk : (k config < 0)%Q.

Local Abbreviation pixel := (scan_pixel width height heatmap config randomColor).
Local Abbreviation iso := (isolated width height heatmap config image0).

Lemma isolated_initial :
  iso [] (initial_scan width height image0).
Proof.
  split; simpl.
  - done.
  - done.
  - apply length_replicate.
  - intros x y Hx Hy. split; [|by intros ?%elem_of_nil].
    intros Hv. apply get_true_lookup in Hv. by apply lookup_replicate in Hv as [? _].
  - constructor.
  - done.
  - intros _. split; [constructor|done].
Qed.

Lemma isolated_step done s x y :
  iso done s -> (y, x) ∉ done -> 0 <= x < width -> 0 <= y < height ->
  iso (done ++ [(y, x)]) (pixel s x y).
Proof.
  intros I Hnew Hx Hy.
  assert (Vec.get false (visited (mem s)) (y * width + x) = false) as Hv.
  { apply not_true_is_false. intros Hv. apply Hnew.
    by apply (iso_visited _ _ _ _ _ _ _ I). }
  pose proof (iso_len _ _ _ _ _ _ _ I) as Hlen.
  pose proof (iso_clear _ _ _ _ _ _ _ I) as Hclear.
  unfold scan_pixel. rewrite Hv.
  rewrite fill_failed_seed; [|by apply in_bounds_spec|done|done].
  cbn [currentComponentXmin currentComponentXmax currentComponentYmin
       currentComponentYmax currentComponentSize bigMask visited image].
  replace (Z.min width x) with x by lia. replace (Z.max 0 x) with x by lia.
  replace (Z.min height y) with y by lia. replace (Z.max 0 y) with y by lia.
  rewrite Hclear, clear_pixel, set_set_replicate.
  assert (dropped config (0 + 1) x x y y = (1 <? minComponentSize config)) as ->.
  { unfold dropped. replace (x - x + 1) with 1 by lia.
    replace (y - y + 1) with 1 by lia. simpl. apply orb_false_r. }
  assert (forall x' y', 0 <= x' < width -> 0 <= y' < height ->
    Vec.get false (Vec.set (visited (mem s)) (y * width + x) true) (y' * width + x')
    = true <-> (y', x') ∈ done ++ [(y, x)]) as Hvis.
  { intros x' y' Hx' Hy'. rewrite elem_of_app, list_elem_of_singleton.
    destruct (decide (x' = x /\ y' = y)) as [[-> ->]|Hne].
    - rewrite (get_set_pixel width height) by done. split; [by right|done].
    - rewrite (get_set_other width height) by done.
      rewrite (iso_visited _ _ _ _ _ _ _ I) by done.
      split; [by left|]. intros [?|[= -> ->]]; [done|]. by destruct Hne. }
  assert (Forall2 pixel_fill
            (fills s ++ [mkFillRecord x y x x y y (0 + 1)
                           (Vec.set (replicate (Z.to_nat (width * height)) false)
                              (y * width + x) true)])
            (done ++ [(y, x)])) as Hfills.
  { apply Forall2_app; [apply (iso_fills _ _ _ _ _ _ _ I)|].
    constructor; [done|constructor]. }
  destruct (1 <? minComponentSize config) eqn:Hmin.
  - split; cbn [mem components componentCount fills set_bigMask image visited bigMask];
      try done.
    + apply (iso_image _ _ _ _ _ _ _ I).
    + by rewrite length_set.
    + intros _. apply (iso_none _ _ _ _ _ _ _ I). lia.
    + intros ?. lia.
  - rewrite (aggregate_pixel width heatmap
               (Vec.set (replicate (Z.to_nat (width * height)) false)
                  (y * width + x) true) x y)
      by (apply get_set_pixel with (height := height); [done..|apply length_replicate]).
    destruct (iso_all _ _ _ _ _ _ _ I) as (Hcomps & Hids & Hcount); [lia|].
    split; cbn [mem components componentCount fills set_bigMask image visited bigMask];
      try done.
    + apply (iso_image _ _ _ _ _ _ _ I).
    + by rewrite length_set.
    + intros ?. lia.
    + intros _. split; [|split].
      * apply Forall2_app; [done|]. constructor; [|constructor].
        by repeat split.
      * rewrite fmap_app, Hids, length_app. cbn [fmap list_fmap length].
        replace (Z.of_nat (length done + 1)) with (Z.of_nat (length done) + 1) by lia.
        rewrite seqZ_app by lia. f_equal.
        change (seqZ (1 + Z.of_nat (length done)) 1)
          with [0 + (1 + Z.of_nat (length done))].
        rewrite Hcount. f_equal. cbn [ComponentData.id]. lia.
      * rewrite Hcount, length_app. simpl. lia.
Qed.

Lemma isolated_foldl done ps s :
  NoDup (done ++ ps) -> (forall p, p ∈ ps -> p ∈ raster width height) ->
  iso done s -> iso (done ++ ps) (foldl (fun s p => pixel s p.2 p.1) s ps).
Proof.
  revert done s. induction ps as [|[y x] ps IH]; intros done s Hnd Hin I; cbn [foldl].
  - by rewrite app_nil_r.
  - rewrite (assoc_L app done [(y, x)] ps : done ++ (y, x) :: ps = (done ++ [(y, x)]) ++ ps).
    apply NoDup_app in Hnd as (Hd & Hdis & Hps).
    assert ((y, x) ∈ raster width height) as Hr by (apply Hin; by left).
    apply elem_of_raster in Hr as [Hy Hx]. simpl in Hx, Hy.
    apply IH.
    + rewrite <- (assoc_L app). by apply NoDup_app.
    + intros p Hp. apply Hin. by right.
    + apply isolated_step; [done| |done..].
      intros Hdone. apply (Hdis _ Hdone). by left.
Qed.

End NegativeThreshold.

(** X8. With a negative colour threshold [k] no pixel passes the colour
    test, and the scan of [processImage] falls apart into one flood fill
    per pixel: the image comes out as it went in, every pixel in scan
    order is the seed of a flood fill of size 1, no component is recorded
    when [minComponentSize] exceeds 1, and otherwise one component is
    recorded per pixel, numbered from 1 in scan order, whose box is the
    pixel, whose mask is the single entry and whose average probability is
    the heatmap value of the pixel. *)
Theorem negative_threshold_isolates_pixels
    (width height : Z) (heatmap : list Q) (config : Config)
    (randomColor : nat -> Color) (image0 : list Color) :
  (k config < 0)%Q ->
  image (mem (extractComponents width height heatmap config randomColor image0)) = image0
  /\ Forall2 pixel_fill
       (fills (extractComponents width height heatmap config randomColor image0))
       (raster width height)
  /\ (1 < minComponentSize config ->
      components (extractComponents width height heatmap config randomColor image0) = [])
  /\ (minComponentSize config <= 1 ->
      Forall2 (pixel_component width heatmap)
        (components (extractComponents width height heatmap config randomColor image0))
        (raster width height)
      /\ ComponentData.id
           <$> components (extractComponents width height heatmap config randomColor image0)
         = seqZ 1 (Z.of_nat (length (raster width height)))
      /\ (forall n bytes, read_floats n bytes = Some heatmap ->
            Forall2 (fun comp p =>
                       ComponentData.avgProbability comp
                       = F32.Finite (Vec.get 0%Q heatmap (p.1 * width + p.2)))
              (components (extractComponents width height heatmap config randomColor
                             image0))
              (raster width height))).
Proof.
  intros Hk. unfold extractComponents. rewrite scan_flat.
  pose proof (isolated_foldl width height heatmap config randomColor image0 Hk
                [] (raster width height) (initial_scan width height image0)) as I.
  simpl in I. specialize (I ltac:(apply NoDup_grid; apply NoDup_seqZ) ltac:(done)
                            (isolated_initial width height heatmap config image0)).
  split; [apply (iso_image _ _ _ _ _ _ _ I)|].
  split; [apply (iso_fills _ _ _ _ _ _ _ I)|].
  split.
  - intros Hmin. by apply (iso_none _ _ _ _ _ _ _ I).
  - intros Hmin. destruct (iso_all _ _ _ _ _ _ _ I Hmin) as (Hcomps & Hids & _).
    split; [done|]. split; [done|].
    intros n bytes Hread. eapply Forall2_impl; [exact Hcomps|].
    intros comp p (_ & _ & _ & _ & _ & _ & ->).
    pose proof (round_read_floats n bytes heatmap Hread) as Hfix.
    unfold Vec.get. destruct (heatmap !! Z.to_nat (p.1 * width + p.2)) as [v|] eqn:E.
    + simpl. rewrite Forall_forall in Hfix. apply Hfix.
      by eapply list_elem_of_lookup_2.
    + reflexivity.
Qed.

(** ** Escaping of JSON strings *)

Lemma escapeJsonString_bind (str : list ascii) :
  escapeJsonString str = str ≫= escape_char.
Proof.
  unfold escapeJsonString.
  assert (forall acc, foldl (fun escaped c => escaped ++ escape_char c) acc str
                      = acc ++ (str ≫= escape_char)) as H; [|apply H].
  induction str as [|c str IH]; intros acc; cbn [foldl].
  - by rewrite app_nil_r.
  - rewrite IH. csimpl. by rewrite (assoc_L app).
Qed.

Local Ltac solve_elem :=
  rewrite ?list_elem_of_In; simpl; intuition (first [reflexivity | congruence]).

Lemma escape_char_cases (c : ascii) :
  (exists e, escape_char c = [backslash; e]
             /\ e ∈ [backslash; quote; "b"; "f"; "n"; "r"; "t"]%char
             /\ c ∈ [backslash; quote; backspace; formfeed; newline; carriage_return; tab])
  \/ (escape_char c = [c]
      /\ c ∉ [backslash; quote; backspace; formfeed; newline; carriage_return; tab]).
Proof.
  unfold escape_char.
  repeat (match goal with
          | |- context [Ascii.eqb c ?d] =>
              destruct (Ascii.eqb_spec c d) as [->|?];
              [left; eexists; split; [reflexivity|split; solve_elem]|]
          end).
  right. split; [done|]. solve_elem.
Qed.

Lemma unescape_escape_char (c : ascii) (rest : list ascii) :
  unescape (escape_char c ++ rest) = c :: unescape rest.
Proof.
  unfold escape_char.
  repeat (match goal with
          | |- context [Ascii.eqb c ?d] =>
              destruct (Ascii.eqb_spec c d) as [->|?]; [reflexivity|]
          end).
  cbn [app unescape]. by destruct (Ascii.eqb_spec c backslash).
Qed.

Lemma unescape_escapeJsonString (str : list ascii) :
  unescape (escapeJsonString str) = str.
Proof.
  rewrite escapeJsonString_bind. induction str as [|c str IH]; [done|].
  csimpl. by rewrite unescape_escape_char, IH.
Qed.

(** X9. [escapeJsonString] loses nothing: two strings with the same
    result are the same string.  It escapes a concatenation piece by
    piece, its result is at least as long as its argument and at most
    twice as long, and none of the characters backspace, form feed, line
    feed, carriage return and tab occurs in its result. *)
Theorem escape_json_string_laws (str : list ascii) :
  (forall str', escapeJsonString str = escapeJsonString str' -> str = str')
  /\ (forall str', escapeJsonString (str ++ str')
                   = escapeJsonString str ++ escapeJsonString str')
  /\ (length str <= length (escapeJsonString str) <= 2 * length str)%nat
  /\ Forall (fun c => c ∉ [backspace; formfeed; newline; carriage_return; tab])
       (escapeJsonString str).
Proof.
  split; [|split; [|split]].
  - intros str' E. apply (f_equal unescape) in E.
    by rewrite !unescape_escapeJsonString in E.
  - intros str'. rewrite !escapeJsonString_bind. apply bind_app.
  - rewrite escapeJsonString_bind. induction str as [|c str IH]; [simpl; lia|].
    csimpl. rewrite length_app.
    destruct (escape_char_cases c) as [(e & -> & _)|[-> _]]; simpl; lia.
  - rewrite escapeJsonString_bind. induction str as [|c str IH]; [constructor|].
    csimpl. apply Forall_app. split; [|done].
    destruct (escape_char_cases c) as [(e & -> & He & _)|[-> Hc]].
    + constructor; [|constructor; [|constructor]].
      * rewrite list_elem_of_In. simpl. intuition discriminate.
      * clear -He. apply list_elem_of_In in He. rewrite list_elem_of_In. simpl in *.
        intuition (subst; discriminate).
    + constructor; [|constructor].
      clear -Hc. rewrite !list_elem_of_In in *. simpl in *. tauto.
Qed.

(** ** The batch routine extracts the components of [processImage] *)

Lemma foldl_set_same_elements {P : Type} (ix : P -> Z) (x : bool) (ps qs : list P)
    (m : list bool) :
  (forall p, p ∈ ps <-> p ∈ qs) ->
  foldl (fun m p => Vec.set m (ix p) x) m ps = foldl (fun m p => Vec.set m (ix p) x) m qs.
Proof.
  intros Hsame. apply list_eq. intros i. rewrite !lookup_foldl_set.
  destruct (decide (Exists _ ps)) as [Hp|Hp], (decide (Exists _ qs)) as [Hq|Hq];
    try done.
  - destruct Hq. apply Exists_exists in Hp as (p & Hin & E).
    apply Exists_exists. exists p. split; [by apply Hsame|done].
  - destruct Hp. apply Exists_exists in Hq as (p & Hin & E).
    apply Exists_exists. exists p. split; [by apply Hsame|done].
Qed.

Section BoxIndependence.

Variables (width height : Z).
Variables (startColor : ColorRef) (k : Q) (use8Way adj euclidif : bool).
Variable (newColor : Color).

Local Abbreviation step := (fill_step width height startColor k use8Way adj euclidif newColor).
Local Abbreviation loop := (fill_loop width height startColor k use8Way adj euclidif newColor).

Lemma same_but_box_step st1 st2 :
  same_but_box st1 st2 ->
  match step st1, step st2 with
  | Some st1', Some st2' => same_but_box st1' st2'
  | None, None => True
  | _, _ => False
  end.
Proof.
  intros (Hi & Hv & Hm & Hs & Hn). unfold fill_step. rewrite Hi, Hv, Hm, Hs, Hn.
  destruct (stack st2) as [|[[x y] c] rest]; [done|].
  destruct (_ || _); [done|].
  destruct (colorDifference_le _ _ _ _); done.
Qed.

Lemma same_but_box_loop fuel st1 st2 :
  same_but_box st1 st2 -> same_but_box (loop fuel st1) (loop fuel st2).
Proof.
  revert st1 st2. induction fuel as [|fuel IH]; intros st1 st2 H; simpl; [done|].
  pose proof (same_but_box_step st1 st2 H) as Hs.
  destruct (step st1), (step st2); try done. by apply IH.
Qed.

Lemma same_but_box_fill x y st1 st2 :
  same_but_box st1 st2 ->
  same_but_box
    (floodFillIterative width height startColor k use8Way adj euclidif newColor x y st1)
    (floodFillIterative width height startColor k use8Way adj euclidif newColor x y st2).
Proof.
  intros (Hi & Hv & Hm & Hs & Hn). unfold floodFillIterative, fill_measure. simpl.
  rewrite Hv, Hi. apply same_but_box_loop. by repeat split.
Qed.

End BoxIndependence.

Section Agreement.

Variables (width height : Z) (heatmap : list Q) (config : Config).
Variable (randomColor : nat -> Color).

Hypothesis Hwidth : width <= 1000000000.
Hypothesis Hheight : height <= 1000000000.

(** The flood fill of the batch routine, which resets the box to
    [1000000000] and [-1000000000], returns what the flood fill of
    [processImage] returns, which resets it to the image dimensions and
    [0]. *)
Lemma fill_resets_agree startColor newColor x y (m : FillState) :
  0 <= x < width -> 0 <= y < height ->
  length (visited m) = Z.to_nat (width * height) ->
  bigMask m = replicate (Z.to_nat (width * height)) false ->
  Vec.get false (visited m) (y * width + x) = false ->
  floodFillIterative width height startColor (k config) (use8Way config)
    (adj config) (euclidif config) newColor x y
    (mkFillState (image m) (visited m) (bigMask m) []
       1000000000 (-1000000000) 1000000000 (-1000000000) 0)
  = floodFillIterative width height startColor (k config) (use8Way config)
      (adj config) (euclidif config) newColor x y
      (mkFillState (image m) (visited m) (bigMask m) [] width 0 height 0 0).
Proof.
  intros Hx Hy Hlen Hclear Hv.
  destruct (fill_seed_in_box width height config startColor newColor x y m
              1000000000 (-1000000000) 1000000000 (-1000000000) Hx Hy Hlen Hclear Hv)
    as (R2 & Hseed2 & Hbx2 & Hby2).
  destruct (fill_seed_in_box width height config startColor newColor x y m
              width 0 height 0 Hx Hy Hlen Hclear Hv)
    as (R1 & Hseed1 & Hbx1 & Hby1).
  pose proof (same_but_box_fill width height startColor (k config) (use8Way config)
                (adj config) (euclidif config) newColor x y
                (mkFillState (image m) (visited m) (bigMask m) []
                   1000000000 (-1000000000) 1000000000 (-1000000000) 0)
                (mkFillState (image m) (visited m) (bigMask m) [] width 0 height 0 0))
    as (Si & Sv & Sm & Ss & Sn); [by repeat split|].
  set (m2 := floodFillIterative _ _ _ _ _ _ _ _ _ _
               (mkFillState _ _ _ _ 1000000000 _ _ _ _)) in *.
  set (m1 := floodFillIterative _ _ _ _ _ _ _ _ _ _
               (mkFillState _ _ _ _ width _ _ _ _)) in *.
  pose proof (fr_box _ _ _ _ R1) as B1. pose proof (fr_box _ _ _ _ R2) as B2.
  rewrite Sm in B2.
  assert (currentComponentXmin m2 = currentComponentXmin m1) as Exmin.
  { destruct (fr_xmin _ _ _ _ R1) as [E1|(y1 & Hr1 & Hy1 & H1)]; [simpl in E1; lia|].
    destruct (fr_xmin _ _ _ _ R2) as [E2|(y2 & Hr2 & Hy2 & H2)]; [simpl in E2; lia|].
    rewrite Sm in H2.
    pose proof (B2 _ _ Hr1 Hy1 H1). pose proof (B1 _ _ Hr2 Hy2 H2). lia. }
  assert (currentComponentXmax m2 = currentComponentXmax m1) as Exmax.
  { destruct (fr_xmax _ _ _ _ R2) as [E2|(y2 & Hr2 & Hy2 & H2)]; [simpl in E2; lia|].
    rewrite Sm in H2. pose proof (B1 _ _ Hr2 Hy2 H2).
    destruct (fr_xmax _ _ _ _ R1) as [E1|(y1 & Hr1 & Hy1 & H1)]; [simpl in E1; lia|].
    pose proof (B2 _ _ Hr1 Hy1 H1). lia. }
  assert (currentComponentYmin m2 = currentComponentYmin m1) as Eymin.
  { destruct (fr_ymin _ _ _ _ R1) as [E1|(x1 & Hx1 & Hr1 & H1)]; [simpl in E1; lia|].
    destruct (fr_ymin _ _ _ _ R2) as [E2|(x2 & Hx2 & Hr2 & H2)]; [simpl in E2; lia|].
    rewrite Sm in H2.
    pose proof (B2 _ _ Hx1 Hr1 H1). pose proof (B1 _ _ Hx2 Hr2 H2). lia. }
  assert (currentComponentYmax m2 = currentComponentYmax m1) as Eymax.
  { destruct (fr_ymax _ _ _ _ R2) as [E2|(x2 & Hx2 & Hr2 & H2)]; [simpl in E2; lia|].
    rewrite Sm in H2. pose proof (B1 _ _ Hx2 Hr2 H2).
    destruct (fr_ymax _ _ _ _ R1) as [E1|(x1 & Hx1 & Hr1 & H1)]; [simpl in E1; lia|].
    pose proof (B2 _ _ Hx1 Hr1 H1). lia. }
  clearbody m1 m2. destruct m1, m2. simpl in *. by subst.
Qed.

Local Abbreviation pixel := (scan_pixel width height heatmap config randomColor).
Local Abbreviation bpixel := (batch_pixel width height heatmap config randomColor).

Lemma agree_step s b x y :
  0 <= x < width -> 0 <= y < height ->
  scan_inv width height heatmap config s -> batch_inv width height heatmap b ->
  agree width heatmap s b -> agree width heatmap (pixel s x y) (bpixel b x y).
Proof.
  intros Hx Hy Is Ib A.
  pose proof (ag_image _ _ _ _ A) as Ai. pose proof (ag_visited _ _ _ _ A) as Av.
  pose proof (ag_count _ _ _ _ A) as Ac. pose proof (ag_fills _ _ _ _ A) as Af.
  pose proof (ag_records _ _ _ _ A) as Ar.
  pose proof (si_len_visited _ _ _ _ _ Is) as Hlen.
  pose proof (si_clear _ _ _ _ _ Is) as Hclear.
  pose proof (bi_clear _ _ _ _ Ib) as Hbclear.
  unfold scan_pixel, batch_pixel. rewrite Ai, Av, Ac, Af, Hbclear, <- Hclear.
  destruct (Vec.get false (visited (mem s)) (y * width + x)) eqn:Hv; [done|].
  rewrite (fill_resets_agree _ _ x y (mem s)) by done.
  set (m1 := floodFillIterative _ _ _ _ _ _ _ _ _ _ _).
  destruct (fill_seed_in_box width height config
              (InImage (y * width + x))
              (randomColor (length (fills s))) x y (mem s)
              width 0 height 0 Hx Hy Hlen Hclear Hv)
    as (R & Hseed & Hbx & Hby).
  fold m1 in R, Hseed, Hbx, Hby.
  destruct (dropped _ _ _ _ _ _).
  { split; cbn [mem batch_mem components batch_saved componentCount
                batch_componentCount fills batch_fills set_bigMask image visited];
      try done.
    rewrite length_app. simpl. lia. }
  unfold aggregate. rewrite extract_mask_spec, extract_mask_batch_spec.
  set (xmin := currentComponentXmin m1) in *.
  set (xmax := currentComponentXmax m1) in *.
  set (ymin := currentComponentYmin m1) in *.
  set (ymax := currentComponentYmax m1) in *.
  set (rows := filter _ (grid (seqZ ymin (ymax - ymin + 1)) (seqZ xmin (xmax - xmin + 1)))).
  set (columns := filter _ (box_by_columns xmin xmax ymin ymax)).
  assert (forall p, p ∈ columns <-> p ∈ rows) as Hsame.
  { intros p. unfold rows, columns. rewrite !list_elem_of_filter.
    by rewrite elem_of_columns, elem_of_rows. }
  assert (columns ≡ₚ rows) as Hperm.
  { apply NoDup_Permutation; [| |done].
    - apply NoDup_filter, NoDup_columns.
    - apply NoDup_filter, NoDup_grid; apply NoDup_seqZ. }
  assert ((y, x) ∈ rows) as Hin.
  { apply list_elem_of_filter. split; [done|]. apply elem_of_rows. simpl. lia. }
  assert (0 < Z.of_nat (length rows)) as Hpos.
  { destruct rows; [by apply elem_of_nil in Hin|simpl; lia]. }
  destruct (clear_and_paint _ _ _ _ _ _ _ _) as [cleared painted].
  split; cbn [mem batch_mem components batch_saved componentCount
              batch_componentCount fills batch_fills set_bigMask image visited];
    try done.
  - rewrite length_app. simpl. lia.
  - apply Forall2_app; [done|]. constructor; [|constructor].
    unfold same_record.
    cbn [saved_component saved_x saved_y saved_width saved_height saved_mask
         saved_probability ComponentData.id ComponentData.xMin ComponentData.xMax
         ComponentData.yMin ComponentData.yMax ComponentData.mask
         ComponentData.avgProbability].
    assert (forall q, q ∈ box_by_columns xmin xmax ymin ymax ->
              ymin <= q.1 <= ymax /\ xmin <= q.2 <= xmax) as Hcols
      by (intros q; apply elem_of_columns).
    pose proof (masked_filter width (bigMask m1) xmin xmax ymin ymax _ Hcols) as Hmf.
    cbv beta in Hmf. fold columns in Hmf.
    pose proof (masked_positions_extracted width (bigMask m1) xmin xmax ymin ymax)
      as Hmp.
    cbv beta in Hmp. fold rows in Hmp.
    assert (foldl (fun m q => Vec.set m ((q.1 - ymin) * (xmax - xmin + 1) + (q.2 - xmin)) true)
              (replicate (Z.to_nat ((xmax - xmin + 1) * (ymax - ymin + 1))) false) columns
            = foldl (fun m q => Vec.set m ((q.1 - ymin) * (xmax - xmin + 1) + (q.2 - xmin)) true)
                (replicate (Z.to_nat ((xmax - xmin + 1) * (ymax - ymin + 1))) false) rows)
      as Hmask by (by apply foldl_set_same_elements).
    unfold saved_positions.
    cbn [saved_component saved_x saved_y saved_width saved_height saved_mask
         saved_probability].
    replace (xmin + (xmax - xmin + 1) - 1) with xmax by lia.
    replace (ymin + (ymax - ymin + 1) - 1) with ymax by lia.
    rewrite Hmf, Hmp.
    do 5 (split; [done|]). split; [exact Hmask|]. split; [exact Hperm|]. split.
    + unfold average, float_mean, values_at. rewrite length_fmap.
      by replace (0 <? Z.of_nat (length rows)) with true by lia.
    + unfold unguarded_average, float_mean, values_at. by rewrite length_fmap.
Qed.

Lemma agree_foldl (ps : list (Z * Z)) s b :
  (forall p, p ∈ ps -> p ∈ raster width height) ->
  scan_inv width height heatmap config s -> batch_inv width height heatmap b ->
  agree width heatmap s b ->
  agree width heatmap (foldl (fun s p => pixel s p.2 p.1) s ps)
        (foldl (fun b p => bpixel b p.2 p.1) b ps).
Proof.
  revert s b. induction ps as [|p ps IH]; intros s b Hps Is Ib A; simpl; [done|].
  assert (p ∈ raster width height) as Hp by (apply Hps; by left).
  apply elem_of_raster in Hp as [Hy Hx].
  apply IH.
  - intros q Hq. apply Hps. by right.
  - by apply scan_inv_step.
  - by apply batch_inv_step.
  - by apply agree_step.
Qed.

Lemma agree_initial image0 :
  agree width heatmap (initial_scan width height image0)
    (initial_batch width height image0).
Proof. by split. Qed.

End Agreement.


(** ** The colours of the segmentation image *)

Section FillColours.

Variables (width height : Z).
Variables (startColor : ColorRef) (k : Q) (use8Way adj euclidif : bool).
Variable (newColor : Color).

Local Abbreviation step := (fill_step width height startColor k use8Way adj euclidif newColor).
Local Abbreviation loop := (fill_loop width height startColor k use8Way adj euclidif newColor).

(** An iteration that changes the colour of a pixel gives it the fill
    colour, and the pixel was not in the Visited Set. *)
Lemma step_image_color st st' (i : nat) :
  length (visited st) = Z.to_nat (width * height) ->
  step st = Some st' ->
  length (image st') = length (image st)
  /\ (image st' !! i = image st !! i
      \/ (visited st !! i = Some false /\ image st' !! i = Some newColor)).
Proof.
  intros Hlen. unfold fill_step.
  destruct (stack st) as [|[[x y] nc] rest]; [discriminate|].
  destruct (negb (in_bounds width height x y)) eqn:Hb; simpl.
  { intros [= <-]. simpl. auto. }
  destruct (Vec.get false (visited st) (y * width + x)) eqn:Hv.
  { intros [= <-]. simpl. auto. }
  apply negb_false_iff, in_bounds_spec in Hb. destruct Hb as [Hx Hy].
  assert (Z.to_nat (y * width + x) < length (visited st))%nat as Hj
    by (rewrite Hlen; by eapply index_lt_length).
  destruct (colorDifference_le _ _ _ _); intros [= <-]; simpl; [|auto].
  split; [by rewrite length_set|].
  destruct (decide (Z.to_nat (y * width + x) = i)) as [<-|Hne].
  - destruct (decide (Z.to_nat (y * width + x) < length (image st))%nat) as [Hl|Hl].
    + right. split; [by apply get_false_lookup|by apply lookup_set_eq].
    + left. unfold Vec.set. by rewrite list_insert_ge by lia.
  - left. by apply lookup_set_ne.
Qed.

Lemma loop_image_color fuel st (i : nat) :
  length (visited st) = Z.to_nat (width * height) ->
  length (image (loop fuel st)) = length (image st)
  /\ (image (loop fuel st) !! i = image st !! i
      \/ (visited st !! i = Some false /\ image (loop fuel st) !! i = Some newColor)).
Proof.
  revert st. induction fuel as [|fuel IH]; intros st Hlen; simpl; [auto|].
  destruct (step st) as [st'|] eqn:Hs; [|auto].
  destruct (step_image width height startColor k use8Way adj euclidif newColor
              st st' i Hlen Hs) as [Hlen' _].
  destruct (step_image_color st st' i Hlen Hs) as [Hli Hstep].
  destruct (IH st' Hlen') as [Hli' Hrest].
  split; [congruence|].
  destruct Hstep as [E|[Hf Hc]], Hrest as [E'|[Hf' Hc']].
  - left. congruence.
  - right. split; [|done].
    destruct (lookup_bool_cases (visited st) i) as [H|H]; [| |done].
    + rewrite Hlen, <- Hlen'. by eapply lookup_lt_Some.
    + apply (step_visited_mono _ _ _ _ _ _ _ _ _ _ _ Hs) in H. congruence.
  - right. split; [done|congruence].
  - right. done.
Qed.

(** A seed that passes the colour test gets the fill colour. *)
Lemma fill_recolours_seed x y st :
  0 <= x < width -> 0 <= y < height ->
  length (visited st) = Z.to_nat (width * height) ->
  length (image st) = Z.to_nat (width * height) ->
  Vec.get false (visited st) (y * width + x) = false ->
  colorDifference_le (Vec.get black (image st) (y * width + x))
    (deref (image st) startColor) euclidif k = true ->
  image (floodFillIterative width height startColor k use8Way adj euclidif
           newColor x y st) !! Z.to_nat (y * width + x) = Some newColor.
Proof.
  intros Hx Hy Hlen Hli Hv Hc. unfold floodFillIterative.
  set (st0 := mkFillState _ _ _ _ _ _ _ _ _).
  assert (exists fuel, fill_measure st0 = S fuel) as [fuel ->].
  { unfold fill_measure. simpl. exists (9 * Vec.count_false (visited st) + 0)%nat. lia. }
  assert (Z.to_nat (y * width + x) < length (image st))%nat as Hj
    by (by eapply index_lt_length).
  cbn [fill_loop]. unfold fill_step. cbn [stack st0 visited image bigMask].
  replace (negb (in_bounds width height x y)) with false
    by (symmetry; apply negb_false_iff, in_bounds_spec; lia).
  rewrite Hv. cbn [orb].
  assert ((if adj then deref (image st) startColor else deref (image st) startColor)
          = deref (image st) startColor) as -> by (by destruct adj).
  rewrite Hc.
  match goal with |- image (loop fuel ?st1) !! _ = _ =>
    destruct (loop_image_color fuel st1 (Z.to_nat (y * width + x))) as [_ [E|[_ E]]]
  end.
  - simpl. by rewrite length_set.
  - rewrite E. simpl. by apply lookup_set_eq.
  - done.
Qed.

End FillColours.

Section ScanColours.

Variables (width height : Z) (heatmap : list Q) (config : Config).
Variable (randomColor : nat -> Color).
Variable (image0 : list Color).

Hypothesis Hlen0 : length image0 = Z.to_nat (width * height).

Local Abbreviation pixel := (scan_pixel width height heatmap config randomColor).
Local Abbreviation sinv := (scan_inv width height heatmap config).
Local Abbreviation pinv := (paint_inv width height config randomColor image0).

Lemma paint_inv_initial : pinv (initial_scan width height image0).
Proof.
  split; simpl.
  - done.
  - done.
  - intros i j f Hj. by rewrite lookup_nil in Hj.
  - intros _ j f Hj. by rewrite lookup_nil in Hj.
Qed.

Lemma paint_inv_step s x y :
  0 <= x < width -> 0 <= y < height -> sinv s -> pinv s -> pinv (pixel s x y).
Proof.
  intros Hx Hy I P.
  destruct (Vec.get false (visited (mem s)) (y * width + x)) eqn:Hv.
  { by rewrite scan_pixel_visited. }
  rewrite scan_pixel_unvisited by done.
  set (m := mem s).
  set (newColor := randomColor (length (fills s))).
  set (m1 := floodFillIterative _ _ _ _ _ _ _ _ _ _ _).
  set (f := fill_record x y m1).
  pose proof (si_len_visited _ _ _ _ _ I) as Ilen. fold m in Ilen.
  pose proof (si_cover _ _ _ _ _ I) as Icover. fold m in Icover.
  pose proof (pi_len _ _ _ _ _ _ P) as Plen. fold m in Plen.
  destruct (fill_from_seed width height (InImage (y * width + x))
              (k config) (use8Way config) (adj config) (euclidif config)
              newColor x y m Hx Hy Ilen (si_clear _ _ _ _ _ I) Hv) as [R Fok].
  fold m1 in R, Fok. fold f in Fok.
  pose proof (fr_mono _ _ _ _ R) as Hmono. simpl in Hmono.
  pose proof (fr_mask _ _ _ _ R) as Hmask. simpl in Hmask.
  assert (forall i : nat,
    length (image m1) = length (image m)
    /\ (image m1 !! i = image m !! i
        \/ (visited m !! i = Some false /\ visited m1 !! i = Some true
            /\ image m1 !! i = Some newColor))) as Hcol.
  { intros i. unfold m1, floodFillIterative.
    set (st0 := mkFillState _ _ _ _ _ _ _ _ _).
    destruct (loop_image_color width height (InImage (y * width + x))
                (k config) (use8Way config) (adj config) (euclidif config) newColor
                (fill_measure st0) st0 i Ilen) as [Hl Hc].
    split; [done|].
    destruct (loop_image width height (InImage (y * width + x))
                (k config) (use8Way config) (adj config) (euclidif config) newColor
                (fill_measure st0) st0 i Ilen) as [E|[Hf Ht]]; [by left|].
    destruct Hc as [E|[_ Hc]]; [by left|]. right. done. }
  assert (forall i : nat, visited m !! i = Some true -> image m1 !! i = image m !! i)
    as Hold.
  { intros i Hi. destruct (Hcol i) as [_ [E|[Hf _]]]; [done|]. simpl in Hf. congruence. }
  split; cbn [mem fills set_bigMask image visited].
  - destruct (Hcol 0%nat) as [-> _]. done.
  - intros i Hi. destruct (Hcol i) as [_ [E|(_ & Ht & _)]]; [|done].
    rewrite E. apply (pi_unvisited _ _ _ _ _ _ P). intros Hm. by apply Hi, Hmono.
  - intros i j g Hj Hg.
    apply lookup_snoc_Some in Hj as [[_ Hj]|[-> <-]].
    + rewrite Hold by (apply Icover; eauto).
      by apply (pi_visited _ _ _ _ _ _ P i j g).
    + apply Hmask in Hg as [Hf _].
      destruct (Hcol i) as [_ [E|(_ & _ & E)]]; [|by right].
      left. rewrite E. apply (pi_unvisited _ _ _ _ _ _ P). fold m. congruence.
  - intros Hk j g Hj.
    apply lookup_snoc_Some in Hj as [[_ Hj]|[-> <-]].
    + rewrite Hold; [by apply (pi_seed _ _ _ _ _ _ P Hk j g)|].
      apply Icover. exists j, g. split; [done|].
      pose proof (si_fills _ _ _ _ _ I) as Hf.
      rewrite List.Forall_forall in Hf.
      specialize (Hf g ltac:(apply list_elem_of_In, list_elem_of_lookup; eauto)).
      by destruct (fo_seed _ _ _ Hf) as (_ & _ & ?).
    + cbn [seedX seedY fill_record f].
      apply fill_recolours_seed; [done..|simpl; congruence|done|].
      cbn [image]. rewrite colorDifference_le_self. by apply Qle_bool_iff.
Qed.

Lemma paint_inv_foldl (ps : list (Z * Z)) s :
  (forall p, p ∈ ps -> p ∈ raster width height) ->
  sinv s -> pinv s -> pinv (foldl (fun s p => pixel s p.2 p.1) s ps).
Proof.
  revert s. induction ps as [|p ps IH]; intros s Hps I P; simpl; [done|].
  assert (p ∈ raster width height) as Hp by (apply Hps; by left).
  apply elem_of_raster in Hp as [Hy Hx].
  apply IH.
  - intros q Hq. apply Hps. by right.
  - by apply scan_inv_step.
  - by apply paint_inv_step.
Qed.

End ScanColours.

(** X11. In the segmentation image that the scan of [processImage] leaves,
    every pixel has the colour it had in the input or the fill colour drawn
    for the flood fill that visited it; and when [k] is not negative, the
    seed of that flood fill has that fill colour. *)
Theorem segmentation_colours
    (width height : Z) (heatmap : list Q) (config : Config)
    (randomColor : nat -> Color) (image0 : list Color) (x y : Z) :
  length image0 = Z.to_nat (width * height) ->
  0 <= x < width -> 0 <= y < height ->
  exists (j : nat) (f : FillRecord),
    fills (extractComponents width height heatmap config randomColor image0) !! j
    = Some f
    /\ marked_in width height (region f) x y
    /\ (Vec.get black
          (image (mem (extractComponents width height heatmap config randomColor
                         image0))) (y * width + x)
        = Vec.get black image0 (y * width + x)
        \/ Vec.get black
             (image (mem (extractComponents width height heatmap config randomColor
                            image0))) (y * width + x)
           = randomColor j)
    /\ ((0 <= k config)%Q ->
        Vec.get black
          (image (mem (extractComponents width height heatmap config randomColor
                         image0))) (seedY f * width + seedX f)
        = randomColor j).
Proof.
  intros Hlen0 Hx Hy.
  pose proof (scan_inv_final width height heatmap config randomColor image0) as I.
  assert (paint_inv width height config randomColor image0
            (extractComponents width height heatmap config randomColor image0)) as P.
  { unfold extractComponents. rewrite scan_flat.
    apply paint_inv_foldl; [done..| |].
    - apply scan_inv_initial.
    - apply paint_inv_initial. }
  pose proof (scan_visits_all width height heatmap config randomColor image0 x y Hx Hy)
    as Hv.
  apply (si_cover _ _ _ _ _ I) in Hv as (j & f & Hj & Hf).
  exists j, f. split; [done|]. split; [done|]. split.
  - unfold Vec.get.
    destruct (pi_visited _ _ _ _ _ _ P _ j f Hj Hf) as [-> | ->]; [by left|by right].
  - intros Hk. unfold Vec.get. by rewrite (pi_seed _ _ _ _ _ _ P Hk j f Hj).
Qed.

(** ** The overlay of [processImages] *)

Lemma clear_and_paint_fold width height (paintIt : bool) (bigMask : list bool)
    (ps : list (Z * Z)) (current : list bool) (img : list Color) :
  NoDup ps ->
  (forall p, p ∈ ps -> 0 <= p.1 < width /\ 0 <= p.2 < height) ->
  (forall p, p ∈ ps -> Vec.get false current (p.2 * width + p.1)
                       = Vec.get false bigMask (p.2 * width + p.1)) ->
  (foldl (fun (acc : list bool * list Color) (p : Z * Z) =>
            let '(bigMask, img) := acc in
            if Vec.get false bigMask (p.2 * width + p.1)
            then (Vec.set bigMask (p.2 * width + p.1) false,
                  if paintIt then Vec.set img (p.2 * width + p.1) black else img)
            else (bigMask, img))
         (current, img) ps).2
  = foldl (fun img p =>
             if paintIt && Vec.get false bigMask (p.2 * width + p.1)
             then Vec.set img (p.2 * width + p.1) black else img)
      img ps.
Proof.
  revert current img.
  induction ps as [|[cx cy] ps IH]; intros current img Hnd Hin Hsame; [done|].
  cbn [foldl fst snd].
  apply NoDup_cons in Hnd as [Hnew Hnd].
  assert (0 <= cx < width /\ 0 <= cy < height) as [Hcx Hcy]
    by (apply (Hin (cx, cy)); by left).
  pose proof (Hsame (cx, cy) ltac:(by left)) as Hhere. cbn [fst snd] in Hhere.
  rewrite Hhere.
  destruct (Vec.get false bigMask (cy * width + cx)) eqn:Hm.
  - rewrite andb_true_r. apply IH; [done|intros q Hq; apply Hin; by right|].
    intros [qx qy] Hq. cbn [fst snd].
    pose proof (Hsame (qx, qy) ltac:(by right)) as Hq'. cbn [fst snd] in Hq'.
    rewrite <- Hq'.
    assert (0 <= qx < width /\ 0 <= qy < height) as [Hqx Hqy]
      by (apply (Hin (qx, qy)); by right).
    apply (get_set_other width height); [done..|].
    intros [-> ->]. done.
  - rewrite andb_false_r. apply IH; [done|intros q Hq; apply Hin; by right|].
    intros q Hq. apply Hsame. by right.
Qed.

(** The loop that clears the scratch mask and paints the overlay tests
    every position of the box once, so that what it paints is decided by
    the scratch mask it starts from. *)
Lemma clear_and_paint_paints width height paintIt xmin xmax ymin ymax
    (bigMask : list bool) (img : list Color) :
  0 <= xmin -> xmax < width -> 0 <= ymin -> ymax < height ->
  (clear_and_paint width paintIt xmin xmax ymin ymax bigMask img).2
  = foldl (fun img p =>
             if paintIt && Vec.get false bigMask (p.1 * width + p.2)
             then Vec.set img (p.1 * width + p.2) black else img)
      img (box_by_columns xmin xmax ymin ymax).
Proof.
  intros Hx0 Hx1 Hy0 Hy1. unfold clear_and_paint, box_by_columns.
  rewrite (foldl_grid (fun acc cx cy =>
             let '(bigMask, img) := acc in
             if Vec.get false bigMask (cy * width + cx)
             then (Vec.set bigMask (cy * width + cx) false,
                   if paintIt then Vec.set img (cy * width + cx) black else img)
             else (bigMask, img))).
  rewrite foldl_fmap. cbn [fst snd].
  apply (clear_and_paint_fold width height).
  - apply NoDup_grid; apply NoDup_seqZ.
  - intros [cx cy] Hp%elem_of_box. simpl. lia.
  - done.
Qed.

Section BatchOverlay.

Variables (width height : Z) (heatmap : list Q) (config : Config).
Variable (randomColor : nat -> Color).

Hypothesis Hwidth : width <= 1000000000.
Hypothesis Hheight : height <= 1000000000.

Local Abbreviation bpixel := (batch_pixel width height heatmap config randomColor).
Local Abbreviation binv := (batch_inv width height heatmap).
Local Abbreviation oinv := (overlay_inv width height).

Lemma overlay_inv_initial image0 : oinv (initial_batch width height image0).
Proof.
  split; simpl.
  - apply length_replicate.
  - intros x y _ _ (c & Hc & _). by apply elem_of_nil in Hc.
  - intros x y Hx Hy _. unfold Vec.get.
    rewrite lookup_replicate_2; [done|]. by eapply index_lt_length.
Qed.

Lemma overlay_inv_step b x y :
  0 <= x < width -> 0 <= y < height -> binv b -> oinv b -> oinv (bpixel b x y).
Proof.
  intros Hx Hy Ib O.
  pose proof (bi_len_visited _ _ _ _ Ib) as Hlen.
  pose proof (bi_clear _ _ _ _ Ib) as Hclear.
  unfold batch_pixel.
  destruct (Vec.get false (visited (batch_mem b)) (y * width + x)) eqn:Hv; [done|].
  rewrite (fill_resets_agree width height config Hwidth Hheight _ _ x y (batch_mem b))
    by done.
  set (m1 := floodFillIterative _ _ _ _ _ _ _ _ _ _ _).
  destruct (fill_from_seed width height
              (InImage (y * width + x))
              (k config) (use8Way config) (adj config) (euclidif config)
              (randomColor (batch_fills b)) x y (batch_mem b) Hx Hy Hlen Hclear Hv)
    as [R Fok].
  fold m1 in R, Fok.
  destruct (dropped _ _ _ _ _ _).
  { split; cbn [batch_buildingBlocksImage batch_saved]; apply O. }
  rewrite extract_mask_batch_spec.
  pose proof (fo_xrange _ _ _ Fok) as Hxr. pose proof (fo_yrange _ _ _ Fok) as Hyr.
  pose proof (fo_size _ _ _ Fok) as Hsize.
  pose proof (component_mask_count width heatmap 0 (fill_record x y m1)) as Hcount.
  pose proof (region_count width height _ Fok) as Hregion.
  rewrite (component_of_fill_eq width heatmap 0) in Hcount.
  cbn [fill_record fillXmin fillXmax fillYmin fillYmax fillSize region
       ComponentData.mask] in Hxr, Hyr, Hsize, Hcount, Hregion.
  set (xmin := currentComponentXmin m1) in *.
  set (xmax := currentComponentXmax m1) in *.
  set (ymin := currentComponentYmin m1) in *.
  set (ymax := currentComponentYmax m1) in *.
  set (rows := filter _ (grid (seqZ ymin (ymax - ymin + 1)) (seqZ xmin (xmax - xmin + 1))))
    in *.
  set (columns := filter _ (box_by_columns xmin xmax ymin ymax)).
  assert (forall q, q ∈ box_by_columns xmin xmax ymin ymax ->
            ymin <= q.1 <= ymax /\ xmin <= q.2 <= xmax) as Hcols
    by (intros q; apply elem_of_columns).
  assert (forall p, p ∈ columns <-> p ∈ rows) as Hsame.
  { intros p. unfold rows, columns. rewrite !list_elem_of_filter.
    by rewrite elem_of_columns, elem_of_rows. }
  rewrite (foldl_set_same_elements _ _ columns rows _ Hsame).
  set (mask := foldl _ (replicate _ false) rows) in *.
  set (avg := unguarded_average _ _).
  set (paintIt := at_least avg _ && _).
  pose proof (clear_and_paint_paints width height paintIt xmin xmax ymin ymax
                (bigMask m1) (batch_buildingBlocksImage b)) as Hcp.
  destruct (clear_and_paint _ _ _ _ _ _ _ _) as [cleared painted].
  cbn [snd] in Hcp. rewrite Hcp by lia. clear Hcp.
  set (saved := mkSavedComponent _ _ _ _ _ _ _ _).
  assert (small_building_block width height saved <-> paintIt = true) as Hsmall.
  { unfold small_building_block, paintIt. cbn [saved saved_in_building_blocks saved_mask].
    rewrite Hcount, <- Hregion, <- Hsize, andb_true_iff, Z.ltb_lt. tauto. }
  assert (forall x' y', saved_pixel saved x' y'
            <-> (y', x') ∈ box_by_columns xmin xmax ymin ymax
                /\ Vec.get false (bigMask m1) (y' * width + x') = true) as Hpix.
  { intros x' y'. unfold saved_pixel.
    cbn [saved saved_x saved_y saved_width saved_height saved_mask].
    rewrite elem_of_columns. cbn [fst snd]. split.
    - intros (Hbx & Hby & Hm). split; [lia|].
      rewrite <- Hm. symmetry.
      apply (extracted_mask_lookup width (bigMask m1) xmin xmax ymin ymax (y', x')).
      apply elem_of_rows. simpl. lia.
    - intros (Hbox & Hm). split; [lia|]. split; [lia|].
      rewrite <- Hm.
      apply (extracted_mask_lookup width (bigMask m1) xmin xmax ymin ymax (y', x')).
      apply elem_of_rows. simpl. lia. }
  assert (forall x' y', 0 <= x' < width -> 0 <= y' < height ->
    let sel := fun p : Z * Z => paintIt && Vec.get false (bigMask m1) (p.1 * width + p.2) in
    ((y', x') ∈ box_by_columns xmin xmax ymin ymax /\ sel (y', x') = true)
    <-> small_building_block width height saved /\ saved_pixel saved x' y') as Hsel.
  { intros x' y' Hx' Hy' sel. unfold sel. cbn [fst snd].
    rewrite Hsmall, Hpix, andb_true_iff. tauto. }
  split; cbn [batch_buildingBlocksImage batch_saved].
  - apply (painted_pixel width height
             (fun p => paintIt && Vec.get false (bigMask m1) (p.1 * width + p.2))
             _ _ x y); [|done..|apply O].
    intros p Hq%Hcols. lia.
  - intros x' y' Hx' Hy' (c & Hc & Hsb & Hp).
    destruct (painted_pixel width height
                (fun p => paintIt && Vec.get false (bigMask m1) (p.1 * width + p.2))
                (box_by_columns xmin xmax ymin ymax) (batch_buildingBlocksImage b) x' y')
      as (_ & Hb & _); [|done..|apply O|].
    { intros p Hq%Hcols. lia. }
    apply Hb. apply elem_of_app in Hc as [Hc|Hc].
    + right. apply (ov_black _ _ _ O); [done..|]. eauto.
    + apply list_elem_of_singleton in Hc. subst c. left. by apply Hsel.
  - intros x' y' Hx' Hy' Hnone.
    destruct (painted_pixel width height
                (fun p => paintIt && Vec.get false (bigMask m1) (p.1 * width + p.2))
                (box_by_columns xmin xmax ymin ymax) (batch_buildingBlocksImage b) x' y')
      as (_ & _ & Hw); [|done..|apply O|].
    { intros p Hq%Hcols. lia. }
    rewrite Hw.
    + apply (ov_white _ _ _ O); [done..|].
      intros (c & Hc & Hrest). apply Hnone. exists c. split; [|done].
      apply elem_of_app. by left.
    + intros Hs. apply Hsel in Hs as [Hsb Hp]; [|done..]. apply Hnone.
      exists saved. split; [|done]. apply elem_of_app. right. by left.
Qed.

Lemma overlay_inv_foldl (ps : list (Z * Z)) b :
  (forall p, p ∈ ps -> p ∈ raster width height) ->
  binv b -> oinv b -> oinv (foldl (fun b p => bpixel b p.2 p.1) b ps).
Proof.
  revert b. induction ps as [|p ps IH]; intros b Hps Ib O; simpl; [done|].
  assert (p ∈ raster width height) as Hp by (apply Hps; by left).
  apply elem_of_raster in Hp as [Hy Hx].
  apply IH.
  - intros q Hq. apply Hps. by right.
  - by apply batch_inv_step.
  - by apply overlay_inv_step.
Qed.

End BatchOverlay.

(** X12. On an image of at most [1000000000] columns and rows, a pixel of
    the overlay image of the batch routine [processImages] is black if it
    lies in the mask of a component that is saved under [building_blocks]
    and whose mask marks fewer than a quarter of the pixels of the image,
    and white otherwise: a component saved under [building_blocks] that
    is larger is not painted. *)
Theorem batch_overlay_marks_small_building_blocks
    (width height : Z) (heatmap : list Q) (config : Config)
    (randomColor : nat -> Color) (image0 : list Color) (x y : Z) :
  width <= 1000000000 -> height <= 1000000000 ->
  0 <= x < width -> 0 <= y < height ->
  ((exists c,
      c ∈ batch_saved (batch_scan width height heatmap config randomColor
                         (initial_batch width height image0))
      /\ small_building_block width height c /\ saved_pixel c x y) ->
   Vec.get white
     (batch_buildingBlocksImage
        (batch_scan width height heatmap config randomColor
           (initial_batch width height image0))) (y * width + x) = black)
  /\ (~ (exists c,
           c ∈ batch_saved (batch_scan width height heatmap config randomColor
                              (initial_batch width height image0))
           /\ small_building_block width height c /\ saved_pixel c x y) ->
      Vec.get white
        (batch_buildingBlocksImage
           (batch_scan width height heatmap config randomColor
              (initial_batch width height image0))) (y * width + x) = white).
Proof.
  intros Hw Hh Hx Hy.
  assert (overlay_inv width height
            (batch_scan width height heatmap config randomColor
               (initial_batch width height image0))) as O.
  { rewrite batch_scan_flat. apply overlay_inv_foldl; [done..| |].
    - apply batch_inv_initial.
    - apply overlay_inv_initial. }
  split.
  - by apply (ov_black _ _ _ O).
  - by apply (ov_white _ _ _ O).
Qed.

(** ** The files of [processImages] *)

Lemma text_eqb_eq (s1 s2 : list ascii) : text_eqb s1 s2 = true <-> s1 = s2.
Proof.
  revert s2. induction s1 as [|c1 s1 IH]; intros [|c2 s2]; simpl; try done.
  rewrite andb_true_iff, Ascii.eqb_eq, IH. split; [by intros [-> ->]|by intros [= -> ->]].
Qed.

Lemma is_heatmap_path_suffix (stem : list ascii) :
  is_heatmap_path (stem ++ hmp_suffix) = true.
Proof.
  unfold is_heatmap_path. rewrite length_app.
  change (length hmp_suffix) with 4%nat.
  apply andb_true_iff. split; [apply Z.leb_le; lia|].
  apply text_eqb_eq.
  replace (length stem + 4 - 4)%nat with (length stem) by lia.
  by rewrite drop_app_length.
Qed.

Lemma numbered_images_acc (files : list (list ascii)) (i : Z)
    (images : list (list ascii * Z)) :
  foldl (fun (acc : Z * list (list ascii * Z)) filePath =>
           let '(i, images) := acc in
           if is_heatmap_path filePath then (i, images)
           else (i + 1, images ++ [(filePath, i + 1 + 1)]))
        (i, images) files
  = (i + Z.of_nat (length (filter (fun f => is_heatmap_path f = false) files)),
     images
     ++ zip (filter (fun f => is_heatmap_path f = false) files)
            (seqZ (i + 2)
               (Z.of_nat (length (filter (fun f => is_heatmap_path f = false) files))))).
Proof.
  revert i images. induction files as [|f files IH]; intros i images; cbn [foldl].
  - simpl. by rewrite Z.add_0_r, app_nil_r.
  - destruct (is_heatmap_path f) eqn:E.
    + rewrite filter_cons_False by congruence. apply IH.
    + rewrite filter_cons_True by done. rewrite IH. cbn [length].
      f_equal; [lia|].
      rewrite Nat2Z.inj_succ, <- Z.add_1_l, seqZ_app by lia.
      change (seqZ (i + 2) 1) with [0 + (i + 2)]. cbn [app zip zip_with].
      rewrite <- (assoc_L app). cbn [app].
      replace (i + 1 + 2) with (i + 2 + 1) by lia.
      replace (0 + (i + 2)) with (i + 1 + 1) by lia. done.
Qed.

(** X13. The heatmap path that [processImages] derives from a file path of
    fewer than [2 ^ 64] characters ends in [.hmp], so that the filter of
    the loop rejects it as an image; it replaces the last four characters
    of a path of at least four characters and is the whole path followed
    by [.hmp] for a shorter one.  The files that the loop takes for images
    are the files that do not end in [.hmp], in directory order, and they
    are numbered 1, 2, 3, ... whether or not they can be loaded. *)
Theorem heatmap_paths_and_numbering (filePath : list ascii) :
  Z.of_nat (length filePath) < 2 ^ 64 ->
  is_heatmap_path (heatmapPath filePath) = true
  /\ (forall stem ext, filePath = stem ++ ext -> length ext = 4%nat ->
        heatmapPath filePath = stem ++ hmp_suffix)
  /\ ((length filePath < 4)%nat -> heatmapPath filePath = filePath ++ hmp_suffix)
  /\ (forall files,
        numbered_images files
        = zip (filter (fun f => is_heatmap_path f = false) files)
              (seqZ 1 (Z.of_nat (length (filter (fun f => is_heatmap_path f = false)
                                           files))))).
Proof.
  intros Hsize. split; [apply is_heatmap_path_suffix|]. split; [|split].
  - intros stem ext -> Hext. unfold heatmapPath. f_equal.
    rewrite length_app, Hext in *.
    rewrite Z.mod_small by lia.
    replace (Z.to_nat (Z.of_nat (length stem + 4) - 4)) with (length stem) by lia.
    by rewrite take_app_length.
  - intros Hshort. unfold heatmapPath. f_equal.
    apply take_ge.
    assert ((Z.of_nat (length filePath) - 4) mod 2 ^ 64
            = Z.of_nat (length filePath) - 4 + 2 ^ 64) as ->; [|lia].
    symmetry. apply Z.mod_unique with (-1); lia.
  - intros files. unfold numbered_images. rewrite numbered_images_acc. done.
Qed.

(** ** An image of one colour *)

Section UniformFill.

Variables (width height : Z).
Variables (startColor : ColorRef) (c : Color) (k : Q) (use8Way euclidif : bool).
Variable (newColor : Color).

Hypothesis Hk : Qle_bool 0 k = true.

Local Abbreviation step := (fill_step width height startColor k use8Way true euclidif newColor).
Local Abbreviation loop := (fill_loop width height startColor k use8Way true euclidif newColor).
(** Every entry of the stack carries the colour [c], which is also the
    colour of every pixel outside the Visited Set; every pixel in the
    Visited Set has been recoloured, and its neighbours are visited or on
    the stack. *)
Local Abbreviation uniform := (fun st : FillState =>
  length (visited st) = Z.to_nat (width * height)
  /\ length (image st) = Z.to_nat (width * height)
  /\ (forall x y col, (x, y, col) ∈ stack st -> col = c)
  /\ (forall x y, 0 <= x < width -> 0 <= y < height ->
        Vec.get false (visited st) (y * width + x) = false ->
        Vec.get black (image st) (y * width + x) = c)
  /\ (forall x y, 0 <= x < width -> 0 <= y < height ->
        Vec.get false (visited st) (y * width + x) = true ->
        Vec.get black (image st) (y * width + x) = newColor
        /\ forall x' y', adjacent use8Way x y x' y' ->
             0 <= x' < width -> 0 <= y' < height ->
             Vec.get false (visited st) (y' * width + x') = true
             \/ exists col, (x', y', col) ∈ stack st)).

(** Where all colours met are the same, every pixel that is popped
    passes the comparison with its neighbour. *)
Lemma uniform_step st st' : uniform st -> step st = Some st' -> uniform st'.
Proof.
  intros (Hlen & Hli & Hstack & Himg & Hdone). unfold fill_step.
  destruct (stack st) as [|[[x y] col] rest] eqn:Hs; [discriminate|].
  assert (col = c) as -> by (apply (Hstack x y); by left).
  assert (forall x' y' col', (x', y', col') ∈ rest -> col' = c) as Hrest
    by (intros x' y' col' Hin; apply (Hstack x' y'); by right).
  assert (forall x' y' col', (x', y', col') ∈ (x, y, c) :: rest ->
            (x' = x /\ y' = y) \/ (x', y', col') ∈ rest) as Hpop.
  { intros x' y' col' Hin. apply elem_of_cons in Hin as [[= -> -> ->]|Hin]; auto. }
  destruct (negb (in_bounds width height x y)
            || Vec.get false (visited st) (y * width + x)) eqn:Hskip.
  { intros [= <-]. cbn [visited image stack].
    split; [done|]. split; [done|]. split; [done|]. split; [done|].
    intros x1 y1 Hx1 Hy1 Hv1. destruct (Hdone x1 y1 Hx1 Hy1 Hv1) as [Hc Hn].
    split; [done|]. intros x' y' Ha Hx' Hy'.
    destruct (Hn x' y' Ha Hx' Hy') as [Hv|[col Hin]]; [by left|].
    destruct (Hpop _ _ _ Hin) as [[-> ->]|Hin']; [|right; eauto].
    left. apply orb_true_iff in Hskip as [Hb|Hv]; [|done].
    apply negb_true_iff in Hb.
    assert (in_bounds width height x y = true) by (apply in_bounds_spec; lia).
    congruence. }
  apply orb_false_iff in Hskip as [Hb Hv].
  apply negb_false_iff, in_bounds_spec in Hb. destruct Hb as [Hx Hy].
  rewrite (Himg x y Hx Hy Hv), colorDifference_le_self, Hk.
  intros [= <-]. cbn [visited image stack].
  split; [by rewrite length_set|]. split; [by rewrite length_set|]. split; [|split].
  - intros x' y' col' [Hp|Hr]%elem_of_app; [|by eapply Hrest].
    by apply pushes_adjacent in Hp as [_ ->].
  - intros x' y' Hx' Hy' Hf.
    assert (~ (x' = x /\ y' = y)) as Hne.
    { intros [-> ->]. rewrite (get_set_pixel width height) in Hf by done. done. }
    rewrite (get_set_other width height) in Hf by done.
    rewrite (get_set_other width height) by done. by apply Himg.
  - intros x1 y1 Hx1 Hy1 Hv1.
    destruct (decide (x1 = x /\ y1 = y)) as [[-> ->]|Hne].
    + split; [by apply (get_set_pixel width height)|].
      intros x' y' Ha Hx' Hy'. right. exists c.
      apply elem_of_app. left. by apply pushes_adjacent.
    + rewrite (get_set_other width height) in Hv1 by done.
      rewrite (get_set_other width height) by done.
      destruct (Hdone x1 y1 Hx1 Hy1 Hv1) as [Hc Hn]. split; [done|].
      intros x' y' Ha Hx' Hy'.
      destruct (Hn x' y' Ha Hx' Hy') as [Hv'|[col Hin]].
      * left. by apply get_set_true_keeps.
      * destruct (Hpop _ _ _ Hin) as [[-> ->]|Hin'].
        -- left. by apply (get_set_pixel width height).
        -- right. exists col. apply elem_of_app. by right.
Qed.

Lemma uniform_loop fuel st : uniform st -> uniform (loop fuel st).
Proof.
  revert st. induction fuel as [|fuel IH]; intros st U; cbn [fill_loop]; [done|].
  destruct (step st) as [st'|] eqn:Hs; [|done].
  apply IH. by eapply uniform_step.
Qed.

(** A set of pixels that holds the first pixel and is closed under
    adjacency holds every pixel of the image. *)
Lemma grid_connected (P : Z -> Z -> Prop) x y :
  0 < width -> 0 < height ->
  P 0 0 ->
  (forall x y x' y', 0 <= x < width -> 0 <= y < height -> P x y ->
     adjacent use8Way x y x' y' -> 0 <= x' < width -> 0 <= y' < height -> P x' y') ->
  0 <= x < width -> 0 <= y < height -> P x y.
Proof.
  intros Hw Hh Hseed Hclosed Hx Hy.
  assert (forall n, 0 <= n -> n < width -> P n 0) as Hrow.
  { apply (natlike_ind (fun n => n < width -> _)).
    - done.
    - intros n Hn IH Hlt. apply (Hclosed n 0); [lia|lia|apply IH; lia| |lia|lia].
      unfold adjacent. destruct use8Way; lia. }
  assert (forall n, 0 <= n -> n < height -> P x n) as Hcol.
  { apply (natlike_ind (fun n => n < height -> _)).
    - intros _. apply Hrow; lia.
    - intros n Hn IH Hlt. apply (Hclosed x n); [lia|lia|apply IH; lia| |lia|lia].
      unfold adjacent. destruct use8Way; lia. }
  apply Hcol; lia.
Qed.

End UniformFill.

Lemma all_pixels_replicate {A} (width height : Z) (d v : A) (l : list A) :
  0 <= width -> 0 <= height ->
  length l = Z.to_nat (width * height) ->
  (forall x y, 0 <= x < width -> 0 <= y < height -> Vec.get d l (y * width + x) = v) ->
  l = replicate (Z.to_nat (width * height)) v.
Proof.
  intros Hw Hh Hlen Hall. apply list_eq. intros i.
  destruct (decide (i < Z.to_nat (width * height))%nat) as [Hi|Hi].
  - rewrite lookup_replicate_2 by done.
    destruct (index_decompose width height i Hi Hw Hh) as (x & y & Hx & Hy & <-).
    specialize (Hall x y Hx Hy). unfold Vec.get in Hall.
    destruct (lookup_lt_is_Some_2 l (Z.to_nat (y * width + x))) as [a Ha]; [lia|].
    rewrite Ha in Hall. simpl in Hall. by subst.
  - rewrite !lookup_ge_None_2; [done|rewrite length_replicate; lia|lia].
Qed.

Section UniformScan.

Variables (width height : Z) (heatmap : list Q) (config : Config).
Variable (randomColor : nat -> Color).
Variable (c : Color).

Hypothesis Hwidth : 0 < width.
Hypothesis Hheight : 0 < height.
Hypothesis Hk : (0 <= k config)%Q.
Hypothesis Hadj : adj config = true.

Local Abbreviation pixels := (Z.to_nat (width * height)).
Local Abbreviation image0 := (replicate pixels c).
Local Abbreviation pixel := (scan_pixel width height heatmap config randomColor).
Local Abbreviation reset :=
  (mkFillState image0 (replicate pixels false) (replicate pixels false) []
     width 0 height 0 0).
Local Abbreviation first_fill :=
  (floodFillIterative width height (InImage (0 * width + 0)) (k config)
     (use8Way config) (adj config) (euclidif config) (randomColor 0) 0 0 reset).

Lemma uniform_first_fill :
  visited first_fill = replicate pixels true
  /\ image first_fill = replicate pixels (randomColor 0).
Proof.
  assert (0 < pixels)%nat as Hpos by nia.
  assert (Qle_bool 0 (k config) = true) as Hk' by (by apply Qle_bool_iff).
  assert (stack first_fill = []) as Hempty.
  { apply fill_loop_empties; [apply length_replicate|done]. }
  assert (visited first_fill !! Z.to_nat (0 * width + 0) = Some true) as Hseed.
  { apply fill_marks_seed; [lia|lia|apply length_replicate]. }
  pose proof (uniform_loop width height (InImage (0 * width + 0)) c (k config)
                (use8Way config) (euclidif config) (randomColor 0) Hk') as Hloop.
  unfold floodFillIterative in Hempty, Hseed |- *. rewrite Hadj in Hempty, Hseed |- *.
  cbn [visited image bigMask stack deref currentComponentXmin currentComponentXmax
       currentComponentYmin currentComponentYmax currentComponentSize]
    in Hempty, Hseed |- *.
  match goal with
  | |- visited (fill_loop _ _ _ _ _ _ _ _ ?fuel ?st0) = _ /\ _ =>
      specialize (Hloop fuel st0); set (final := fill_loop _ _ _ _ _ _ _ _ fuel st0) in *
  end.
  destruct Hloop as (Hlv & Hli & _ & _ & Hdone).
  { cbn [visited image stack].
    split; [apply length_replicate|]. split; [apply length_replicate|]. split; [|split].
    - intros x y col Hin. apply list_elem_of_singleton in Hin.
      injection Hin as -> -> ->. unfold Vec.get. by rewrite lookup_replicate_2 by lia.
    - intros x y Hx Hy _. unfold Vec.get. rewrite lookup_replicate_2; [done|].
      by eapply index_lt_length.
    - intros x y Hx Hy Hv. unfold Vec.get in Hv. rewrite lookup_replicate_2 in Hv; [done|].
      by eapply index_lt_length. }
  assert (forall x y, 0 <= x < width -> 0 <= y < height ->
            Vec.get false (visited final) (y * width + x) = true) as Hall.
  { intros x y Hx Hy.
    apply (grid_connected width height (use8Way config)
             (fun x y => Vec.get false (visited final) (y * width + x) = true));
      [done|done|by apply get_true_lookup| |done|done].
    intros x0 y0 x1 y1 Hx0 Hy0 Hv0 Ha Hx1 Hy1.
    destruct (Hdone x0 y0 Hx0 Hy0 Hv0) as [_ Hn].
    destruct (Hn x1 y1 Ha Hx1 Hy1) as [Hv|[col Hin]]; [done|].
    rewrite Hempty in Hin. by apply elem_of_nil in Hin. }
  split.
  - by apply (all_pixels_replicate width height false); [lia|lia|done|].
  - apply (all_pixels_replicate width height black); [lia|lia|done|].
    intros x y Hx Hy. by destruct (Hdone x y Hx Hy (Hall x y Hx Hy)).
Qed.

Lemma scan_rest_visited (ps : list (Z * Z)) s :
  (forall p, p ∈ ps -> Vec.get false (visited (mem s)) (p.1 * width + p.2) = true) ->
  foldl (fun s p => pixel s p.2 p.1) s ps = s.
Proof.
  induction ps as [|p ps IH]; intros Hall; cbn [foldl]; [done|].
  rewrite scan_pixel_visited by (apply Hall; by left).
  apply IH. intros q Hq. apply Hall. by right.
Qed.

Lemma raster_first :
  exists rest, raster width height = (0, 0) :: rest
               /\ forall p, p ∈ rest -> p ∈ raster width height.
Proof.
  unfold raster, grid.
  rewrite (seqZ_cons 0 height), (seqZ_cons 0 width) by lia. csimpl.
  eexists. split; [reflexivity|]. intros p Hp. by right.
Qed.

Lemma uniform_scan :
  extractComponents width height heatmap config randomColor image0
  = pixel (initial_scan width height image0) 0 0
  /\ visited (mem (pixel (initial_scan width height image0) 0 0))
     = replicate pixels true
  /\ image (mem (pixel (initial_scan width height image0) 0 0))
     = replicate pixels (randomColor 0)
  /\ fills (pixel (initial_scan width height image0) 0 0)
     = [fill_record 0 0 first_fill].
Proof.
  assert (0 < pixels)%nat as Hpos by nia.
  assert (pixel (initial_scan width height image0) 0 0
          = mkScanState
              (set_bigMask first_fill
                 (clear_box width (currentComponentXmin first_fill)
                    (currentComponentXmax first_fill) (currentComponentYmin first_fill)
                    (currentComponentYmax first_fill) (bigMask first_fill)))
              (if decide (discard_rule config (fill_record 0 0 first_fill)) then []
               else [component_of_fill width heatmap (0 + 1) (fill_record 0 0 first_fill)])
              (0 + (if decide (discard_rule config (fill_record 0 0 first_fill))
                    then 0 else 1))
              [fill_record 0 0 first_fill]) as Hfirst.
  { rewrite scan_pixel_unvisited.
    - by cbn [mem initial_scan image visited bigMask fills components componentCount
              length app].
    - cbn [mem initial_scan visited]. unfold Vec.get.
      by rewrite lookup_replicate_2 by lia. }
  destruct uniform_first_fill as [Hvis Himg].
  assert (visited (mem (pixel (initial_scan width height image0) 0 0))
          = replicate pixels true) as Hv1 by (by rewrite Hfirst).
  split; [|split; [done|split; by rewrite Hfirst]].
  unfold extractComponents. rewrite scan_flat.
  destruct raster_first as (rest & E & Hrest). rewrite E. cbn [foldl fst snd].
  apply scan_rest_visited. intros p Hp. rewrite Hv1.
  apply Hrest, elem_of_raster in Hp as [Hy Hx].
  unfold Vec.get. rewrite lookup_replicate_2; [done|]. by eapply index_lt_length.
Qed.

End UniformScan.

(** X14. On an image of one colour, with [k] not negative and the
    comparison with the neighbour ([adj] set), the scan of [processImage]
    runs a single flood fill: it is seeded at the first pixel, visits and
    recolours the whole image, and its box is the image.  One component is
    recorded, with number 1, when the image has at least
    [minComponentSize] pixels, and none otherwise.  (Without [adj] the
    pixels after the seed are compared with the fill colour, and the
    image can fall apart.) *)
Theorem uniform_image_is_one_component
    (width height : Z) (heatmap : list Q) (config : Config)
    (randomColor : nat -> Color) (c : Color) :
  0 < width -> 0 < height -> (0 <= k config)%Q -> adj config = true ->
  image (mem (extractComponents width height heatmap config randomColor
                (replicate (Z.to_nat (width * height)) c)))
  = replicate (Z.to_nat (width * height)) (randomColor 0%nat)
  /\ (exists f,
        fills (extractComponents width height heatmap config randomColor
                 (replicate (Z.to_nat (width * height)) c)) = [f]
        /\ (seedX f, seedY f) = (0, 0)
        /\ fillSize f = width * height
        /\ (fillXmin f, fillXmax f, fillYmin f, fillYmax f)
           = (0, width - 1, 0, height - 1))
  /\ (width * height < minComponentSize config ->
      components (extractComponents width height heatmap config randomColor
                    (replicate (Z.to_nat (width * height)) c)) = [])
  /\ (minComponentSize config <= width * height ->
      exists comp,
        components (extractComponents width height heatmap config randomColor
                      (replicate (Z.to_nat (width * height)) c)) = [comp]
        /\ ComponentData.id comp = 1
        /\ ComponentData.size comp = width * height
        /\ (ComponentData.xMin comp, ComponentData.xMax comp,
            ComponentData.yMin comp, ComponentData.yMax comp)
           = (0, width - 1, 0, height - 1)).
Proof.
  intros Hw Hh Hk Hadj.
  pose proof (scan_inv_final width height heatmap config randomColor
                (replicate (Z.to_nat (width * height)) c)) as I.
  destruct (uniform_scan width height heatmap config randomColor c Hw Hh Hk Hadj)
    as (Hscan & Hvis & Himg & Hfills).
  rewrite Hscan in *.
  set (s := scan_pixel _ _ _ _ _ _ 0 0) in *.
  set (f := fill_record 0 0 _) in *.
  assert (fill_ok width height f) as Fok.
  { pose proof (si_fills _ _ _ _ _ I) as Hall. rewrite Hfills in Hall.
    by apply Forall_inv in Hall. }
  assert (fillSize f = width * height) as Hsize.
  { pose proof (si_sizes _ _ _ _ _ I) as Hs. rewrite Hfills, Hvis in Hs.
    rewrite count_true_all in Hs.
    - rewrite length_replicate in Hs. unfold sum_sizes in Hs. cbn [foldr] in Hs. nia.
    - intros i Hi. rewrite length_replicate in Hi. by apply lookup_replicate_2. }
  assert (forall x y, 0 <= x < width -> 0 <= y < height ->
            marked_in width height (region f) x y) as Hmarked.
  { intros x y Hx Hy. split; [done|]. split; [done|].
    assert (visited (mem s) !! Z.to_nat (y * width + x) = Some true) as Hv.
    { rewrite Hvis. apply lookup_replicate_2. by eapply index_lt_length. }
    apply (si_cover _ _ _ _ _ I) in Hv as (j & g & Hj & Hg).
    rewrite Hfills in Hj. apply list_lookup_singleton_Some in Hj as [_ <-]. done. }
  assert (fillXmin f = 0 /\ fillXmax f = width - 1
          /\ fillYmin f = 0 /\ fillYmax f = height - 1) as (Hx0 & Hx1 & Hy0 & Hy1).
  { destruct (fo_tight _ _ _ Fok) as [Hin _].
    destruct (Hin 0 0 (Hmarked 0 0 ltac:(lia) ltac:(lia))).
    destruct (Hin (width - 1) (height - 1)
                (Hmarked (width - 1) (height - 1) ltac:(lia) ltac:(lia))).
    pose proof (fo_xrange _ _ _ Fok). pose proof (fo_yrange _ _ _ Fok). lia. }
  assert (discard_rule config f <-> width * height < minComponentSize config) as Hrule.
  { unfold discard_rule. rewrite Hsize, Hx0, Hx1, Hy0, Hy1.
    replace ((width - 1 - 0 + 1) * (height - 1 - 0 + 1)) with (width * height) by lia.
    assert (0 < width * height) by nia.
    assert (width * height ÷ 3 <= width * height)
      by (apply Z.quot_le_upper_bound; lia).
    lia. }
  pose proof (si_components _ _ _ _ _ I) as Hcomps. rewrite Hfills in Hcomps.
  split; [done|]. split; [|split].
  - exists f. by rewrite Hsize, Hx0, Hx1, Hy0, Hy1.
  - intros Hsmall. rewrite Hcomps, filter_cons_False, filter_nil; [done|].
    intros Hn. apply Hn. by apply Hrule.
  - intros Hbig. rewrite filter_cons_True, filter_nil in Hcomps by (rewrite Hrule; lia).
    cbn [imap] in Hcomps. eexists. split; [exact Hcomps|].
    rewrite (component_of_fill_eq width heatmap). cbn [ComponentData.id
      ComponentData.size ComponentData.xMin ComponentData.xMax ComponentData.yMin
      ComponentData.yMax]. by rewrite Hsize, Hx0, Hx1, Hy0, Hy1.
Qed.

(** ** The recorded components *)

Section RecordedComponents.

Variables (width height : Z) (heatmap : list Q) (config : Config).
Variable (randomColor : nat -> Color) (image0 : list Color).

Local Abbreviation final :=
  (extractComponents width height heatmap config randomColor image0).

Lemma NoDup_fills : NoDup (fills final).
Proof.
  pose proof (scan_inv_final width height heatmap config randomColor image0) as I.
  apply NoDup_alt. intros j1 j2 f H1 H2.
  pose proof (si_fills _ _ _ _ _ I) as Hall. rewrite Forall_forall in Hall.
  assert (fill_ok width height f) as Fok
    by (apply Hall, list_elem_of_lookup; eauto).
  destruct (fo_seed _ _ _ Fok) as (_ & _ & Hseed).
  by apply (si_disjoint _ _ _ _ _ I j1 j2 f f _ H1 H2 Hseed Hseed).
Qed.

Lemma recorded_component (i : nat) comp :
  components final !! i = Some comp ->
  exists f, filter (fun f => ~ discard_rule config f) (fills final) !! i = Some f
            /\ f ∈ fills final /\ fill_ok width height f
            /\ comp = component_of_fill width heatmap (Z.of_nat i + 1) f.
Proof.
  pose proof (scan_inv_final width height heatmap config randomColor image0) as I.
  rewrite (si_components _ _ _ _ _ I), list_lookup_imap.
  destruct (filter _ _ !! i) as [f|] eqn:Hf; [|done].
  intros [= <-]. exists f. split; [done|].
  assert (f ∈ fills final) as Hin.
  { assert (f ∈ filter (fun f => ~ discard_rule config f) (fills final)) as Hin
      by (apply list_elem_of_lookup; eauto).
    by apply list_elem_of_filter in Hin as [_ ?]. }
  split; [done|]. split; [|done].
  pose proof (si_fills _ _ _ _ _ I) as Hall. rewrite Forall_forall in Hall.
  by apply Hall.
Qed.

Lemma recorded_mask_pixel id f x y :
  fill_ok width height f ->
  mask_pixel (component_of_fill width heatmap id f) x y ->
  0 <= x < width /\ 0 <= y < height
  /\ region f !! Z.to_nat (y * width + x) = Some true.
Proof.
  intros Fok. unfold mask_pixel. rewrite (component_of_fill_eq width heatmap id f).
  cbn [ComponentData.xMin ComponentData.xMax ComponentData.yMin ComponentData.yMax
       ComponentData.mask].
  intros (Hx & Hy & Hm).
  pose proof (fo_xrange _ _ _ Fok). pose proof (fo_yrange _ _ _ Fok).
  split; [lia|]. split; [lia|].
  apply get_true_lookup. rewrite <- Hm. symmetry.
  apply (extracted_mask_lookup width (region f) _ _ _ _ (y, x)).
  apply elem_of_rows. simpl. lia.
Qed.

End RecordedComponents.

(** X15. The masks of the components that [processImage] records do not
    overlap: a pixel of the image lies in the mask of at most one of them.
    The recorded components carry the numbers 1, 2, 3, ... in the order in
    which they are recorded. *)
Theorem components_do_not_overlap
    (width height : Z) (heatmap : list Q) (config : Config)
    (randomColor : nat -> Color) (image0 : list Color) :
  (forall (i1 i2 : nat) comp1 comp2 x y,
     components (extractComponents width height heatmap config randomColor image0) !! i1
     = Some comp1 ->
     components (extractComponents width height heatmap config randomColor image0) !! i2
     = Some comp2 ->
     mask_pixel comp1 x y -> mask_pixel comp2 x y -> i1 = i2)
  /\ ComponentData.id
       <$> components (extractComponents width height heatmap config randomColor image0)
     = seqZ 1 (Z.of_nat (length (components (extractComponents width height heatmap
                                               config randomColor image0)))).
Proof.
  pose proof (scan_inv_final width height heatmap config randomColor image0) as I.
  split.
  - intros i1 i2 comp1 comp2 x y H1 H2 Hm1 Hm2.
    apply recorded_component in H1 as (f1 & Hf1 & Hin1 & Fok1 & ->).
    apply recorded_component in H2 as (f2 & Hf2 & Hin2 & Fok2 & ->).
    apply (recorded_mask_pixel width height heatmap _ f1 x y Fok1) in Hm1
      as (_ & _ & Hr1).
    apply (recorded_mask_pixel width height heatmap _ f2 x y Fok2) in Hm2
      as (_ & _ & Hr2).
    apply list_elem_of_lookup in Hin1 as [j1 Hj1].
    apply list_elem_of_lookup in Hin2 as [j2 Hj2].
    pose proof (si_disjoint _ _ _ _ _ I j1 j2 f1 f2 _ Hj1 Hj2 Hr1 Hr2) as ->.
    assert (f1 = f2) as -> by congruence.
    eapply NoDup_lookup; [|exact Hf1|exact Hf2].
    apply NoDup_filter, NoDup_fills.
  - rewrite (si_components _ _ _ _ _ I), length_imap.
    generalize (filter (fun f => ~ discard_rule config f)
                  (fills (extractComponents width height heatmap config randomColor
                            image0))).
    intros fs. apply list_eq. intros i.
    rewrite list_lookup_fmap, list_lookup_imap.
    destruct (fs !! i) as [f|] eqn:Hf; simpl.
    + rewrite (component_of_fill_eq width heatmap). simpl.
      symmetry. rewrite lookup_seqZ. split; [lia|].
      apply lookup_lt_Some in Hf. lia.
    + symmetry. apply lookup_seqZ_ge. apply lookup_ge_None in Hf. lia.
Qed.

(** ** Instances of the further properties *)

(** X1, witness: the fill of the two-tone image from its first pixel. *)
Lemma flood_fill_fills_component_witness :
  length (visited two_tone_memory) = Z.to_nat (2 * 1)
  /\ length (image two_tone_memory) = Z.to_nat (2 * 1)
  /\ seed_passes 2 1 2 two_tone_memory 0 0
  /\ (grows 2 1 2 false false fill123 two_tone_memory 0 0 0 0 ->
      Vec.get black
        (image (floodFillIterative 2 1 (InImage (0 * 2 + 0)) 2 false false false
                  fill123 0 0 two_tone_memory)) (0 * 2 + 0) = fill123).
Proof.
  split; [reflexivity|]. split; [reflexivity|].
  split; [split; [reflexivity|split; reflexivity]|].
  destruct (flood_fill_fills_component 2 1 2 false false fill123
              two_tone_memory 0 0 0 0) as [H _];
    [reflexivity|reflexivity|split; [reflexivity|split; reflexivity]|lia|lia|].
  exact H.
Defined.

(** X2, witness. *)
Lemma recoloured_pixels_are_chained_witness :
  length (visited two_tone_memory) = Z.to_nat (2 * 1)
  /\ length (image two_tone_memory) = Z.to_nat (2 * 1)
  /\ (Vec.get black
        (image (floodFillIterative 2 1 (InImage (0 * 2 + 0)) 2 false true false
                  fill123 0 0 two_tone_memory)) (0 * 2 + 1)
      = Vec.get black (image two_tone_memory) (0 * 2 + 1)
      \/ (Vec.get black
            (image (floodFillIterative 2 1 (InImage (0 * 2 + 0)) 2 false true false
                      fill123 0 0 two_tone_memory)) (0 * 2 + 1) = fill123
          /\ Vec.get false
               (visited (floodFillIterative 2 1 (InImage (0 * 2 + 0)) 2 false true
                           false fill123 0 0 two_tone_memory)) (0 * 2 + 1) = true
          /\ chained 2 1 2 false true false fill123 two_tone_memory 0 0 1 0)).
Proof.
  split; [reflexivity|]. split; [reflexivity|].
  apply (recoloured_pixels_are_chained 2 1 2 false true false fill123
           two_tone_memory 0 0 1 0); [reflexivity|reflexivity|lia|lia].
Defined.

(** X3, witness: the overlay of the uniform 2x1 image. *)
Lemma overlay_marks_building_blocks_witness :
  decoded uniform_inputs = Some (2, 1, [gray10; gray10])
  /\ processImage uniform_inputs example_config constant_fill = Finished uniform_output
  /\ (~ (exists comp, (comp, true) ∈ out_saved uniform_output /\ mask_pixel comp 1 0) ->
      Vec.get white (out_buildingBlocks uniform_output) (0 * 2 + 1) = white).
Proof.
  split; [reflexivity|]. split; [vm_compute; reflexivity|].
  destruct (overlay_marks_building_blocks uniform_inputs example_config constant_fill
              uniform_output 2 1 [gray10; gray10] 1 0) as [_ H];
    [reflexivity|vm_compute; reflexivity|lia|lia|].
  exact H.
Defined.

(** X4, witness: the heatmap [0, 1]. *)
Lemma probability_threshold_rank_witness :
  [0%Q; 1%Q] <> []
  /\ probabilityThreshold80 [0%Q; 1%Q] ∈ [0%Q; 1%Q].
Proof.
  split; [discriminate|].
  destruct (probability_threshold_rank [0%Q; 1%Q]) as [H _]; [discriminate|].
  exact H.
Defined.

(** X5, witness. *)
Lemma size_threshold_rank_witness :
  two_sizes <> []
  /\ sizeThreshold80 two_sizes ∈ ComponentData.size <$> two_sizes.
Proof.
  split; [discriminate|].
  destruct (size_threshold_rank two_sizes) as [H _]; [discriminate|].
  exact H.
Defined.

(** X7, witness: from 4-way to 8-way connectivity and from [k = 2] to
    [k = 3] on the two-tone image. *)
Lemma fill_region_monotone_witness :
  length (visited two_tone_memory) = Z.to_nat (2 * 1)
  /\ length (image two_tone_memory) = Z.to_nat (2 * 1)
  /\ (2 <= 3)%Q
  /\ (Vec.get false
        (visited (floodFillIterative 2 1 (InImage (0 * 2 + 0)) 2 false false false
                    fill123 0 0 two_tone_memory)) (0 * 2 + 1) = true ->
      Vec.get false
        (visited (floodFillIterative 2 1 (InImage (0 * 2 + 0)) 3 true false false
                    fill123 0 0 two_tone_memory)) (0 * 2 + 1) = true).
Proof.
  split; [reflexivity|]. split; [reflexivity|]. split; [discriminate|].
  destruct (fill_region_monotone 2 1 2 3 false true false false fill123
              two_tone_memory 0 0 1 0) as [_ H];
    [reflexivity|reflexivity|lia|lia|discriminate|done|done|].
  exact H.
Defined.

(** X8, witness: the two-tone image with [k = -1]. *)
Lemma negative_threshold_isolates_pixels_witness :
  (k negative_config < 0)%Q
  /\ image (mem (extractComponents 2 1 [0%Q; 1%Q] negative_config constant_fill
                   [gray10; gray200])) = [gray10; gray200].
Proof.
  split; [reflexivity|].
  destruct (negative_threshold_isolates_pixels 2 1 [0%Q; 1%Q] negative_config
              constant_fill [gray10; gray200]) as [H _]; [reflexivity|].
  exact H.
Defined.


(** X11, witness: the first pixel of the two-tone image. *)
Lemma segmentation_colours_witness :
  length [gray10; gray200] = Z.to_nat (2 * 1)
  /\ exists (j : nat) (f : FillRecord),
       fills (extractComponents 2 1 [0%Q; 1%Q] example_config constant_fill
                [gray10; gray200]) !! j = Some f
       /\ marked_in 2 1 (region f) 0 0
       /\ (Vec.get black
             (image (mem (extractComponents 2 1 [0%Q; 1%Q] example_config constant_fill
                            [gray10; gray200]))) (0 * 2 + 0)
           = Vec.get black [gray10; gray200] (0 * 2 + 0)
           \/ Vec.get black
                (image (mem (extractComponents 2 1 [0%Q; 1%Q] example_config
                               constant_fill [gray10; gray200]))) (0 * 2 + 0)
              = constant_fill j)
       /\ ((0 <= k example_config)%Q ->
           Vec.get black
             (image (mem (extractComponents 2 1 [0%Q; 1%Q] example_config constant_fill
                            [gray10; gray200]))) (seedY f * 2 + seedX f)
           = constant_fill j).
Proof.
  split; [reflexivity|].
  apply (segmentation_colours 2 1 [0%Q; 1%Q] example_config constant_fill
           [gray10; gray200] 0 0); [reflexivity|lia|lia].
Defined.

(** X12, witness: the overlay of the batch routine on the two-tone image. *)
Lemma batch_overlay_marks_small_building_blocks_witness :
  2 <= 1000000000 /\ 1 <= 1000000000
  /\ (~ (exists c,
           c ∈ batch_saved (batch_scan 2 1 [0%Q; 1%Q] example_config constant_fill
                              (initial_batch 2 1 [gray10; gray200]))
           /\ small_building_block 2 1 c /\ saved_pixel c 0 0) ->
      Vec.get white
        (batch_buildingBlocksImage
           (batch_scan 2 1 [0%Q; 1%Q] example_config constant_fill
              (initial_batch 2 1 [gray10; gray200]))) (0 * 2 + 0) = white).
Proof.
  split; [lia|]. split; [lia|].
  destruct (batch_overlay_marks_small_building_blocks 2 1 [0%Q; 1%Q] example_config
              constant_fill [gray10; gray200] 0 0) as [_ H]; [lia|lia|lia|lia|].
  exact H.
Defined.

(** X13, witness: the heatmap path of [a.jpg]. *)
Lemma heatmap_paths_and_numbering_witness :
  Z.of_nat (length example_path) < 2 ^ 64
  /\ is_heatmap_path (heatmapPath example_path) = true.
Proof.
  split; [reflexivity|].
  destruct (heatmap_paths_and_numbering example_path) as [H _]; [reflexivity|].
  exact H.
Defined.

(** X14, witness: the uniform 2x1 image. *)
Lemma uniform_image_is_one_component_witness :
  0 < 2 /\ 0 < 1 /\ (0 <= k neighbour_config)%Q /\ adj neighbour_config = true
  /\ image (mem (extractComponents 2 1 [0%Q; 1%Q] neighbour_config constant_fill
                   (replicate (Z.to_nat (2 * 1)) gray10)))
     = replicate (Z.to_nat (2 * 1)) (constant_fill 0%nat).
Proof.
  split; [lia|]. split; [lia|]. split; [discriminate|]. split; [reflexivity|].
  destruct (uniform_image_is_one_component 2 1 [0%Q; 1%Q] neighbour_config
              constant_fill gray10) as [H _]; [lia|lia|discriminate|reflexivity|].
  exact H.
Defined.

